(** * The cleaning engine of [candidate_solution.py]

    A shallow embedding of [clean_database] and of the helpers it defines
    (the normalizer, the edit distance, the reference-set builder, the
    foreign-key cascade and the four cleaning steps), of [connect_db], of
    the endpoints of [create_fastapi_app] and of the main block, with the
    properties the specification states about the cleaning and further
    properties of the code.

    Text.  A Python [str] is modelled as a list of Stdlib [ascii]
    characters, and the model covers ASCII text: the character classes and
    the case maps are Python's on the code points below 128 ([is_ascii]).
    Above that range Python's [str.capitalize] and [str.lower] map letters
    too and can change the length of a string (U+00DF is capitalized to
    two letters), and [\w] under [re.UNICODE] matches letters and digits
    too; the model leaves those code points alone.  So the properties
    that depend on what the case maps do to a name (the shape of the
    title case, the name the matcher falls back to, the second run) are
    stated for names that are [ascii_only].  [normalize_string] drops
    every character outside [[a-zA-Z0-9]] before it folds the case, and
    SQLite's [LOWER] folds the letters A to Z only, as their models do.

    Storage.  The SQLite connection is modelled as the five tables the
    code reads and writes, with the columns named by [fk_relationships];
    no constraint is declared on them.  Every [cursor.execute] is a step of
    a state-and-exception monad that records the statement and may raise
    the error an oracle assigns to that place of the record.  A run on
    the oracle [no_faults] is a run in which the storage raises nothing;
    [unraised_run_is_calm] shows that every run whose record holds no
    raised error is such a run.

    Layout.  [Text], [Store] and [Engine] follow the source; [TextSpec]
    holds the wording of the specification where it is compared with the
    code; [Logic] the predicates of the statements; [Calm] the steps as
    functions of the world on a storage that raises nothing; [Samples]
    the concrete inputs.  [Api] follows the endpoints, with [Views] for
    the predicates on listings and tables, [Direct] for the creation
    endpoint as a function of the dataset, and [Cases] for its inputs.
    The lemmas follow the definitions; the properties of the
    specification and the further properties of the code close the
    file. *)

From Stdlib Require Import Ascii String.
From Stdlib Require Import List Bool Arith ZArith Lia.
Import ListNotations.

Set Implicit Arguments.

(** ** Text *)

Module Text.

Definition str := list ascii.

Definition code (c : ascii) : nat := nat_of_ascii c.

Definition between (lo hi n : nat) : bool := (lo <=? n) && (n <=? hi).

(** The characters the model covers, and the strings made of them. *)
Definition is_ascii (c : ascii) : bool := code c <? 128.
Definition ascii_only (s : str) : Prop := forallb is_ascii s = true.

Definition is_upper (c : ascii) : bool := between 65 90 (code c).
Definition is_lower (c : ascii) : bool := between 97 122 (code c).
Definition is_digit (c : ascii) : bool := between 48 57 (code c).

(** The class [[a-zA-Z0-9]] of [normalize_string]. *)
Definition is_alnum (c : ascii) : bool := is_upper c || is_lower c || is_digit c.

(** [\w] on ASCII text: alphanumeric or underscore. *)
Definition is_word (c : ascii) : bool := is_alnum c || (code c =? 95).

(** [\s] and the characters [str.strip] removes: TAB LF VT FF CR, the
    separators FS GS RS US, and the space. *)
Definition is_space (c : ascii) : bool :=
  between 9 13 (code c) || between 28 32 (code c).

Definition to_lower (c : ascii) : ascii :=
  if is_upper c then ascii_of_nat (code c + 32) else c.

Definition to_upper (c : ascii) : ascii :=
  if is_lower c then ascii_of_nat (code c - 32) else c.

(** [str.lower] on ASCII text *)
Definition lower (s : str) : str := map to_lower s.

(** [str.capitalize] on ASCII text: the first character in upper case,
    the rest in lower case. *)
Definition capitalize (s : str) : str :=
  match s with
  | [] => []
  | c :: s' => to_upper c :: lower s'
  end.

Definition hyphen : ascii := "-"%char.
Definition space : ascii := " "%char.
Definition newline : ascii := ascii_of_nat 10.

(** [text.replace(old, new)] for single characters. *)
Definition replace (old new : ascii) (s : str) : str :=
  map (fun c => if Ascii.eqb c old then new else c) s.

(** [text.split(sep)] with an explicit one-character separator: empty
    tokens are kept, and the empty string gives one empty token. *)
Fixpoint split (sep : ascii) (s : str) : list str :=
  match s with
  | [] => [[]]
  | c :: s' =>
      if Ascii.eqb c sep then [] :: split sep s'
      else match split sep s' with
           | [] => [[c]]
           | tok :: toks => (c :: tok) :: toks
           end
  end.

(** [sep.join(tokens)] *)
Fixpoint join (sep : str) (toks : list str) : str :=
  match toks with
  | [] => []
  | [tok] => tok
  | tok :: toks' => tok ++ sep ++ join sep toks'
  end.

(** [str.strip()] *)
Fixpoint lstrip (s : str) : str :=
  match s with
  | c :: s' => if is_space c then lstrip s' else s
  | [] => []
  end.

Definition strip (s : str) : str := rev (lstrip (rev (lstrip s))).

Definition str_eqb (a b : str) : bool :=
  if list_eq_dec ascii_dec a b then true else false.

(** [to_title_case] *)
Definition to_title_case (text : str) : str :=
  match text with
  | [] => text
  | _ => join [space] (map capitalize (split space (replace hyphen space text)))
  end.

(** [normalize_string]: [re.sub(r'[^a-zA-Z0-9]', '', s).lower()] *)
Definition normalize_string (s : str) : str :=
  match s with
  | [] => []
  | _ => lower (filter is_alnum s)
  end.

(** ** [levenshtein_distance] *)

Definition min3 (a b c : nat) : nat := Nat.min a (Nat.min b c).

(** [(c1 != c2)] read as an integer *)
Definition neq (c1 c2 : ascii) : nat := if Ascii.eqb c1 c2 then 0 else 1.

(** The inner loop over [enumerate(s2)]: [prev] is [previous_row[j:]] and
    [left] is [current_row[j]]; the result is [current_row[j+1:]]. *)
Fixpoint inner_loop (c1 : ascii) (s2 : str) (prev : list nat) (left : nat)
  : list nat :=
  match s2, prev with
  | c2 :: s2', pj :: ((pj1 :: _) as prev') =>
      let insertions := pj1 + 1 in
      let deletions := left + 1 in
      let substitutions := pj + neq c1 c2 in
      let v := min3 insertions deletions substitutions in
      v :: inner_loop c1 s2' prev' v
  | _, _ => []
  end.

(** The outer loop over [enumerate(s1)], from index [i], with
    [previous_row] as accumulator. *)
Fixpoint outer_loop (s1 s2 : str) (i : nat) (previous_row : list nat)
  : list nat :=
  match s1 with
  | [] => previous_row
  | c1 :: s1' =>
      let current_row := (i + 1) :: inner_loop c1 s2 previous_row (i + 1) in
      outer_loop s1' s2 (i + 1) current_row
  end.

(** The body of the function once [len(s1) >= len(s2)] is established. *)
Definition levenshtein_rows (s1 s2 : str) : nat :=
  if length s2 =? 0 then length s1
  else last (outer_loop s1 s2 0 (seq 0 (length s2 + 1))) 0.

(** The recursive call only swaps the arguments, after which the first
    test fails; it is unfolded here. *)
Definition levenshtein_distance (s1 s2 : str) : nat :=
  if length s1 <? length s2 then levenshtein_rows s2 s1
  else levenshtein_rows s1 s2.

(** The classic distance, by recursion on both strings. *)
Fixpoint lev (s t : str) : nat :=
  match s with
  | [] => length t
  | a :: s' =>
      (fix lev_s (t : str) : nat :=
         match t with
         | [] => length s
         | b :: t' => min3 (lev s' t + 1) (lev_s t' + 1) (lev s' t' + neq a b)
         end) t
  end.

(** ** The junk test *)

(** [re.match] of [^X*$] for a character class [X]: [$] holds at the end of
    the string and just before a newline that ends it. *)
Fixpoint star_dollar (cls : ascii -> bool) (s : str) : bool :=
  match s with
  | [] => true
  | c :: s' =>
      (Ascii.eqb c newline && match s' with [] => true | _ => false end)
      || (cls c && star_dollar cls s')
  end.

(** [junk_pattern_global = re.compile(r'^\W*$|^\s*$', re.UNICODE)], on
    ASCII text *)
Definition junk_pattern_global (s : str) : bool :=
  star_dollar (fun c => negb (is_word c)) s || star_dollar is_space s.

Definition falsy (s : str) : bool := match s with [] => true | _ => false end.

(** [not name or not str(name).strip() or junk_pattern_global.match(str(name))];
    [None] is the SQL NULL. *)
Definition is_junk (current_name_db : option str) : bool :=
  match current_name_db with
  | None => true
  | Some s => falsy s || falsy (strip s) || junk_pattern_global s
  end.

(** ** The reference maps *)

(** A [dict] keeps its keys in insertion order; assigning to a key that is
    present replaces the value where it stands. *)
Definition dict := list (str * str).

Fixpoint dict_get (k : str) (d : dict) : option str :=
  match d with
  | [] => None
  | (k', v) :: d' => if str_eqb k k' then Some v else dict_get k d'
  end.

Fixpoint dict_set (k v : str) (d : dict) : dict :=
  match d with
  | [] => [(k, v)]
  | (k', v') :: d' =>
      if str_eqb k k' then (k', v) :: d' else (k', v') :: dict_set k v d'
  end.

(** [{normalize_string(name): to_title_case(name) for name in names}] *)
Definition build_valid_map (names : list str) : dict :=
  fold_left (fun d name => dict_set (normalize_string name) (to_title_case name) d)
            names [].

(** [{to_title_case(name) for name in names}]; the set is only tested for
    membership. *)
Definition build_valid_set (names : list str) : list str :=
  map to_title_case names.

Definition mem (x : str) (l : list str) : bool := existsb (str_eqb x) l.

(** ** The matcher of step 2 *)

(** [min_distance] starts at [float('inf')], here [None]. *)
Definition lt_inf (d : nat) (m : option nat) : bool :=
  match m with None => true | Some m' => d <? m' end.
Definition eq_inf (d : nat) (m : option nat) : bool :=
  match m with None => false | Some m' => d =? m' end.
Definition gt_inf (m : option nat) (threshold : nat) : bool :=
  match m with None => true | Some m' => threshold <? m' end.

(** The state of the search: [min_distance], [proposed_new_name],
    [confident_match_found]. *)
Definition search := (option nat * str * bool)%type.

(** One turn of the loop over [valid_map.items()]. *)
Definition fuzzy_step (key : str) (st : search) (entry : str * str) : search :=
  let '(min_distance, proposed_new_name, confident) := st in
  let '(valid_normalized_name, valid_title_case_name) := entry in
  let dist := levenshtein_distance key valid_normalized_name in
  if lt_inf dist min_distance then (Some dist, valid_title_case_name, true)
  else if eq_inf dist min_distance
          && (length valid_normalized_name
              <? length (normalize_string proposed_new_name))
       then (min_distance, valid_title_case_name, true)
       else st.

(** The name step 2 proposes for a row that is not junk, with
    [confident_match_found]. *)
Definition propose (valid_map : dict) (threshold : nat) (current_name_db : str)
  : str * bool :=
  let normalized_current_name_db := normalize_string current_name_db in
  match dict_get normalized_current_name_db valid_map with
  | Some v => (v, true)
  | None =>
      let '(min_distance, proposed_new_name, confident) :=
        fold_left (fuzzy_step normalized_current_name_db) valid_map
                  (None, to_title_case current_name_db, false) in
      if gt_inf min_distance threshold
      then (to_title_case current_name_db, false)
      else (proposed_new_name, confident)
  end.

Definition proposed_name (valid_map : dict) (threshold : nat) (n : str) : str :=
  fst (propose valid_map threshold n).

(** ** The reference set builder *)

(** What the listing endpoint answers from a given URL on: a failed
    request (transport error or non-success status), a page whose [next]
    is null, or a page followed by the listing behind its [next] link. *)
Inductive listing : Type :=
| RequestException
| LastPage (results : list str)
| NextPage (results : list str) (next : listing).

Fixpoint str_ltb (a b : str) : bool :=
  match a, b with
  | _, [] => false
  | [], _ :: _ => true
  | x :: a', y :: b' =>
      (code x <? code y) || ((code x =? code y) && str_ltb a' b')
  end.

(** [names.add(x)] *)
Definition set_add (x : str) (names : list str) : list str :=
  if mem x names then names else names ++ [x].

Fixpoint insert_sorted (x : str) (l : list str) : list str :=
  match l with
  | [] => [x]
  | y :: l' => if str_ltb y x then y :: insert_sorted x l' else x :: l
  end.

(** [sorted(list(names))] *)
Definition sorted (names : list str) : list str :=
  fold_right insert_sorted [] names.

(** The [while url] loop; [None] when a request raises. *)
Fixpoint fetch_pages (l : listing) (names : list str) : option (list str) :=
  match l with
  | RequestException => None
  | LastPage results =>
      Some (fold_left (fun acc item => set_add item acc) results names)
  | NextPage results next =>
      fetch_pages next (fold_left (fun acc item => set_add item acc) results names)
  end.

End Text.

Import Text.

(** ** Storage *)

Module Store.

(** The keys of [tables_meta], in the order the dict lists them. *)
Inductive entity : Type := pokemon | types | abilities | trainers.

(** The dependent columns [fk_relationships] names, each with its table. *)
Inductive fk_column : Type :=
| pokemon_type1_id
| pokemon_type2_id
| tpa_pokemon_id
| tpa_trainer_id
| tpa_ability_id.

Definition entity_eqb (a b : entity) : bool :=
  match a, b with
  | pokemon, pokemon | types, types | abilities, abilities
  | trainers, trainers => true
  | _, _ => false
  end.

(** [fk_relationships]: (table and column holding the key, table referenced) *)
Definition fk_relationships : list (fk_column * entity) :=
  [ (pokemon_type1_id, types);
    (pokemon_type2_id, types);
    (tpa_pokemon_id, pokemon);
    (tpa_trainer_id, trainers);
    (tpa_ability_id, abilities) ].

Definition tables : list entity := [pokemon; types; abilities; trainers].

(** Rows.  A [None] is the SQL NULL. *)
Record named_row : Type := NamedRow { id : Z; name : option str }.

Record pokemon_row : Type :=
  PokemonRow { p_id : Z; p_name : option str;
               type1_id : option Z; type2_id : option Z }.

Record tpa_row : Type :=
  TpaRow { tpa_id : Z; pokemon_id : option Z;
           trainer_id : option Z; ability_id : option Z }.

Record db : Type :=
  Db { tbl_pokemon : list pokemon_row;
       tbl_types : list named_row;
       tbl_abilities : list named_row;
       tbl_trainers : list named_row;
       trainer_pokemon_abilities : list tpa_row }.

(** [SELECT id, name FROM t] *)
Definition select_id_name (t : entity) (d : db) : list (Z * option str) :=
  let plain := map (fun r => (id r, name r)) in
  match t with
  | pokemon => map (fun r => (p_id r, p_name r)) (tbl_pokemon d)
  | types => plain (tbl_types d)
  | abilities => plain (tbl_abilities d)
  | trainers => plain (tbl_trainers d)
  end.

(** [SELECT name FROM t WHERE id = ?] followed by [fetchone()] *)
Definition select_name (t : entity) (row_id : Z) (d : db)
  : option (option str) :=
  match filter (fun r => Z.eqb (fst r) row_id) (select_id_name t d) with
  | [] => None
  | r :: _ => Some (snd r)
  end.

(** [DELETE FROM t WHERE id ...], for the rows whose id is [doomed]. *)
Definition delete_where (t : entity) (doomed : Z -> bool) (d : db) : db :=
  let plain := filter (fun r => negb (doomed (id r))) in
  match t with
  | pokemon =>
      Db (filter (fun r => negb (doomed (p_id r))) (tbl_pokemon d))
         (tbl_types d) (tbl_abilities d) (tbl_trainers d)
         (trainer_pokemon_abilities d)
  | types =>
      Db (tbl_pokemon d) (plain (tbl_types d)) (tbl_abilities d)
         (tbl_trainers d) (trainer_pokemon_abilities d)
  | abilities =>
      Db (tbl_pokemon d) (tbl_types d) (plain (tbl_abilities d))
         (tbl_trainers d) (trainer_pokemon_abilities d)
  | trainers =>
      Db (tbl_pokemon d) (tbl_types d) (tbl_abilities d)
         (plain (tbl_trainers d)) (trainer_pokemon_abilities d)
  end.

(** [UPDATE t SET name = ? WHERE id = ?] *)
Definition update_name (t : entity) (new_name : str) (row_id : Z) (d : db)
  : db :=
  let plain :=
    map (fun r => if Z.eqb (id r) row_id
                  then NamedRow (id r) (Some new_name) else r) in
  match t with
  | pokemon =>
      Db (map (fun r => if Z.eqb (p_id r) row_id
                        then PokemonRow (p_id r) (Some new_name)
                                        (type1_id r) (type2_id r)
                        else r) (tbl_pokemon d))
         (tbl_types d) (tbl_abilities d) (tbl_trainers d)
         (trainer_pokemon_abilities d)
  | types =>
      Db (tbl_pokemon d) (plain (tbl_types d)) (tbl_abilities d)
         (tbl_trainers d) (trainer_pokemon_abilities d)
  | abilities =>
      Db (tbl_pokemon d) (tbl_types d) (plain (tbl_abilities d))
         (tbl_trainers d) (trainer_pokemon_abilities d)
  | trainers =>
      Db (tbl_pokemon d) (tbl_types d) (tbl_abilities d)
         (plain (tbl_trainers d)) (trainer_pokemon_abilities d)
  end.

(** The values a dependent column holds, row by row. *)
Definition fk_values (c : fk_column) (d : db) : list (option Z) :=
  match c with
  | pokemon_type1_id => map type1_id (tbl_pokemon d)
  | pokemon_type2_id => map type2_id (tbl_pokemon d)
  | tpa_pokemon_id => map pokemon_id (trainer_pokemon_abilities d)
  | tpa_trainer_id => map trainer_id (trainer_pokemon_abilities d)
  | tpa_ability_id => map ability_id (trainer_pokemon_abilities d)
  end.

(** [UPDATE fk_table SET fk_column = f(fk_column)]: both cascade
    statements rewrite one column value by value. *)
Definition update_fk (c : fk_column) (f : option Z -> option Z) (d : db) : db :=
  let on_pokemon g :=
    Db (map g (tbl_pokemon d)) (tbl_types d) (tbl_abilities d)
       (tbl_trainers d) (trainer_pokemon_abilities d) in
  let on_tpa g :=
    Db (tbl_pokemon d) (tbl_types d) (tbl_abilities d) (tbl_trainers d)
       (map g (trainer_pokemon_abilities d)) in
  match c with
  | pokemon_type1_id =>
      on_pokemon (fun r => PokemonRow (p_id r) (p_name r)
                                      (f (type1_id r)) (type2_id r))
  | pokemon_type2_id =>
      on_pokemon (fun r => PokemonRow (p_id r) (p_name r)
                                      (type1_id r) (f (type2_id r)))
  | tpa_pokemon_id =>
      on_tpa (fun r => TpaRow (tpa_id r) (f (pokemon_id r))
                              (trainer_id r) (ability_id r))
  | tpa_trainer_id =>
      on_tpa (fun r => TpaRow (tpa_id r) (pokemon_id r)
                              (f (trainer_id r)) (ability_id r))
  | tpa_ability_id =>
      on_tpa (fun r => TpaRow (tpa_id r) (pokemon_id r)
                              (trainer_id r) (f (ability_id r)))
  end.

Definition mem_id (x : Z) (l : list Z) : bool := existsb (Z.eqb x) l.

(** [SET c = NULL WHERE c = deleted_id] *)
Definition set_null (deleted_id : Z) (v : option Z) : option Z :=
  match v with
  | Some x => if Z.eqb x deleted_id then None else v
  | None => None
  end.

(** [SET c = canonical_id WHERE c IN (duplicate ids)] *)
Definition remap (canonical_id : Z) (dups : list Z) (v : option Z) : option Z :=
  match v with
  | Some x => if mem_id x dups then Some canonical_id else v
  | None => None
  end.

(** SQLite's [LOWER] folds the ASCII letters; [LOWER(NULL)] is NULL. *)
Definition sql_lower (n : option str) : option str := option_map lower n.

Definition key_eqb (a b : option str) : bool :=
  match a, b with
  | None, None => true
  | Some x, Some y => str_eqb x y
  | _, _ => false
  end.

(** The group keys of [GROUP BY LOWER(name)], each once, by first
    occurrence (SQL leaves the order of the groups open). *)
Fixpoint group_keys (rows : list (Z * option str)) (seen : list (option str))
  : list (option str) :=
  match rows with
  | [] => []
  | r :: rows' =>
      let k := sql_lower (snd r) in
      if existsb (key_eqb k) seen then group_keys rows' seen
      else k :: group_keys rows' (k :: seen)
  end.

Definition group_ids (k : option str) (rows : list (Z * option str)) : list Z :=
  map fst (filter (fun r => key_eqb (sql_lower (snd r)) k) rows).

(** [MIN(id)] over a group *)
Definition min_id (ids : list Z) : Z :=
  match ids with
  | [] => 0%Z
  | x :: ids' => fold_left Z.min ids' x
  end.

(** [SELECT name, MIN(id), GROUP_CONCAT(id) FROM t GROUP BY LOWER(name)
    HAVING COUNT( * ) > 1]: per group its canonical id and its ids, as the
    code reads them back from the concatenation.  The [name] column is only
    printed. *)
Definition select_duplicates (t : entity) (d : db) : list (Z * list Z) :=
  let rows := select_id_name t d in
  flat_map (fun k => let ids := group_ids k rows in
                     if 1 <? length ids then [(min_id ids, ids)] else [])
           (group_keys rows []).

End Store.

Import Store.

(** ** The cleaning run *)

Module Engine.

(** The exceptions of [sqlite3] the code tells apart:
    [OperationalError], by what its message contains, and every other
    [sqlite3.Error]. *)
Inductive op_message : Type := no_such_column | no_such_table | other_message.

Inductive sqlite_error : Type :=
| OperationalError (m : op_message)
| DatabaseError.

Inductive endpoint : Type := ep_pokemon | ep_type | ep_ability.

(** The statements handed to [cursor.execute], and [conn.commit()]. *)
Inductive stmt : Type :=
| PragmaForeignKeys
| SelectIdName (t : entity)
| SelectName (t : entity) (row_id : Z)
| UpdateSetNull (c : fk_column) (deleted_id : Z)
| DeleteWhereId (t : entity) (row_id : Z)
| UpdateName (t : entity) (new_name : str) (row_id : Z)
| SelectDuplicates (t : entity)
| UpdateRemap (c : fk_column) (canonical_id : Z) (dups : list Z)
| DeleteWhereIdIn (t : entity) (dups : list Z)
| Commit.

(** The printed lines that report a failure or the end of the run; the
    progress lines are left out. *)
Inductive message : Type :=
| FetchWarning (e : endpoint)
| RemapError (c : fk_column)
| Finished
| ErrorOccurred (e : sqlite_error).

Inductive event : Type :=
| Exec (s : stmt)
| Raised (s : stmt) (e : sqlite_error)
| Printed (m : message)
| Rollback.

(** The connection during the run: what the open transaction sees and
    what happened so far. *)
Record world : Type := World { data : db; events : list event }.

Inductive result (A : Type) : Type :=
| Ok (a : A)
| Err (e : sqlite_error).
Arguments Ok {A} a.
Arguments Err {A} e.

Definition M (A : Type) : Type := world -> result A * world.

Definition ret {A} (a : A) : M A := fun w => (Ok a, w).

Definition bind {A B} (c : M A) (k : A -> M B) : M B :=
  fun w => match c w with
           | (Ok a, w') => k a w'
           | (Err e, w') => (Err e, w')
           end.

Definition raise {A} (e : sqlite_error) : M A := fun w => (Err e, w).

(** [try: c  except sqlite3.Error as e: handler(e)] *)
Definition try_except {A} (c : M A) (handler : sqlite_error -> M A) : M A :=
  fun w => match c w with
           | (Ok a, w') => (Ok a, w')
           | (Err e, w') => handler e w'
           end.

Definition print (m : message) : M unit :=
  fun w => (Ok tt, World (data w) (events w ++ [Printed m])).

Notation "x <- c ;; k" := (bind c (fun x => k))
  (at level 61, c at next level, right associativity).
Notation "c ;; k" := (bind c (fun _ => k))
  (at level 61, right associativity).

Fixpoint for_each {X} (l : list X) (body : X -> M unit) : M unit :=
  match l with
  | [] => ret tt
  | x :: l' => body x ;; for_each l' body
  end.

(** [meta] of [tables_meta] *)
Record meta : Type :=
  Meta { valid_map : dict; original_valid_set : list str; threshold : nat }.

Definition raw_valid_trainer_names_list : list str :=
  map list_ascii_of_string
      ["Ash Ketchum"; "Brock"; "Gary Oak"; "Professor Oak"; "Misty"]%string.

Definition tables_meta (raw_pokemon raw_type raw_ability : list str)
           (t : entity) : meta :=
  let entry names := Meta (build_valid_map names) (build_valid_set names) 2 in
  match t with
  | pokemon => entry raw_pokemon
  | types => entry raw_type
  | abilities => entry raw_ability
  | trainers => entry raw_valid_trainer_names_list
  end.

(** [item_name not in original_valid_set], negated *)
Definition in_valid_set (n : option str) (s : list str) : bool :=
  match n with
  | Some x => mem x s
  | None => false
  end.

(** [current_db_name_after_updates[0] != new_name] *)
Definition name_differs (stored : option str) (new_name : str) : bool :=
  match stored with
  | Some x => negb (str_eqb x new_name)
  | None => true
  end.

(** The rows step 2 collects in [deletions_from_step2]. *)
Definition junk_rows (rows : list (Z * option str)) : list (Z * option str) :=
  filter (fun r => is_junk (snd r)) rows.

(** The entries step 2 collects in [updates]:
    (row id, proposed name, stored name). *)
Definition name_updates (m : meta) (rows : list (Z * option str))
  : list (Z * str * str) :=
  flat_map (fun r =>
              if is_junk (snd r) then []
              else match snd r with
                   | Some current =>
                       let p := proposed_name (valid_map m) (threshold m) current in
                       if str_eqb p current then [] else [(fst r, p, current)]
                   | None => []
                   end) rows.

(** The rows step 3 collects in [ids_to_delete_step3]. *)
Definition unvalidated_rows (m : meta) (rows : list (Z * option str))
  : list (Z * option str) :=
  filter (fun r => negb (in_valid_set (snd r) (original_valid_set m))) rows.

(** [[int(x) for x in duplicate_ids_str.split(',') if int(x) != canonical_id]] *)
Definition duplicate_ids_to_remove (canonical_id : Z) (ids : list Z) : list Z :=
  filter (fun x => negb (Z.eqb x canonical_id)) ids.

Section Run.

(** The error, if any, that the storage raises on a statement issued when
    the record has n entries, and the listing each endpoint serves. *)
Variable faults : nat -> option sqlite_error.
Variable net : endpoint -> listing.

(** [cursor.execute] of a statement that writes. *)
Definition execute (s : stmt) (effect : db -> db) : M unit :=
  fun w => match faults (length (events w)) with
           | Some e => (Err e, World (data w) (events w ++ [Raised s e]))
           | None => (Ok tt, World (effect (data w)) (events w ++ [Exec s]))
           end.

(** [cursor.execute] of a [SELECT], with its [fetchall]/[fetchone]. *)
Definition query {A} (s : stmt) (read : db -> A) : M A :=
  fun w => match faults (length (events w)) with
           | Some e => (Err e, World (data w) (events w ++ [Raised s e]))
           | None => (Ok (read (data w)), World (data w) (events w ++ [Exec s]))
           end.

(** [_fetch_all_pokeapi_resources] *)
Definition _fetch_all_pokeapi_resources (endpoint_name : endpoint)
  : M (list str) :=
  match fetch_pages (net endpoint_name) [] with
  | Some names => ret (sorted names)
  | None => print (FetchWarning endpoint_name) ;; ret []
  end.

(** The handler of the cascade in [nullify_fks_referencing_id]. *)
Definition tolerate_missing (e : sqlite_error) : M unit :=
  match e with
  | OperationalError no_such_column | OperationalError no_such_table => ret tt
  | _ => raise e
  end.

(** [nullify_fks_referencing_id] *)
Definition nullify_fks_referencing_id (deleted_id : Z)
           (referenced_table_name : entity) : M unit :=
  for_each fk_relationships (fun '(fk_col, ref_table) =>
    if entity_eqb ref_table referenced_table_name then
      try_except
        (execute (UpdateSetNull fk_col deleted_id)
                 (update_fk fk_col (set_null deleted_id)))
        tolerate_missing
    else ret tt).

(** Step 2 for one table: junk rows go, then the collected names are
    written. *)
Definition correct_names (m : meta) (table_name : entity) : M unit :=
  rows_to_process <- query (SelectIdName table_name) (select_id_name table_name) ;;
  let updates := name_updates m rows_to_process in
  let deletions_from_step2 := junk_rows rows_to_process in
  for_each deletions_from_step2 (fun '(row_id_to_delete, _) =>
    nullify_fks_referencing_id row_id_to_delete table_name ;;
    execute (DeleteWhereId table_name row_id_to_delete)
            (delete_where table_name (Z.eqb row_id_to_delete))) ;;
  for_each updates (fun '(row_id, new_name, _) =>
    current <- query (SelectName table_name row_id)
                     (select_name table_name row_id) ;;
    match current with
    | Some stored =>
        if name_differs stored new_name
        then execute (UpdateName table_name new_name row_id)
                     (update_name table_name new_name row_id)
        else ret tt
    | None => ret tt
    end).

(** Step 3 for one table. *)
Definition remove_unvalidated (m : meta) (table_name : entity) : M unit :=
  items_to_check <- query (SelectIdName table_name) (select_id_name table_name) ;;
  for_each (unvalidated_rows m items_to_check) (fun '(item_id, _) =>
    nullify_fks_referencing_id item_id table_name ;;
    execute (DeleteWhereId table_name item_id)
            (delete_where table_name (Z.eqb item_id))).

(** The handlers around the remapping [UPDATE] of step 4. *)
Definition remap_handler (c : fk_column) (e : sqlite_error) : M unit :=
  match e with
  | OperationalError no_such_column | OperationalError no_such_table => ret tt
  | OperationalError other_message => raise e
  | DatabaseError => print (RemapError c) ;; raise e
  end.

(** Step 4 for one table. *)
Definition remove_duplicates (table_name : entity) : M unit :=
  duplicates_info <- query (SelectDuplicates table_name)
                           (select_duplicates table_name) ;;
  for_each duplicates_info (fun '(canonical_id, ids) =>
    let dups := duplicate_ids_to_remove canonical_id ids in
    match dups with
    | [] => ret tt
    | _ =>
        for_each fk_relationships (fun '(fk_col, referenced_pk_table_name) =>
          if entity_eqb referenced_pk_table_name table_name then
            try_except
              (execute (UpdateRemap fk_col canonical_id dups)
                       (update_fk fk_col (remap canonical_id dups)))
              (remap_handler fk_col)
          else ret tt) ;;
        execute (DeleteWhereIdIn table_name dups)
                (delete_where table_name (fun x => mem_id x dups))
    end).

(** The three fetches of step 1 and the [tables_meta] built from them. *)
Definition fetch_references : M (entity -> meta) :=
  raw_valid_pokemon_names_api <- _fetch_all_pokeapi_resources ep_pokemon ;;
  raw_valid_type_names_api <- _fetch_all_pokeapi_resources ep_type ;;
  raw_valid_ability_names_api <- _fetch_all_pokeapi_resources ep_ability ;;
  ret (tables_meta raw_valid_pokemon_names_api raw_valid_type_names_api
                   raw_valid_ability_names_api).

(** The body of the [try]. *)
Definition try_block : M unit :=
  execute PragmaForeignKeys (fun d => d) ;;
  metas <- fetch_references ;;
  for_each tables (fun t => correct_names (metas t) t) ;;
  for_each tables (fun t => remove_unvalidated (metas t) t) ;;
  for_each tables remove_duplicates ;;
  execute Commit (fun d => d) ;;
  print Finished.

(** What the caller has when [clean_database] is over: the exception it
    sees, if any, the stored dataset, and the record of the run. *)
Record outcome : Type :=
  Outcome { propagated : option sqlite_error; dataset : db; record : list event }.

(** [clean_database] on an open connection to the dataset [conn].  The
    [except sqlite3.Error] clause prints and rolls back, which leaves the
    dataset as it was when the transaction began. *)
Definition clean_database (conn : db) : outcome :=
  match try_block (World conn []) with
  | (Ok _, w) => Outcome None (data w) (events w)
  | (Err e, w) =>
      Outcome None conn (events w ++ [Printed (ErrorOccurred e); Rollback])
  end.

End Run.

Definition no_faults : nat -> option sqlite_error := fun _ => None.

End Engine.

Import Engine.

Notation "'#' s" := (list_ascii_of_string s) (at level 5, s at level 0, only parsing).

(** ** Reference definitions for the normalizer and the matcher *)

Module TextSpec.

(** [displayForm] as the specification words it: only the first letter of
    a token is touched. *)
Definition capitalize_first (tok : str) : str :=
  match tok with
  | [] => []
  | c :: tok' => to_upper c :: tok'
  end.

Definition displayForm (raw : str) : str :=
  match raw with
  | [] => raw
  | _ => join [space] (map capitalize_first (split space (replace hyphen space raw)))
  end.

(** A token with its first letter in upper case and the rest in lower
    case. *)
Definition capitalize_lower (tok : str) : str :=
  match tok with
  | [] => []
  | c :: tok' => to_upper c :: map to_lower tok'
  end.

Definition is_sep (c : ascii) : bool := Ascii.eqb c hyphen || Ascii.eqb c space.

(** One pass over the characters: a hyphen or a space becomes a space, a
    character that starts a token goes to upper case, any other to lower
    case. *)
Fixpoint title_from (start : bool) (s : str) : str :=
  match s with
  | [] => []
  | c :: s' =>
      if is_sep c then space :: title_from true s'
      else (if start then to_upper c else to_lower c) :: title_from false s'
  end.

(** The row of the distance table that belongs to [P]: the distances
    from [P] to [Q] and to each extension of [Q] by the characters of [r],
    the strings being read backwards. *)
Fixpoint row (P Q r : str) : list nat :=
  lev P Q :: match r with [] => [] | b :: r' => row P (b :: Q) r' end.

(** A name made of underscores only. *)
Definition underscores (n : nat) : str := repeat "_"%char n.

(** The entry [(k, v)] is among the nearest to [key] in [vm]. *)
Definition nearest (key : str) (vm : dict) (k v : str) : Prop :=
  In (k, v) vm /\
  forall k' v', In (k', v') vm ->
    levenshtein_distance key k <= levenshtein_distance key k'.

(** What the search holds after the entries [seen]: nothing yet, or the
    value of an entry of [seen] at the least distance [d]. *)
Definition search_inv (key p0 : str) (seen : dict) (st : search) : Prop :=
  match st with
  | (None, p, _) => seen = [] /\ p = p0
  | (Some d, p, _) =>
      (exists k, In (k, p) seen /\ levenshtein_distance key k = d) /\
      forall k' v', In (k', v') seen -> d <= levenshtein_distance key k'
  end.




(** Two characters that are the same letter up to case: equal, or one of
    the letters A to Z and the small letter 32 code points above it. *)
Definition same_letter (c d : ascii) : Prop :=
  c = d \/
  (is_upper c = true /\ code d = code c + 32) \/
  (is_upper d = true /\ code c = code d + 32).

(** Strings equal up to case. *)
Definition caseless_eq (a b : str) : Prop := Forall2 same_letter a b.

(** Stored names equal up to case; [GROUP BY] puts the NULLs into one
    group. *)
Definition same_name (n n' : option str) : Prop :=
  match n, n' with
  | Some a, Some b => caseless_eq a b
  | None, None => True
  | _, _ => False
  end.

(** Keys of a dict are pairwise distinct. *)
Definition keys_unique (d : dict) : Prop := NoDup (map fst d).

(** Every entry of a built map pairs the key of a vocabulary name with
    its title-cased form, and every vocabulary name has its key in it. *)
Definition from_vocabulary (names : list str) (d : dict) : Prop :=
  keys_unique d /\
  (forall k v, In (k, v) d ->
     exists name, In name names /\ k = normalize_string name
                  /\ v = to_title_case name) /\
  (forall name, In name names -> dict_get (normalize_string name) d <> None).

End TextSpec.

Import TextSpec.

(** ** Specifications of runs *)

Module Logic.

(** [wp c w Q E]: run from the world [w], the computation [c] ends in a
    world that satisfies [Q] when it returns and [E] when it raises. *)
Definition wp {A} (c : M A) (w : world)
           (Q : A -> world -> Prop) (E : sqlite_error -> world -> Prop) : Prop :=
  match c w with
  | (Ok a, w') => Q a w'
  | (Err e, w') => E e w'
  end.

(** The same for a run that does not raise. *)
Definition runs {A} (c : M A) (w : world) (Q : A -> world -> Prop) : Prop :=
  wp c w Q (fun _ _ => False).

(** What a statement leaves behind when it succeeds. *)
Definition after (s : stmt) (f : db -> db) (w : world) : world :=
  World (f (data w)) (events w ++ [Exec s]).

(** Properties of the dataset that the statements of the cascade, of a
    deletion from [t] and of a renaming in [t] keep. *)
Definition stable_fk (I : db -> Prop) : Prop :=
  forall c f d, I d -> I (update_fk c f d).
Definition stable_delete (t : entity) (I : db -> Prop) : Prop :=
  forall p d, I d -> I (delete_where t p d).
Definition stable_rename (t : entity) (I : db -> Prop) : Prop :=
  forall n i d, I d -> I (update_name t n i d).

Definition fk_column_eqb (a b : fk_column) : bool :=
  match a, b with
  | pokemon_type1_id, pokemon_type1_id | pokemon_type2_id, pokemon_type2_id
  | tpa_pokemon_id, tpa_pokemon_id | tpa_trainer_id, tpa_trainer_id
  | tpa_ability_id, tpa_ability_id => true
  | _, _ => false
  end.

(** What [UPDATE t SET name = ? WHERE id = ?] does to a row of
    [SELECT id, name]. *)
Definition rename (new_name : str) (row_id : Z) (r : Z * option str)
  : Z * option str :=
  if Z.eqb (fst r) row_id then (fst r, Some new_name) else r.

(** Properties of the rows of a table that every part of the table has. *)
Definition closed (Phi : list (Z * option str) -> Prop) : Prop :=
  forall p rows, Phi rows -> Phi (filter p rows).

(** [Phi] holds of the rows of [t]. *)
Definition rows_have (t : entity) (Phi : list (Z * option str) -> Prop)
           (d : db) : Prop :=
  Phi (select_id_name t d).

(** The rows of [t] that a world sees. *)
Definition rows (t : entity) (w : world) : list (Z * option str) :=
  select_id_name t (data w).

(** The rows that are left when the ids of [l] are deleted. *)
Definition without (l : list Z) (rs : list (Z * option str))
  : list (Z * option str) :=
  filter (fun x => negb (mem_id (fst x) l)) rs.

(** The key [GROUP BY LOWER(name)] sorts a row under. *)
Definition key_of (r : Z * option str) : option str := sql_lower (snd r).

(** The ids step 4 deletes for a group. *)
Definition dups_of (g : Z * list Z) : list Z :=
  duplicate_ids_to_remove (fst g) (snd g).

(** No group's canonical id is among the ids deleted for another group. *)
Definition separate (gs : list (Z * list Z)) : Prop :=
  ForallOrdPairs (fun g g' => ~ In (fst g') (dups_of g) /\
                              ~ In (fst g) (dups_of g')) gs.

(** What the remappings of step 4 make of a key, group after group. *)
Definition remap_all (gs : list (Z * list Z)) (v : option Z) : option Z :=
  fold_left (fun v g => remap (fst g) (dups_of g) v) gs v.

(** The canonical id of the first group, if any, that has [x] among the
    ids it deletes. *)
Definition merged_into (gs : list (Z * list Z)) (x : Z) : Z :=
  match find (fun g => mem_id x (dups_of g)) gs with
  | Some g => fst g
  | None => x
  end.

(** The rows [SELECT ... HAVING COUNT( * ) > 1] returns for a key. *)
Definition group_row (rs : list (Z * option str)) (k : option str)
  : list (Z * list Z) :=
  if 1 <? length (group_ids k rs)
  then [(min_id (group_ids k rs), group_ids k rs)] else [].

(** An event other than a [DELETE]. *)
Definition harmless (ev : event) : Prop :=
  match ev with
  | Exec (DeleteWhereId _ _) | Exec (DeleteWhereIdIn _ _) => False
  | _ => True
  end.

(** The ids of a table. *)
Definition ids (t : entity) (d : db) : list Z := map fst (select_id_name t d).

(** Identifiers are unique within each entity table. *)
Definition ids_unique (d : db) : Prop := forall t, NoDup (ids t d).

(** Referential integrity: a key that is not NULL is the id of a row of
    the table it references. *)
Definition ref_ok (d : db) : Prop :=
  forall c r v, In (c, r) fk_relationships ->
    In (Some v) (fk_values c d) -> In v (ids r d).

(** The names [_fetch_all_pokeapi_resources] returns. *)
Definition fetched (l : listing) : list str :=
  match fetch_pages l [] with
  | Some names => sorted names
  | None => []
  end.

(** The vocabulary of each table for a given network. *)
Definition vocabulary (net : endpoint -> listing) (t : entity) : list str :=
  match t with
  | pokemon => fetched (net ep_pokemon)
  | types => fetched (net ep_type)
  | abilities => fetched (net ep_ability)
  | trainers => raw_valid_trainer_names_list
  end.

(** The [tables_meta] of a run. *)
Definition metas_of (net : endpoint -> listing) : entity -> meta :=
  tables_meta (fetched (net ep_pokemon)) (fetched (net ep_type))
              (fetched (net ep_ability)).

(** Every name of table [t] is in the validity set of [m]. *)
Definition names_valid (m : meta) (t : entity) (d : db) : Prop :=
  forall i n, In (i, n) (select_id_name t d) ->
    in_valid_set n (original_valid_set m) = true.

(** No two rows of [t] have names equal up to case. *)
Definition no_duplicates (t : entity) (d : db) : Prop :=
  NoDup (map key_of (select_id_name t d)).

(** Every name of [t] is one that step 2 proposes. *)
Definition names_proposed (m : meta) (t : entity) (d : db) : Prop :=
  forall i n, In (i, n) (select_id_name t d) ->
    exists s0, n = Some (proposed_name (valid_map m) (threshold m) s0).

(** While step 2 writes the names [us]: ids are unique, every update
    carries the name proposed for the stored one, and every row has a
    proposed name already or an update waiting for it. *)
Definition writing (m : meta) (t : entity) (us : list (Z * str * str))
           (w : world) : Prop :=
  NoDup (map fst (rows t w)) /\
  (forall i p c, In (i, p, c) us ->
     p = proposed_name (valid_map m) (threshold m) c) /\
  (forall i n, In (i, n) (rows t w) ->
     (exists s0, n = Some (proposed_name (valid_map m) (threshold m) s0)) \/
     (exists cur, n = Some cur /\
        In (i, proposed_name (valid_map m) (threshold m) cur, cur) us)).

(** Every name of [t] is settled: not junk, proposed for itself, valid. *)
Definition names_settled (m : meta) (t : entity) (d : db) : Prop :=
  forall i n, In (i, n) (select_id_name t d) ->
    exists s, n = Some s /\ is_junk n = false /\
              proposed_name (valid_map m) (threshold m) s = s /\
              mem s (original_valid_set m) = true.

(** No name of the vocabularies is junk. *)
Definition clean_vocabulary (net : endpoint -> listing) : Prop :=
  forall t name, In name (vocabulary net t) -> is_junk (Some name) = false.

(** Every stored name and every name of the vocabularies is ASCII
    text. *)
Definition ascii_names (d : db) : Prop :=
  forall t i n, In (i, Some n) (select_id_name t d) -> ascii_only n.

Definition ascii_vocabulary (net : endpoint -> listing) : Prop :=
  forall t name, In name (vocabulary net t) -> ascii_only name.

(** The key [v] once the cascades for the ids [l] have run: NULL when it
    named one of them. *)
Definition cut (l : list Z) (v : option Z) : option Z :=
  match v with
  | Some x => if mem_id x l then None else v
  | None => None
  end.


(** Some request of the walk over the listing fails. *)
Fixpoint aborts (l : listing) : Prop :=
  match l with
  | RequestException => True
  | LastPage _ => False
  | NextPage _ next => aborts next
  end.

(** The table an endpoint is the reference of. *)
Definition table_of (e : endpoint) : entity :=
  match e with
  | ep_pokemon => pokemon
  | ep_type => types
  | ep_ability => abilities
  end.

(** A property of records that holds on when the record grows. *)
Definition lasting (P : list event -> Prop) : Prop :=
  forall evs new, P evs -> P (evs ++ new).

(** Statements that read. *)
Definition reads (s : stmt) : bool :=
  match s with
  | PragmaForeignKeys | SelectIdName _ | SelectName _ _
  | SelectDuplicates _ | Commit => true
  | _ => false
  end.

(** A record in which nothing is written, nothing raised, nothing rolled
    back. *)
Definition quiet (evs : list event) : Prop :=
  forall ev, In ev evs ->
    match ev with
    | Exec s => reads s = true
    | Printed _ => True
    | Raised _ _ | Rollback => False
    end.

(** A world that still holds the dataset [d] and a quiet record. *)
Definition still (d : db) (w : world) : Prop :=
  data w = d /\ quiet (events w).

(** What has to precede a [DELETE]: the cascade over every column that
    references the table. *)
Definition cascade_done (pre : list event) (s : stmt) : Prop :=
  match s with
  | DeleteWhereId t i =>
      forall c, In (c, t) fk_relationships -> In (Exec (UpdateSetNull c i)) pre
  | DeleteWhereIdIn t dups =>
      forall c, In (c, t) fk_relationships ->
        exists canonical_id, In (Exec (UpdateRemap c canonical_id dups)) pre
  | _ => True
  end.

(** Every [DELETE] of the record comes after its cascade. *)
Definition guarded (evs : list event) : Prop :=
  forall pre s post, evs = pre ++ Exec s :: post -> cascade_done pre s.

(** The canonical id of the row [i] among [rows]: the least id of the rows
    whose name equals its name up to case; an id that names no row is
    left alone. *)
Definition canonical_of (rows : list (Z * option str)) (i : Z) : Z :=
  match find (fun r => Z.eqb (fst r) i) rows with
  | Some r => min_id (group_ids (sql_lower (snd r)) rows)
  | None => i
  end.

(** An error the cascade handlers swallow. *)
Definition tolerated (s : stmt) (e : sqlite_error) : bool :=
  match s, e with
  | (UpdateSetNull _ _ | UpdateRemap _ _ _),
    (OperationalError no_such_column | OperationalError no_such_table) => true
  | _, _ => false
  end.

(** The record holds an error that no handler swallows. *)
Definition fatal (evs : list event) : Prop :=
  exists s e, In (Raised s e) evs /\ tolerated s e = false.

(** The record of a run that goes on: no error but swallowed ones, no
    commit yet, no rollback. *)
Definition going (evs : list event) : Prop :=
  ~ fatal evs /\ ~ In (Exec Commit) evs /\ ~ In Rollback evs.

(** The record of a run that an error has ended before the commit. *)
Definition broken (evs : list event) : Prop :=
  fatal evs /\ ~ In (Exec Commit) evs /\ ~ In Rollback evs.

(** The record of [w'] continues the record of [w]. *)
Definition extends (w w' : world) : Prop :=
  exists new, events w' = events w ++ new.

(** A computation that keeps a run going or breaks it. *)
Definition steady {A} (c : M A) : Prop :=
  forall w, going (events w) ->
    wp c w (fun _ w' => going (events w') /\ extends w w')
           (fun _ w' => broken (events w')).

(** The same, leaving the event [ev] in the record when it returns. *)
Definition marks {A} (ev : event) (c : M A) : Prop :=
  forall w, going (events w) ->
    wp c w (fun _ w' => going (events w') /\ extends w w' /\ In ev (events w'))
           (fun _ w' => broken (events w')).

(** The record holds an error that the storage raised. *)
Definition raised (evs : list event) : Prop :=
  exists s e, In (Raised s e) evs.

(** A computation on a storage that may raise agrees with the same one
    on a storage that raises nothing, up to the first error. *)
Definition agrees {A} (c c0 : M A) : Prop :=
  forall w,
    wp c w (fun a w' => extends w w' /\
                        (raised (events w') \/ c0 w = (Ok a, w')))
           (fun _ w' => extends w w' /\ raised (events w')).

(** Statements of the cascades. *)
Definition cascades (s : stmt) : bool :=
  match s with
  | UpdateSetNull _ _ | UpdateRemap _ _ _ => true
  | _ => false
  end.

(** Step 2 issues no [DELETE] beyond those in [before] and those of the
    ids that satisfy [J]. *)
Definition deletes_only (t : entity) (before : list event) (J : Z -> Prop)
           (evs : list event) : Prop :=
  forall i, In (Exec (DeleteWhereId t i)) evs ->
    In (Exec (DeleteWhereId t i)) before \/ J i.

(** Boolean forms of the conditions on a dataset and on a network. *)
Fixpoint distinctb (l : list Z) : bool :=
  match l with
  | [] => true
  | x :: l' => negb (mem_id x l') && distinctb l'
  end.

Definition ids_uniqueb (d : db) : bool :=
  forallb (fun t => distinctb (ids t d)) tables.

Definition ref_okb (d : db) : bool :=
  forallb (fun e => forallb (fun v => match v with
                                      | Some x => mem_id x (ids (snd e) d)
                                      | None => true
                                      end)
                            (fk_values (fst e) d))
          fk_relationships.

Definition clean_vocabularyb (net : endpoint -> listing) : bool :=
  forallb (fun t => forallb (fun n => negb (is_junk (Some n)))
                            (vocabulary net t))
          tables.

Definition ascii_namesb (d : db) : bool :=
  forallb (fun t => forallb (fun r => match snd r with
                                      | Some n => forallb is_ascii n
                                      | None => true
                                      end)
                            (select_id_name t d))
          tables.

Definition ascii_vocabularyb (net : endpoint -> listing) : bool :=
  forallb (fun t => forallb (forallb is_ascii) (vocabulary net t)) tables.

(** The dataset of a run on a storage that raises nothing. *)
Definition cleaned (net : endpoint -> listing) (conn : db) : db :=
  dataset (clean_database no_faults net conn).

End Logic.

Import Logic.

(** ** The run on a storage that raises nothing

    Each step of the run as a function on worlds; the lemmas of section
    [Linking] show that the monadic steps compute them when no statement
    raises. *)

Module Calm.

(** The columns that reference [t], in the order of [fk_relationships]. *)
Definition cascade_columns (t : entity) : list fk_column :=
  map fst (filter (fun e => entity_eqb (snd e) t) fk_relationships).

Definition emit (m : message) (w : world) : world :=
  World (data w) (events w ++ [Printed m]).

Definition same (d : db) : db := d.

Definition nullify_w (i : Z) (t : entity) (w : world) : world :=
  fold_left (fun w c => after (UpdateSetNull c i) (update_fk c (set_null i)) w)
            (cascade_columns t) w.

Definition delete_row_w (t : entity) (w : world) (r : Z * option str) : world :=
  after (DeleteWhereId t (fst r)) (delete_where t (Z.eqb (fst r)))
        (nullify_w (fst r) t w).

Definition write_name_w (t : entity) (w : world) (u : Z * str * str) : world :=
  let '(i, n, _) := u in
  let w1 := after (SelectName t i) same w in
  match select_name t i (data w) with
  | Some stored =>
      if name_differs stored n
      then after (UpdateName t n i) (update_name t n i) w1
      else w1
  | None => w1
  end.

Definition correct_names_w (m : meta) (t : entity) (w : world) : world :=
  let rows := select_id_name t (data w) in
  fold_left (write_name_w t) (name_updates m rows)
    (fold_left (delete_row_w t) (junk_rows rows)
       (after (SelectIdName t) same w)).

Definition remove_unvalidated_w (m : meta) (t : entity) (w : world) : world :=
  fold_left (delete_row_w t)
            (unvalidated_rows m (select_id_name t (data w)))
            (after (SelectIdName t) same w).

Definition remap_w (t : entity) (canonical_id : Z) (dups : list Z) (w : world)
  : world :=
  fold_left (fun w c => after (UpdateRemap c canonical_id dups)
                              (update_fk c (remap canonical_id dups)) w)
            (cascade_columns t) w.

Definition merge_group_w (t : entity) (w : world) (g : Z * list Z) : world :=
  let dups := duplicate_ids_to_remove (fst g) (snd g) in
  match dups with
  | [] => w
  | _ => after (DeleteWhereIdIn t dups)
               (delete_where t (fun x => mem_id x dups))
               (remap_w t (fst g) dups w)
  end.

Definition remove_duplicates_w (t : entity) (w : world) : world :=
  fold_left (merge_group_w t) (select_duplicates t (data w))
            (after (SelectDuplicates t) same w).

Definition fetch_w (net : endpoint -> listing) (e : endpoint) (w : world)
  : world :=
  match fetch_pages (net e) [] with
  | Some _ => w
  | None => emit (FetchWarning e) w
  end.

Definition fetch_references_w (net : endpoint -> listing) (w : world) : world :=
  fetch_w net ep_ability (fetch_w net ep_type (fetch_w net ep_pokemon w)).

Definition step2_w (net : endpoint -> listing) (w : world) : world :=
  fold_left (fun w t => correct_names_w (metas_of net t) t w) tables w.

Definition step3_w (net : endpoint -> listing) (w : world) : world :=
  fold_left (fun w t => remove_unvalidated_w (metas_of net t) t w) tables w.

Definition step4_w (w : world) : world :=
  fold_left (fun w t => remove_duplicates_w t w) tables w.

Definition try_block_w (net : endpoint -> listing) (w : world) : world :=
  emit Finished
    (after Commit same
       (step4_w (step3_w net (step2_w net
          (fetch_references_w net (after PragmaForeignKeys same w)))))).

End Calm.

Import Calm.

(** ** Sample data *)

Module Samples.

Open Scope Z_scope.

(** A network on which the ability listing fails. *)
Definition sample_net (e : endpoint) : listing :=
  match e with
  | ep_pokemon => NextPage [#"pikachu"; #"raichu"] (LastPage [#"mr-mime"; #"bulbasaur"])
  | ep_type => LastPage [#"electric"; #"grass"; #"fire"]
  | ep_ability => NextPage [#"static"] RequestException
  end.

(** A dataset with a misspelling, a junk row, an unknown name, duplicates
    and keys onto all of them. *)
Definition sample_db : db :=
  Db [ PokemonRow 1 (Some #"Pikuchu") (Some 1) None;
       PokemonRow 2 (Some #"pikachu") (Some 2) (Some 3);
       PokemonRow 3 (Some #"---") (Some 1) None;
       PokemonRow 4 (Some #"Zzzzzzzz") (Some 1) None;
       PokemonRow 5 (Some #"___") None None ]
     [ NamedRow 1 (Some #"electric"); NamedRow 2 (Some #"Electrik");
       NamedRow 3 (Some #"gras") ]
     [ NamedRow 1 (Some #"Static") ]
     [ NamedRow 1 (Some #"ash ketchum"); NamedRow 2 (Some #"Misty");
       NamedRow 3 (Some #"misty") ]
     [ TpaRow 1 (Some 1) (Some 3) (Some 1); TpaRow 2 (Some 2) (Some 2) None;
       TpaRow 3 (Some 3) (Some 1) (Some 1); TpaRow 4 (Some 4) (Some 1) (Some 1) ].

(** A network on which every listing is served. *)
Definition served_net (e : endpoint) : listing :=
  match e with
  | ep_pokemon => LastPage [#"pikachu"; #"raichu"]
  | ep_type => LastPage [#"electric"]
  | ep_ability => LastPage [#"static"]
  end.

(** A dataset whose only key names a type that does not exist. *)
Definition dangling_db : db :=
  Db [ PokemonRow 1 (Some #"Pikachu") (Some 99) None ] [] [] [] [].

(** A network whose pokemon listing holds the name ["-"]. *)
Definition hyphen_net (e : endpoint) : listing :=
  match e with
  | ep_pokemon => LastPage [#"-"]
  | _ => LastPage []
  end.



Definition short_db : db :=
  Db [ PokemonRow 1 (Some #"ab") None None ] [] [] [] [].

(** A storage that fails on the first statement. *)
Definition failing_storage (n : nat) : option sqlite_error :=
  match n with
  | O => Some DatabaseError
  | _ => None
  end.

Close Scope Z_scope.

End Samples.

Import Samples.

(** ** Views of the listing and of the tables *)

Module Views.

(** The names on the pages of a listing, page after page. *)
Fixpoint page_items (l : listing) : list str :=
  match l with
  | RequestException => []
  | LastPage results => results
  | NextPage results next => results ++ page_items next
  end.

(** The order of [sorted]: Python compares strings code point by code
    point. *)
Definition str_lt (a b : str) : Prop := str_ltb a b = true.

(** Each element is below the next one. *)
Fixpoint ascending (l : list str) : Prop :=
  match l with
  | x :: ((y :: _) as l') => str_lt x y /\ ascending l'
  | _ => True
  end.

(** A computation that keeps a property of the dataset, whether it returns
    or raises. *)
Definition keeps {A} (I : db -> Prop) (c : M A) : Prop :=
  forall w, I (data w) ->
    wp c w (fun _ w' => I (data w')) (fun _ w' => I (data w')).

(** The dataset [d] has no row that [conn] has not: the ids of every
    entity table are among those of [conn], and the association table has
    the rows of [conn], by id and in their order. *)
Definition nothing_added (conn d : db) : Prop :=
  (forall t, incl (ids t d) (ids t conn)) /\
  map tpa_id (trainer_pokemon_abilities d)
  = map tpa_id (trainer_pokemon_abilities conn).

(** The column [c] references the table [t]. *)
Definition references (c : fk_column) (t : entity) : bool :=
  existsb (fk_column_eqb c) (cascade_columns t).

End Views.

Import Views.

(** ** The endpoints of [create_fastapi_app]

    Every endpoint opens a connection of its own with [connect_db] and
    closes it when it is over.  The printed lines are left out.  Ids are
    never NULL in the model, so the two tests [is None] on an id in
    [create_pokemon_record] never fire and are left out as well. *)

Module Api.

(** The database file [DB_NAME] as [connect_db] meets it: missing, present
    while [sqlite3.connect] raises, or holding a dataset. *)
Inductive disk : Type :=
| NoFile
| Unopenable (e : sqlite_error)
| File (d : db).

(** [connect_db]: [None] when the file is missing or the connection
    fails. *)
Definition connect_db (k : disk) : option db :=
  match k with
  | NoFile => None
  | Unopenable _ => None
  | File d => Some d
  end.

(** The exceptions raised inside an endpoint, and the [detail] an
    [HTTPException] carries; a detail that prints the exception caught
    holds it. *)
Inductive exn : Type :=
| SqliteError (e : sqlite_error)
| HTTPException (status_code : nat) (d : detail)
| UnboundLocalError
with detail : Type :=
| ConnectionFailed
| CouldNotConnect
| DatabaseErrorDetail (e : sqlite_error)
| UnexpectedError (cause : exn)
| NotFoundOnPokeAPI (pokemon_name : str)
| ErrorFetching
| CreationDatabaseError (e : sqlite_error)
| CreationUnexpectedError (cause : exn).

(** What the caller of an endpoint gets: the value returned, or the
    [HTTPException] that leaves the function. *)
Inductive response (A : Type) : Type :=
| Returns (a : A)
| Raises (status_code : nat) (d : detail).
Arguments Returns {A} a.
Arguments Raises {A} status_code d.

(** [LOWER(x) = LOWER(?)]; with a NULL on the left the test is not true. *)
Definition lower_is (x : option str) (q : str) : bool :=
  match x with
  | Some s => str_eqb (lower s) (lower q)
  | None => false
  end.

(** The join condition [p.id = key]; a NULL key joins nothing. *)
Definition key_is (v : option Z) (i : Z) : bool :=
  match v with
  | Some x => Z.eqb x i
  | None => false
  end.

(** [SELECT DISTINCT] on one column: each value once, NULL included. *)
Fixpoint distinct (l : list (option str)) : list (option str) :=
  match l with
  | [] => []
  | x :: l' => x :: filter (fun y => negb (key_eqb y x)) (distinct l')
  end.

(** [SELECT DISTINCT p.name FROM pokemon p
     JOIN trainer_pokemon_abilities tpa ON p.id = tpa.pokemon_id
     JOIN abilities a ON tpa.ability_id = a.id
     WHERE LOWER(a.name) = LOWER(?)] *)
Definition select_pokemon_by_ability (ability_name : str) (d : db)
  : list (option str) :=
  distinct
    (flat_map (fun p =>
       flat_map (fun tpa =>
         flat_map (fun a =>
           if key_is (pokemon_id tpa) (p_id p)
              && key_is (ability_id tpa) (id a)
              && lower_is (name a) ability_name
           then [p_name p] else [])
         (tbl_abilities d))
       (trainer_pokemon_abilities d))
     (tbl_pokemon d)).

(** [SELECT DISTINCT p.name FROM pokemon p
     JOIN types t1 ON p.type1_id = t1.id
     LEFT JOIN types t2 ON p.type2_id = t2.id
     WHERE LOWER(t1.name) = LOWER(?)
        OR (t2.id IS NOT NULL AND LOWER(t2.name) = LOWER(?))]:
    when no row of [types] joins as [t2] the columns of [t2] are NULL. *)
Definition select_pokemon_by_type (type_name : str) (d : db)
  : list (option str) :=
  distinct
    (flat_map (fun p =>
       flat_map (fun t1 =>
         if key_is (type1_id p) (id t1) then
           match filter (fun t2 => key_is (type2_id p) (id t2)) (tbl_types d) with
           | [] => if lower_is (name t1) type_name then [p_name p] else []
           | joined =>
               flat_map (fun t2 =>
                 if lower_is (name t1) type_name || lower_is (name t2) type_name
                 then [p_name p] else [])
               joined
           end
         else [])
       (tbl_types d))
     (tbl_pokemon d)).

(** [SELECT DISTINCT t.name FROM trainers t
     JOIN trainer_pokemon_abilities tpa ON t.id = tpa.trainer_id
     JOIN pokemon p ON tpa.pokemon_id = p.id
     WHERE LOWER(p.name) = LOWER(?)] *)
Definition select_trainers_by_pokemon (pokemon_name : str) (d : db)
  : list (option str) :=
  distinct
    (flat_map (fun t =>
       flat_map (fun tpa =>
         flat_map (fun p =>
           if key_is (trainer_id tpa) (id t)
              && key_is (pokemon_id tpa) (p_id p)
              && lower_is (p_name p) pokemon_name
           then [name t] else [])
         (tbl_pokemon d))
       (trainer_pokemon_abilities d))
     (tbl_trainers d)).

(** [SELECT DISTINCT a.name FROM abilities a
     JOIN trainer_pokemon_abilities tpa ON a.id = tpa.ability_id
     JOIN pokemon p ON tpa.pokemon_id = p.id
     WHERE LOWER(p.name) = LOWER(?)] *)
Definition select_abilities_by_pokemon (pokemon_name : str) (d : db)
  : list (option str) :=
  distinct
    (flat_map (fun a =>
       flat_map (fun tpa =>
         flat_map (fun p =>
           if key_is (ability_id tpa) (id a)
              && key_is (pokemon_id tpa) (p_id p)
              && lower_is (p_name p) pokemon_name
           then [name a] else [])
         (tbl_pokemon d))
       (trainer_pokemon_abilities d))
     (tbl_abilities d)).

(** [SELECT id FROM t WHERE LOWER(name) = LOWER(?)] with [fetchone()]: the
    id of the first row found, in the order of the table. *)
Definition select_id_by_name (t : entity) (q : str) (d : db) : option Z :=
  match filter (fun r => lower_is (snd r) q) (select_id_name t d) with
  | [] => None
  | r :: _ => Some (fst r)
  end.

(** [SELECT id FROM trainer_pokemon_abilities
     WHERE trainer_id = ? AND pokemon_id = ? AND ability_id = ?] with
    [fetchone()] *)
Definition select_tpa_id (trainer pokemon_ ability : Z) (d : db) : option Z :=
  match filter (fun r => key_is (trainer_id r) trainer
                         && key_is (pokemon_id r) pokemon_
                         && key_is (ability_id r) ability)
               (trainer_pokemon_abilities d) with
  | [] => None
  | r :: _ => Some (tpa_id r)
  end.

(** [UPDATE pokemon SET type1_id = ?, type2_id = ? WHERE id = ?] *)
Definition update_types (t1 t2 : option Z) (row_id : Z) (d : db) : db :=
  Db (map (fun r => if Z.eqb (p_id r) row_id
                    then PokemonRow (p_id r) (p_name r) t1 t2 else r)
          (tbl_pokemon d))
     (tbl_types d) (tbl_abilities d) (tbl_trainers d)
     (trainer_pokemon_abilities d).

(** What PokeAPI answers for the name in the URL: no response at all
    ([requests.get] raises), a response whose status makes
    [raise_for_status] raise, or the data of a pokemon, which has the keys
    the code reads. *)
Inductive reply : Type :=
| NoResponse
| HttpError (status_code : nat)
| PokeData (name : str) (types_ abilities_ : list str).

Section Serve.

(** The error, if any, that the storage raises on the n-th statement of a
    request; the id the storage gives a row inserted into a table that
    holds the given ids ([cursor.lastrowid]); the draw of
    [ORDER BY RANDOM()]; and the answers of PokeAPI, by the name in the
    URL. *)
Variable faults : nat -> option sqlite_error.
Variable lastrowid : list Z -> Z.
Variable dice : nat.
Variable pokeapi : str -> reply.

(** [INSERT INTO t (name) VALUES (?)]: the new row and its id. *)
Definition insert_name (t : entity) (new_name : str) (d : db) : Z * db :=
  let i := lastrowid (ids t d) in
  (i, match t with
      | pokemon =>
          Db (tbl_pokemon d ++ [PokemonRow i (Some new_name) None None])
             (tbl_types d) (tbl_abilities d) (tbl_trainers d)
             (trainer_pokemon_abilities d)
      | types =>
          Db (tbl_pokemon d) (tbl_types d ++ [NamedRow i (Some new_name)])
             (tbl_abilities d) (tbl_trainers d) (trainer_pokemon_abilities d)
      | abilities =>
          Db (tbl_pokemon d) (tbl_types d)
             (tbl_abilities d ++ [NamedRow i (Some new_name)])
             (tbl_trainers d) (trainer_pokemon_abilities d)
      | trainers =>
          Db (tbl_pokemon d) (tbl_types d) (tbl_abilities d)
             (tbl_trainers d ++ [NamedRow i (Some new_name)])
             (trainer_pokemon_abilities d)
      end).

(** [INSERT INTO pokemon (name, type1_id, type2_id) VALUES (?, ?, ?)] *)
Definition insert_pokemon (new_name : str) (t1 t2 : option Z) (d : db)
  : Z * db :=
  let i := lastrowid (ids pokemon d) in
  (i, Db (tbl_pokemon d ++ [PokemonRow i (Some new_name) t1 t2])
         (tbl_types d) (tbl_abilities d) (tbl_trainers d)
         (trainer_pokemon_abilities d)).

(** [INSERT INTO trainer_pokemon_abilities (trainer_id, pokemon_id,
    ability_id) VALUES (?, ?, ?)] *)
Definition insert_tpa (trainer pokemon_ ability : Z) (d : db) : Z * db :=
  let i := lastrowid (map tpa_id (trainer_pokemon_abilities d)) in
  (i, Db (tbl_pokemon d) (tbl_types d) (tbl_abilities d) (tbl_trainers d)
         (trainer_pokemon_abilities d
          ++ [TpaRow i (Some pokemon_) (Some trainer) (Some ability)])).

(** [SELECT id FROM trainers ORDER BY RANDOM() LIMIT 1] with
    [fetchone()]: the row the draw falls on, none in an empty table. *)
Definition select_random_trainer (d : db) : option Z :=
  nth_error (ids trainers d) (dice mod length (ids trainers d)).

(** The body of the four listing endpoints up to the [SELECT], and their
    handlers: [except sqlite3.Error] first, then [except Exception], which
    also catches the [HTTPException] raised in the body. *)
Definition listing_body (no_connection : detail)
           (select : db -> list (option str)) (k : disk)
  : exn + list (option str) :=
  match connect_db k with
  | None => inl (HTTPException 500 no_connection)
  | Some d =>
      match faults 0 with
      | Some e => inl (SqliteError e)
      | None => inr (select d)
      end
  end.

Definition listing_handlers (r : exn + list (option str))
  : response (list (option str)) :=
  match r with
  | inr rows => Returns rows
  | inl (SqliteError e) => Raises 500 (DatabaseErrorDetail e)
  | inl x => Raises 500 (UnexpectedError x)
  end.

Definition get_pokemon_by_ability (k : disk) (ability_name : str)
  : response (list (option str)) :=
  listing_handlers
    (listing_body ConnectionFailed (select_pokemon_by_ability ability_name) k).

Definition get_pokemon_by_type (k : disk) (type_name : str)
  : response (list (option str)) :=
  listing_handlers
    (listing_body CouldNotConnect (select_pokemon_by_type type_name) k).

Definition get_trainers_by_pokemon (k : disk) (pokemon_name : str)
  : response (list (option str)) :=
  listing_handlers
    (listing_body CouldNotConnect (select_trainers_by_pokemon pokemon_name) k).

Definition get_abilities_by_pokemon (k : disk) (pokemon_name : str)
  : response (list (option str)) :=
  listing_handlers
    (listing_body CouldNotConnect (select_abilities_by_pokemon pokemon_name) k).

(** The connection of [create_pokemon_record]: what the open transaction
    sees and how many statements were issued. *)
Record session : Type := Session { store : db; issued : nat }.

Definition T (A : Type) : Type := session -> (exn + A) * session.

Definition value {A} (a : A) : T A := fun s => (inr a, s).

Definition and_then {A B} (c : T A) (k : A -> T B) : T B :=
  fun s => match c s with
           | (inr a, s') => k a s'
           | (inl x, s') => (inl x, s')
           end.

Definition throw {A} (x : exn) : T A := fun s => (inl x, s).

(** [cursor.execute] of a statement, with what is read back from the
    cursor; [conn.commit()] counts as one. *)
Definition statement {A} (run : db -> A * db) : T A :=
  fun s => match faults (issued s) with
           | Some e => (inl (SqliteError e), Session (store s) (S (issued s)))
           | None => let (a, d') := run (store s) in
                     (inr a, Session d' (S (issued s)))
           end.

Definition reading {A} (f : db -> A) (d : db) : A * db := (f d, d).
Definition pragma_foreign_keys (d : db) : unit * db := (tt, d).
Definition commit (d : db) : unit * db := (tt, d).
Definition changing (f : db -> db) (d : db) : unit * db := (tt, f d).

(** A loop that appends one value per turn. *)
Fixpoint collect {X Y} (l : list X) (body : X -> T Y) : T (list Y) :=
  match l with
  | [] => value []
  | x :: l' =>
      and_then (body x) (fun y => and_then (collect l' body) (fun ys => value (y :: ys)))
  end.

(** The get-or-create of a type and of an ability: the id of the first
    row with that name up to case, or of a row inserted for it. *)
Definition get_or_create (t : entity) (name_api : str) : T Z :=
  and_then (statement (reading (select_id_by_name t name_api))) (fun row =>
    match row with
    | Some i => value i
    | None => statement (insert_name t name_api)
    end).

(** Step 2: the request to PokeAPI and its handler.  With no response the
    handler reads [response] before it was bound. *)
Definition fetch_poke_data (pokemon_name : str)
  : T (str * list str * list str) :=
  match pokeapi (lower pokemon_name) with
  | NoResponse => throw UnboundLocalError
  | HttpError status_code =>
      if status_code =? 404
      then throw (HTTPException 404 (NotFoundOnPokeAPI pokemon_name))
      else throw (HTTPException 500 ErrorFetching)
  | PokeData name_ types_ abilities_ => value (name_, types_, abilities_)
  end.

(** Step 3: the ids of the first two types. *)
Definition type_ids (types_api : list str) : T (option Z * option Z) :=
  match types_api with
  | [] => value (None, None)
  | first :: rest =>
      and_then (get_or_create types first) (fun type1 =>
        match rest with
        | [] => value (Some type1, None)
        | second :: _ =>
            and_then (get_or_create types second) (fun type2 =>
              value (Some type1, Some type2))
        end)
  end.

(** Step 5: the pokemon row, updated when it exists. *)
Definition pokemon_record (pokemon_name_api : str) (type1 type2 : option Z)
  : T Z :=
  and_then (statement (reading (select_id_by_name pokemon pokemon_name_api)))
    (fun pokemon_row =>
       match pokemon_row with
       | Some i =>
           and_then (statement (changing (update_types type1 type2 i)))
                 (fun _ => value i)
       | None => statement (insert_pokemon pokemon_name_api type1 type2)
       end).

Definition new_trainer : str := list_ascii_of_string "New Trainer".

(** Step 6: a trainer drawn at random, created when there is none. *)
Definition assign_trainer : T Z :=
  and_then (statement (reading select_random_trainer)) (fun trainer_row =>
    match trainer_row with
    | Some i => value i
    | None => statement (insert_name trainers new_trainer)
    end).

(** Step 7: one association row per ability, kept when it exists. *)
Definition link (trainer pokemon_ : Z) (ability_ids_local : list Z)
  : T (list Z) :=
  collect ability_ids_local (fun ab_id =>
    and_then (statement (reading (select_tpa_id trainer pokemon_ ab_id)))
      (fun existing_tpa_record =>
         match existing_tpa_record with
         | None => statement (insert_tpa trainer pokemon_ ab_id)
         | Some i => value i
         end)).

(** The body of the [try] of [create_pokemon_record] once the connection
    is open; it returns [tpa_ids]. *)
Definition create_body (pokemon_name : str) : T (list Z) :=
  and_then (statement pragma_foreign_keys) (fun _ =>
  and_then (fetch_poke_data pokemon_name) (fun poke_data =>
    let '(name_, types_, abilities_) := poke_data in
    let pokemon_name_api := to_title_case name_ in
    let types_api := map to_title_case types_ in
    let abilities_api := map to_title_case abilities_ in
  and_then (type_ids types_api) (fun type_pair =>
  and_then (collect abilities_api (get_or_create abilities))
        (fun ability_ids_local =>
  and_then (pokemon_record pokemon_name_api (fst type_pair) (snd type_pair))
        (fun pokemon_ =>
  and_then assign_trainer (fun trainer =>
  and_then (link trainer pokemon_ ability_ids_local) (fun tpa_ids =>
  and_then (statement commit) (fun _ =>
  value tpa_ids)))))))).

(** What a request leaves: the answer and the file. *)
Record answer : Type :=
  Answer { sent : response (list Z); disk_after : disk }.

(** [create_pokemon_record]: the handlers roll back, which leaves the file
    as it was; only the commit at the end of the body changes it. *)
Definition create_pokemon_record (k : disk) (pokemon_name : str) : answer :=
  match connect_db k with
  | None =>
      Answer (Raises 500 (CreationUnexpectedError
                            (HTTPException 500 CouldNotConnect))) k
  | Some d =>
      match create_body pokemon_name (Session d 0) with
      | (inr tpa_ids, s) => Answer (Returns tpa_ids) (File (store s))
      | (inl (SqliteError e), _) =>
          Answer (Raises 500 (CreationDatabaseError e)) k
      | (inl x, _) => Answer (Raises 500 (CreationUnexpectedError x)) k
      end
  end.

End Serve.

(** The main block: the file is cleaned when the connection opens. *)
Definition main (faults : nat -> option sqlite_error)
           (net : endpoint -> listing) (k : disk) : disk :=
  match connect_db k with
  | Some temp_conn => File (dataset (clean_database faults net temp_conn))
  | None => k
  end.

End Api.

Import Api.

(** ** The record creation on a storage that raises nothing

    The steps of [create_pokemon_record] as functions of the dataset; the
    lemmas of section [Following] show that the monadic steps compute
    them when no statement raises. *)

Module Direct.

Section Direct.

Variable lastrowid : list Z -> Z.
Variable dice : nat.

Definition get_or_create_d (t : entity) (name_api : str) (d : db) : Z * db :=
  match select_id_by_name t name_api d with
  | Some i => (i, d)
  | None => insert_name lastrowid t name_api d
  end.

Fixpoint collect_d {X} (f : X -> db -> Z * db) (l : list X) (d : db)
  : list Z * db :=
  match l with
  | [] => ([], d)
  | x :: l' =>
      let (y, d1) := f x d in
      let (ys, d2) := collect_d f l' d1 in
      (y :: ys, d2)
  end.

Definition type_ids_d (types_api : list str) (d : db)
  : (option Z * option Z) * db :=
  match types_api with
  | [] => ((None, None), d)
  | first :: rest =>
      let (type1, d1) := get_or_create_d types first d in
      match rest with
      | [] => ((Some type1, None), d1)
      | second :: _ =>
          let (type2, d2) := get_or_create_d types second d1 in
          ((Some type1, Some type2), d2)
      end
  end.

Definition pokemon_record_d (pokemon_name_api : str) (type1 type2 : option Z)
           (d : db) : Z * db :=
  match select_id_by_name pokemon pokemon_name_api d with
  | Some i => (i, update_types type1 type2 i d)
  | None => insert_pokemon lastrowid pokemon_name_api type1 type2 d
  end.

Definition assign_trainer_d (d : db) : Z * db :=
  match select_random_trainer dice d with
  | Some i => (i, d)
  | None => insert_name lastrowid trainers new_trainer d
  end.

Definition link_d (trainer pokemon_ ab_id : Z) (d : db) : Z * db :=
  match select_tpa_id trainer pokemon_ ab_id d with
  | None => insert_tpa lastrowid trainer pokemon_ ab_id d
  | Some i => (i, d)
  end.

(** The ids the steps settle on, with the dataset after them: the two
    type ids, the ability ids, the pokemon id and the trainer id. *)
Record settled : Type :=
  Settled { type_pair : option Z * option Z; ability_ids_local : list Z;
            the_pokemon : Z; the_trainer : Z; prepared : db }.

Definition settle (name_ : str) (types_ abilities_ : list str) (d : db)
  : settled :=
  let (tp, d1) := type_ids_d (map to_title_case types_) d in
  let (abs, d2) :=
    collect_d (get_or_create_d abilities) (map to_title_case abilities_) d1 in
  let (p, d3) := pokemon_record_d (to_title_case name_) (fst tp) (snd tp) d2 in
  let (t, d4) := assign_trainer_d d3 in
  Settled tp abs p t d4.

(** [tpa_ids] and the dataset that is committed. *)
Definition create_d (name_ : str) (types_ abilities_ : list str) (d : db)
  : list Z * db :=
  let s := settle name_ types_ abilities_ d in
  collect_d (link_d (the_trainer s) (the_pokemon s))
            (ability_ids_local s) (prepared s).

End Direct.

(** The computation [c] returns what [f] gives, whatever the count of the
    statements issued. *)
Definition computes {A} (c : T A) (f : db -> A * db) : Prop :=
  forall s, exists n,
    c s = (inr (fst (f (store s))), Session (snd (f (store s))) n).

(** Whenever [c] returns, [c0] returns the same from the same session. *)
Definition returns_as {A} (c c0 : T A) : Prop :=
  forall s a s', c s = (inr a, s') -> c0 s = (inr a, s').

(** The row [i] of [t] has the name [n] up to case. *)
Definition named (t : entity) (i : Z) (n : str) (d : db) : Prop :=
  exists stored, In (i, stored) (select_id_name t d) /\
                 sql_lower stored = Some (lower n).

(** The association row [i] links the three rows. *)
Definition linked (i trainer pokemon_ ability : Z) (d : db) : Prop :=
  In (TpaRow i (Some pokemon_) (Some trainer) (Some ability))
     (trainer_pokemon_abilities d).

(** The pokemon row [i] has the name [n] up to case and the two type
    ids. *)
Definition typed (i : Z) (n : str) (type1 type2 : option Z) (d : db) : Prop :=
  exists r, In r (tbl_pokemon d) /\ p_id r = i /\
            sql_lower (p_name r) = Some (lower n) /\
            type1_id r = type1 /\ type2_id r = type2.

(** The rows of [d] are rows of [d'], up to the types of a pokemon. *)
Definition later (d d' : db) : Prop :=
  (forall t, incl (select_id_name t d) (select_id_name t d')) /\
  incl (trainer_pokemon_abilities d) (trainer_pokemon_abilities d').

(** The tables of [d'] begin with the rows of [d], up to the types of a
    pokemon. *)
Definition grown (d d' : db) : Prop :=
  (forall t, exists extra,
     select_id_name t d' = select_id_name t d ++ extra) /\
  exists extra,
    trainer_pokemon_abilities d' = trainer_pokemon_abilities d ++ extra.

(** Every pokemon row with the id [i] has the two type ids. *)
Definition types_set (i : Z) (type1 type2 : option Z) (d : db) : Prop :=
  forall r, In r (tbl_pokemon d) -> p_id r = i ->
    type1_id r = type1 /\ type2_id r = type2.

(** A key that is NULL or the id of a row of [t]. *)
Definition key_ok (t : entity) (v : option Z) (d : db) : Prop :=
  forall x, v = Some x -> In x (ids t d).

(** Unique ids, keys that reference rows, and names that differ up to
    case. *)
Definition sound (d : db) : Prop :=
  ids_unique d /\ ref_ok d /\ forall t, no_duplicates t d.

(** The storage never gives an id that the table holds. *)
Definition fresh (lastrowid : list Z -> Z) : Prop :=
  forall l, ~ In (lastrowid l) l.

(** The rowid of SQLite for a table without [AUTOINCREMENT]: one more
    than the largest, 1 in an empty table. *)
Definition next_rowid (l : list Z) : Z := (fold_right Z.max 0 l + 1)%Z.

End Direct.

Import Direct.

(** ** Sample requests *)

Module Cases.

Open Scope Z_scope.

(** A cleaned dataset with one trainer who has one pokemon. *)
Definition served_db : db :=
  Db [ PokemonRow 1 (Some #"Pikachu") (Some 1) None ]
     [ NamedRow 1 (Some #"Electric") ]
     [ NamedRow 1 (Some #"Static") ]
     [ NamedRow 1 (Some #"Misty") ]
     [ TpaRow 1 (Some 1) (Some 1) (Some 1) ].

(** A pokemon whose first type is NULL and whose second type is Fire. *)
Definition second_type_db : db :=
  Db [ PokemonRow 1 (Some #"Charizard") None (Some 1) ]
     [ NamedRow 1 (Some #"Fire") ] [] [] [].

(** PokeAPI knows two pokemon and answers 404 for every other name. *)
Definition sample_pokeapi (url_name : str) : reply :=
  if str_eqb url_name #"mr-mime"
  then PokeData #"mr-mime" [#"psychic"; #"fairy"] [#"soundproof"; #"filter"]
  else if str_eqb url_name #"pikachu"
       then PokeData #"pikachu" [#"electric"] [#"static"; #"lightning-rod"]
       else HttpError 404.

(** [served_db] after the creation of "mr-mime". *)
Definition mime_db : db :=
  Db [ PokemonRow 1 (Some #"Pikachu") (Some 1) None;
       PokemonRow 2 (Some #"Mr Mime") (Some 2) (Some 3) ]
     [ NamedRow 1 (Some #"Electric"); NamedRow 2 (Some #"Psychic");
       NamedRow 3 (Some #"Fairy") ]
     [ NamedRow 1 (Some #"Static"); NamedRow 2 (Some #"Soundproof");
       NamedRow 3 (Some #"Filter") ]
     [ NamedRow 1 (Some #"Misty") ]
     [ TpaRow 1 (Some 1) (Some 1) (Some 1);
       TpaRow 2 (Some 2) (Some 1) (Some 2);
       TpaRow 3 (Some 2) (Some 1) (Some 3) ].

(** Trainers whose names differ by case only, the second with the lower
    id. *)
Definition twins_db : db :=
  Db [] [] []
     [ NamedRow 7 (Some #"MISTY"); NamedRow 3 (Some #"Misty");
       NamedRow 5 (Some #"Brock") ]
     [ TpaRow 1 None (Some 7) None ].

Close Scope Z_scope.

(** A storage that fails from its thousandth statement on. *)
Definition late_fault (n : nat) : option sqlite_error :=
  if 1000 <=? n then Some DatabaseError else None.

End Cases.

Import Cases.

(** ** Tactics *)

Ltac min_leaf :=
  solve [ apply Nat.eq_le_incl; ring
        | eapply Nat.le_trans; [apply Nat.le_min_l|]; min_leaf
        | eapply Nat.le_trans; [apply Nat.le_min_r|]; min_leaf ].

Ltac min_ac :=
  unfold min3; rewrite <- ?Nat.add_min_distr_r;
  apply Nat.le_antisymm; repeat apply Nat.min_glb; min_leaf.

(** * Lemmas *)

(** ** The edit distance *)

Section LevFacts.

Lemma lev_nil_l t : lev [] t = length t.
Proof. reflexivity. Qed.

Lemma lev_nil_r s : lev s [] = length s.
Proof. destruct s; reflexivity. Qed.

Lemma lev_cons_cons a s b t :
  lev (a :: s) (b :: t) =
  min3 (lev s (b :: t) + 1) (lev (a :: s) t + 1) (lev s t + neq a b).
Proof. reflexivity. Qed.

Lemma neq_sym a b : neq a b = neq b a.
Proof. unfold neq. rewrite Ascii.eqb_sym. reflexivity. Qed.

Lemma neq_refl a : neq a a = 0.
Proof. unfold neq. rewrite Ascii.eqb_refl. reflexivity. Qed.

Lemma neq_le a b : neq a b <= 1.
Proof. unfold neq. destruct (Ascii.eqb a b); lia. Qed.

Lemma lev_sym s : forall t, lev s t = lev t s.
Proof.
  induction s as [|a s IHs]; intros t.
  - now rewrite lev_nil_l, lev_nil_r.
  - induction t as [|b t IHt].
    + now rewrite lev_nil_l, lev_nil_r.
    + rewrite !lev_cons_cons, IHt, (IHs (b :: t)), (IHs t), (neq_sym a b).
      unfold min3. lia.
Qed.

Lemma lev_refl s : lev s s = 0.
Proof.
  induction s as [|a s IH]; [reflexivity|].
  rewrite lev_cons_cons, IH, neq_refl. unfold min3. lia.
Qed.

Lemma lev_snoc a b : forall n s t, length s + length t <= n ->
  lev (s ++ [a]) (t ++ [b]) =
  min3 (lev s (t ++ [b]) + 1) (lev (s ++ [a]) t + 1) (lev s t + neq a b).
Proof.
  induction n as [|n IH]; intros s t Hn.
  - destruct s, t; simpl in Hn; try lia. reflexivity.
  - destruct s as [|x s], t as [|y t].
    + reflexivity.
    + simpl app. rewrite !lev_cons_cons.
      change (lev [a] (t ++ [b])) with (lev ([] ++ [a]) (t ++ [b])).
      rewrite (IH [] t) by (simpl in *; lia).
      simpl app. rewrite !lev_nil_l, length_app. simpl length.
      pose proof (neq_le a b). pose proof (neq_le a y).
      unfold min3. lia.
    + simpl app. rewrite !lev_cons_cons.
      change (lev (s ++ [a]) [b]) with (lev (s ++ [a]) ([] ++ [b])).
      rewrite (IH s []) by (simpl in *; lia).
      simpl app. rewrite !lev_nil_r, length_app. simpl length.
      unfold min3. lia.
    + simpl app. rewrite !lev_cons_cons.
      change (y :: t ++ [b]) with ((y :: t) ++ [b]).
      change (x :: s ++ [a]) with ((x :: s) ++ [a]).
      rewrite (IH s (y :: t)) by (simpl in *; lia).
      rewrite (IH (x :: s) t) by (simpl in *; lia).
      rewrite (IH s t) by (simpl in *; lia).
      simpl app. rewrite ?lev_cons_cons.
      min_ac.
Qed.

Lemma lev_rev s : forall t, lev (rev s) (rev t) = lev s t.
Proof.
  induction s as [|a s IHs]; intros t.
  - simpl. now rewrite length_rev.
  - induction t as [|b t IHt].
    + rewrite !lev_nil_r. now rewrite length_rev.
    + rewrite lev_cons_cons, <- IHt, <- (IHs (b :: t)), <- (IHs t).
      simpl rev. now rewrite (@lev_snoc a b _ (rev s) (rev t) (le_n _)).
Qed.

Lemma row_nil Q r : row [] Q r = seq (length Q) (length r + 1).
Proof.
  revert Q; induction r as [|b r IH]; intros Q; simpl; [reflexivity|].
  now rewrite IH.
Qed.

Lemma inner_loop_row c P r : forall Q,
  inner_loop c r (row P Q r) (lev (c :: P) Q) = tl (row (c :: P) Q r).
Proof.
  induction r as [|b r IH]; intros Q; [reflexivity|].
  cbn [row inner_loop tl]. 
  destruct r as [|b' r]; cbn [row inner_loop tl] in *.
  - rewrite lev_cons_cons. reflexivity.
  - rewrite <- lev_cons_cons. f_equal. 
    specialize (IH (b :: Q)). cbn [row tl] in IH. exact IH.
Qed.

Lemma outer_loop_row s1 s2 : forall P,
  outer_loop s1 s2 (length P) (row P [] s2) = row (rev s1 ++ P) [] s2.
Proof.
  induction s1 as [|c s1 IH]; intros P; [reflexivity|].
  cbn [outer_loop].
  replace (length P + 1) with (lev (c :: P) []) by (rewrite lev_nil_r; simpl; lia).
  rewrite inner_loop_row.
  replace (lev (c :: P) [] :: tl (row (c :: P) [] s2)) with (row (c :: P) [] s2)
    by (destruct s2; reflexivity).
  replace (lev (c :: P) []) with (length (c :: P)) by now rewrite lev_nil_r.
  rewrite IH. simpl rev. now rewrite <- app_assoc.
Qed.

Lemma last_row P r : forall Q, last (row P Q r) 0 = lev P (rev r ++ Q).
Proof.
  induction r as [|b r IH]; intros Q; [reflexivity|].
  cbn [row]. simpl rev. rewrite <- app_assoc. simpl app. rewrite <- IH.
  destruct r; reflexivity.
Qed.

Lemma levenshtein_rows_lev s1 s2 : levenshtein_rows s1 s2 = lev s1 s2.
Proof.
  unfold levenshtein_rows. destruct (Nat.eqb_spec (length s2) 0) as [E|E].
  - destruct s2; [|discriminate]. now rewrite lev_nil_r.
  - change (seq 0 (length s2 + 1)) with (seq (length (@nil ascii)) (length s2 + 1)).
    rewrite <- row_nil.
    change (outer_loop s1 s2 0) with (outer_loop s1 s2 (length (@nil ascii))).
    rewrite (outer_loop_row s1 s2 []).
    rewrite last_row, !app_nil_r. apply lev_rev.
Qed.

Lemma levenshtein_distance_lev s1 s2 : levenshtein_distance s1 s2 = lev s1 s2.
Proof.
  unfold levenshtein_distance. destruct (length s1 <? length s2).
  - rewrite levenshtein_rows_lev. apply lev_sym.
  - apply levenshtein_rows_lev.
Qed.

End LevFacts.

Section TitleCase.

Lemma split_not_nil sep s : split sep s <> [].
Proof.
  destruct s as [|c s]; simpl; [discriminate|].
  destruct (Ascii.eqb c sep); [discriminate|].
  destruct (split sep s); discriminate.
Qed.

Lemma join_push sep c tok toks :
  join sep ((c :: tok) :: toks) = c :: join sep (tok :: toks).
Proof. destruct toks; reflexivity. Qed.

Lemma join_empty_first c tok toks :
  join [c] ([] :: tok :: toks) = c :: join [c] (tok :: toks).
Proof. reflexivity. Qed.

Lemma capitalize_eq tok : capitalize tok = capitalize_lower tok.
Proof. destruct tok; reflexivity. Qed.

Lemma is_sep_replace c :
  Ascii.eqb (if Ascii.eqb c hyphen then space else c) space = is_sep c.
Proof.
  unfold is_sep. destruct (Ascii.eqb c hyphen) eqn:E; [reflexivity|].
  reflexivity.
Qed.

Lemma title_tokens s : forall start : bool,
  join [space]
       match split space (replace hyphen space s) with
       | [] => @nil str
       | tok :: toks =>
           (if start then capitalize tok else lower tok) :: map capitalize toks
       end
  = title_from start s.
Proof.
  induction s as [|c s IH]; intros start.
  - simpl. destruct start; reflexivity.
  - cbn [replace map split title_from]. rewrite is_sep_replace.
    fold (replace hyphen space s).
    destruct (is_sep c) eqn:Hsep.
    + specialize (IH true).
      destruct (split space (replace hyphen space s)) as [|tok toks] eqn:Hs;
        [now apply split_not_nil in Hs|].
      cbn iota in IH.
      replace (if start then capitalize [] else lower []) with (@nil ascii)
        by (destruct start; reflexivity).
      cbn [map]. rewrite join_empty_first. f_equal. exact IH.
    + assert (Hc : Ascii.eqb c hyphen = false).
      { unfold is_sep in Hsep. now apply orb_false_iff in Hsep. }
      rewrite Hc. specialize (IH false).
      destruct (split space (replace hyphen space s)) as [|tok toks] eqn:Hs;
        [now apply split_not_nil in Hs|].
      cbn iota in IH.
      replace (if start then capitalize (c :: tok) else lower (c :: tok))
        with ((if start then to_upper c else to_lower c) :: lower tok)
        by (destruct start; reflexivity).
      rewrite join_push. f_equal. exact IH.
Qed.

Lemma to_title_case_title_from s : to_title_case s = title_from true s.
Proof.
  destruct s as [|c s]; [reflexivity|].
  rewrite <- title_tokens. unfold to_title_case.
  destruct (split space (replace hyphen space (c :: s))) eqn:Hs;
    [now apply split_not_nil in Hs|reflexivity].
Qed.

Lemma title_from_length s : forall start, length (title_from start s) = length s.
Proof.
  induction s as [|c s IH]; intros start; [reflexivity|].
  simpl. destruct (is_sep c); simpl; now rewrite IH.
Qed.

End TitleCase.

Section Junk.

Lemma star_dollar_forallb cls s :
  cls newline = true -> star_dollar cls s = forallb cls s.
Proof.
  intros Hnl. induction s as [|c s IH]; [reflexivity|].
  simpl. rewrite IH. destruct (Ascii.eqb_spec c newline) as [->|_].
  - rewrite Hnl. simpl. destruct s; [reflexivity|]. reflexivity.
  - reflexivity.
Qed.

Lemma space_not_word c : is_space c = true -> is_word c = false.
Proof.
  destruct c as [[] [] [] [] [] [] [] []]; vm_compute; congruence.
Qed.

Lemma forallb_space_nonword s :
  forallb is_space s = true -> forallb (fun c => negb (is_word c)) s = true.
Proof.
  induction s as [|c s IH]; [reflexivity|]. simpl.
  intros H. apply andb_true_iff in H as [Hc Hs].
  now rewrite (space_not_word _ Hc), IH.
Qed.

Lemma junk_pattern_nonword s :
  junk_pattern_global s = forallb (fun c => negb (is_word c)) s.
Proof.
  unfold junk_pattern_global.
  rewrite !star_dollar_forallb by reflexivity.
  destruct (forallb is_space s) eqn:E.
  - now rewrite (forallb_space_nonword _ E).
  - now rewrite orb_false_r.
Qed.

Lemma lstrip_nil s : lstrip s = [] <-> forallb is_space s = true.
Proof.
  induction s as [|c s IH]; simpl; [tauto|].
  destruct (is_space c); simpl; [exact IH|]. split; discriminate.
Qed.

Lemma forallb_rev {A} (f : A -> bool) l : forallb f (rev l) = forallb f l.
Proof.
  induction l as [|x l IH]; [reflexivity|].
  simpl. rewrite forallb_app, IH. simpl. rewrite andb_true_r. apply andb_comm.
Qed.

Lemma lstrip_suffix s : exists p, s = p ++ lstrip s /\ forallb is_space p = true.
Proof.
  induction s as [|c s (p & Hp & Hsp)]; [now exists []|].
  simpl. destruct (is_space c) eqn:E.
  - exists (c :: p). simpl. rewrite E, Hsp. split; [now f_equal|reflexivity].
  - now exists [].
Qed.

Lemma strip_falsy s : falsy (strip s) = forallb is_space s.
Proof.
  unfold strip.
  destruct (forallb is_space s) eqn:E.
  - apply lstrip_nil in E. rewrite E. reflexivity.
  - destruct (rev (lstrip (rev (lstrip s)))) eqn:R; [|reflexivity].
    exfalso.
    apply (f_equal (@rev ascii)) in R. rewrite rev_involutive in R. simpl in R.
    apply lstrip_nil in R. rewrite forallb_rev in R.
    destruct (lstrip_suffix s) as (p & Hp & Hsp).
    rewrite Hp, forallb_app, Hsp, R in E. discriminate.
Qed.

Lemma is_junk_nonword s :
  is_junk (Some s) = forallb (fun c => negb (is_word c)) s.
Proof.
  unfold is_junk. rewrite strip_falsy, junk_pattern_nonword.
  destruct s as [|c s]; [reflexivity|]. cbn [falsy orb].
  destruct (forallb is_space (c :: s)) eqn:E; [|reflexivity].
  now rewrite (forallb_space_nonword _ E).
Qed.

Lemma underscores_not_junk n : is_junk (Some (underscores (S n))) = false.
Proof. rewrite is_junk_nonword. reflexivity. Qed.

End Junk.

Section Normalizer.

Lemma str_eqb_eq a b : str_eqb a b = true <-> a = b.
Proof. unfold str_eqb. destruct (list_eq_dec ascii_dec a b); split; congruence. Qed.

Lemma str_eqb_refl a : str_eqb a a = true.
Proof. now apply str_eqb_eq. Qed.

Lemma str_eqb_neq a b : str_eqb a b = false <-> a <> b.
Proof. unfold str_eqb. destruct (list_eq_dec ascii_dec a b); split; congruence. Qed.

Lemma normalize_string_eq s : normalize_string s = lower (filter is_alnum s).
Proof. destruct s; reflexivity. Qed.

Lemma char_cases c :
  (is_sep c = true -> is_alnum c = false /\ is_word c = false) /\
  is_alnum space = false /\ is_word space = false /\
  is_alnum (to_upper c) = is_alnum c /\ is_alnum (to_lower c) = is_alnum c /\
  is_word (to_upper c) = is_word c /\ is_word (to_lower c) = is_word c /\
  to_lower (to_upper c) = to_lower c /\ to_lower (to_lower c) = to_lower c.
Proof.
  destruct c as [[] [] [] [] [] [] [] []]; vm_compute; intuition congruence.
Qed.

Lemma normalize_title_from s : forall start,
  lower (filter is_alnum (title_from start s)) = lower (filter is_alnum s).
Proof.
  induction s as [|c s IH]; intros start; [reflexivity|].
  destruct (char_cases c) as (Hsep & Hs1 & _ & Hu & Hl & _ & _ & Hlu & Hll).
  cbn [title_from]. destruct (is_sep c) eqn:E.
  - destruct (Hsep eq_refl) as [Ha _]. cbn [filter]. rewrite Hs1, Ha. apply IH.
  - cbn [filter]. destruct start.
    + rewrite Hu. destruct (is_alnum c); [|apply IH].
      cbn [lower map]. rewrite Hlu. f_equal. apply IH.
    + rewrite Hl. destruct (is_alnum c); [|apply IH].
      cbn [lower map]. rewrite Hll. f_equal. apply IH.
Qed.

Lemma normalize_to_title_case s :
  normalize_string (to_title_case s) = normalize_string s.
Proof.
  rewrite !normalize_string_eq, to_title_case_title_from.
  apply normalize_title_from.
Qed.

Lemma nonword_title_from s : forall start,
  forallb (fun c => negb (is_word c)) (title_from start s)
  = forallb (fun c => negb (is_word c)) s.
Proof.
  induction s as [|c s IH]; intros start; [reflexivity|].
  destruct (char_cases c) as (Hsep & _ & Hs2 & _ & _ & Hu & Hl & _).
  cbn [title_from]. destruct (is_sep c) eqn:E.
  - destruct (Hsep eq_refl) as [_ Hw]. cbn [forallb]. now rewrite Hs2, Hw, IH.
  - cbn [forallb]. destruct start; [rewrite Hu|rewrite Hl]; now rewrite IH.
Qed.

Lemma is_junk_to_title_case s :
  is_junk (Some (to_title_case s)) = is_junk (Some s).
Proof.
  rewrite !is_junk_nonword, to_title_case_title_from. apply nonword_title_from.
Qed.

End Normalizer.

Section Dict.

Lemma dict_get_In k v d : dict_get k d = Some v -> In (k, v) d.
Proof.
  induction d as [|[k' v'] d IH]; simpl; [discriminate|].
  destruct (str_eqb k k') eqn:E.
  - apply str_eqb_eq in E. intros [= ->]. left. now subst.
  - intros H. right. now apply IH.
Qed.

Lemma dict_get_set_same k v d : dict_get k (dict_set k v d) = Some v.
Proof.
  induction d as [|[k' v'] d IH]; simpl.
  - now rewrite str_eqb_refl.
  - destruct (str_eqb k k') eqn:E; simpl; rewrite E; [reflexivity|exact IH].
Qed.

Lemma dict_get_set_other k k' v d :
  k <> k' -> dict_get k' (dict_set k v d) = dict_get k' d.
Proof.
  intros Hne. induction d as [|[k0 v0] d IH]; simpl.
  - destruct (str_eqb k' k) eqn:E; [|reflexivity].
    apply str_eqb_eq in E. congruence.
  - destruct (str_eqb k k0) eqn:E; simpl.
    + apply str_eqb_eq in E. subst k0.
      destruct (str_eqb k' k) eqn:E'; [|reflexivity].
      apply str_eqb_eq in E'. congruence.
    + now rewrite IH.
Qed.

Lemma dict_set_keys k v d :
  map fst (dict_set k v d) = if existsb (str_eqb k) (map fst d)
                             then map fst d else map fst d ++ [k].
Proof.
  induction d as [|[k' v'] d IH]; simpl; [reflexivity|].
  destruct (str_eqb k k') eqn:E; simpl; [reflexivity|].
  rewrite IH. now destruct (existsb (str_eqb k) (map fst d)).
Qed.

Lemma dict_set_unique k v d : keys_unique d -> keys_unique (dict_set k v d).
Proof.
  unfold keys_unique. rewrite dict_set_keys.
  destruct (existsb (str_eqb k) (map fst d)) eqn:E; [trivial|].
  intros H. apply NoDup_app; [exact H|repeat constructor; simpl; tauto|].
  intros x Hx [Ex|[]]. subst x.
  assert (existsb (str_eqb k) (map fst d) = true); [|congruence].
  apply existsb_exists. exists k. split; [exact Hx|apply str_eqb_refl].
Qed.

Lemma In_dict_get k v d : keys_unique d -> In (k, v) d -> dict_get k d = Some v.
Proof.
  unfold keys_unique. induction d as [|[k' v'] d IH]; simpl; [tauto|].
  intros Hnd [[= -> ->]|Hin].
  - now rewrite str_eqb_refl.
  - inversion Hnd as [|? ? Hni Hnd']; subst.
    destruct (str_eqb k k') eqn:E.
    + apply str_eqb_eq in E. subst k'. exfalso. apply Hni.
      now apply (in_map fst) in Hin.
    + now apply IH.
Qed.

Lemma build_from acc names done :
  from_vocabulary done acc ->
  from_vocabulary (done ++ names)
    (fold_left (fun d name => dict_set (normalize_string name) (to_title_case name) d)
               names acc).
Proof.
  revert acc done. induction names as [|n names IH]; intros acc done H.
  - now rewrite app_nil_r.
  - simpl. replace (done ++ n :: names) with ((done ++ [n]) ++ names)
      by now rewrite <- app_assoc.
    apply IH. destruct H as (Hu & Hv & Hk). split; [|split].
    + now apply dict_set_unique.
    + intros k v Hin.
      destruct (list_eq_dec ascii_dec k (normalize_string n)) as [->|Hne].
      * apply In_dict_get in Hin; [|now apply dict_set_unique].
        rewrite dict_get_set_same in Hin. injection Hin as <-.
        exists n. split; [apply in_or_app; right; now left|tauto].
      * apply In_dict_get in Hin; [|now apply dict_set_unique].
        rewrite dict_get_set_other in Hin by congruence.
        apply dict_get_In in Hin. destruct (Hv _ _ Hin) as (name & Hn & Hr).
        exists name. split; [apply in_or_app; now left|exact Hr].
    + intros name Hin.
      destruct (list_eq_dec ascii_dec (normalize_string n) (normalize_string name))
        as [E|Hne].
      * rewrite <- E, dict_get_set_same. discriminate.
      * rewrite dict_get_set_other by exact Hne.
        apply in_app_or in Hin as [Hin|[<-|[]]]; [now apply Hk|congruence].
Qed.

Lemma build_valid_map_from names : from_vocabulary names (build_valid_map names).
Proof.
  apply (@build_from [] names []). split; [constructor|split].
  - intros ? ? [].
  - intros ? [].
Qed.

Lemma mem_In x l : mem x l = true <-> In x l.
Proof.
  unfold mem. rewrite existsb_exists. split.
  - intros (y & Hy & E). apply str_eqb_eq in E. now subst.
  - intros H. exists x. split; [exact H|apply str_eqb_refl].
Qed.

End Dict.

Section Matcher.

Variable key p0 : str.

Lemma fuzzy_step_inv seen st e :
  search_inv key p0 seen st ->
  search_inv key p0 (seen ++ [e]) (fuzzy_step key st e).
Proof.
  destruct st as [[[d|] p] c], e as [k v]; unfold fuzzy_step, search_inv.
  - intros [(k0 & Hin & Hd) Hmin]. cbn [lt_inf eq_inf].
    destruct (Nat.ltb_spec (levenshtein_distance key k) d) as [Hlt|Hge].
    + split.
      * exists k. split; [apply in_or_app; right; now left|reflexivity].
      * intros k' v' Hin'. apply in_app_or in Hin' as [Hin'|[[= <- <-]|[]]].
        -- specialize (Hmin _ _ Hin'). lia.
        -- lia.
    + destruct (Nat.eqb_spec (levenshtein_distance key k) d) as [He|Hne]; cbn [andb].
      * destruct (length k <? length (normalize_string p)).
        -- split.
           ++ exists k. split; [apply in_or_app; right; now left|exact He].
           ++ intros k' v' Hin'. apply in_app_or in Hin' as [Hin'|[[= <- <-]|[]]].
              ** now apply (Hmin _ _ Hin').
              ** lia.
        -- split.
           ++ exists k0. split; [apply in_or_app; now left|exact Hd].
           ++ intros k' v' Hin'. apply in_app_or in Hin' as [Hin'|[[= <- <-]|[]]].
              ** now apply (Hmin _ _ Hin').
              ** lia.
      * split.
        -- exists k0. split; [apply in_or_app; now left|exact Hd].
        -- intros k' v' Hin'. apply in_app_or in Hin' as [Hin'|[[= <- <-]|[]]].
           ++ now apply (Hmin _ _ Hin').
           ++ lia.
  - intros [-> ->]. cbn [lt_inf]. split.
    + exists k. split; [now left|reflexivity].
    + intros k' v' [[= <- <-]|[]]. lia.
Qed.

Lemma fuzzy_fold_inv vm : forall seen st,
  search_inv key p0 seen st ->
  search_inv key p0 (seen ++ vm) (fold_left (fuzzy_step key) vm st).
Proof.
  induction vm as [|e vm IH]; intros seen st H.
  - now rewrite app_nil_r.
  - simpl. replace (seen ++ e :: vm) with ((seen ++ [e]) ++ vm)
      by now rewrite <- app_assoc.
    apply IH. now apply fuzzy_step_inv.
Qed.

End Matcher.

Lemma search_result key p0 vm :
  search_inv key p0 vm (fold_left (fuzzy_step key) vm (None, p0, false)).
Proof. apply (@fuzzy_fold_inv key p0 vm [] (None, p0, false)). now split. Qed.

Lemma proposed_exact vm th n v :
  dict_get (normalize_string n) vm = Some v -> proposed_name vm th n = v.
Proof. unfold proposed_name, propose. now intros ->. Qed.

Lemma proposed_fuzzy vm th n :
  dict_get (normalize_string n) vm = None ->
  (vm = [] /\ proposed_name vm th n = to_title_case n) \/
  exists k v, nearest (normalize_string n) vm k v /\
    (levenshtein_distance (normalize_string n) k <= th ->
       proposed_name vm th n = v) /\
    (th < levenshtein_distance (normalize_string n) k ->
       proposed_name vm th n = to_title_case n).
Proof.
  intros Hget. unfold proposed_name, propose. rewrite Hget.
  pose proof (search_result (normalize_string n) (to_title_case n) vm) as Hinv.
  destruct (fold_left _ vm _) as [[[d|] p] c]; unfold search_inv in Hinv.
  - right. destruct Hinv as [(k & Hin & Hd) Hmin].
    exists k, p. split; [split|]; [exact Hin|intros; rewrite Hd; eauto|].
    rewrite Hd. cbn [gt_inf]. split; intros H.
    + destruct (Nat.ltb_spec th d); [lia|reflexivity].
    + destruct (Nat.ltb_spec th d); [reflexivity|lia].
  - left. destruct Hinv as [-> _]. now split.
Qed.

Lemma proposed_value_or_title vm th n :
  (exists k, In (k, proposed_name vm th n) vm) \/
  (dict_get (normalize_string n) vm = None /\
   proposed_name vm th n = to_title_case n).
Proof.
  destruct (dict_get (normalize_string n) vm) as [v|] eqn:Hget.
  - left. exists (normalize_string n).
    rewrite (proposed_exact _ th _ Hget). now apply dict_get_In.
  - destruct (proposed_fuzzy vm th n Hget) as [[_ H]|(k & v & [Hin _] & Hle & Hgt)].
    + now right.
    + destruct (Nat.le_gt_cases (levenshtein_distance (normalize_string n) k) th).
      * left. exists k. now rewrite Hle.
      * right. split; [reflexivity|now apply Hgt].
Qed.

(** A proposed name that is in the validity set is proposed for itself. *)
Lemma proposed_fixpoint names th n :
  mem (proposed_name (build_valid_map names) th n) (build_valid_set names) = true ->
  proposed_name (build_valid_map names) th
                (proposed_name (build_valid_map names) th n)
  = proposed_name (build_valid_map names) th n.
Proof.
  intros Hmem.
  destruct (build_valid_map_from names) as (Hu & Hv & Hk).
  destruct (proposed_value_or_title (build_valid_map names) th n)
    as [(k & Hin)|[Hnone Htitle]].
  - apply proposed_exact.
    destruct (Hv _ _ Hin) as (name & _ & -> & Hp).
    rewrite Hp at 1. rewrite normalize_to_title_case.
    now apply In_dict_get.
  - exfalso. apply mem_In in Hmem. unfold build_valid_set in Hmem.
    apply in_map_iff in Hmem as (name & Hname & Hin).
    apply (Hk _ Hin). rewrite <- Hnone. f_equal.
    rewrite <- (normalize_to_title_case name), Hname, Htitle.
    apply normalize_to_title_case.
Qed.

Lemma valid_not_junk names x :
  (forall name, In name names -> is_junk (Some name) = false) ->
  mem x (build_valid_set names) = true -> is_junk (Some x) = false.
Proof.
  intros Hnames Hmem. apply mem_In in Hmem. unfold build_valid_set in Hmem.
  apply in_map_iff in Hmem as (name & <- & Hin).
  rewrite is_junk_to_title_case. now apply Hnames.
Qed.

(** ** Rules *)

Section Rules.

Context {A B : Type}.

Lemma wp_ret (a : A) w (Q : A -> world -> Prop) E : Q a w -> wp (ret a) w Q E.
Proof. trivial. Qed.

Lemma wp_bind (c : M A) (k : A -> M B) w Q E :
  wp c w (fun a w' => wp (k a) w' Q E) E -> wp (bind c k) w Q E.
Proof. unfold wp, bind. now destruct (c w) as [[a|e] w']. Qed.

Lemma wp_conseq (c : M A) w (Q Q' : A -> world -> Prop)
      (E E' : sqlite_error -> world -> Prop) :
  wp c w Q E ->
  (forall a w', Q a w' -> Q' a w') -> (forall e w', E e w' -> E' e w') ->
  wp c w Q' E'.
Proof. unfold wp. destruct (c w) as [[a|e] w']; auto. Qed.

Lemma wp_try (c : M A) h w Q E :
  wp c w Q (fun e w' => wp (h e) w' Q E) -> wp (try_except c h) w Q E.
Proof. unfold wp, try_except. now destruct (c w) as [[a|e] w']. Qed.

Lemma wp_raise e w (Q : A -> world -> Prop) (E : sqlite_error -> world -> Prop) :
  E e w -> wp (raise e) w Q E.
Proof. trivial. Qed.

Lemma runs_conseq (c : M A) w (Q Q' : A -> world -> Prop) :
  runs c w Q -> (forall a w', Q a w' -> Q' a w') -> runs c w Q'.
Proof. intros H HQ. eapply wp_conseq; eauto. Qed.

Lemma runs_conj (c : M A) w (Q1 Q2 : A -> world -> Prop) :
  runs c w Q1 -> runs c w Q2 -> runs c w (fun a w' => Q1 a w' /\ Q2 a w').
Proof. unfold runs, wp. destruct (c w) as [[a|e] w']; tauto. Qed.

Lemma runs_try (c : M A) h w Q : runs c w Q -> runs (try_except c h) w Q.
Proof. intros H. apply wp_try. eapply wp_conseq; eauto. intros e w' []. Qed.

End Rules.

Lemma wp_print m w (Q : unit -> world -> Prop) E :
  Q tt (World (data w) (events w ++ [Printed m])) -> wp (print m) w Q E.
Proof. trivial. Qed.

Lemma wp_for_each {X} (l : list X) (body : X -> M unit)
      (I : list X -> world -> Prop) w (Q : unit -> world -> Prop) E :
  I [] w ->
  (forall done x rest w1, l = done ++ x :: rest -> I done w1 ->
     wp (body x) w1 (fun _ => I (done ++ [x])) E) ->
  (forall w', I l w' -> Q tt w') ->
  wp (for_each l body) w Q E.
Proof.
  intros H0 Hbody HQ.
  assert (G : forall rest done w1, l = done ++ rest -> I done w1 ->
             wp (for_each rest body) w1 Q E).
  { induction rest as [|x rest IH]; intros done w1 Hl Hw1.
    - rewrite app_nil_r in Hl. apply wp_ret. apply HQ. now rewrite Hl.
    - cbn [for_each]. apply wp_bind.
      eapply wp_conseq; [now apply (Hbody done x rest)| |trivial].
      intros ? w2 Hw2. apply (IH (done ++ [x])); [|exact Hw2].
      now rewrite <- app_assoc. }
  now apply (G l [] w).
Qed.

Lemma wp_for_each_inv {X} (l : list X) (body : X -> M unit)
      (I : world -> Prop) w (Q : unit -> world -> Prop) E :
  I w ->
  (forall x w1, In x l -> I w1 -> wp (body x) w1 (fun _ => I) E) ->
  (forall w', I w' -> Q tt w') ->
  wp (for_each l body) w Q E.
Proof.
  intros H0 Hbody HQ.
  apply (@wp_for_each X l body (fun _ => I)); [exact H0| |exact HQ].
  intros done x rest w1 -> Hw1. apply Hbody; [|exact Hw1].
  apply in_or_app. right. now left.
Qed.

(** Statements on a storage that raises nothing. *)

Lemma runs_execute s f w (Q : unit -> world -> Prop) :
  Q tt (after s f w) -> runs (execute no_faults s f) w Q.
Proof. trivial. Qed.

Lemma runs_query {A} s (read : db -> A) w (Q : A -> world -> Prop) :
  Q (read (data w)) (after s (fun d => d) w) ->
  runs (query no_faults s read) w Q.
Proof. trivial. Qed.

(** ** How the statements act on what the queries see *)

Section Views.

Lemma entity_eqb_eq a b : entity_eqb a b = true <-> a = b.
Proof. destruct a, b; simpl; split; congruence. Qed.

Lemma entity_eqb_refl a : entity_eqb a a = true.
Proof. now destruct a. Qed.

Lemma fk_column_eqb_eq a b : fk_column_eqb a b = true <-> a = b.
Proof. destruct a, b; simpl; split; congruence. Qed.

Lemma select_delete t t' p d :
  select_id_name t (delete_where t' p d)
  = if entity_eqb t t'
    then filter (fun r => negb (p (fst r))) (select_id_name t d)
    else select_id_name t d.
Proof.
  destruct t, t'; cbn [entity_eqb]; try reflexivity;
    cbn; now rewrite filter_map_swap.
Qed.

Lemma select_update_name t t' n i d :
  select_id_name t (update_name t' n i d)
  = if entity_eqb t t'
    then map (rename n i) (select_id_name t d)
    else select_id_name t d.
Proof.
  destruct t, t'; cbn [entity_eqb]; try reflexivity;
    cbn; rewrite !map_map; apply map_ext; intros r; unfold rename; cbn;
    now destruct (Z.eqb _ i).
Qed.

Lemma select_update_fk t c f d :
  select_id_name t (update_fk c f d) = select_id_name t d.
Proof.
  destruct t, c; try reflexivity; cbn; rewrite ?map_map; reflexivity.
Qed.

Lemma fk_update_fk c c' f d :
  fk_values c (update_fk c' f d)
  = if fk_column_eqb c c' then map f (fk_values c d) else fk_values c d.
Proof.
  destruct c, c'; cbn [fk_column_eqb]; cbn; rewrite ?map_map; reflexivity.
Qed.

Lemma fk_update_name c t n i d :
  fk_values c (update_name t n i d) = fk_values c d.
Proof.
  destruct c, t; try reflexivity; cbn; rewrite ?map_map; apply map_ext;
    intros r; now destruct (Z.eqb _ i).
Qed.

Lemma incl_map_filter {X Y} (g : X -> Y) p l : incl (map g (filter p l)) (map g l).
Proof.
  intros y Hy. apply in_map_iff in Hy as (x & <- & Hx).
  apply filter_In in Hx as [Hx _]. now apply in_map.
Qed.

Lemma fk_delete c t p d :
  incl (fk_values c (delete_where t p d)) (fk_values c d).
Proof.
  destruct c, t; try apply incl_refl; cbn; apply incl_map_filter.
Qed.

End Views.

(** ** The monadic steps on a storage that raises nothing *)

Section Linking.

Variable net : endpoint -> listing.

Lemma bind_ok {A B} (c : M A) (k : A -> M B) w a w' :
  c w = (Ok a, w') -> bind c k w = k a w'.
Proof. unfold bind. now intros ->. Qed.

Lemma for_each_fold {X} (body : X -> M unit) (g : world -> X -> world) l :
  (forall x w, body x w = (Ok tt, g w x)) ->
  forall w, for_each l body w = (Ok tt, fold_left g l w).
Proof.
  intros H. induction l as [|x l IH]; intros w; [reflexivity|].
  cbn [for_each fold_left]. erewrite bind_ok by apply H. apply IH.
Qed.

Lemma nullify_calm i t w :
  nullify_fks_referencing_id no_faults i t w = (Ok tt, nullify_w i t w).
Proof. destruct t; reflexivity. Qed.

Lemma delete_row_calm t r w :
  (let '(i, _) := r in
   nullify_fks_referencing_id no_faults i t ;;
   execute no_faults (DeleteWhereId t i) (delete_where t (Z.eqb i))) w
  = (Ok tt, delete_row_w t w r).
Proof.
  destruct r as [i n]. erewrite bind_ok by apply nullify_calm. reflexivity.
Qed.

Lemma write_name_calm t u w :
  (let '(row_id, new_name, _) := u in
   current <- query no_faults (SelectName t row_id) (select_name t row_id) ;;
   match current with
   | Some stored =>
       if name_differs stored new_name
       then execute no_faults (UpdateName t new_name row_id)
                    (update_name t new_name row_id)
       else ret tt
   | None => ret tt
   end) w
  = (Ok tt, write_name_w t w u).
Proof.
  destruct u as [[i n] cur]. unfold bind, query, write_name_w. cbn.
  destruct (select_name t i (data w)) as [stored|]; [|reflexivity].
  destruct (name_differs stored n); reflexivity.
Qed.

Lemma correct_names_calm m t w :
  correct_names no_faults m t w = (Ok tt, correct_names_w m t w).
Proof.
  unfold correct_names, correct_names_w.
  erewrite bind_ok by reflexivity.
  erewrite bind_ok by (apply for_each_fold; intros; apply delete_row_calm).
  apply for_each_fold. intros. apply write_name_calm.
Qed.

Lemma remove_unvalidated_calm m t w :
  remove_unvalidated no_faults m t w = (Ok tt, remove_unvalidated_w m t w).
Proof.
  unfold remove_unvalidated, remove_unvalidated_w.
  erewrite bind_ok by reflexivity.
  apply for_each_fold. intros. apply delete_row_calm.
Qed.

Lemma remap_calm t canonical_id dups w :
  for_each fk_relationships (fun '(fk_col, referenced_pk_table_name) =>
    if entity_eqb referenced_pk_table_name t then
      try_except
        (execute no_faults (UpdateRemap fk_col canonical_id dups)
                 (update_fk fk_col (remap canonical_id dups)))
        (remap_handler fk_col)
    else ret tt) w
  = (Ok tt, remap_w t canonical_id dups w).
Proof. destruct t; reflexivity. Qed.

Lemma remove_duplicates_calm t w :
  remove_duplicates no_faults t w = (Ok tt, remove_duplicates_w t w).
Proof.
  unfold remove_duplicates, remove_duplicates_w.
  erewrite bind_ok by reflexivity.
  apply for_each_fold. intros [canonical_id ids] w1.
  unfold merge_group_w. cbn [fst snd].
  destruct (duplicate_ids_to_remove canonical_id ids) as [|x dups] eqn:E;
    [reflexivity|].
  erewrite bind_ok by apply remap_calm. reflexivity.
Qed.

Lemma fetch_calm e w :
  _fetch_all_pokeapi_resources net e w = (Ok (fetched (net e)), fetch_w net e w).
Proof.
  unfold _fetch_all_pokeapi_resources, fetched, fetch_w.
  destruct (fetch_pages (net e) []); reflexivity.
Qed.

Lemma fetch_references_calm w :
  fetch_references net w = (Ok (metas_of net), fetch_references_w net w).
Proof.
  unfold fetch_references, fetch_references_w.
  repeat erewrite bind_ok by apply fetch_calm. reflexivity.
Qed.

Lemma execute_calm s f w : execute no_faults s f w = (Ok tt, after s f w).
Proof. reflexivity. Qed.

Lemma print_calm m w : print m w = (Ok tt, emit m w).
Proof. reflexivity. Qed.

Lemma try_block_calm w :
  try_block no_faults net w = (Ok tt, try_block_w net w).
Proof.
  unfold try_block, try_block_w, step4_w, step3_w, step2_w.
  erewrite bind_ok by apply execute_calm.
  erewrite bind_ok by apply fetch_references_calm.
  erewrite bind_ok
    by (apply for_each_fold; intros; apply correct_names_calm).
  erewrite bind_ok
    by (apply for_each_fold; intros; apply remove_unvalidated_calm).
  erewrite bind_ok
    by (apply for_each_fold; intros; apply remove_duplicates_calm).
  erewrite bind_ok by apply execute_calm.
  apply print_calm.
Qed.

Lemma clean_database_calm conn :
  clean_database no_faults net conn
  = Outcome None (data (try_block_w net (World conn [])))
            (events (try_block_w net (World conn []))).
Proof. unfold clean_database. rewrite try_block_calm. reflexivity. Qed.

End Linking.

(** ** What the calm steps keep *)

Section Frame.

Lemma fold_left_keeps {X W} (f : W -> X -> W) (P : W -> Prop) l :
  (forall w x, In x l -> P w -> P (f w x)) ->
  forall w, P w -> P (fold_left f l w).
Proof.
  induction l as [|x l IH]; intros H w Hw; [exact Hw|].
  cbn. apply IH.
  - intros w' x' Hx'. apply H. now right.
  - apply H; [now left|exact Hw].
Qed.

Variable I : db -> Prop.
Hypothesis I_fk : stable_fk I.

Lemma nullify_keeps i t w : I (data w) -> I (data (nullify_w i t w)).
Proof.
  unfold nullify_w. apply (@fold_left_keeps _ _ _ (fun w => I (data w))).
  intros w' c _ Hw'. now apply I_fk.
Qed.

Lemma remap_keeps t k dups w : I (data w) -> I (data (remap_w t k dups w)).
Proof.
  unfold remap_w. apply (@fold_left_keeps _ _ _ (fun w => I (data w))).
  intros w' c _ Hw'. now apply I_fk.
Qed.

Variable t : entity.
Hypothesis I_delete : stable_delete t I.

Lemma delete_row_keeps w r : I (data w) -> I (data (delete_row_w t w r)).
Proof. intros H. apply I_delete. now apply nullify_keeps. Qed.

Lemma delete_rows_keep l w :
  I (data w) -> I (data (fold_left (delete_row_w t) l w)).
Proof.
  apply (@fold_left_keeps _ _ (delete_row_w t) (fun w => I (data w))).
  intros w' r _. apply delete_row_keeps.
Qed.

Lemma remove_unvalidated_keeps m w :
  I (data w) -> I (data (remove_unvalidated_w m t w)).
Proof. intros H. unfold remove_unvalidated_w. now apply delete_rows_keep. Qed.

Lemma merge_group_keeps w g : I (data w) -> I (data (merge_group_w t w g)).
Proof.
  intros H. unfold merge_group_w.
  destruct (duplicate_ids_to_remove (fst g) (snd g)); [exact H|].
  apply I_delete. now apply remap_keeps.
Qed.

Lemma remove_duplicates_keeps w :
  I (data w) -> I (data (remove_duplicates_w t w)).
Proof.
  intros H. unfold remove_duplicates_w.
  apply (@fold_left_keeps _ _ (merge_group_w t) (fun w => I (data w))); [|exact H].
  intros w' g _. apply merge_group_keeps.
Qed.

Hypothesis I_rename : stable_rename t I.

Lemma write_name_keeps w u : I (data w) -> I (data (write_name_w t w u)).
Proof.
  intros H. destruct u as [[i n] cur]. unfold write_name_w.
  destruct (select_name t i (data w)) as [stored|]; [|exact H].
  destruct (name_differs stored n); [now apply I_rename|exact H].
Qed.

Lemma correct_names_keeps m w :
  I (data w) -> I (data (correct_names_w m t w)).
Proof.
  intros H. unfold correct_names_w.
  apply (@fold_left_keeps _ _ (write_name_w t) (fun w => I (data w))).
  - intros w' u _. apply write_name_keeps.
  - now apply delete_rows_keep.
Qed.

End Frame.

(** Properties of the rows of one table. *)

Section RowsOf.

Variable t' : entity.
Variable Phi : list (Z * option str) -> Prop.

Local Abbreviation I := (rows_have t' Phi).

Lemma rows_stable_fk : stable_fk I.
Proof. intros c f d H. unfold rows_have in *. now rewrite select_update_fk. Qed.

Lemma rows_stable_delete t : closed Phi -> stable_delete t I.
Proof.
  intros Hc p d H. unfold rows_have in *. rewrite select_delete.
  destruct (entity_eqb t' t); [now apply Hc|exact H].
Qed.

Lemma rows_stable_delete_other t : t' <> t -> stable_delete t I.
Proof.
  intros Hne p d H. unfold rows_have in *. rewrite select_delete.
  destruct (entity_eqb t' t) eqn:E; [|exact H].
  apply entity_eqb_eq in E. congruence.
Qed.

Lemma rows_stable_rename_other t : t' <> t -> stable_rename t I.
Proof.
  intros Hne n i d H. unfold rows_have in *. rewrite select_update_name.
  destruct (entity_eqb t' t) eqn:E; [|exact H].
  apply entity_eqb_eq in E. congruence.
Qed.

End RowsOf.

(** ** The rows after each calm step *)

Section RowsAfter.

Lemma mem_id_In x l : mem_id x l = true <-> In x l.
Proof.
  unfold mem_id. rewrite existsb_exists. split.
  - intros (y & Hy & E). apply Z.eqb_eq in E. now subst.
  - intros H. exists x. split; [exact H|apply Z.eqb_refl].
Qed.

Lemma without_In l rs r : In r (without l rs) <-> In r rs /\ ~ In (fst r) l.
Proof.
  unfold without. rewrite filter_In, negb_true_iff.
  rewrite <- mem_id_In. destruct (mem_id (fst r) l); intuition congruence.
Qed.

Lemma filter_filter {X} (p q : X -> bool) l :
  filter p (filter q l) = filter (fun x => q x && p x) l.
Proof.
  induction l as [|x l IH]; [reflexivity|].
  cbn. destruct (q x); cbn; [destruct (p x)|]; now rewrite IH.
Qed.

Lemma rows_nullify t' i t w : rows t' (nullify_w i t w) = rows t' w.
Proof.
  apply (@nullify_keeps (rows_have t' (fun rs => rs = rows t' w))).
  - apply rows_stable_fk.
  - reflexivity.
Qed.

Lemma rows_remap t' t k dups w : rows t' (remap_w t k dups w) = rows t' w.
Proof.
  apply (@remap_keeps (rows_have t' (fun rs => rs = rows t' w))).
  - apply rows_stable_fk.
  - reflexivity.
Qed.

Lemma rows_delete_row t w r :
  rows t (delete_row_w t w r) = without [fst r] (rows t w).
Proof.
  unfold delete_row_w, rows. cbn [data after].
  rewrite select_delete, entity_eqb_refl.
  fold (rows t (nullify_w (fst r) t w)). rewrite rows_nullify.
  apply filter_ext. intros x. cbn. now rewrite orb_false_r, Z.eqb_sym.
Qed.

Lemma without_without l1 l2 rs :
  without l2 (without l1 rs) = without (l1 ++ l2) rs.
Proof.
  unfold without. rewrite filter_filter. apply filter_ext. intros x.
  unfold mem_id. rewrite existsb_app. now rewrite negb_orb.
Qed.

Lemma rows_delete_rows t l : forall w,
  rows t (fold_left (delete_row_w t) l w) = without (map fst l) (rows t w).
Proof.
  induction l as [|r l IH]; intros w.
  - cbn. unfold without. symmetry. apply forallb_filter_id.
    apply forallb_forall. reflexivity.
  - cbn [fold_left map]. rewrite IH, rows_delete_row.
    now rewrite without_without.
Qed.

Lemma rows_merge_group t w g :
  rows t (merge_group_w t w g) = without (dups_of g) (rows t w).
Proof.
  unfold merge_group_w. fold (dups_of g).
  destruct (dups_of g) as [|x dups] eqn:E.
  - unfold without. symmetry. apply forallb_filter_id.
    apply forallb_forall. reflexivity.
  - unfold rows. cbn [data after]. rewrite select_delete, entity_eqb_refl.
    fold (rows t (remap_w t (fst g) (x :: dups) w)). now rewrite rows_remap.
Qed.

Lemma rows_merge_groups t gs : forall w,
  rows t (fold_left (merge_group_w t) gs w)
  = without (flat_map dups_of gs) (rows t w).
Proof.
  induction gs as [|g gs IH]; intros w.
  - cbn. unfold without. symmetry. apply forallb_filter_id.
    apply forallb_forall. reflexivity.
  - cbn [fold_left flat_map]. rewrite IH, rows_merge_group.
    now rewrite without_without.
Qed.

(** Step 3 leaves valid names only. *)
Lemma remove_unvalidated_valid m t w :
  names_valid m t (data (remove_unvalidated_w m t w)).
Proof.
  intros i n Hin. unfold remove_unvalidated_w in Hin.
  fold (rows t (fold_left (delete_row_w t)
                  (unvalidated_rows m (select_id_name t (data w)))
                  (after (SelectIdName t) same w))) in Hin.
  rewrite rows_delete_rows in Hin. apply without_In in Hin as [Hin Hout].
  destruct (in_valid_set n (original_valid_set m)) eqn:E; [reflexivity|].
  exfalso. apply Hout. cbn [fst].
  change i with (fst (i, n)). apply in_map. unfold unvalidated_rows.
  apply filter_In. split; [exact Hin|]. cbn. now rewrite E.
Qed.

End RowsAfter.

(** ** Step 2 leaves proposed names *)

Section StepTwo.

Variable m : meta.
Variable t : entity.

Lemma filter_none {X} (p : X -> bool) l :
  (forall x, In x l -> p x = false) -> filter p l = [].
Proof.
  induction l as [|x l IH]; intros H; [reflexivity|].
  cbn. rewrite (H x) by now left. apply IH. intros y Hy. apply H. now right.
Qed.

Lemma filter_id_unique (rs : list (Z * option str)) i n :
  NoDup (map fst rs) -> In (i, n) rs ->
  filter (fun r => Z.eqb (fst r) i) rs = [(i, n)].
Proof.
  induction rs as [|[j n'] rs IH]; cbn; [tauto|].
  intros Hnd Hin. inversion Hnd as [|? ? Hni Hnd']; subst.
  destruct Hin as [[= -> ->]|Hin].
  - rewrite Z.eqb_refl. f_equal.
    apply filter_none.
    intros [j n'] Hj. cbn. apply Z.eqb_neq. intros ->.
    apply Hni. now apply (in_map fst) in Hj.
  - destruct (Z.eqb_spec j i) as [->|Hne].
    + exfalso. apply Hni. now apply (in_map fst) in Hin.
    + now apply IH.
Qed.

Lemma select_name_unique d i n :
  NoDup (map fst (select_id_name t d)) -> In (i, n) (select_id_name t d) ->
  select_name t i d = Some n.
Proof.
  intros Hnd Hin. unfold select_name. now rewrite (filter_id_unique _ _ _ Hnd Hin).
Qed.

Lemma rows_rename n i w :
  rows t (after (UpdateName t n i) (update_name t n i) w)
  = map (rename n i) (rows t w).
Proof.
  unfold rows. cbn [data after]. now rewrite select_update_name, entity_eqb_refl.
Qed.

Lemma map_fst_rename n i rs : map fst (map (rename n i) rs) = map fst rs.
Proof.
  rewrite map_map. apply map_ext. intros r. unfold rename.
  now destruct (Z.eqb (fst r) i).
Qed.

Lemma write_name_writing u us w :
  writing m t (u :: us) w -> writing m t us (write_name_w t w u).
Proof.
  destruct u as [[i p] c]. intros (Hnd & Hus & Hrows).
  assert (Hp : p = proposed_name (valid_map m) (threshold m) c)
    by (apply (Hus i); now left).
  assert (Hus' : forall i p c, In (i, p, c) us ->
            p = proposed_name (valid_map m) (threshold m) c)
    by (intros; eapply Hus; right; eauto).
  unfold write_name_w.
  destruct (select_name t i (data w)) as [stored|] eqn:Hsel;
    [destruct (name_differs stored p) eqn:Hdiff|].
  - (* the name is written *)
    split; [|split]; [|exact Hus'|].
    + rewrite rows_rename, map_fst_rename. exact Hnd.
    + intros j n Hin. rewrite rows_rename in Hin.
      apply in_map_iff in Hin as ([j0 n0] & Hren & Hin0).
      unfold rename in Hren. cbn [fst] in Hren.
      destruct (Z.eqb_spec j0 i) as [->|Hne]; injection Hren as <- <-.
      * left. exists c. now rewrite Hp.
      * destruct (Hrows _ _ Hin0) as [Hs|(cur & -> & [[= -> _ _]|Hin1])];
          [now left|congruence|].
        right. now exists cur.
  - (* the stored name is the proposed one *)
    split; [exact Hnd|split; [exact Hus'|]].
    intros j n Hin. change (rows t (after (SelectName t i) same w)) with (rows t w) in Hin.
    destruct (Hrows _ _ Hin) as [Hs|(cur & En & [Heq|Hin1])];
      [now left| |right; now exists cur].
    injection Heq as Ej Hpc Ec. subst j cur n.
    left. exists c.
    rewrite (select_name_unique _ _ _ Hnd Hin) in Hsel. injection Hsel as <-.
    cbn in Hdiff. apply negb_false_iff, str_eqb_eq in Hdiff.
    now rewrite <- Hp, Hdiff.
  - (* no row has the id *)
    split; [exact Hnd|split; [exact Hus'|]].
    intros j n Hin. change (rows t (after (SelectName t i) same w)) with (rows t w) in Hin.
    destruct (Hrows _ _ Hin) as [Hs|(cur & En & [Heq|Hin1])];
      [now left| |right; now exists cur].
    injection Heq as Ej Hpc Ec. subst j cur n.
    rewrite (select_name_unique _ _ _ Hnd Hin) in Hsel. discriminate.
Qed.

Lemma write_names_writing us : forall w,
  writing m t us w -> writing m t [] (fold_left (write_name_w t) us w).
Proof.
  induction us as [|u us IH]; intros w H; [exact H|].
  cbn. apply IH. now apply write_name_writing.
Qed.

Lemma NoDup_map_filter {X Y} (f : X -> Y) p l :
  NoDup (map f l) -> NoDup (map f (filter p l)).
Proof.
  induction l as [|x l IH]; cbn; [trivial|].
  intros H. inversion H as [|? ? Hni Hnd]; subst.
  destruct (p x); [|now apply IH]. cbn. constructor; [|now apply IH].
  intros Hin. apply Hni. now apply (@incl_map_filter _ _ f p l).
Qed.

Lemma junk_deleted_writing w :
  NoDup (map fst (rows t w)) ->
  writing m t (name_updates m (rows t w))
          (fold_left (delete_row_w t) (junk_rows (rows t w))
                     (after (SelectIdName t) same w)).
Proof.
  intros Hnd. split; [|split].
  - rewrite rows_delete_rows. now apply NoDup_map_filter.
  - intros i p c Hin. unfold name_updates in Hin.
    apply in_flat_map in Hin as ([j n] & _ & Hin). cbn [fst snd] in Hin.
    destruct (is_junk n); [destruct Hin|].
    destruct n as [cur|]; [|destruct Hin].
    destruct (str_eqb _ cur); [destruct Hin|].
    destruct Hin as [[= _ <- <-]|[]]. reflexivity.
  - intros i n Hin. rewrite rows_delete_rows in Hin.
    apply without_In in Hin as [Hin Hout].
    change (rows t (after (SelectIdName t) same w)) with (rows t w) in Hin.
    destruct (is_junk n) eqn:Hj.
    { exfalso. apply Hout. change (fst (i, n)) with (fst (i, n)).
      apply in_map. apply filter_In. now split. }
    destruct n as [cur|]; [|discriminate].
    destruct (str_eqb (proposed_name (valid_map m) (threshold m) cur) cur) eqn:E.
    + left. exists cur. apply str_eqb_eq in E. now rewrite E.
    + right. exists cur. split; [reflexivity|].
      unfold name_updates. apply in_flat_map. exists (i, Some cur).
      split; [exact Hin|]. cbn [fst snd]. rewrite Hj, E. now left.
Qed.

(** Step 2 on a table with unique ids leaves names it proposes. *)
Lemma correct_names_proposed w :
  NoDup (ids t (data w)) -> names_proposed m t (data (correct_names_w m t w)).
Proof.
  intros Hnd. unfold correct_names_w.
  destruct (write_names_writing (junk_deleted_writing w Hnd)) as (_ & _ & H).
  intros i n Hin. destruct (H i n Hin) as [Hs|(cur & _ & [])]. exact Hs.
Qed.

End StepTwo.

(** ** Step 4 leaves one row per name *)

Section StepFour.

Lemma key_eqb_eq a b : key_eqb a b = true <-> a = b.
Proof.
  destruct a as [x|], b as [y|]; cbn; try (split; congruence).
  rewrite str_eqb_eq. split; congruence.
Qed.

Lemma key_eqb_refl a : key_eqb a a = true.
Proof. now apply key_eqb_eq. Qed.

Lemma existsb_key k seen : existsb (key_eqb k) seen = true <-> In k seen.
Proof.
  rewrite existsb_exists. split.
  - intros (y & Hy & E). apply key_eqb_eq in E. now subst.
  - intros H. exists k. split; [exact H|apply key_eqb_refl].
Qed.

Lemma group_keys_complete rs : forall seen r,
  In r rs -> In (key_of r) (group_keys rs seen) \/ In (key_of r) seen.
Proof.
  induction rs as [|r0 rs IH]; intros seen r Hin; [destruct Hin|].
  cbn [group_keys]. fold (key_of r0).
  destruct (existsb (key_eqb (key_of r0)) seen) eqn:E.
  - destruct Hin as [->|Hin]; [right; now apply existsb_key|now apply IH].
  - destruct Hin as [->|Hin]; [left; now left|].
    destruct (IH (key_of r0 :: seen) r Hin) as [H|[H|H]].
    + left. now right.
    + left. left. exact H.
    + now right.
Qed.

Lemma group_keys_NoDup rs : forall seen,
  NoDup (group_keys rs seen) /\
  forall k, In k (group_keys rs seen) -> ~ In k seen.
Proof.
  induction rs as [|r0 rs IH]; intros seen; cbn [group_keys].
  - split; [constructor|intros k []].
  - fold (key_of r0). destruct (existsb (key_eqb (key_of r0)) seen) eqn:E.
    + apply IH.
    + destruct (IH (key_of r0 :: seen)) as [Hnd Hout]. split.
      * constructor; [|exact Hnd]. intros Hin. apply (Hout _ Hin). now left.
      * intros k [<-|Hin].
        -- intros Hs. apply existsb_key in Hs. congruence.
        -- intros Hs. apply (Hout _ Hin). now right.
Qed.

Lemma group_ids_In k rs x :
  In x (group_ids k rs) <-> exists n, In (x, n) rs /\ sql_lower n = k.
Proof.
  unfold group_ids. rewrite in_map_iff. split.
  - intros ([i n] & <- & Hin). apply filter_In in Hin as [Hin E].
    apply key_eqb_eq in E. now exists n.
  - intros (n & Hin & E). exists (x, n). split; [reflexivity|].
    apply filter_In. split; [exact Hin|]. now apply key_eqb_eq.
Qed.

Lemma two_in_list {X} (l : list X) x y :
  In x l -> In y l -> x <> y -> 1 < length l.
Proof.
  destruct l as [|a [|b l]]; cbn; try tauto; [|lia].
  intros [<-|[]] [<-|[]]. congruence.
Qed.

Lemma min_id_In l : l <> [] -> In (min_id l) l.
Proof.
  destruct l as [|x l]; [congruence|]. intros _. cbn [min_id].
  revert x. induction l as [|y l IH]; intros x; [now left|].
  cbn [fold_left]. destruct (IH (Z.min x y)) as [E|Hin].
  - rewrite <- E. destruct (Z.min_spec x y) as [[_ ->]|[_ ->]];
      [now left|right; now left].
  - right. now right.
Qed.

Lemma select_duplicates_In t d k :
  In k (group_keys (select_id_name t d) []) ->
  1 < length (group_ids k (select_id_name t d)) ->
  In (min_id (group_ids k (select_id_name t d)), group_ids k (select_id_name t d))
     (select_duplicates t d).
Proof.
  intros Hk Hlen. unfold select_duplicates. apply in_flat_map.
  exists k. split; [exact Hk|].
  destruct (Nat.ltb_spec 1 (length (group_ids k (select_id_name t d))));
    [now left|lia].
Qed.

Lemma dups_of_In c l x : In x (dups_of (c, l)) <-> In x l /\ x <> c.
Proof.
  unfold dups_of, duplicate_ids_to_remove. cbn [fst snd].
  rewrite filter_In, negb_true_iff, Z.eqb_neq. tauto.
Qed.

(** Of two rows with one key and two ids, step 4 deletes one. *)
Lemma one_is_duplicate t d r1 r2 :
  In r1 (select_id_name t d) -> In r2 (select_id_name t d) ->
  key_of r1 = key_of r2 -> fst r1 <> fst r2 ->
  In (fst r1) (flat_map dups_of (select_duplicates t d)) \/
  In (fst r2) (flat_map dups_of (select_duplicates t d)).
Proof.
  intros H1 H2 Hk Hne. set (rs := select_id_name t d) in *.
  set (k := key_of r1). set (g := group_ids k rs).
  assert (G1 : In (fst r1) g).
  { apply group_ids_In. exists (snd r1). now destruct r1. }
  assert (G2 : In (fst r2) g).
  { apply group_ids_In. exists (snd r2). split; [now destruct r2|].
    symmetry. exact Hk. }
  assert (Hin : In (min_id g, g) (select_duplicates t d)).
  { apply select_duplicates_In.
    - destruct (group_keys_complete rs [] r1 H1) as [H|[]]. exact H.
    - apply (two_in_list _ G1 G2 Hne). }
  destruct (Z.eq_dec (fst r1) (min_id g)) as [E|E].
  - right. apply in_flat_map. exists (min_id g, g). split; [exact Hin|].
    apply dups_of_In. split; [exact G2|congruence].
  - left. apply in_flat_map. exists (min_id g, g). split; [exact Hin|].
    apply dups_of_In. now split.
Qed.

Lemma fst_inj_NoDup {X Y} (l : list (X * Y)) x y :
  NoDup (map fst l) -> In x l -> In y l -> fst x = fst y -> x = y.
Proof.
  induction l as [|a l IH]; cbn; [tauto|].
  intros Hnd Hx Hy E. inversion Hnd as [|? ? Hni Hnd']; subst.
  destruct Hx as [->|Hx], Hy as [->|Hy]; [reflexivity| | |now apply IH].
  - exfalso. apply Hni. rewrite E. now apply in_map.
  - exfalso. apply Hni. rewrite <- E. now apply in_map.
Qed.

Lemma rows_remove_duplicates t w :
  rows t (remove_duplicates_w t w)
  = without (flat_map dups_of (select_duplicates t (data w))) (rows t w).
Proof. unfold remove_duplicates_w. now rewrite rows_merge_groups. Qed.

(** Step 4 on a table with unique ids leaves no two rows with names
    equal up to case. *)
Lemma remove_duplicates_unique t w :
  NoDup (ids t (data w)) -> no_duplicates t (data (remove_duplicates_w t w)).
Proof.
  intros Hnd. unfold no_duplicates.
  fold (rows t (remove_duplicates_w t w)). rewrite rows_remove_duplicates.
  set (D := flat_map dups_of (select_duplicates t (data w))).
  assert (HndS : NoDup (map fst (without D (rows t w))))
    by now apply NoDup_map_filter.
  apply NoDup_map_NoDup_ForallPairs; [|now apply NoDup_map_inv in HndS].
  intros x y Hx Hy Hk.
  apply without_In in Hx as [Hx Hxo]. apply without_In in Hy as [Hy Hyo].
  destruct (Z.eq_dec (fst x) (fst y)) as [E|E].
  - now apply (fst_inj_NoDup _ _ _ Hnd Hx Hy).
  - destruct (one_is_duplicate t (data w) x y Hx Hy Hk E); contradiction.
Qed.

End StepFour.

(** ** Referential integrity *)

Section Integrity.

Lemma cascade_columns_In c t :
  In c (cascade_columns t) <-> In (c, t) fk_relationships.
Proof.
  destruct t, c; cbn; intuition congruence.
Qed.

Lemma set_null_In i v l :
  In (Some v) (map (set_null i) l) -> In (Some v) l /\ v <> i.
Proof.
  intros H. apply in_map_iff in H as ([x|] & E & Hin); [|discriminate].
  cbn in E. destruct (Z.eqb_spec x i); [discriminate|].
  injection E as <-. now split.
Qed.

Lemma remap_In k dups v l :
  In (Some v) (map (remap k dups) l) ->
  (In (Some v) l /\ ~ In v dups) \/ v = k.
Proof.
  intros H. apply in_map_iff in H as ([x|] & E & Hin); [|discriminate].
  cbn in E. destruct (mem_id x dups) eqn:M; injection E as <-.
  - now right.
  - left. split; [exact Hin|]. intros Hd. apply mem_id_In in Hd. congruence.
Qed.

Lemma data_after s f w : data (after s f w) = f (data w).
Proof. reflexivity. Qed.

(** After the cascade for the row [i] of [t] no column that references [t]
    holds [i], and no column holds a key it did not hold. *)
Lemma fk_nullify i t w c v :
  In (Some v) (fk_values c (data (nullify_w i t w))) ->
  In (Some v) (fk_values c (data w)) /\ (In (c, t) fk_relationships -> v <> i).
Proof.
  rewrite <- cascade_columns_In.
  destruct t; unfold nullify_w; cbn [cascade_columns fk_relationships filter
    entity_eqb snd fst map fold_left]; rewrite ?data_after, ?fk_update_fk;
    destruct c; cbn [fk_column_eqb]; intros H;
    repeat match goal with
           | H : In (Some _) (map (set_null _) _) |- _ =>
               apply set_null_In in H as [H ?]
           end;
    (split; [exact H|]); cbn; intuition congruence.
Qed.

Lemma fk_remap t k dups w c v :
  In (Some v) (fk_values c (data (remap_w t k dups w))) ->
  (In (Some v) (fk_values c (data w)) /\
   (In (c, t) fk_relationships -> ~ In v dups))
  \/ (v = k /\ In (c, t) fk_relationships).
Proof.
  rewrite <- cascade_columns_In.
  destruct t; unfold remap_w; cbn [cascade_columns fk_relationships filter
    entity_eqb snd fst map fold_left]; rewrite ?data_after, ?fk_update_fk;
    destruct c; cbn [fk_column_eqb]; intros H;
    repeat match goal with
           | H : In (Some _) (map (remap _ _) _) |- _ =>
               apply remap_In in H as [[H ?]|H]
           end;
    cbn; intuition congruence.
Qed.

Lemma ids_delete t' t p d :
  ids t' (delete_where t p d)
  = if entity_eqb t' t then map fst (filter (fun r => negb (p (fst r)))
                                            (select_id_name t' d))
    else ids t' d.
Proof.
  unfold ids. rewrite select_delete. now destruct (entity_eqb t' t).
Qed.

Lemma edge_target c r t :
  In (c, r) fk_relationships -> In (c, t) fk_relationships -> r = t.
Proof. destruct c, r, t; cbn; intuition congruence. Qed.

Lemma ids_nullify t' i t w : ids t' (data (nullify_w i t w)) = ids t' (data w).
Proof. unfold ids. f_equal. apply (rows_nullify t' i t w). Qed.

Lemma ids_remap t' t k dups w :
  ids t' (data (remap_w t k dups w)) = ids t' (data w).
Proof. unfold ids. f_equal. apply (rows_remap t' t k dups w). Qed.

Lemma ref_ok_delete_row t w r :
  ref_ok (data w) -> ref_ok (data (delete_row_w t w r)).
Proof.
  intros Hok c r0 v Hedge Hin. unfold delete_row_w in *.
  rewrite data_after in *. apply fk_delete in Hin.
  apply fk_nullify in Hin as [Hin Hne].
  specialize (Hok c r0 v Hedge Hin).
  rewrite ids_delete. destruct (entity_eqb r0 t) eqn:E.
  - apply entity_eqb_eq in E. subst r0. specialize (Hne Hedge).
    unfold ids in Hok.
    apply in_map_iff in Hok as ([j n] & Ej & Hj). cbn in Ej. subst j.
    apply in_map_iff. exists (v, n). split; [reflexivity|].
    fold (rows t (nullify_w (fst r) t w)). rewrite rows_nullify.
    apply filter_In. split; [exact Hj|]. cbn.
    apply negb_true_iff. apply Z.eqb_neq. congruence.
  - now rewrite ids_nullify.
Qed.

Lemma ref_ok_merge_group t w g :
  ref_ok (data w) -> In (fst g) (ids t (data w)) ->
  ref_ok (data (merge_group_w t w g)).
Proof.
  intros Hok Hcanon. unfold merge_group_w. fold (dups_of g).
  destruct (dups_of g) as [|x dups] eqn:Ed; [exact Hok|]. rewrite <- Ed.
  intros c r0 v Hedge Hin. rewrite data_after in *.
  apply fk_delete in Hin. rewrite ids_delete, ids_remap.
  assert (Hfilter : forall u, In u (ids t (data w)) -> ~ In u (dups_of g) ->
            In u (map fst (filter (fun r => negb (mem_id (fst r) (dups_of g)))
                                  (select_id_name t (data (remap_w t (fst g) (dups_of g) w)))))).
  { intros u Hu Hout. unfold ids in Hu.
    apply in_map_iff in Hu as ([j n] & Ej & Hj). cbn in Ej. subst j.
    apply in_map_iff. exists (u, n). split; [reflexivity|].
    fold (rows t (remap_w t (fst g) (dups_of g) w)). rewrite rows_remap.
    apply filter_In. split; [exact Hj|]. cbn.
    apply negb_true_iff. destruct (mem_id u (dups_of g)) eqn:M; [|reflexivity].
    apply mem_id_In in M. contradiction. }
  assert (Hcanon_out : ~ In (fst g) (dups_of g)).
  { destruct g as [k l]. intros H. apply dups_of_In in H. cbn in H. tauto. }
  apply fk_remap in Hin as [[Hin Hout]|[-> Hedge']].
  - specialize (Hok c r0 v Hedge Hin).
    destruct (entity_eqb r0 t) eqn:E; [|exact Hok].
    apply entity_eqb_eq in E. subst r0. now apply Hfilter; [|apply Hout].
  - rewrite (edge_target Hedge Hedge'), entity_eqb_refl.
    now apply Hfilter.
Qed.

Lemma ref_ok_write_name t w u :
  ref_ok (data w) -> ref_ok (data (write_name_w t w u)).
Proof.
  intros Hok. destruct u as [[i n] cur]. unfold write_name_w.
  destruct (select_name t i (data w)) as [stored|]; [|exact Hok].
  destruct (name_differs stored n); [|exact Hok].
  intros c r v Hedge Hin. rewrite data_after in *. cbn [data after] in *.
  rewrite fk_update_name in Hin. specialize (Hok c r v Hedge Hin).
  unfold ids in *. rewrite select_update_name.
  destruct (entity_eqb r t); [|exact Hok]. now rewrite map_fst_rename.
Qed.

Lemma ref_ok_delete_rows t l w :
  ref_ok (data w) -> ref_ok (data (fold_left (delete_row_w t) l w)).
Proof.
  apply (@fold_left_keeps _ _ (delete_row_w t) (fun w => ref_ok (data w))).
  intros w' r _. apply ref_ok_delete_row.
Qed.

Lemma ref_ok_correct_names m t w :
  ref_ok (data w) -> ref_ok (data (correct_names_w m t w)).
Proof.
  intros H. unfold correct_names_w.
  apply (@fold_left_keeps _ _ (write_name_w t) (fun w => ref_ok (data w))).
  - intros w' u _. apply ref_ok_write_name.
  - now apply ref_ok_delete_rows.
Qed.

Lemma ref_ok_remove_unvalidated m t w :
  ref_ok (data w) -> ref_ok (data (remove_unvalidated_w m t w)).
Proof. intros H. unfold remove_unvalidated_w. now apply ref_ok_delete_rows. Qed.

End Integrity.

(** ** The groups of step 4 *)

Section Groups.

Variable rs : list (Z * option str).
Hypothesis rs_unique : NoDup (map fst rs).

Lemma group_ids_disjoint x k k' :
  In x (group_ids k rs) -> In x (group_ids k' rs) -> k = k'.
Proof.
  intros H H'. apply group_ids_In in H as (n & Hn & <-).
  apply group_ids_In in H' as (n' & Hn' & <-).
  assert (E : (x, n) = (x, n')) by now apply (fst_inj_NoDup _ _ _ rs_unique).
  now injection E as ->.
Qed.

Lemma group_row_In g k :
  In g (group_row rs k) ->
  g = (min_id (group_ids k rs), group_ids k rs) /\ In (fst g) (group_ids k rs).
Proof.
  unfold group_row. destruct (Nat.ltb_spec 1 (length (group_ids k rs))) as [H|H];
    [|intros []].
  intros [<-|[]]. split; [reflexivity|]. cbn [fst]. apply min_id_In.
  intros E. rewrite E in H. cbn in H. lia.
Qed.

Lemma group_rows_separate ks :
  NoDup ks -> separate (flat_map (group_row rs) ks).
Proof.
  induction ks as [|k ks IH]; intros Hnd; [constructor|].
  inversion Hnd as [|? ? Hni Hnd']; subst. cbn [flat_map].
  unfold group_row at 1.
  destruct (Nat.ltb_spec 1 (length (group_ids k rs))) as [Hlen|Hlen];
    [|now apply IH].
  cbn [app]. constructor; [|now apply IH].
  apply Forall_forall. intros g' Hg'.
  apply in_flat_map in Hg' as (k' & Hk' & Hg').
  apply group_row_In in Hg' as [-> Hcanon]. cbn [fst] in *.
  split; intros Hin; apply dups_of_In in Hin as [Hin _].
  - assert (k = k') by now apply (group_ids_disjoint (min_id (group_ids k' rs))).
    congruence.
  - assert (Hmin : In (min_id (group_ids k rs)) (group_ids k rs)).
    { apply min_id_In. intros E. rewrite E in Hlen. cbn in Hlen. lia. }
    assert (k = k') by now apply (group_ids_disjoint (min_id (group_ids k rs))).
    congruence.
Qed.

End Groups.

Lemma select_duplicates_rows t d :
  select_duplicates t d
  = flat_map (group_row (select_id_name t d)) (group_keys (select_id_name t d) []).
Proof. reflexivity. Qed.

Lemma select_duplicates_separate t d :
  NoDup (ids t d) -> separate (select_duplicates t d).
Proof.
  intros Hnd. rewrite select_duplicates_rows.
  apply group_rows_separate; [exact Hnd|]. apply group_keys_NoDup.
Qed.

Lemma select_duplicates_canonical t d g :
  In g (select_duplicates t d) -> In (fst g) (ids t d).
Proof.
  rewrite select_duplicates_rows. intros H.
  apply in_flat_map in H as (k & _ & H). apply group_row_In in H as [_ H].
  apply group_ids_In in H as (n & Hn & _). unfold ids.
  change (fst g) with (fst (fst g, n)). now apply in_map.
Qed.

Lemma ids_merge_group t w g u :
  In u (ids t (data w)) -> ~ In u (dups_of g) ->
  In u (ids t (data (merge_group_w t w g))).
Proof.
  intros Hu Hout. unfold ids in *.
  fold (rows t (merge_group_w t w g)). rewrite rows_merge_group.
  apply in_map_iff in Hu as ([j n] & Ej & Hj). cbn in Ej. subst j.
  apply in_map_iff. exists (u, n). split; [reflexivity|].
  apply without_In. now split.
Qed.

Lemma ref_ok_merge_groups t gs : forall w,
  separate gs -> (forall g, In g gs -> In (fst g) (ids t (data w))) ->
  ref_ok (data w) -> ref_ok (data (fold_left (merge_group_w t) gs w)).
Proof.
  induction gs as [|g gs IH]; intros w Hsep Hcanon Hok; [exact Hok|].
  inversion Hsep as [|? ? Hg Hsep']; subst. cbn [fold_left]. apply IH.
  - exact Hsep'.
  - intros g' Hg'. apply ids_merge_group; [apply Hcanon; now right|].
    rewrite Forall_forall in Hg. now apply (Hg g').
  - apply ref_ok_merge_group; [exact Hok|apply Hcanon; now left].
Qed.

Lemma ref_ok_remove_duplicates t w :
  NoDup (ids t (data w)) -> ref_ok (data w) ->
  ref_ok (data (remove_duplicates_w t w)).
Proof.
  intros Hnd Hok. unfold remove_duplicates_w. apply ref_ok_merge_groups.
  - now apply select_duplicates_separate.
  - intros g Hg. now apply select_duplicates_canonical.
  - exact Hok.
Qed.

(** ** Unique ids are kept *)

Section UniqueIds.

Lemma closed_unique_ids : closed (fun rs => NoDup (map fst rs)).
Proof. intros p rs H. now apply NoDup_map_filter. Qed.

Lemma unique_ids_rename t' t :
  stable_rename t (rows_have t' (fun rs => NoDup (map fst rs))).
Proof.
  intros n i d H. unfold rows_have in *. rewrite select_update_name.
  destruct (entity_eqb t' t); [now rewrite map_fst_rename|exact H].
Qed.

Lemma ids_unique_correct_names m t w :
  ids_unique (data w) -> ids_unique (data (correct_names_w m t w)).
Proof.
  intros H t'.
  apply (@correct_names_keeps (rows_have t' (fun rs => NoDup (map fst rs)))).
  - apply rows_stable_fk.
  - apply rows_stable_delete, closed_unique_ids.
  - apply unique_ids_rename.
  - apply H.
Qed.

Lemma ids_unique_remove_unvalidated m t w :
  ids_unique (data w) -> ids_unique (data (remove_unvalidated_w m t w)).
Proof.
  intros H t'.
  apply (@remove_unvalidated_keeps (rows_have t' (fun rs => NoDup (map fst rs)))).
  - apply rows_stable_fk.
  - apply rows_stable_delete, closed_unique_ids.
  - apply H.
Qed.

Lemma ids_unique_remove_duplicates t w :
  ids_unique (data w) -> ids_unique (data (remove_duplicates_w t w)).
Proof.
  intros H t'.
  apply (@remove_duplicates_keeps (rows_have t' (fun rs => NoDup (map fst rs)))).
  - apply rows_stable_fk.
  - apply rows_stable_delete, closed_unique_ids.
  - apply H.
Qed.

End UniqueIds.

(** ** Every [DELETE] comes after its cascade *)

Section Guarded.

Lemma snoc_split {X} (l pre post : list X) a x :
  l ++ [a] = pre ++ x :: post ->
  (post = [] /\ l = pre /\ a = x) \/
  (exists post', post = post' ++ [a] /\ l = pre ++ x :: post').
Proof.
  destruct post as [|y post] using rev_ind; intros H.
  - left. apply app_inj_tail in H as [-> ->]. now repeat split.
  - right. exists post.
    change (pre ++ x :: post ++ [y]) with (pre ++ (x :: post) ++ [y]) in H.
    rewrite app_assoc in H. apply app_inj_tail in H as [-> ->]. now split.
Qed.

Lemma cascade_done_mono pre pre' s :
  incl pre pre' -> cascade_done pre s -> cascade_done pre' s.
Proof.
  intros Hincl. destruct s; cbn; trivial.
  - intros H c0 Hc. apply Hincl. now apply H.
  - intros H c0 Hc. destruct (H c0 Hc) as (k & Hk). exists k. now apply Hincl.
Qed.

Lemma guarded_snoc evs ev :
  guarded evs ->
  match ev with Exec s => cascade_done evs s | _ => True end ->
  guarded (evs ++ [ev]).
Proof.
  intros Hg Hev pre s post H.
  apply snoc_split in H as [(-> & -> & ->)|(post' & -> & ->)].
  - exact Hev.
  - now apply (Hg pre s post').
Qed.

Lemma harmless_done ev pre :
  harmless ev -> match ev with Exec s => cascade_done pre s | _ => True end.
Proof. destruct ev as [[]| | |]; cbn; tauto. Qed.

Lemma guarded_app evs new :
  guarded evs -> Forall harmless new -> guarded (evs ++ new).
Proof.
  revert evs. induction new as [|ev new IH]; intros evs Hg Hnew.
  - now rewrite app_nil_r.
  - inversion Hnew; subst.
    change (evs ++ ev :: new) with (evs ++ [ev] ++ new). rewrite app_assoc.
    apply IH; [|assumption]. apply guarded_snoc; [exact Hg|].
    now apply harmless_done.
Qed.

Lemma events_after s f w : events (after s f w) = events w ++ [Exec s].
Proof. reflexivity. Qed.

Lemma events_nullify i t w :
  events (nullify_w i t w)
  = events w ++ map (fun c => Exec (UpdateSetNull c i)) (cascade_columns t).
Proof.
  destruct t; cbn; rewrite <- ?app_assoc; reflexivity.
Qed.

Lemma events_remap t k dups w :
  events (remap_w t k dups w)
  = events w ++ map (fun c => Exec (UpdateRemap c k dups)) (cascade_columns t).
Proof.
  destruct t; cbn; rewrite <- ?app_assoc; reflexivity.
Qed.

Lemma guarded_delete_row t w r :
  guarded (events w) -> guarded (events (delete_row_w t w r)).
Proof.
  intros Hg. unfold delete_row_w. rewrite events_after, events_nullify.
  apply guarded_snoc.
  - apply guarded_app; [exact Hg|]. apply Forall_forall.
    intros ev Hev. apply in_map_iff in Hev as (c & <- & _). exact I.
  - intros c Hc. apply in_or_app. right.
    apply in_map_iff. exists c. split; [reflexivity|].
    now apply cascade_columns_In.
Qed.

Lemma guarded_merge_group t w g :
  guarded (events w) -> guarded (events (merge_group_w t w g)).
Proof.
  intros Hg. unfold merge_group_w.
  destruct (duplicate_ids_to_remove (fst g) (snd g)) as [|x dups]; [exact Hg|].
  rewrite events_after, events_remap. apply guarded_snoc.
  - apply guarded_app; [exact Hg|]. apply Forall_forall.
    intros ev Hev. apply in_map_iff in Hev as (c & <- & _). exact I.
  - intros c Hc. exists (fst g). apply in_or_app. right.
    apply in_map_iff. exists c. split; [reflexivity|].
    now apply cascade_columns_In.
Qed.

Lemma guarded_write_name t w u :
  guarded (events w) -> guarded (events (write_name_w t w u)).
Proof.
  intros Hg. destruct u as [[i n] cur]. unfold write_name_w.
  destruct (select_name t i (data w)) as [stored|];
    [destruct (name_differs stored n)|];
    rewrite ?events_after; repeat apply guarded_snoc; cbn; trivial.
Qed.

Lemma guarded_read s w :
  reads s = true -> guarded (events w) -> guarded (events (after s same w)).
Proof.
  intros Hs Hg. rewrite events_after. apply guarded_snoc; [exact Hg|].
  destruct s; cbn in *; trivial; discriminate.
Qed.

Lemma guarded_correct_names m t w :
  guarded (events w) -> guarded (events (correct_names_w m t w)).
Proof.
  intros Hg. unfold correct_names_w.
  apply (@fold_left_keeps _ _ (write_name_w t) (fun w => guarded (events w))).
  { intros w' u _. apply guarded_write_name. }
  apply (@fold_left_keeps _ _ (delete_row_w t) (fun w => guarded (events w))).
  { intros w' r _. apply guarded_delete_row. }
  now apply guarded_read.
Qed.

Lemma guarded_remove_unvalidated m t w :
  guarded (events w) -> guarded (events (remove_unvalidated_w m t w)).
Proof.
  intros Hg. unfold remove_unvalidated_w.
  apply (@fold_left_keeps _ _ (delete_row_w t) (fun w => guarded (events w))).
  { intros w' r _. apply guarded_delete_row. }
  now apply guarded_read.
Qed.

Lemma guarded_remove_duplicates t w :
  guarded (events w) -> guarded (events (remove_duplicates_w t w)).
Proof.
  intros Hg. unfold remove_duplicates_w.
  apply (@fold_left_keeps _ _ (merge_group_w t) (fun w => guarded (events w))).
  { intros w' r _. apply guarded_merge_group. }
  now apply guarded_read.
Qed.

Lemma guarded_emit m w : guarded (events w) -> guarded (events (emit m w)).
Proof. intros Hg. now apply guarded_snoc. Qed.

Lemma guarded_fetch net e w :
  guarded (events w) -> guarded (events (fetch_w net e w)).
Proof.
  intros Hg. unfold fetch_w. destruct (fetch_pages (net e) []); [exact Hg|].
  now apply guarded_emit.
Qed.

Lemma guarded_nil : guarded [].
Proof. intros [|? ?] s post H; discriminate. Qed.

Lemma guarded_step2 net w :
  guarded (events w) -> guarded (events (step2_w net w)).
Proof.
  apply (@fold_left_keeps _ _ (fun w t => correct_names_w (metas_of net t) t w)
                          (fun w => guarded (events w))).
  intros w' t _. apply guarded_correct_names.
Qed.

Lemma guarded_step3 net w :
  guarded (events w) -> guarded (events (step3_w net w)).
Proof.
  apply (@fold_left_keeps _ _ (fun w t => remove_unvalidated_w (metas_of net t) t w)
                          (fun w => guarded (events w))).
  intros w' t _. apply guarded_remove_unvalidated.
Qed.

Lemma guarded_step4 w : guarded (events w) -> guarded (events (step4_w w)).
Proof.
  apply (@fold_left_keeps _ _ (fun w t => remove_duplicates_w t w)
                          (fun w => guarded (events w))).
  intros w' t _. apply guarded_remove_duplicates.
Qed.

Lemma guarded_fetch_references net w :
  guarded (events w) -> guarded (events (fetch_references_w net w)).
Proof. intros Hg. unfold fetch_references_w. now do 3 apply guarded_fetch. Qed.

Lemma try_block_w_eq net w :
  try_block_w net w
  = emit Finished (after Commit same (step4_w (step3_w net (step2_w net
      (fetch_references_w net (after PragmaForeignKeys same w)))))).
Proof. reflexivity. Qed.

Lemma guarded_try_block net w :
  guarded (events w) -> guarded (events (try_block_w net w)).
Proof.
  intros Hg. rewrite try_block_w_eq.
  apply guarded_emit. apply guarded_read; [reflexivity|].
  apply guarded_step4, guarded_step3, guarded_step2, guarded_fetch_references.
  apply guarded_read; [reflexivity|exact Hg].
Qed.

End Guarded.

(** ** The whole run *)

Section WholeRun.

Variable net : endpoint -> listing.

Lemma tables_all t : In t tables.
Proof. destruct t; cbn; tauto. Qed.

Lemma tables_NoDup : NoDup tables.
Proof. repeat constructor; cbn; intuition discriminate. Qed.

(** A step that establishes [Good t] on [t] and keeps it on the others
    establishes it on every table of the loop. *)
Lemma staged (step : entity -> world -> world) (Pre : db -> Prop)
      (Good : entity -> db -> Prop) :
  (forall t w, Pre (data w) -> Pre (data (step t w))) ->
  (forall t w, Pre (data w) -> Good t (data (step t w))) ->
  (forall t t' w, t <> t' -> Good t (data w) -> Good t (data (step t' w))) ->
  forall l w, NoDup l -> Pre (data w) ->
    forall t, In t l -> Good t (data (fold_left (fun w t => step t w) l w)).
Proof.
  intros Hpre Hgood Hkeep. induction l as [|x l IH]; intros w Hnd Hw t Hin;
    [destruct Hin|].
  inversion Hnd as [|? ? Hni Hnd']; subst. cbn [fold_left].
  destruct Hin as [->|Hin].
  - apply (@fold_left_keeps _ _ (fun w t => step t w) (fun w => Good t (data w))).
    + intros w' t' Ht'. apply Hkeep. intros ->. contradiction.
    + now apply Hgood.
  - apply IH; [exact Hnd'|now apply Hpre|exact Hin].
Qed.

Lemma closed_forall (P : Z -> option str -> Prop) :
  closed (fun rs => forall i n, In (i, n) rs -> P i n).
Proof. intros p rs H i n Hin. apply filter_In in Hin as [Hin _]. now apply H. Qed.

Lemma closed_keys : closed (fun rs => NoDup (map key_of rs)).
Proof. intros p rs H. now apply NoDup_map_filter. Qed.

(** Steps 3 and 4 on any table keep a closed property of the rows of [t];
    step 2 on another table keeps it too. *)
Section Kept.

Variable t : entity.
Variable Phi : list (Z * option str) -> Prop.
Hypothesis Phi_closed : closed Phi.

Lemma kept_remove_unvalidated m t' w :
  rows_have t Phi (data w) ->
  rows_have t Phi (data (remove_unvalidated_w m t' w)).
Proof.
  apply remove_unvalidated_keeps;
    [apply rows_stable_fk|now apply rows_stable_delete].
Qed.

Lemma kept_remove_duplicates t' w :
  rows_have t Phi (data w) -> rows_have t Phi (data (remove_duplicates_w t' w)).
Proof.
  apply remove_duplicates_keeps;
    [apply rows_stable_fk|now apply rows_stable_delete].
Qed.

Lemma kept_correct_names m t' w :
  t <> t' -> rows_have t Phi (data w) ->
  rows_have t Phi (data (correct_names_w m t' w)).
Proof.
  intros Hne. apply correct_names_keeps;
    [apply rows_stable_fk|now apply rows_stable_delete
    |now apply rows_stable_rename_other].
Qed.

Lemma kept_step3 w :
  rows_have t Phi (data w) -> rows_have t Phi (data (step3_w net w)).
Proof.
  apply (@fold_left_keeps _ _ (fun w t => remove_unvalidated_w (metas_of net t) t w)
                          (fun w => rows_have t Phi (data w))).
  intros w' t' _. apply kept_remove_unvalidated.
Qed.

Lemma kept_step4 w :
  rows_have t Phi (data w) -> rows_have t Phi (data (step4_w w)).
Proof.
  apply (@fold_left_keeps _ _ (fun w t => remove_duplicates_w t w)
                          (fun w => rows_have t Phi (data w))).
  intros w' t' _. apply kept_remove_duplicates.
Qed.

End Kept.

Lemma ids_unique_step2 w : ids_unique (data w) -> ids_unique (data (step2_w net w)).
Proof.
  apply (@fold_left_keeps _ _ (fun w t => correct_names_w (metas_of net t) t w)
                          (fun w => ids_unique (data w))).
  intros w' t _. apply ids_unique_correct_names.
Qed.

Lemma ids_unique_step3 w : ids_unique (data w) -> ids_unique (data (step3_w net w)).
Proof.
  apply (@fold_left_keeps _ _ (fun w t => remove_unvalidated_w (metas_of net t) t w)
                          (fun w => ids_unique (data w))).
  intros w' t _. apply ids_unique_remove_unvalidated.
Qed.

Lemma ids_unique_step4 w : ids_unique (data w) -> ids_unique (data (step4_w w)).
Proof.
  apply (@fold_left_keeps _ _ (fun w t => remove_duplicates_w t w)
                          (fun w => ids_unique (data w))).
  intros w' t _. apply ids_unique_remove_duplicates.
Qed.

Lemma step2_proposed w t :
  ids_unique (data w) -> names_proposed (metas_of net t) t (data (step2_w net w)).
Proof.
  intros Hu.
  apply (@staged (fun t w => correct_names_w (metas_of net t) t w) ids_unique
                 (fun t d => names_proposed (metas_of net t) t d));
    [| | |apply tables_NoDup|exact Hu|apply tables_all].
  - intros; now apply ids_unique_correct_names.
  - intros t0 w0 H0. now apply correct_names_proposed.
  - intros t0 t' w0 Hne.
    apply (@kept_correct_names t0 _ (closed_forall _) _ t' w0 Hne).
Qed.

Lemma step3_valid w t : names_valid (metas_of net t) t (data (step3_w net w)).
Proof.
  apply (@staged (fun t w => remove_unvalidated_w (metas_of net t) t w)
                 (fun _ => True)
                 (fun t d => names_valid (metas_of net t) t d));
    [trivial| | |apply tables_NoDup|exact I|apply tables_all].
  - intros t0 w0 _. apply remove_unvalidated_valid.
  - intros t0 t' w0 _.
    apply (@kept_remove_unvalidated t0 _ (closed_forall _)).
Qed.

Lemma step4_unique w t :
  ids_unique (data w) -> no_duplicates t (data (step4_w w)).
Proof.
  intros Hu.
  apply (@staged (fun t w => remove_duplicates_w t w) ids_unique no_duplicates);
    [| | |apply tables_NoDup|exact Hu|apply tables_all].
  - intros; now apply ids_unique_remove_duplicates.
  - intros t0 w0 H0. now apply remove_duplicates_unique.
  - intros t0 t' w0 _. apply (@kept_remove_duplicates t0 _ closed_keys).
Qed.

Lemma ref_ok_step2 w : ref_ok (data w) -> ref_ok (data (step2_w net w)).
Proof.
  apply (@fold_left_keeps _ _ (fun w t => correct_names_w (metas_of net t) t w)
                          (fun w => ref_ok (data w))).
  intros w' t _. apply ref_ok_correct_names.
Qed.

Lemma ref_ok_step3 w : ref_ok (data w) -> ref_ok (data (step3_w net w)).
Proof.
  apply (@fold_left_keeps _ _ (fun w t => remove_unvalidated_w (metas_of net t) t w)
                          (fun w => ref_ok (data w))).
  intros w' t _. apply ref_ok_remove_unvalidated.
Qed.

Lemma ref_ok_step4 w :
  ids_unique (data w) -> ref_ok (data w) -> ref_ok (data (step4_w w)).
Proof.
  intros Hu Hok.
  assert (G : ids_unique (data (step4_w w)) /\ ref_ok (data (step4_w w)));
    [|tauto].
  apply (@fold_left_keeps _ _ (fun w t => remove_duplicates_w t w)
           (fun w => ids_unique (data w) /\ ref_ok (data w))); [|tauto].
  intros w' t _ [Hu' Hok']. split.
  - now apply ids_unique_remove_duplicates.
  - now apply ref_ok_remove_duplicates.
Qed.

Lemma data_fetch e w : data (fetch_w net e w) = data w.
Proof. unfold fetch_w. now destruct (fetch_pages (net e) []). Qed.

End WholeRun.

(** ** Step 4 maps every key to the canonical id *)

Section Canonical.

Lemma remap_nil k v : remap k [] v = v.
Proof. now destruct v. Qed.

Lemma fk_remap_exact t k dups w c :
  In (c, t) fk_relationships ->
  fk_values c (data (remap_w t k dups w))
  = map (remap k dups) (fk_values c (data w)).
Proof.
  intros Hc. destruct t, c; cbn in Hc;
    try (exfalso; intuition congruence);
    cbn; rewrite ?map_map; reflexivity.
Qed.

Lemma fk_delete_exact t p d c :
  In (c, t) fk_relationships ->
  fk_values c (delete_where t p d) = fk_values c d.
Proof.
  intros Hc. destruct t, c; cbn in Hc;
    try (exfalso; intuition congruence); reflexivity.
Qed.

Lemma fk_merge_group t w g c :
  In (c, t) fk_relationships ->
  fk_values c (data (merge_group_w t w g))
  = map (remap (fst g) (dups_of g)) (fk_values c (data w)).
Proof.
  intros Hc. unfold merge_group_w. fold (dups_of g).
  destruct (dups_of g) as [|x dups] eqn:E.
  - symmetry. erewrite map_ext; [apply map_id|]. apply remap_nil.
  - rewrite data_after, fk_delete_exact by exact Hc.
    now apply fk_remap_exact.
Qed.

Lemma fk_merge_groups t c gs : forall w,
  In (c, t) fk_relationships ->
  fk_values c (data (fold_left (merge_group_w t) gs w))
  = map (remap_all gs) (fk_values c (data w)).
Proof.
  induction gs as [|g gs IH]; intros w Hc.
  - cbn. symmetry. apply map_id.
  - cbn [fold_left]. rewrite IH, fk_merge_group by exact Hc.
    rewrite map_map. reflexivity.
Qed.

Lemma remap_all_None gs : remap_all gs None = None.
Proof. induction gs as [|g gs IH]; [reflexivity|exact IH]. Qed.

Lemma find_absent gs x :
  (forall g, In g gs -> ~ In x (dups_of g)) ->
  find (fun g => mem_id x (dups_of g)) gs = None.
Proof.
  induction gs as [|g gs IH]; intros H; [reflexivity|].
  cbn. destruct (mem_id x (dups_of g)) eqn:M.
  - apply mem_id_In in M. exfalso. apply (H g); [now left|exact M].
  - apply IH. intros g' Hg'. apply H. now right.
Qed.

Lemma remap_all_Some gs : forall x,
  separate gs -> remap_all gs (Some x) = Some (merged_into gs x).
Proof.
  induction gs as [|g gs IH]; intros x Hsep; [reflexivity|].
  inversion Hsep as [|? ? Hg Hsep']; subst.
  unfold remap_all, merged_into. cbn [fold_left find remap].
  destruct (mem_id x (dups_of g)) eqn:M.
  - fold (remap_all gs (Some (fst g))). rewrite IH by exact Hsep'.
    unfold merged_into. rewrite find_absent; [reflexivity|].
    intros g' Hg'. rewrite Forall_forall in Hg. now apply (Hg g').
  - fold (remap_all gs (Some x)). now rewrite IH.
Qed.

Variable rs : list (Z * option str).
Hypothesis rs_unique : NoDup (map fst rs).

Lemma find_row x n :
  In (x, n) rs -> find (fun r => Z.eqb (fst r) x) rs = Some (x, n).
Proof.
  intros Hin. destruct (find (fun r => Z.eqb (fst r) x) rs) as [r|] eqn:F.
  - apply find_some in F as [Hr E]. apply Z.eqb_eq in E.
    f_equal. now apply (fst_inj_NoDup _ _ _ rs_unique).
  - apply (find_none _ _ F) in Hin. cbn in Hin. now rewrite Z.eqb_refl in Hin.
Qed.

Lemma canonical_of_row x n :
  In (x, n) rs -> canonical_of rs x = min_id (group_ids (sql_lower n) rs).
Proof. intros Hin. unfold canonical_of. now rewrite (find_row _ _ Hin). Qed.

Lemma canonical_of_stranger x :
  ~ In x (map fst rs) -> canonical_of rs x = x.
Proof.
  intros Hout. unfold canonical_of.
  destruct (find (fun r => Z.eqb (fst r) x) rs) as [r|] eqn:F; [|reflexivity].
  apply find_some in F as [Hr E]. apply Z.eqb_eq in E. exfalso. apply Hout.
  rewrite <- E. now apply in_map.
Qed.

Local Abbreviation gs := (flat_map (group_row rs) (group_keys rs [])).

Lemma canonical_of_duplicate g x :
  In g gs -> In x (dups_of g) -> canonical_of rs x = fst g.
Proof.
  intros Hg Hx. apply in_flat_map in Hg as (k & _ & Hg).
  apply group_row_In in Hg as [-> _]. apply dups_of_In in Hx as [Hx _].
  apply group_ids_In in Hx as (n & Hn & <-). now apply canonical_of_row.
Qed.

Lemma one_in_list {X} (l : list X) x : In x l -> length l <= 1 -> l = [x].
Proof.
  destruct l as [|a [|b l]]; cbn; try tauto; [|lia].
  intros [->|[]] _. reflexivity.
Qed.

Lemma canonical_of_kept x :
  (forall g, In g gs -> ~ In x (dups_of g)) -> canonical_of rs x = x.
Proof.
  intros Hout. destruct (in_dec Z.eq_dec x (map fst rs)) as [Hin|Hni];
    [|now apply canonical_of_stranger].
  apply in_map_iff in Hin as ([y n] & Ey & Hin). cbn in Ey. subst y.
  rewrite (canonical_of_row _ _ Hin).
  assert (Hx : In x (group_ids (sql_lower n) rs))
    by (apply group_ids_In; now exists n).
  destruct (Nat.ltb_spec 1 (length (group_ids (sql_lower n) rs))) as [Hlen|Hlen].
  - destruct (Z.eq_dec x (min_id (group_ids (sql_lower n) rs))) as [E|E];
      [now rewrite <- E|].
    exfalso.
    apply (Hout (min_id (group_ids (sql_lower n) rs), group_ids (sql_lower n) rs)).
    + apply in_flat_map. exists (sql_lower n). split.
      * destruct (group_keys_complete rs [] (x, n) Hin) as [H|[]]. exact H.
      * unfold group_row.
        destruct (Nat.ltb_spec 1 (length (group_ids (sql_lower n) rs)));
          [now left|lia].
    + apply dups_of_In. now split.
  - now rewrite (one_in_list _ _ Hx Hlen).
Qed.

Lemma merged_into_canonical x : merged_into gs x = canonical_of rs x.
Proof.
  unfold merged_into.
  destruct (find (fun g => mem_id x (dups_of g)) gs) as [g|] eqn:F.
  - apply find_some in F as [Hg M]. apply mem_id_In in M.
    symmetry. now apply canonical_of_duplicate.
  - symmetry. apply canonical_of_kept. intros g Hg Hx.
    apply (find_none _ _ F) in Hg. apply mem_id_In in Hx. congruence.
Qed.

Lemma survivors_canonical :
  without (flat_map dups_of gs) rs
  = filter (fun r => Z.eqb (fst r) (canonical_of rs (fst r))) rs.
Proof.
  unfold without. apply filter_ext_in. intros [x n] Hin. cbn [fst].
  destruct (mem_id x (flat_map dups_of gs)) eqn:M; cbn [negb]; symmetry.
  - apply mem_id_In in M. apply in_flat_map in M as (g & Hg & Hx).
    rewrite (canonical_of_duplicate _ _ Hg Hx).
    apply Z.eqb_neq. apply dups_of_In in Hx.
    destruct g as [k l]. cbn in *. tauto.
  - apply Z.eqb_eq. symmetry. apply canonical_of_kept. intros g Hg Hx.
    assert (In x (flat_map dups_of gs)) by (apply in_flat_map; eauto).
    apply mem_id_In in H. congruence.
Qed.

End Canonical.

(** What step 4 does to a table with unique ids: of the rows that share a
    name up to case the one with the least id stays, and every key that
    references the table goes to the canonical id of the row it named. *)
Lemma remove_duplicates_canonical t w :
  NoDup (ids t (data w)) ->
  rows t (remove_duplicates_w t w)
  = filter (fun r => Z.eqb (fst r) (canonical_of (rows t w) (fst r))) (rows t w)
  /\ forall c, In (c, t) fk_relationships ->
       fk_values c (data (remove_duplicates_w t w))
       = map (option_map (canonical_of (rows t w))) (fk_values c (data w)).
Proof.
  intros Hnd. split.
  - rewrite rows_remove_duplicates. now apply survivors_canonical.
  - intros c Hc. unfold remove_duplicates_w.
    rewrite fk_merge_groups by exact Hc. cbn [data after]. unfold same.
    apply map_ext. intros [x|]; [|apply remap_all_None].
    rewrite remap_all_Some by now apply select_duplicates_separate.
    cbn [option_map]. f_equal. now apply merged_into_canonical.
Qed.

(** ** What a record keeps as it grows *)

Section Lasting.

Variable P : list event -> Prop.
Hypothesis P_lasting : lasting P.

Lemma lasting_after s f w : P (events w) -> P (events (after s f w)).
Proof. intros H. now apply P_lasting. Qed.

Lemma lasting_emit m w : P (events w) -> P (events (emit m w)).
Proof. intros H. now apply P_lasting. Qed.

Lemma lasting_nullify i t w : P (events w) -> P (events (nullify_w i t w)).
Proof. intros H. rewrite events_nullify. now apply P_lasting. Qed.

Lemma lasting_remap t k dups w : P (events w) -> P (events (remap_w t k dups w)).
Proof. intros H. rewrite events_remap. now apply P_lasting. Qed.

Lemma lasting_delete_row t w r : P (events w) -> P (events (delete_row_w t w r)).
Proof. intros H. apply lasting_after. now apply lasting_nullify. Qed.

Lemma lasting_delete_rows t l w :
  P (events w) -> P (events (fold_left (delete_row_w t) l w)).
Proof.
  apply (@fold_left_keeps _ _ (delete_row_w t) (fun w => P (events w))).
  intros w' r _. apply lasting_delete_row.
Qed.

Lemma lasting_write_name t w u : P (events w) -> P (events (write_name_w t w u)).
Proof.
  intros H. destruct u as [[i n] cur]. unfold write_name_w.
  destruct (select_name t i (data w)) as [stored|];
    [destruct (name_differs stored n)|]; repeat apply lasting_after; exact H.
Qed.

Lemma lasting_correct_names m t w :
  P (events w) -> P (events (correct_names_w m t w)).
Proof.
  intros H. unfold correct_names_w.
  apply (@fold_left_keeps _ _ (write_name_w t) (fun w => P (events w))).
  { intros w' u _. apply lasting_write_name. }
  apply lasting_delete_rows. now apply lasting_after.
Qed.

Lemma lasting_remove_unvalidated m t w :
  P (events w) -> P (events (remove_unvalidated_w m t w)).
Proof.
  intros H. unfold remove_unvalidated_w.
  apply lasting_delete_rows. now apply lasting_after.
Qed.

Lemma lasting_merge_group t w g : P (events w) -> P (events (merge_group_w t w g)).
Proof.
  intros H. unfold merge_group_w.
  destruct (duplicate_ids_to_remove (fst g) (snd g)); [exact H|].
  apply lasting_after. now apply lasting_remap.
Qed.

Lemma lasting_remove_duplicates t w :
  P (events w) -> P (events (remove_duplicates_w t w)).
Proof.
  intros H. unfold remove_duplicates_w.
  apply (@fold_left_keeps _ _ (merge_group_w t) (fun w => P (events w))).
  { intros w' g _. apply lasting_merge_group. }
  now apply lasting_after.
Qed.

Lemma lasting_fetch net e w : P (events w) -> P (events (fetch_w net e w)).
Proof.
  intros H. unfold fetch_w. destruct (fetch_pages (net e) []); [exact H|].
  now apply lasting_emit.
Qed.

Lemma lasting_step2 net w : P (events w) -> P (events (step2_w net w)).
Proof.
  apply (@fold_left_keeps _ _ (fun w t => correct_names_w (metas_of net t) t w)
                          (fun w => P (events w))).
  intros w' t _. apply lasting_correct_names.
Qed.

Lemma lasting_step3 net w : P (events w) -> P (events (step3_w net w)).
Proof.
  apply (@fold_left_keeps _ _ (fun w t => remove_unvalidated_w (metas_of net t) t w)
                          (fun w => P (events w))).
  intros w' t _. apply lasting_remove_unvalidated.
Qed.

Lemma lasting_step4 w : P (events w) -> P (events (step4_w w)).
Proof.
  apply (@fold_left_keeps _ _ (fun w t => remove_duplicates_w t w)
                          (fun w => P (events w))).
  intros w' t _. apply lasting_remove_duplicates.
Qed.

End Lasting.

Lemma lasting_In ev : lasting (fun evs => In ev evs).
Proof. intros evs new H. apply in_or_app. now left. Qed.

(** ** A second run *)

Section SecondRun.

Variable net : endpoint -> listing.

Lemma metas_of_vocabulary t :
  metas_of net t
  = Meta (build_valid_map (vocabulary net t)) (build_valid_set (vocabulary net t)) 2.
Proof. destruct t; reflexivity. Qed.

Lemma settled_of_proposed t d :
  clean_vocabulary net ->
  names_proposed (metas_of net t) t d -> names_valid (metas_of net t) t d ->
  names_settled (metas_of net t) t d.
Proof.
  intros Hclean Hp Hv i n Hin. destruct (Hp i n Hin) as (s0 & ->).
  specialize (Hv i _ Hin). rewrite metas_of_vocabulary in *.
  cbn [valid_map threshold original_valid_set in_valid_set] in *.
  eexists. split; [reflexivity|]. split; [|split].
  - apply (valid_not_junk (vocabulary net t)); [apply Hclean|exact Hv].
  - now apply proposed_fixpoint.
  - exact Hv.
Qed.

Variable d : db.
Hypothesis d_settled : forall t, names_settled (metas_of net t) t d.
Hypothesis d_unique : forall t, no_duplicates t d.

Lemma settled_no_junk t : junk_rows (select_id_name t d) = [].
Proof.
  apply filter_none. intros [i n] Hin.
  destruct (d_settled t i n Hin) as (s & _ & Hj & _). exact Hj.
Qed.

Lemma flat_map_none {X Y} (f : X -> list Y) l :
  (forall x, In x l -> f x = []) -> flat_map f l = [].
Proof.
  induction l as [|x l IH]; intros H; [reflexivity|].
  cbn. rewrite (H x) by now left. apply IH. intros y Hy. apply H. now right.
Qed.

Lemma settled_no_updates t :
  name_updates (metas_of net t) (select_id_name t d) = [].
Proof.
  apply flat_map_none. intros [i n] Hin. cbn [fst snd].
  destruct (d_settled t i n Hin) as (s & -> & Hj & Hfix & _).
  rewrite Hj, Hfix. now rewrite str_eqb_refl.
Qed.

Lemma settled_all_valid t :
  unvalidated_rows (metas_of net t) (select_id_name t d) = [].
Proof.
  apply filter_none. intros [i n] Hin. cbn [snd].
  destruct (d_settled t i n Hin) as (s & -> & _ & _ & Hv). cbn. now rewrite Hv.
Qed.

Lemma group_small {X} (f : X -> option str) k l :
  NoDup (map f l) -> length (filter (fun x => key_eqb (f x) k) l) <= 1.
Proof.
  induction l as [|x l IH]; cbn; [lia|].
  intros H. inversion H as [|? ? Hni Hnd]; subst.
  destruct (key_eqb (f x) k) eqn:E; [|now apply IH].
  apply key_eqb_eq in E. cbn.
  rewrite filter_none; [cbn; lia|]. intros y Hy.
  destruct (key_eqb (f y) k) eqn:E'; [|reflexivity].
  apply key_eqb_eq in E'. exfalso. apply Hni. rewrite E, <- E'. now apply in_map.
Qed.

Lemma settled_no_groups t : select_duplicates t d = [].
Proof.
  rewrite select_duplicates_rows. apply flat_map_none. intros k _.
  unfold group_row, group_ids. rewrite length_map.
  pose proof (@group_small _ key_of k (select_id_name t d) (d_unique t)) as H.
  unfold key_of in H.
  destruct (Nat.ltb_spec 1 (length (filter (fun r => key_eqb (sql_lower (snd r)) k)
                                           (select_id_name t d)))); [lia|reflexivity].
Qed.

(** On such a dataset every step only reads. *)

Local Abbreviation still := (Logic.still d).

Lemma quiet_snoc evs ev :
  quiet evs ->
  match ev with
  | Exec s => reads s = true
  | Printed _ => True
  | _ => False
  end -> quiet (evs ++ [ev]).
Proof.
  intros Hq Hev ev' Hin. apply in_app_or in Hin as [Hin|[<-|[]]];
    [now apply Hq|exact Hev].
Qed.

Lemma still_read s w : reads s = true -> still w -> still (after s same w).
Proof.
  intros Hs [Hd Hq]. split; [exact Hd|]. now apply quiet_snoc.
Qed.

Lemma still_emit m w : still w -> still (emit m w).
Proof. intros [Hd Hq]. split; [exact Hd|]. now apply quiet_snoc. Qed.

Lemma still_correct_names t w :
  still w -> still (correct_names_w (metas_of net t) t w).
Proof.
  intros H. unfold correct_names_w. destruct H as [Hd Hq].
  rewrite Hd, settled_no_junk, settled_no_updates. cbn [fold_left].
  now apply still_read.
Qed.

Lemma still_remove_unvalidated t w :
  still w -> still (remove_unvalidated_w (metas_of net t) t w).
Proof.
  intros H. unfold remove_unvalidated_w. destruct H as [Hd Hq].
  rewrite Hd, settled_all_valid. cbn [fold_left]. now apply still_read.
Qed.

Lemma still_remove_duplicates t w : still w -> still (remove_duplicates_w t w).
Proof.
  intros H. unfold remove_duplicates_w. destruct H as [Hd Hq].
  rewrite Hd, settled_no_groups. cbn [fold_left]. now apply still_read.
Qed.

Lemma still_fetch e w : still w -> still (fetch_w net e w).
Proof.
  intros H. unfold fetch_w. destruct (fetch_pages (net e) []); [exact H|].
  now apply still_emit.
Qed.

Lemma still_step2 w : still w -> still (step2_w net w).
Proof.
  apply (@fold_left_keeps _ _ (fun w t => correct_names_w (metas_of net t) t w) still).
  intros w' t _. apply still_correct_names.
Qed.

Lemma still_step3 w : still w -> still (step3_w net w).
Proof.
  apply (@fold_left_keeps _ _ (fun w t => remove_unvalidated_w (metas_of net t) t w) still).
  intros w' t _. apply still_remove_unvalidated.
Qed.

Lemma still_step4 w : still w -> still (step4_w w).
Proof.
  apply (@fold_left_keeps _ _ (fun w t => remove_duplicates_w t w) still).
  intros w' t _. apply still_remove_duplicates.
Qed.

Lemma still_try_block w : still w -> still (try_block_w net w).
Proof.
  intros H. unfold try_block_w.
  apply still_emit. apply still_read; [reflexivity|].
  apply still_step4, still_step3, still_step2.
  unfold fetch_references_w. do 3 apply still_fetch.
  now apply still_read.
Qed.

End SecondRun.

(** ** What each step issues and leaves *)

Section Issued.

Lemma delete_row_issued t w r :
  In (Exec (DeleteWhereId t (fst r))) (events (delete_row_w t w r)).
Proof.
  unfold delete_row_w. rewrite events_after. apply in_or_app. right. now left.
Qed.

Lemma delete_rows_issued t l : forall w r,
  In r l ->
  In (Exec (DeleteWhereId t (fst r))) (events (fold_left (delete_row_w t) l w)).
Proof.
  induction l as [|r0 l IH]; intros w r Hin; [destruct Hin|].
  cbn [fold_left]. destruct Hin as [->|Hin]; [|now apply IH].
  apply (lasting_delete_rows (@lasting_In _)). apply delete_row_issued.
Qed.

(** Step 3 deletes every row whose name is not valid. *)
Lemma remove_unvalidated_deletes m t w i n :
  In (i, n) (rows t w) -> in_valid_set n (original_valid_set m) = false ->
  ~ In i (ids t (data (remove_unvalidated_w m t w))) /\
  In (Exec (DeleteWhereId t i)) (events (remove_unvalidated_w m t w)).
Proof.
  intros Hin Hv.
  assert (Hu : In (i, n) (unvalidated_rows m (select_id_name t (data w)))).
  { apply filter_In. split; [exact Hin|]. cbn. now rewrite Hv. }
  unfold remove_unvalidated_w. split.
  - unfold ids.
    fold (rows t (fold_left (delete_row_w t)
                    (unvalidated_rows m (select_id_name t (data w)))
                    (after (SelectIdName t) same w))).
    rewrite rows_delete_rows. intros H.
    apply in_map_iff in H as ([j n'] & Ej & Hj). cbn in Ej. subst j.
    apply without_In in Hj as [_ Hout]. apply Hout. cbn [fst].
    change i with (fst (i, n)). now apply in_map.
  - apply (delete_rows_issued t _ _ (i, n) Hu).
Qed.

(** With an empty validity set step 3 empties the table. *)
Lemma remove_unvalidated_empties m t w :
  original_valid_set m = [] -> rows t (remove_unvalidated_w m t w) = [].
Proof.
  intros Hset. unfold remove_unvalidated_w. rewrite rows_delete_rows.
  unfold without. apply filter_none. intros [i n] Hin. cbn [fst].
  apply negb_false_iff. apply mem_id_In.
  change i with (fst (i, n)). apply in_map. apply filter_In.
  split; [exact Hin|]. cbn. rewrite Hset. now destruct n.
Qed.

Lemma deletes_only_app t before J evs new :
  deletes_only t before J evs ->
  (forall i, In (Exec (DeleteWhereId t i)) new -> J i) ->
  deletes_only t before J (evs ++ new).
Proof.
  intros H Hnew i Hin. apply in_app_or in Hin as [Hin|Hin];
    [now apply H|right; now apply Hnew].
Qed.

Lemma correct_names_deletes_junk m t w :
  deletes_only t (events w)
    (fun i => exists n, In (i, n) (rows t w) /\ is_junk n = true)
    (events (correct_names_w m t w)).
Proof.
  unfold correct_names_w.
  set (J := fun i => exists n, In (i, n) (rows t w) /\ is_junk n = true).
  apply (@fold_left_keeps _ _ (write_name_w t)
           (fun w' => deletes_only t (events w) J (events w'))).
  { intros w' [[i p] c] _ H. unfold write_name_w.
    destruct (select_name t i (data w')) as [stored|];
      [destruct (name_differs stored p)|];
      rewrite ?events_after; repeat apply deletes_only_app; trivial;
      intros j [E|[]]; discriminate. }
  apply (@fold_left_keeps _ _ (delete_row_w t)
           (fun w' => deletes_only t (events w) J (events w'))).
  { intros w' r Hr H. unfold delete_row_w.
    rewrite events_after, events_nullify. repeat apply deletes_only_app; trivial.
    - intros j Hj. apply in_map_iff in Hj as (c & E & _). discriminate.
    - intros j [E|[]]. injection E as <-. exists (snd r).
      apply filter_In in Hr as [Hr Hj]. split; [now destruct r|exact Hj]. }
  rewrite events_after. apply deletes_only_app.
  - intros i Hi. now left.
  - intros j [E|[]]. discriminate.
Qed.

Lemma ids_write_name t w u : ids t (data (write_name_w t w u)) = ids t (data w).
Proof.
  destruct u as [[i n] cur]. unfold write_name_w.
  destruct (select_name t i (data w)) as [stored|]; [|reflexivity].
  destruct (name_differs stored n); [|reflexivity].
  unfold ids. fold (rows t (after (UpdateName t n i) (update_name t n i)
                                  (after (SelectName t i) same w))).
  rewrite rows_rename. now rewrite map_fst_rename.
Qed.

(** Step 2 keeps a row that is not junk when ids are unique. *)
Lemma correct_names_spares m t w i n :
  NoDup (ids t (data w)) -> In (i, n) (rows t w) -> is_junk n = false ->
  In i (ids t (data (correct_names_w m t w))).
Proof.
  intros Hnd Hin Hj. unfold correct_names_w.
  apply (@fold_left_keeps _ _ (write_name_w t) (fun w' => In i (ids t (data w')))).
  { intros w' u _ H. now rewrite ids_write_name. }
  unfold ids.
  fold (rows t (fold_left (delete_row_w t) (junk_rows (select_id_name t (data w)))
                          (after (SelectIdName t) same w))).
  rewrite rows_delete_rows. change i with (fst (i, n)). apply in_map.
  apply without_In. split; [exact Hin|]. cbn [fst]. intros Hjunk.
  apply in_map_iff in Hjunk as ([j n'] & Ej & Hjr). cbn in Ej. subst j.
  apply filter_In in Hjr as [Hjr Hj']. cbn in Hj'.
  assert (E : (i, n') = (i, n)) by now apply (fst_inj_NoDup _ _ _ Hnd).
  injection E as ->. congruence.
Qed.

End Issued.

Section Fetch.

Lemma aborts_fetch l : forall acc, aborts l -> fetch_pages l acc = None.
Proof.
  induction l as [|results|results next IH]; intros acc H; cbn in *;
    [reflexivity|destruct H|now apply IH].
Qed.

Lemma fetch_aborts l : forall acc, fetch_pages l acc = None -> aborts l.
Proof.
  induction l as [|results|results next IH]; intros acc H; cbn in *;
    [exact I|discriminate|now apply (IH _ H)].
Qed.

Variable net : endpoint -> listing.

Lemma aborts_fetched e : aborts (net e) -> fetched (net e) = [].
Proof. intros H. unfold fetched. now rewrite aborts_fetch. Qed.

Lemma aborts_meta e :
  aborts (net e) ->
  valid_map (metas_of net (table_of e)) = [] /\
  original_valid_set (metas_of net (table_of e)) = [].
Proof.
  intros H. destruct e; cbn; rewrite (aborts_fetched _ H); now split.
Qed.

Lemma aborts_warned e w :
  aborts (net e) ->
  In (Printed (FetchWarning e)) (events (fetch_references_w net w)).
Proof.
  intros H. unfold fetch_references_w.
  assert (G : forall w', In (Printed (FetchWarning e)) (events (fetch_w net e w'))).
  { intros w'. unfold fetch_w. rewrite aborts_fetch by exact H.
    apply in_or_app. right. now left. }
  destruct e.
  - do 2 apply (lasting_fetch (@lasting_In _)). apply G.
  - apply (lasting_fetch (@lasting_In _)). apply G.
  - apply G.
Qed.

Lemma step3_empties w t :
  original_valid_set (metas_of net t) = [] -> rows t (step3_w net w) = [].
Proof.
  apply (@staged (fun t w => remove_unvalidated_w (metas_of net t) t w)
                 (fun _ => True)
                 (fun t d => original_valid_set (metas_of net t) = []
                             -> select_id_name t d = []));
    [trivial| | |apply tables_NoDup|exact I|apply tables_all].
  - intros t0 w0 _ H. now apply remove_unvalidated_empties.
  - intros t0 t' w0 _ H H0. specialize (H H0).
    apply (@kept_remove_unvalidated t0 (fun rs => rs = [])); [|exact H].
    intros p rs ->. reflexivity.
Qed.

End Fetch.

(** ** Runs on a storage that may raise *)

Section Faults.

Variable faults : nat -> option sqlite_error.
Variable net : endpoint -> listing.

Lemma fatal_app evs new : fatal (evs ++ new) <-> fatal evs \/ fatal new.
Proof.
  unfold fatal. split.
  - intros (s & e & Hin & Ht). apply in_app_or in Hin as [Hin|Hin];
      [left|right]; now exists s, e.
  - intros [(s & e & Hin & Ht)|(s & e & Hin & Ht)]; exists s, e;
      (split; [apply in_or_app; tauto|exact Ht]).
Qed.

Lemma going_snoc evs ev :
  going evs ->
  match ev with
  | Exec s => s <> Commit
  | Raised s e => tolerated s e = true
  | Printed _ => True
  | Rollback => False
  end ->
  going (evs ++ [ev]).
Proof.
  intros (Hf & Hc & Hr) Hev. split; [|split].
  - rewrite fatal_app. intros [H|(s & e & [E|[]] & Ht)]; [now apply Hf|].
    subst ev. congruence.
  - intros H. apply in_app_or in H as [H|[E|[]]]; [now apply Hc|].
    subst ev. now apply Hev.
  - intros H. apply in_app_or in H as [H|[E|[]]]; [now apply Hr|].
    subst ev. exact Hev.
Qed.

Lemma broken_raised evs s e :
  going evs -> tolerated s e = false -> broken (evs ++ [Raised s e]).
Proof.
  intros (Hf & Hc & Hr) Ht. split; [|split].
  - apply fatal_app. right. exists s, e. split; [now left|exact Ht].
  - intros H. apply in_app_or in H as [H|[H|[]]]; [now apply Hc|discriminate].
  - intros H. apply in_app_or in H as [H|[H|[]]]; [now apply Hr|discriminate].
Qed.

Lemma broken_print evs m : broken evs -> broken (evs ++ [Printed m]).
Proof.
  intros (Hf & Hc & Hr). split; [|split].
  - apply fatal_app. now left.
  - intros H. apply in_app_or in H as [H|[H|[]]]; [now apply Hc|discriminate].
  - intros H. apply in_app_or in H as [H|[H|[]]]; [now apply Hr|discriminate].
Qed.

Lemma extends_refl w : extends w w.
Proof. exists []. now rewrite app_nil_r. Qed.

Lemma extends_trans w1 w2 w3 : extends w1 w2 -> extends w2 w3 -> extends w1 w3.
Proof.
  intros (n1 & E1) (n2 & E2). exists (n1 ++ n2). now rewrite E2, E1, app_assoc.
Qed.

Lemma extends_In w w' ev : extends w w' -> In ev (events w) -> In ev (events w').
Proof. intros (new & ->) H. apply in_or_app. now left. Qed.

Lemma extends_snoc d w ev : extends w (World d (events w ++ [ev])).
Proof. now exists [ev]. Qed.

Lemma steady_ret {A} (a : A) : steady (ret a).
Proof. intros w Hw. split; [exact Hw|apply extends_refl]. Qed.

Lemma steady_bind {A B} (c : M A) (k : A -> M B) :
  steady c -> (forall a, steady (k a)) -> steady (bind c k).
Proof.
  intros Hc Hk w Hw. apply wp_bind.
  eapply wp_conseq; [apply (Hc w Hw)| |trivial].
  intros a w1 [Hg He]. cbn beta.
  eapply wp_conseq; [apply (Hk a w1 Hg)| |trivial].
  intros b w2 [Hg2 He2]. split; [exact Hg2|]. eapply extends_trans; eassumption.
Qed.

Lemma steady_for_each {X} (l : list X) (body : X -> M unit) :
  (forall x, steady (body x)) -> steady (for_each l body).
Proof.
  intros H. induction l as [|x l IH]; [apply steady_ret|].
  cbn [for_each]. apply steady_bind; [apply H|intros _; exact IH].
Qed.

Lemma steady_print m : steady (print m).
Proof.
  intros w Hw. split; [now apply going_snoc|apply extends_snoc].
Qed.

Lemma steady_execute s f :
  cascades s = false -> s <> Commit -> steady (execute faults s f).
Proof.
  intros Hs Hc w Hw. unfold wp, execute.
  destruct (faults (length (events w))) as [e|].
  - apply broken_raised; [exact Hw|]. destruct s, e; try reflexivity; discriminate.
  - split; [now apply going_snoc|apply extends_snoc].
Qed.

Lemma steady_query {A} s (read : db -> A) :
  cascades s = false -> s <> Commit -> steady (query faults s read).
Proof.
  intros Hs Hc w Hw. unfold wp, query.
  destruct (faults (length (events w))) as [e|].
  - apply broken_raised; [exact Hw|]. destruct s, e; try reflexivity; discriminate.
  - split; [now apply going_snoc|apply extends_snoc].
Qed.

Lemma steady_nullify_one c i :
  steady (try_except (execute faults (UpdateSetNull c i)
                              (update_fk c (set_null i)))
                     tolerate_missing).
Proof.
  intros w Hw. unfold wp, try_except, execute.
  destruct (faults (length (events w))) as [e|].
  - destruct e as [[]|]; cbn.
    + split; [now apply going_snoc|apply extends_snoc].
    + split; [now apply going_snoc|apply extends_snoc].
    + now apply broken_raised.
    + now apply broken_raised.
  - split; [now apply going_snoc|apply extends_snoc].
Qed.

Lemma steady_remap_one c k dups :
  steady (try_except (execute faults (UpdateRemap c k dups)
                              (update_fk c (remap k dups)))
                     (remap_handler c)).
Proof.
  intros w Hw. unfold wp, try_except, execute.
  destruct (faults (length (events w))) as [e|].
  - destruct e as [[]|]; cbn.
    + split; [now apply going_snoc|apply extends_snoc].
    + split; [now apply going_snoc|apply extends_snoc].
    + now apply broken_raised.
    + apply broken_print. now apply broken_raised.
  - split; [now apply going_snoc|apply extends_snoc].
Qed.

Lemma steady_nullify i t : steady (nullify_fks_referencing_id faults i t).
Proof.
  apply steady_for_each. intros [c r].
  destruct (entity_eqb r t); [apply steady_nullify_one|apply steady_ret].
Qed.

Lemma steady_delete_row t (r : Z * option str) :
  steady (let '(i, _) := r in
          nullify_fks_referencing_id faults i t ;;
          execute faults (DeleteWhereId t i) (delete_where t (Z.eqb i))).
Proof.
  destruct r as [i n]. apply steady_bind; [apply steady_nullify|].
  intros _. apply steady_execute; [reflexivity|discriminate].
Qed.

(** A computation that starts with a query leaves the query in the
    record. *)
Lemma marks_query {A B} s (read : db -> A) (k : A -> M B) :
  cascades s = false -> s <> Commit -> (forall a, steady (k a)) ->
  marks (Exec s) (bind (query faults s read) k).
Proof.
  intros Hs Hc Hk w Hw. apply wp_bind. unfold wp at 1, query.
  destruct (faults (length (events w))) as [e|].
  - apply broken_raised; [exact Hw|]. destruct s, e; try reflexivity; discriminate.
  - assert (Hg : going (events w ++ [Exec s])) by now apply going_snoc.
    eapply wp_conseq;
      [apply (Hk (read (data w)) (World (data w) (events w ++ [Exec s])) Hg)
      | |trivial].
    intros b w' [Hg' He]. split; [exact Hg'|split].
    + eapply extends_trans; [apply extends_snoc|exact He].
    + eapply extends_In; [exact He|]. apply in_or_app. right. now left.
Qed.

Lemma marks_correct_names m t :
  marks (Exec (SelectIdName t)) (correct_names faults m t).
Proof.
  apply marks_query; [reflexivity|discriminate|]. intros rows.
  apply steady_bind.
  - apply steady_for_each. intros r. apply steady_delete_row.
  - intros _. apply steady_for_each. intros [[i n] cur].
    apply steady_bind; [apply steady_query; [reflexivity|discriminate]|].
    intros [stored|]; [|apply steady_ret].
    destruct (name_differs stored n); [|apply steady_ret].
    apply steady_execute; [reflexivity|discriminate].
Qed.

Lemma marks_remove_unvalidated m t :
  marks (Exec (SelectIdName t)) (remove_unvalidated faults m t).
Proof.
  apply marks_query; [reflexivity|discriminate|]. intros rows.
  apply steady_for_each. intros r. apply steady_delete_row.
Qed.

Lemma marks_remove_duplicates t :
  marks (Exec (SelectDuplicates t)) (remove_duplicates faults t).
Proof.
  apply marks_query; [reflexivity|discriminate|]. intros gs.
  apply steady_for_each. intros [k l].
  destruct (duplicate_ids_to_remove k l) as [|x dups]; [apply steady_ret|].
  apply steady_bind.
  - apply steady_for_each. intros [c r].
    destruct (entity_eqb r t); [apply steady_remap_one|apply steady_ret].
  - intros _. apply steady_execute; [reflexivity|discriminate].
Qed.

(** A loop of marking steps over the tables leaves every mark. *)
Lemma marks_tables (ev : entity -> event) (step : entity -> M unit) :
  (forall t, marks (ev t) (step t)) ->
  forall w, going (events w) ->
    wp (for_each tables step) w
       (fun _ w' => going (events w') /\ extends w w' /\
                    forall t, In (ev t) (events w'))
       (fun _ w' => broken (events w')).
Proof.
  intros Hstep w Hw.
  apply (@wp_for_each _ tables step
           (fun done w' => going (events w') /\ extends w w' /\
                           forall t, In t done -> In (ev t) (events w'))).
  - split; [exact Hw|split; [apply extends_refl|intros t []]].
  - intros done x rest w1 _ (Hg & He & Hdone).
    eapply wp_conseq; [apply (Hstep x w1 Hg)| |trivial].
    intros _ w2 (Hg2 & He2 & Hx). split; [exact Hg2|split].
    + eapply extends_trans; eassumption.
    + intros t Ht. apply in_app_or in Ht as [Ht|[E|[]]]; [|subst x; exact Hx].
      eapply extends_In; [exact He2|]. now apply Hdone.
  - intros w' (Hg & He & Hall). split; [exact Hg|split; [exact He|]].
    intros t. apply Hall. apply tables_all.
Qed.

Lemma steady_fetch e : steady (_fetch_all_pokeapi_resources net e).
Proof.
  unfold _fetch_all_pokeapi_resources. destruct (fetch_pages (net e) []).
  - apply steady_ret.
  - apply steady_bind; [apply steady_print|intros _; apply steady_ret].
Qed.

Lemma steady_fetch_references : steady (fetch_references net).
Proof.
  unfold fetch_references. repeat (apply steady_bind; [apply steady_fetch|intros ?]).
  apply steady_ret.
Qed.

(** The body of the [try]: it returns with the commit as its last
    statement, after every step of every table, or it raises before the
    commit on an error that no handler swallows. *)
Lemma try_block_outcome conn :
  wp (try_block faults net) (World conn [])
     (fun _ w' =>
        exists pre, events w' = pre ++ [Exec Commit; Printed Finished] /\
          going pre /\
          forall t, In (Exec (SelectIdName t)) pre /\
                    In (Exec (SelectDuplicates t)) pre)
     (fun _ w' => broken (events w')).
Proof.
  assert (H0 : going []).
  { split; [intros (s & e & [] & _)|split; intros []]. }
  unfold try_block. apply wp_bind.
  eapply wp_conseq;
    [apply (@steady_execute PragmaForeignKeys (fun d => d) eq_refl);
       [discriminate|exact H0]
    | |trivial].
  intros ? w1 [Hg1 _]. cbn beta. apply wp_bind.
  eapply wp_conseq; [apply (steady_fetch_references w1 Hg1)| |trivial].
  intros metas w2 [Hg2 _]. cbn beta. apply wp_bind.
  eapply wp_conseq;
    [apply (@marks_tables (fun t => Exec (SelectIdName t))
              (fun t => correct_names faults (metas t) t)
              (fun t => marks_correct_names (metas t) t) w2 Hg2)
    | |trivial].
  intros ? w3 (Hg3 & _ & Hsel). cbn beta. apply wp_bind.
  assert (Hs3 : steady (for_each tables
                          (fun t => remove_unvalidated faults (metas t) t))).
  { apply steady_for_each. intros t w Hw.
    eapply wp_conseq; [apply (marks_remove_unvalidated (metas t) t w Hw)| |trivial].
    intros ? w' (Hg & He & _). now split. }
  eapply wp_conseq; [apply (Hs3 w3 Hg3)| |trivial].
  intros ? w4 (Hg4 & He4). cbn beta. apply wp_bind.
  eapply wp_conseq;
    [apply (@marks_tables (fun t => Exec (SelectDuplicates t))
              (remove_duplicates faults) marks_remove_duplicates w4 Hg4)
    | |trivial].
  intros ? w5 (Hg5 & He5 & Hdup). cbn beta. apply wp_bind.
  unfold wp at 1, execute.
  destruct (faults (length (events w5))) as [e|].
  - now apply broken_raised.
  - apply wp_print. cbn [data events].
    exists (events w5). split; [now rewrite <- app_assoc|].
    split; [exact Hg5|]. intros t. split; [|apply Hdup].
    eapply extends_In; [exact He5|]. eapply extends_In; [exact He4|]. apply Hsel.
Qed.

End Faults.

(** ** Checking the conditions by computation *)

Section Checks.

Lemma distinctb_sound l : distinctb l = true -> NoDup l.
Proof.
  induction l as [|x l IH]; cbn; [constructor|].
  intros H. apply andb_true_iff in H as [Hx Hl].
  constructor; [|now apply IH]. intros Hin. apply mem_id_In in Hin.
  now rewrite Hin in Hx.
Qed.

Lemma ids_uniqueb_sound d : ids_uniqueb d = true -> ids_unique d.
Proof.
  intros H t. apply distinctb_sound.
  unfold ids_uniqueb in H. rewrite forallb_forall in H.
  apply H. apply tables_all.
Qed.

Lemma ref_okb_sound d : ref_okb d = true -> ref_ok d.
Proof.
  intros H c r v Hedge Hin. unfold ref_okb in H. rewrite forallb_forall in H.
  specialize (H (c, r) Hedge). cbn [fst snd] in H.
  rewrite forallb_forall in H. specialize (H (Some v) Hin).
  now apply mem_id_In.
Qed.

Lemma clean_vocabularyb_sound net :
  clean_vocabularyb net = true -> clean_vocabulary net.
Proof.
  intros H t name Hin. unfold clean_vocabularyb in H.
  rewrite forallb_forall in H. specialize (H t (tables_all t)).
  rewrite forallb_forall in H. specialize (H name Hin).
  now apply negb_true_iff.
Qed.

End Checks.

(** ** The run as a whole, on a storage that raises nothing *)

Section Calm.

Variable net : endpoint -> listing.
Variable conn : db.

Lemma data_emit m w : data (emit m w) = data w.
Proof. reflexivity. Qed.

Lemma data_try_block w :
  data (try_block_w net w)
  = data (step4_w (step3_w net (step2_w net
            (fetch_references_w net (after PragmaForeignKeys same w))))).
Proof. rewrite try_block_w_eq, data_emit, data_after. reflexivity. Qed.

Lemma calm_dataset :
  dataset (clean_database no_faults net conn)
  = data (step4_w (step3_w net (step2_w net
            (fetch_references_w net (after PragmaForeignKeys same (World conn [])))))).
Proof.
  rewrite clean_database_calm. cbn [dataset]. apply data_try_block.
Qed.

Lemma calm_record :
  record (clean_database no_faults net conn)
  = events (try_block_w net (World conn [])).
Proof. rewrite clean_database_calm. reflexivity. Qed.

Lemma data_fetch_references w : data (fetch_references_w net w) = data w.
Proof. unfold fetch_references_w. now rewrite !data_fetch. Qed.

Lemma calm_committed : In (Exec Commit) (record (clean_database no_faults net conn)).
Proof.
  rewrite calm_record. unfold try_block_w, emit. cbn [events after].
  apply in_or_app. left. apply in_or_app. right. now left.
Qed.

Lemma calm_guarded : guarded (record (clean_database no_faults net conn)).
Proof. rewrite calm_record. apply guarded_try_block. apply guarded_nil. Qed.

Lemma calm_valid t :
  names_valid (metas_of net t) t (dataset (clean_database no_faults net conn)).
Proof.
  rewrite calm_dataset.
  apply (@kept_step4 t _ (closed_forall _)). apply step3_valid.
Qed.

Hypothesis conn_unique : ids_unique conn.

Lemma calm_ids_unique : ids_unique (dataset (clean_database no_faults net conn)).
Proof.
  rewrite calm_dataset.
  apply ids_unique_step4, ids_unique_step3, ids_unique_step2.
  now rewrite data_fetch_references.
Qed.

Lemma calm_no_duplicates t :
  no_duplicates t (dataset (clean_database no_faults net conn)).
Proof.
  rewrite calm_dataset. apply step4_unique.
  apply ids_unique_step3, ids_unique_step2. now rewrite data_fetch_references.
Qed.

Lemma calm_proposed t :
  names_proposed (metas_of net t) t (dataset (clean_database no_faults net conn)).
Proof.
  rewrite calm_dataset.
  apply (@kept_step4 t _ (closed_forall _)).
  apply (@kept_step3 net t _ (closed_forall _)).
  apply step2_proposed. now rewrite data_fetch_references.
Qed.

Lemma calm_ref_ok :
  ref_ok conn -> ref_ok (dataset (clean_database no_faults net conn)).
Proof.
  intros Hok. rewrite calm_dataset. apply ref_ok_step4.
  - apply ids_unique_step3, ids_unique_step2. now rewrite data_fetch_references.
  - apply ref_ok_step3, ref_ok_step2. now rewrite data_fetch_references.
Qed.

End Calm.

(** ** A run in which nothing is raised is the calm run *)

Section Agreement.

Variable faults : nat -> option sqlite_error.
Variable net : endpoint -> listing.

Lemma raised_extends w w' : extends w w' -> raised (events w) -> raised (events w').
Proof.
  intros He (s & e & Hin). exists s, e. eapply extends_In; eassumption.
Qed.

Lemma raised_snoc d w s e : raised (events (World d (events w ++ [Raised s e]))).
Proof. exists s, e. apply in_or_app. right. now left. Qed.

Lemma agrees_ret {A} (a : A) : agrees (ret a) (ret a).
Proof. intros w. split; [apply extends_refl|now right]. Qed.

Lemma agrees_bind {A B} (c c0 : M A) (k k0 : A -> M B) :
  agrees c c0 -> (forall a, agrees (k a) (k0 a)) -> agrees (bind c k) (bind c0 k0).
Proof.
  intros Hc Hk w. apply wp_bind.
  eapply wp_conseq; [apply (Hc w)| |trivial].
  intros a w1 [He H1]. cbn beta.
  eapply wp_conseq; [apply (Hk a w1)| |].
  - intros b w2 [He2 H2]. split; [eapply extends_trans; eassumption|].
    destruct H1 as [H1|H1]; [left; eapply raised_extends; eassumption|].
    destruct H2 as [H2|H2]; [now left|right].
    unfold bind. now rewrite H1.
  - intros e w2 [He2 H2]. split; [eapply extends_trans; eassumption|exact H2].
Qed.

Lemma agrees_for_each {X} (l : list X) (body body0 : X -> M unit) :
  (forall x, agrees (body x) (body0 x)) ->
  agrees (for_each l body) (for_each l body0).
Proof.
  intros H. induction l as [|x l IH]; [apply agrees_ret|].
  cbn [for_each]. apply agrees_bind; [apply H|intros _; exact IH].
Qed.

Lemma agrees_execute s f : agrees (execute faults s f) (execute no_faults s f).
Proof.
  intros w. unfold wp, execute.
  destruct (faults (length (events w))) as [e|].
  - split; [apply extends_snoc|apply raised_snoc].
  - split; [apply extends_snoc|now right].
Qed.

Lemma agrees_query {A} s (read : db -> A) :
  agrees (query faults s read) (query no_faults s read).
Proof.
  intros w. unfold wp, query.
  destruct (faults (length (events w))) as [e|].
  - split; [apply extends_snoc|apply raised_snoc].
  - split; [apply extends_snoc|now right].
Qed.

Lemma agrees_print m : agrees (print m) (print m).
Proof. intros w. split; [apply extends_snoc|now right]. Qed.

Lemma agrees_raise (e : sqlite_error) w :
  raised (events w) ->
  wp (raise e) w
     (fun (_ : unit) w' => extends w w' /\ raised (events w'))
     (fun _ w' => extends w w' /\ raised (events w')).
Proof. intros H. split; [apply extends_refl|exact H]. Qed.

(** A guarded statement: whatever its handler does with an error, the
    error stays in the record. *)
Lemma agrees_try s f (h h0 : sqlite_error -> M unit) :
  (forall e w, raised (events w) ->
     wp (h e) w (fun _ w' => extends w w' /\ raised (events w'))
                (fun _ w' => extends w w' /\ raised (events w'))) ->
  agrees (try_except (execute faults s f) h)
         (try_except (execute no_faults s f) h0).
Proof.
  intros Hh w. unfold wp at 1, try_except, execute.
  destruct (faults (length (events w))) as [e|].
  - specialize (Hh e (World (data w) (events w ++ [Raised s e]))
                   (raised_snoc (data w) w s e)).
    unfold wp in Hh.
    destruct (h e (World (data w) (events w ++ [Raised s e]))) as [[a|e'] w'].
    + destruct Hh as [He Hr]. split; [|now left].
      eapply extends_trans; [apply extends_snoc|exact He].
    + destruct Hh as [He Hr]. split; [|exact Hr].
      eapply extends_trans; [apply extends_snoc|exact He].
  - split; [apply extends_snoc|now right].
Qed.

Lemma handler_tolerate e w :
  raised (events w) ->
  wp (tolerate_missing e) w
     (fun _ w' => extends w w' /\ raised (events w'))
     (fun _ w' => extends w w' /\ raised (events w')).
Proof.
  intros H. destruct e as [[]|]; cbn; (split; [apply extends_refl|exact H]).
Qed.

Lemma handler_remap c e w :
  raised (events w) ->
  wp (remap_handler c e) w
     (fun _ w' => extends w w' /\ raised (events w'))
     (fun _ w' => extends w w' /\ raised (events w')).
Proof.
  intros H. destruct e as [[]|]; cbn;
    try (split; [apply extends_refl|exact H]).
  split; [apply extends_snoc|].
  destruct H as (s & e' & Hin). exists s, e'.
  apply in_or_app. now left.
Qed.

Lemma agrees_nullify i t :
  agrees (nullify_fks_referencing_id faults i t)
         (nullify_fks_referencing_id no_faults i t).
Proof.
  apply agrees_for_each. intros [c r].
  destruct (entity_eqb r t); [|apply agrees_ret].
  apply agrees_try. apply handler_tolerate.
Qed.

Lemma agrees_correct_names m t :
  agrees (correct_names faults m t) (correct_names no_faults m t).
Proof.
  apply agrees_bind; [apply agrees_query|]. intros rows.
  apply agrees_bind.
  - apply agrees_for_each. intros [i n].
    apply agrees_bind; [apply agrees_nullify|intros _; apply agrees_execute].
  - intros _. apply agrees_for_each. intros [[i n] cur].
    apply agrees_bind; [apply agrees_query|].
    intros [stored|]; [|apply agrees_ret].
    destruct (name_differs stored n); [apply agrees_execute|apply agrees_ret].
Qed.

Lemma agrees_remove_unvalidated m t :
  agrees (remove_unvalidated faults m t) (remove_unvalidated no_faults m t).
Proof.
  apply agrees_bind; [apply agrees_query|]. intros rows.
  apply agrees_for_each. intros [i n].
  apply agrees_bind; [apply agrees_nullify|intros _; apply agrees_execute].
Qed.

Lemma agrees_remove_duplicates t :
  agrees (remove_duplicates faults t) (remove_duplicates no_faults t).
Proof.
  apply agrees_bind; [apply agrees_query|]. intros gs.
  apply agrees_for_each. intros [k l].
  destruct (duplicate_ids_to_remove k l) as [|x dups]; [apply agrees_ret|].
  apply agrees_bind; [|intros _; apply agrees_execute].
  apply agrees_for_each. intros [c r].
  destruct (entity_eqb r t); [|apply agrees_ret].
  apply agrees_try. apply handler_remap.
Qed.

Lemma agrees_fetch e :
  agrees (_fetch_all_pokeapi_resources net e) (_fetch_all_pokeapi_resources net e).
Proof.
  unfold _fetch_all_pokeapi_resources. destruct (fetch_pages (net e) []).
  - apply agrees_ret.
  - apply agrees_bind; [apply agrees_print|intros _; apply agrees_ret].
Qed.

Lemma agrees_try_block : agrees (try_block faults net) (try_block no_faults net).
Proof.
  unfold try_block.
  apply agrees_bind; [apply agrees_execute|intros _].
  apply agrees_bind.
  { unfold fetch_references.
    repeat (apply agrees_bind; [apply agrees_fetch|intros ?]).
    apply agrees_ret. }
  intros metas.
  apply agrees_bind;
    [apply agrees_for_each; intros t; apply agrees_correct_names|intros _].
  apply agrees_bind;
    [apply agrees_for_each; intros t; apply agrees_remove_unvalidated|intros _].
  apply agrees_bind;
    [apply agrees_for_each; intros t; apply agrees_remove_duplicates|intros _].
  apply agrees_bind; [apply agrees_execute|intros _; apply agrees_print].
Qed.

(** On any storage, a run whose record holds no raised error is the run
    on the storage that raises nothing. *)
Lemma unraised_run_is_calm conn :
  ~ raised (record (clean_database faults net conn)) ->
  clean_database faults net conn = clean_database no_faults net conn.
Proof.
  intros Hq. pose proof (agrees_try_block (World conn [])) as H.
  unfold wp in H. unfold clean_database in *.
  destruct (try_block faults net (World conn [])) as [[[]|e] w'].
  - destruct H as [_ [H|H]]; [contradiction|]. now rewrite H.
  - exfalso. apply Hq. destruct H as [_ (s & e' & Hin)].
    exists s, e'. cbn [record]. apply in_or_app. now left.
Qed.

End Agreement.

(** ** Names equal up to case *)

Section Caseless.

Lemma code_inj c d : code c = code d -> c = d.
Proof.
  unfold code. intros H.
  rewrite <- (ascii_nat_embedding c), <- (ascii_nat_embedding d).
  now rewrite H.
Qed.

Lemma code_of_nat n : n < 256 -> code (ascii_of_nat n) = n.
Proof. apply nat_ascii_embedding. Qed.

Lemma is_upper_range c : is_upper c = true <-> 65 <= code c <= 90.
Proof. unfold is_upper, between. rewrite andb_true_iff, !Nat.leb_le. tauto. Qed.

Lemma to_lower_upper c :
  is_upper c = true -> code (to_lower c) = code c + 32.
Proof.
  intros H. unfold to_lower. rewrite H. apply is_upper_range in H.
  apply code_of_nat. lia.
Qed.

Lemma to_lower_other c : is_upper c = false -> to_lower c = c.
Proof. intros H. unfold to_lower. now rewrite H. Qed.

(** [to_lower] identifies exactly the characters that are the same
    letter up to case. *)
Lemma to_lower_same c d : to_lower c = to_lower d <-> same_letter c d.
Proof.
  unfold same_letter.
  destruct (is_upper c) eqn:Hc, (is_upper d) eqn:Hd.
  - pose proof (to_lower_upper c Hc) as Ec.
    pose proof (to_lower_upper d Hd) as Ed.
    apply is_upper_range in Hc, Hd. split.
    + intros E. left. apply code_inj. rewrite E in Ec. lia.
    + intros [-> | [[_ E] | [_ E]]]; [reflexivity|lia|lia].
  - pose proof (to_lower_upper c Hc) as Ec.
    rewrite (to_lower_other d Hd).
    assert (Hd' : ~ (65 <= code d <= 90))
      by (rewrite <- is_upper_range; congruence).
    apply is_upper_range in Hc. split.
    + intros E. right. left. split; [reflexivity|]. now rewrite <- E.
    + intros [-> | [[_ E] | [F _]]]; [tauto| |discriminate].
      apply code_inj. lia.
  - pose proof (to_lower_upper d Hd) as Ed.
    rewrite (to_lower_other c Hc).
    assert (Hc' : ~ (65 <= code c <= 90))
      by (rewrite <- is_upper_range; congruence).
    apply is_upper_range in Hd. split.
    + intros E. right. right. split; [reflexivity|]. now rewrite E.
    + intros [-> | [[F _] | [_ E]]]; [tauto|discriminate|].
      apply code_inj. lia.
  - rewrite (to_lower_other c Hc), (to_lower_other d Hd). split.
    + intros E. now left.
    + intros [E | [[F _] | [F _]]]; [exact E|discriminate|discriminate].
Qed.

Lemma lower_caseless a : forall b, lower a = lower b <-> caseless_eq a b.
Proof.
  unfold caseless_eq, lower.
  induction a as [|c a IH]; intros [|d b]; cbn [map].
  - split; [constructor|reflexivity].
  - split; [discriminate|intros H; inversion H].
  - split; [discriminate|intros H; inversion H].
  - split.
    + intros [= E1 E2]. constructor; [now apply to_lower_same|now apply IH].
    + intros H. inversion H as [|? ? ? ? H1 H2]; subst. f_equal.
      * now apply to_lower_same.
      * now apply IH.
Qed.

(** [GROUP BY LOWER(name)] puts two rows into one group exactly when
    their names are equal up to case. *)
Lemma sql_lower_same n n' : sql_lower n = sql_lower n' <-> same_name n n'.
Proof.
  destruct n as [a|], n' as [b|]; cbn [sql_lower option_map same_name].
  - rewrite <- lower_caseless. split; [now intros [= E]|now intros ->].
  - split; [discriminate|tauto].
  - split; [discriminate|tauto].
  - tauto.
Qed.

Lemma NoDup_map_same {X Y} (f : X -> Y) l x y :
  NoDup (map f l) -> In x l -> In y l -> f x = f y -> x = y.
Proof.
  induction l as [|a l IH]; cbn; [tauto|].
  intros Hnd Hx Hy E. inversion Hnd as [|? ? Hni Hnd']; subst.
  destruct Hx as [->|Hx], Hy as [->|Hy]; [reflexivity| | |now apply IH].
  - exfalso. apply Hni. rewrite E. now apply in_map.
  - exfalso. apply Hni. rewrite <- E. now apply in_map.
Qed.

(** In a table without duplicates two rows with names equal up to case
    are one row. *)
Lemma no_duplicates_rows t d r r' :
  no_duplicates t d ->
  In r (select_id_name t d) -> In r' (select_id_name t d) ->
  same_name (snd r) (snd r') -> r = r'.
Proof.
  intros Hnd Hr Hr' Hs. apply (NoDup_map_same key_of _ _ _ Hnd Hr Hr').
  unfold key_of. now apply sql_lower_same.
Qed.

End Caseless.

(** ** The row step 4 keeps of a group *)

Section Survivors.

Lemma min_id_le l x : In x l -> (min_id l <= x)%Z.
Proof.
  destruct l as [|y l]; [intros []|]. cbn [min_id].
  assert (G : forall l y, (fold_left Z.min l y <= y)%Z /\
                          forall x, In x l -> (fold_left Z.min l y <= x)%Z).
  { clear. induction l as [|z l IH]; intros y; cbn [fold_left].
    - split; [lia|intros x []].
    - destruct (IH (Z.min y z)) as [H1 H2]. split; [lia|].
      intros x [<-|Hx]; [lia|now apply H2]. }
  destruct (G l y) as [H1 H2]. intros [<-|Hx]; [exact H1|now apply H2].
Qed.

Lemma survivor_of_row t w x n :
  NoDup (ids t (data w)) ->
  In (x, n) (rows t w) ->
  exists x' n', In (x', n') (rows t (remove_duplicates_w t w)) /\
    sql_lower n' = sql_lower n /\ (x' <= x)%Z /\
    forall y m, In (y, m) (rows t w) -> sql_lower m = sql_lower n -> (x' <= y)%Z.
Proof.
  intros Hnd Hin.
  destruct (remove_duplicates_canonical t w Hnd) as [Hrows _].
  set (g := group_ids (sql_lower n) (rows t w)).
  assert (Hx : In x g) by (apply group_ids_In; now exists n).
  assert (Hm : In (min_id g) g).
  { apply min_id_In. intros E. rewrite E in Hx. exact Hx. }
  apply group_ids_In in Hm as (n' & Hin' & Hk).
  exists (min_id g), n'. split; [|split; [exact Hk|split]].
  - rewrite Hrows. apply filter_In. split; [exact Hin'|].
    cbn [fst]. apply Z.eqb_eq.
    rewrite (@canonical_of_row (rows t w) Hnd _ _ Hin'), Hk. reflexivity.
  - now apply min_id_le.
  - intros y m Hy Hm. apply min_id_le. apply group_ids_In. now exists m.
Qed.

(** The canonical id of a row is the id of a row of its group that step 4
    keeps, and it is the least id of the group. *)
Lemma canonical_is_least t w i n :
  NoDup (ids t (data w)) ->
  In (i, n) (rows t w) ->
  (exists n', In (canonical_of (rows t w) i, n') (rows t w) /\
              In (canonical_of (rows t w) i, n')
                 (rows t (remove_duplicates_w t w)) /\
              same_name n n') /\
  (forall j n', In (j, n') (rows t w) -> same_name n n' ->
     (canonical_of (rows t w) i <= j)%Z).
Proof.
  intros Hnd Hin.
  destruct (remove_duplicates_canonical t w Hnd) as [Hrows _].
  rewrite (@canonical_of_row (rows t w) Hnd _ _ Hin).
  set (g := group_ids (sql_lower n) (rows t w)).
  assert (Hx : In i g) by (apply group_ids_In; now exists n).
  assert (Hm : In (min_id g) g).
  { apply min_id_In. intros E. rewrite E in Hx. exact Hx. }
  apply group_ids_In in Hm as (n' & Hin' & Hk). split.
  - exists n'. split; [exact Hin'|split].
    + rewrite Hrows. apply filter_In. split; [exact Hin'|].
      cbn [fst]. apply Z.eqb_eq.
      rewrite (@canonical_of_row (rows t w) Hnd _ _ Hin'), Hk. reflexivity.
    + apply sql_lower_same. now rewrite Hk.
  - intros j n'' Hj Hs. apply min_id_le. apply group_ids_In. exists n''.
    split; [exact Hj|]. symmetry. now apply sql_lower_same.
Qed.

End Survivors.

(** ** The keys after the cascade of [nullify_fks_referencing_id] *)

Section Nullified.

Lemma fk_nullify_In i t w c :
  In (c, t) fk_relationships ->
  fk_values c (data (nullify_w i t w)) = map (set_null i) (fk_values c (data w)).
Proof.
  intros Hc. destruct t, c; cbn in Hc;
    try (exfalso; intuition congruence);
    cbn; rewrite ?map_map; reflexivity.
Qed.

Lemma set_null_gone i l : ~ In (Some i) (map (set_null i) l).
Proof.
  intros H. apply set_null_In in H as [_ H]. now apply H.
Qed.

Lemma fk_delete_row t w r c :
  In (c, t) fk_relationships ->
  fk_values c (data (delete_row_w t w r))
  = map (set_null (fst r)) (fk_values c (data w)).
Proof.
  intros Hc. unfold delete_row_w. cbn [data after].
  rewrite fk_delete_exact by exact Hc. now apply fk_nullify_In.
Qed.

Lemma cut_nil v : cut [] v = v.
Proof. now destruct v. Qed.

Lemma cut_cons x l v : cut l (set_null x v) = cut (x :: l) v.
Proof.
  destruct v as [y|]; [|reflexivity]. cbn [set_null cut mem_id existsb].
  destruct (Z.eqb_spec y x) as [->|Hne]; [reflexivity|].
  cbn [cut orb]. reflexivity.
Qed.

Lemma fk_delete_rows t c l :
  In (c, t) fk_relationships -> forall w,
  fk_values c (data (fold_left (delete_row_w t) l w))
  = map (cut (map fst l)) (fk_values c (data w)).
Proof.
  intros Hc. induction l as [|r l IH]; intros w.
  - cbn [fold_left map]. rewrite <- (map_id (fk_values c (data w))) at 1.
    apply map_ext. intros v. now rewrite cut_nil.
  - cbn [fold_left map]. rewrite IH, fk_delete_row by exact Hc.
    rewrite map_map. apply map_ext. intros v. apply cut_cons.
Qed.

Lemma cut_gone l i vals : In i l -> ~ In (Some i) (map (cut l) vals).
Proof.
  intros Hl Hin. apply in_map_iff in Hin as ([x|] & E & _); [|discriminate].
  cbn [cut] in E. destruct (mem_id x l) eqn:M; [discriminate|].
  injection E as ->. apply mem_id_In in Hl. congruence.
Qed.

(** Step 3 sets to NULL the keys onto the rows it deletes, and no other
    key. *)
Lemma fk_remove_unvalidated m t w c :
  In (c, t) fk_relationships ->
  fk_values c (data (remove_unvalidated_w m t w))
  = map (cut (map fst (unvalidated_rows m (rows t w)))) (fk_values c (data w)).
Proof.
  intros Hc. unfold remove_unvalidated_w.
  now rewrite fk_delete_rows by exact Hc.
Qed.

Lemma unvalidated_In m rs i n :
  In (i, n) rs -> in_valid_set n (original_valid_set m) = false ->
  In i (map fst (unvalidated_rows m rs)).
Proof.
  intros Hin Hv. change i with (fst (i, n)). apply in_map.
  apply filter_In. split; [exact Hin|]. cbn [snd]. now rewrite Hv.
Qed.

End Nullified.

(** ** Soundness of the checks for ASCII text *)

Section AsciiChecks.

Lemma ascii_namesb_sound d : ascii_namesb d = true -> ascii_names d.
Proof.
  intros H t i n Hin. unfold ascii_namesb in H.
  rewrite forallb_forall in H. specialize (H t (tables_all t)).
  rewrite forallb_forall in H. exact (H (i, Some n) Hin).
Qed.

Lemma ascii_vocabularyb_sound net :
  ascii_vocabularyb net = true -> ascii_vocabulary net.
Proof.
  intros H t name Hin. unfold ascii_vocabularyb in H.
  rewrite forallb_forall in H. specialize (H t (tables_all t)).
  rewrite forallb_forall in H. exact (H name Hin).
Qed.

End AsciiChecks.

(** ** Step 2 writes the proposed name into the row *)

Section Renaming.

Variable m : meta.
Variable t : entity.
Variable i : Z.
Variable n : str.

Local Abbreviation p := (proposed_name (valid_map m) (threshold m) n).







End Renaming.

(** Step 2 removes the junk rows of a table with unique ids. *)
Lemma correct_names_removes_junk m t w i n :
  In (i, n) (rows t w) -> is_junk n = true ->
  ~ In i (ids t (data (correct_names_w m t w))).
Proof.
  intros Hin Hj. unfold correct_names_w.
  apply (@fold_left_keeps _ _ (write_name_w t)
           (fun w' => ~ In i (ids t (data w')))).
  { intros w' u _ H. now rewrite ids_write_name. }
  unfold ids.
  fold (rows t (fold_left (delete_row_w t) (junk_rows (select_id_name t (data w)))
                          (after (SelectIdName t) same w))).
  rewrite rows_delete_rows. intros H.
  apply in_map_iff in H as ([j x] & Ej & Hr). cbn in Ej. subst j.
  apply without_In in Hr as [_ Hout]. apply Hout. cbn [fst].
  change i with (fst (i, n)). apply in_map. apply filter_In. now split.
Qed.

(** ** The entry the search ends on *)

Section Choice.

Variable key p0 : str.

Local Abbreviation dist := (levenshtein_distance key).





End Choice.





(** ** The title case, token by token *)

Section Tokens.

Local Abbreviation plain := (fun tok : str => forall c, In c tok -> is_sep c = false).

Lemma title_from_plain tok : plain tok -> forall start,
  title_from start tok = if start then capitalize_lower tok else map to_lower tok.
Proof.
  induction tok as [|c tok IH]; intros Hp start; [now destruct start|].
  cbn [title_from]. rewrite (Hp c) by now left.
  rewrite (IH (fun c' H => Hp c' (or_intror H)) false).
  now destruct start.
Qed.

Lemma title_from_token tok : plain tok -> forall start sep rest,
  is_sep sep = true ->
  title_from start (tok ++ sep :: rest)
  = (if start then capitalize_lower tok else map to_lower tok)
    ++ space :: title_from true rest.
Proof.
  induction tok as [|c tok IH]; intros Hp start sep rest Hsep.
  - cbn [app title_from]. rewrite Hsep. now destruct start.
  - cbn [app title_from]. rewrite (Hp c) by now left.
    rewrite (IH (fun c' H => Hp c' (or_intror H)) false sep rest Hsep).
    now destruct start.
Qed.

(** The title case of tokens joined by a hyphen or by a space is the
    tokens, each with its first letter in upper case and the rest in lower
    case, joined by single spaces. *)
Lemma title_from_join sep toks :
  is_sep sep = true -> toks <> [] -> Forall plain toks ->
  title_from true (join [sep] toks) = join [space] (map capitalize_lower toks).
Proof.
  intros Hsep. induction toks as [|tok toks IH]; intros Hne Hall; [congruence|].
  inversion Hall as [|? ? Hp Hrest]; subst.
  destruct toks as [|tok' toks].
  - cbn [join map]. now apply title_from_plain.
  - change (join [sep] (tok :: tok' :: toks))
      with (tok ++ sep :: join [sep] (tok' :: toks)).
    rewrite (@title_from_token tok Hp true sep _ Hsep).
    rewrite IH by (try discriminate; exact Hrest).
    reflexivity.
Qed.

End Tokens.

(** * Further properties of the code *)

(** ** The edit distance as a metric *)

Section Metric.

Lemma lev_del a s t : lev (a :: s) t <= lev s t + 1.
Proof.
  destruct t as [|b t]; [rewrite !lev_nil_r; simpl; lia|].
  rewrite lev_cons_cons. unfold min3. apply Nat.le_min_l.
Qed.

Lemma lev_ins b s t : lev s (b :: t) <= lev s t + 1.
Proof. rewrite (lev_sym s (b :: t)), (lev_sym s t). apply lev_del. Qed.

Lemma lev_sub a b s t : lev (a :: s) (b :: t) <= lev s t + neq a b.
Proof.
  rewrite lev_cons_cons. unfold min3.
  eapply Nat.le_trans; [apply Nat.le_min_r|apply Nat.le_min_r].
Qed.

Lemma min3_cases a b c :
  min3 a b c = a \/ min3 a b c = b \/ min3 a b c = c.
Proof. unfold min3. lia. Qed.

Lemma lev_length_le s : forall t, length t <= length s + lev s t.
Proof.
  induction s as [|a s IHs]; intros t; [rewrite lev_nil_l; lia|].
  induction t as [|b t IHt]; [simpl; lia|].
  rewrite lev_cons_cons.
  pose proof (IHs (b :: t)). pose proof (IHs t).
  destruct (min3_cases (lev s (b :: t) + 1) (lev (a :: s) t + 1)
                       (lev s t + neq a b)) as [-> | [-> | ->]];
    cbn [length] in *; lia.
Qed.

Lemma lev_upper s : forall t, lev s t <= Nat.max (length s) (length t).
Proof.
  induction s as [|a s IHs]; intros t; [rewrite lev_nil_l; lia|].
  destruct t as [|b t]; [rewrite lev_nil_r; lia|].
  eapply Nat.le_trans; [apply lev_sub|].
  pose proof (IHs t). pose proof (neq_le a b). cbn [length]. lia.
Qed.

Lemma lev_zero s : forall t, lev s t = 0 -> s = t.
Proof.
  induction s as [|a s IHs]; intros t H.
  - rewrite lev_nil_l in H. now destruct t.
  - destruct t as [|b t]; [discriminate|].
    rewrite lev_cons_cons in H.
    destruct (min3_cases (lev s (b :: t) + 1) (lev (a :: s) t + 1)
                         (lev s t + neq a b)) as [E | [E | E]];
      rewrite E in H; try lia.
    assert (H0 : lev s t = 0) by lia. assert (Hn : neq a b = 0) by lia.
    unfold neq in Hn. destruct (Ascii.eqb a b) eqn:Eab; [|discriminate].
    apply Ascii.eqb_eq in Eab. subst b. f_equal. now apply IHs.
Qed.

Lemma neq_triangle x y z : neq x z <= neq x y + neq y z.
Proof.
  unfold neq.
  destruct (Ascii.eqb x y) eqn:Exy, (Ascii.eqb y z) eqn:Eyz,
           (Ascii.eqb x z) eqn:Exz; try lia.
  apply Ascii.eqb_eq in Exy, Eyz. subst. rewrite Ascii.eqb_refl in Exz.
  discriminate.
Qed.

Lemma lev_triangle_bounded : forall n a b c,
  length a + length b + length c <= n -> lev a c <= lev a b + lev b c.
Proof.
  induction n as [|n IH]; intros a b c Hn.
  - destruct a, b, c; simpl in Hn; try lia; reflexivity.
  - destruct a as [|x a'].
    { rewrite !lev_nil_l. pose proof (lev_length_le b c). lia. }
    destruct c as [|z c'].
    { rewrite !lev_nil_r. pose proof (lev_length_le b (x :: a')).
      rewrite (lev_sym b (x :: a')) in H. lia. }
    destruct b as [|y b'].
    { rewrite lev_nil_r, lev_nil_l.
      pose proof (lev_upper (x :: a') (z :: c')). lia. }
    cbn [length] in Hn.
    pose proof (lev_del x a' (z :: c')) as Hd.
    pose proof (lev_ins z (x :: a') c') as Hi.
    pose proof (lev_sub x z a' c') as Hs.
    pose proof (neq_triangle x y z) as Ht.
    assert (H1 : lev a' (z :: c') <= lev a' (y :: b') + lev (y :: b') (z :: c'))
      by (apply IH; cbn [length]; lia).
    assert (H2 : lev (x :: a') c' <= lev (x :: a') (y :: b') + lev (y :: b') c')
      by (apply IH; cbn [length]; lia).
    assert (H3 : lev (x :: a') (z :: c') <= lev (x :: a') b' + lev b' (z :: c'))
      by (apply IH; cbn [length]; lia).
    assert (H4 : lev (x :: a') c' <= lev (x :: a') b' + lev b' c')
      by (apply IH; cbn [length]; lia).
    assert (H5 : lev a' (z :: c') <= lev a' b' + lev b' (z :: c'))
      by (apply IH; cbn [length]; lia).
    assert (H6 : lev a' c' <= lev a' b' + lev b' c')
      by (apply IH; cbn [length]; lia).
    rewrite (lev_cons_cons x a' y b'), (lev_cons_cons y b' z c').
    rewrite (lev_cons_cons x a' y b') in H2.
    rewrite (lev_cons_cons y b' z c') in H1.
    destruct (min3_cases (lev a' (y :: b') + 1) (lev (x :: a') b' + 1)
                         (lev a' b' + neq x y)) as [E | [E | E]];
      rewrite E in *;
      destruct (min3_cases (lev b' (z :: c') + 1) (lev (y :: b') c' + 1)
                           (lev b' c' + neq y z)) as [F | [F | F]];
      rewrite F in *; lia.
Qed.

Lemma lev_triangle a b c : lev a c <= lev a b + lev b c.
Proof. now apply (@lev_triangle_bounded (length a + length b + length c)). Qed.

End Metric.

(** ** Title case and comparison key *)

Section TitleFacts.

Lemma title_chars c :
  is_sep space = true /\
  (is_sep c = false ->
     is_sep (to_upper c) = false /\ is_sep (to_lower c) = false) /\
  to_upper (to_upper c) = to_upper c /\
  to_lower (to_lower c) = to_lower c /\
  (is_alnum c = true -> is_lower (to_lower c) || is_digit (to_lower c) = true).
Proof.
  destruct c as [[] [] [] [] [] [] [] []]; vm_compute; intuition congruence.
Qed.

Lemma title_from_idem s : forall start,
  title_from start (title_from start s) = title_from start s.
Proof.
  induction s as [|c s IH]; intros start; [reflexivity|].
  destruct (title_chars c) as (Hsp & Hns & Huu & Hll & _).
  cbn [title_from]. destruct (is_sep c) eqn:E.
  - cbn [title_from]. rewrite Hsp. f_equal. apply IH.
  - destruct (Hns eq_refl) as [Hu Hl]. destruct start; cbn [title_from].
    + rewrite Hu, Huu. f_equal. apply IH.
    + rewrite Hl, Hll. f_equal. apply IH.
Qed.

Lemma title_from_no_hyphen s : forall start, ~ In hyphen (title_from start s).
Proof.
  induction s as [|c s IH]; intros start; [intros []|].
  destruct (title_chars c) as (_ & Hns & _).
  cbn [title_from]. destruct (is_sep c) eqn:E.
  - intros [H|H]; [discriminate|now apply IH in H].
  - destruct (Hns eq_refl) as [Hu Hl].
    intros [H|H]; [|now apply IH in H].
    destruct start; rewrite H in *; discriminate.
Qed.

Lemma lower_filter_idem s :
  lower (filter is_alnum (lower (filter is_alnum s))) = lower (filter is_alnum s).
Proof.
  induction s as [|c s IH]; [reflexivity|].
  destruct (char_cases c) as (_ & _ & _ & _ & Hl & _ & _ & _ & Hll).
  cbn [filter]. destruct (is_alnum c) eqn:E; [|exact IH].
  cbn [lower map filter]. rewrite Hl. cbn [map]. rewrite Hll. f_equal.
  exact IH.
Qed.

Lemma normalize_chars s :
  Forall (fun c => is_lower c || is_digit c = true) (lower (filter is_alnum s)).
Proof.
  induction s as [|c s IH]; [constructor|].
  cbn [filter]. destruct (is_alnum c) eqn:E; [|exact IH].
  constructor; [|exact IH].
  now apply (title_chars c).
Qed.

End TitleFacts.

(** ** The matcher and the threshold *)

Section Threshold.

Variable names : list str.
Variable th : nat.

Lemma built_value_key k v :
  In (k, v) (build_valid_map names) -> normalize_string v = k.
Proof.
  intros Hin. destruct (build_valid_map_from names) as (_ & Hv & _).
  destruct (Hv _ _ Hin) as (name & _ & -> & ->).
  apply normalize_to_title_case.
Qed.

Lemma proposed_within n :
  levenshtein_distance
    (normalize_string n)
    (normalize_string (proposed_name (build_valid_map names) th n)) <= th.
Proof.
  rewrite levenshtein_distance_lev.
  destruct (dict_get (normalize_string n) (build_valid_map names)) as [v|] eqn:Hget.
  - rewrite (proposed_exact _ th _ Hget).
    apply dict_get_In in Hget. rewrite (@built_value_key _ _ Hget), lev_refl. lia.
  - destruct (proposed_fuzzy (build_valid_map names) th n Hget)
      as [[_ ->]|(k & v & [Hin _] & Hle & Hgt)].
    + rewrite normalize_to_title_case, lev_refl. lia.
    + destruct (Nat.le_gt_cases (levenshtein_distance (normalize_string n) k) th)
        as [H|H].
      * rewrite (Hle H), (@built_value_key _ _ Hin), <- levenshtein_distance_lev.
        exact H.
      * rewrite (Hgt H), normalize_to_title_case, lev_refl. lia.
Qed.

End Threshold.

Lemma proposed_far vm th n :
  (forall k v, In (k, v) vm ->
     th + length k < length (normalize_string n) \/
     th + length (normalize_string n) < length k) ->
  propose vm th n = (to_title_case n, false).
Proof.
  intros Hfar.
  assert (Hd : forall k v, In (k, v) vm ->
                 th < levenshtein_distance (normalize_string n) k).
  { intros k v Hin. rewrite levenshtein_distance_lev.
    pose proof (lev_length_le (normalize_string n) k).
    pose proof (lev_length_le k (normalize_string n)) as H'.
    rewrite (lev_sym k) in H'. destruct (Hfar _ _ Hin); lia. }
  unfold propose.
  destruct (dict_get (normalize_string n) vm) as [v|] eqn:Hget.
  - apply dict_get_In in Hget. specialize (Hd _ _ Hget).
    rewrite levenshtein_distance_lev, lev_refl in Hd. lia.
  - pose proof (search_result (normalize_string n) (to_title_case n) vm) as Hinv.
    destruct (fold_left _ vm _) as [[[d|] p] c]; unfold search_inv in Hinv.
    + destruct Hinv as [(k & Hin & Hk) _]. specialize (Hd _ _ Hin).
      cbn [gt_inf]. destruct (Nat.ltb_spec th d); [reflexivity|lia].
    + reflexivity.
Qed.

(** ** The reference set builder *)

Section Fetch.

Lemma set_add_In x y l : In y (set_add x l) <-> y = x \/ In y l.
Proof.
  unfold set_add. destruct (mem x l) eqn:E.
  - apply mem_In in E. split; [now right|intros [->|H]; assumption].
  - rewrite in_app_iff. cbn [In]. intuition congruence.
Qed.

Lemma set_add_NoDup x l : NoDup l -> NoDup (set_add x l).
Proof.
  intros H. unfold set_add. destruct (mem x l) eqn:E; [exact H|].
  assert (Hni : ~ In x l).
  { intros Hin. apply mem_In in Hin. congruence. }
  clear E. induction H as [|y l Hy H IH]; cbn [app].
  - constructor; [intros []|constructor].
  - constructor.
    + rewrite in_app_iff. cbn [In]. intros [Hin|[<-|[]]]; [tauto|].
      apply Hni. now left.
    + apply IH. intros Hin. apply Hni. now right.
Qed.

Lemma add_all_In results : forall acc y,
  In y (fold_left (fun acc item => set_add item acc) results acc)
  <-> In y acc \/ In y results.
Proof.
  induction results as [|r results IH]; intros acc y; cbn [fold_left In].
  - tauto.
  - rewrite IH, set_add_In. intuition congruence.
Qed.

Lemma add_all_NoDup results : forall acc,
  NoDup acc -> NoDup (fold_left (fun acc item => set_add item acc) results acc).
Proof.
  induction results as [|r results IH]; intros acc H; [exact H|].
  cbn [fold_left]. apply IH. now apply set_add_NoDup.
Qed.

Lemma fetch_pages_served l : forall acc,
  ~ aborts l ->
  exists names, fetch_pages l acc = Some names /\
    (NoDup acc -> NoDup names) /\
    forall x, In x names <-> In x acc \/ In x (page_items l).
Proof.
  induction l as [|results|results next IH]; intros acc Hok.
  - now destruct Hok.
  - eexists. split; [reflexivity|split].
    + apply add_all_NoDup.
    + intros x. apply add_all_In.
  - destruct (IH (fold_left (fun acc item => set_add item acc) results acc) Hok)
      as (names & E & Hnd & Hin).
    exists names. split; [exact E|split].
    + intros H. apply Hnd. now apply add_all_NoDup.
    + intros x. rewrite Hin, add_all_In. cbn [page_items].
      rewrite in_app_iff. tauto.
Qed.

Lemma str_ltb_irrefl a : str_ltb a a = false.
Proof.
  induction a as [|x a IH]; [reflexivity|].
  cbn [str_ltb]. rewrite IH, Nat.ltb_irrefl, Nat.eqb_refl. reflexivity.
Qed.

Lemma str_ltb_total a : forall b,
  str_ltb a b = false -> a <> b -> str_ltb b a = true.
Proof.
  induction a as [|x a IH]; intros [|y b] H Hne; cbn [str_ltb] in *;
    try congruence.
  apply orb_false_iff in H as [H1 H2].
  apply Nat.ltb_ge in H1.
  destruct (Nat.eqb_spec (code x) (code y)) as [E|E].
  - cbn [andb] in H2. apply code_inj in E. subst y.
    rewrite Nat.ltb_irrefl, Nat.eqb_refl. cbn [orb andb].
    apply IH; [exact H2|congruence].
  - assert (Hlt : code y < code x) by lia.
    apply Nat.ltb_lt in Hlt. now rewrite Hlt.
Qed.

Lemma insert_sorted_In x y l : In y (insert_sorted x l) <-> y = x \/ In y l.
Proof.
  induction l as [|z l IH]; cbn [insert_sorted In].
  - intuition congruence.
  - destruct (str_ltb z x); cbn [In]; [rewrite IH|]; intuition congruence.
Qed.

Lemma sorted_In y l : In y (sorted l) <-> In y l.
Proof.
  induction l as [|x l IH]; [reflexivity|].
  cbn [sorted fold_right]. fold (sorted l).
  rewrite insert_sorted_In, IH. cbn [In]. intuition congruence.
Qed.

Lemma insert_sorted_NoDup x l :
  ~ In x l -> NoDup l -> NoDup (insert_sorted x l).
Proof.
  intros Hni H. induction H as [|z l Hz H IH]; cbn [insert_sorted].
  - constructor; [intros []|constructor].
  - destruct (str_ltb z x).
    + constructor.
      * rewrite insert_sorted_In. intros [->|Hin]; [|contradiction].
        apply Hni. now left.
      * apply IH. intros Hin. apply Hni. now right.
    + constructor; [exact Hni|now constructor].
Qed.

Lemma sorted_NoDup l : NoDup l -> NoDup (sorted l).
Proof.
  induction 1 as [|x l Hx H IH]; [constructor|].
  cbn [sorted fold_right]. fold (sorted l).
  apply insert_sorted_NoDup; [now rewrite sorted_In|exact IH].
Qed.

Lemma insert_sorted_ascending x l :
  ~ In x l -> ascending l -> ascending (insert_sorted x l).
Proof.
  induction l as [|z l IH]; intros Hni Hasc; [exact I|].
  cbn [insert_sorted]. destruct (str_ltb z x) eqn:E.
  - assert (Hni' : ~ In x l) by (intros Hin; apply Hni; now right).
    assert (Hl : ascending l) by (destruct l; [exact I|apply Hasc]).
    specialize (IH Hni' Hl).
    destruct l as [|y l]; cbn [insert_sorted] in *; [now split|].
    destruct (str_ltb y x); (split; [|exact IH]); [apply Hasc|exact E].
  - split; [|exact Hasc]. apply str_ltb_total; [exact E|].
    intros ->. apply Hni. now left.
Qed.

Lemma sorted_ascending l : NoDup l -> ascending (sorted l).
Proof.
  induction 1 as [|x l Hx H IH]; [exact I|].
  cbn [sorted fold_right]. fold (sorted l).
  apply insert_sorted_ascending; [now rewrite sorted_In|exact IH].
Qed.

End Fetch.

(** ** The reference map *)

Section LastWins.

Local Abbreviation step :=
  (fun (d : dict) (name : str) =>
     dict_set (normalize_string name) (to_title_case name) d).

Lemma build_get_absent k names : forall acc,
  (forall m, In m names -> normalize_string m <> k) ->
  dict_get k (fold_left step names acc) = dict_get k acc.
Proof.
  induction names as [|n names IH]; intros acc H; [reflexivity|].
  cbn [fold_left]. rewrite IH by (intros m Hm; apply H; now right).
  apply dict_get_set_other. apply H. now left.
Qed.

Lemma build_get_last pre n post :
  (forall m, In m post -> normalize_string m <> normalize_string n) ->
  dict_get (normalize_string n) (build_valid_map (pre ++ n :: post))
  = Some (to_title_case n).
Proof.
  intros H. unfold build_valid_map. rewrite fold_left_app. cbn [fold_left].
  rewrite build_get_absent by exact H.
  apply dict_get_set_same.
Qed.

Lemma build_get_none k names :
  dict_get k (build_valid_map names) = None <->
  forall m, In m names -> normalize_string m <> k.
Proof.
  split.
  - intros Hnone m Hin E.
    destruct (build_valid_map_from names) as (_ & _ & Hk).
    apply (Hk _ Hin). now rewrite E.
  - intros H. unfold build_valid_map.
    now rewrite build_get_absent by exact H.
Qed.

End LastWins.

(** ** What every run keeps, whatever the storage raises *)

Section Keeps.

Variable faults : nat -> option sqlite_error.
Variable net : endpoint -> listing.
Variable I : db -> Prop.

Lemma keeps_ret {A} (a : A) : keeps I (ret a).
Proof. intros w H. exact H. Qed.

Lemma keeps_raise {A} e : keeps I (@raise A e).
Proof. intros w H. exact H. Qed.

Lemma keeps_print m : keeps I (print m).
Proof. intros w H. exact H. Qed.

Lemma keeps_bind {A B} (c : M A) (k : A -> M B) :
  keeps I c -> (forall a, keeps I (k a)) -> keeps I (bind c k).
Proof.
  intros Hc Hk w H. apply wp_bind.
  eapply wp_conseq; [apply (Hc w H)| |trivial].
  intros a w1 H1. now apply Hk.
Qed.

Lemma keeps_try {A} (c : M A) h :
  keeps I c -> (forall e, keeps I (h e)) -> keeps I (try_except c h).
Proof.
  intros Hc Hh w H. apply wp_try.
  eapply wp_conseq; [apply (Hc w H)|trivial|].
  intros e w1 H1. now apply Hh.
Qed.

Lemma keeps_for_each {X} (l : list X) (body : X -> M unit) :
  (forall x, keeps I (body x)) -> keeps I (for_each l body).
Proof.
  intros Hb. induction l as [|x l IH]; [apply keeps_ret|].
  cbn [for_each]. apply keeps_bind; [apply Hb|intros _; exact IH].
Qed.

Lemma keeps_execute s f :
  (forall d, I d -> I (f d)) -> keeps I (execute faults s f).
Proof.
  intros Hf w H. unfold wp, execute.
  destruct (faults (length (events w))); cbn [data]; auto.
Qed.

Lemma keeps_query {A} s (read : db -> A) : keeps I (query faults s read).
Proof.
  intros w H. unfold wp, query.
  destruct (faults (length (events w))); exact H.
Qed.

Hypothesis I_fk : stable_fk I.
Hypothesis I_delete : forall t, stable_delete t I.
Hypothesis I_rename : forall t, stable_rename t I.

Lemma keeps_tolerate e : keeps I (tolerate_missing e).
Proof. destruct e as [[]|]; first [apply keeps_ret|apply keeps_raise]. Qed.

Lemma keeps_remap_handler c e : keeps I (remap_handler c e).
Proof.
  destruct e as [[]|]; cbn [remap_handler];
    first [apply keeps_ret|apply keeps_raise|idtac].
  apply keeps_bind; [apply keeps_print|intros _; apply keeps_raise].
Qed.

Lemma keeps_nullify i t : keeps I (nullify_fks_referencing_id faults i t).
Proof.
  apply keeps_for_each. intros [c r].
  destruct (entity_eqb r t); [|apply keeps_ret].
  apply keeps_try; [|apply keeps_tolerate].
  apply keeps_execute. intros d. apply I_fk.
Qed.

Lemma keeps_delete_row t i :
  keeps I (nullify_fks_referencing_id faults i t ;;
           execute faults (DeleteWhereId t i) (delete_where t (Z.eqb i))).
Proof.
  apply keeps_bind; [apply keeps_nullify|intros _].
  apply keeps_execute. intros d. apply I_delete.
Qed.

Lemma keeps_correct_names m t : keeps I (correct_names faults m t).
Proof.
  apply keeps_bind; [apply keeps_query|]. intros rows.
  apply keeps_bind.
  - apply keeps_for_each. intros [i n]. apply keeps_delete_row.
  - intros _. apply keeps_for_each. intros [[i n] cur].
    apply keeps_bind; [apply keeps_query|].
    intros [stored|]; [|apply keeps_ret].
    destruct (name_differs stored n); [|apply keeps_ret].
    apply keeps_execute. intros d. apply I_rename.
Qed.

Lemma keeps_remove_unvalidated m t : keeps I (remove_unvalidated faults m t).
Proof.
  apply keeps_bind; [apply keeps_query|]. intros rows.
  apply keeps_for_each. intros [i n]. apply keeps_delete_row.
Qed.

Lemma keeps_remove_duplicates t : keeps I (remove_duplicates faults t).
Proof.
  apply keeps_bind; [apply keeps_query|]. intros gs.
  apply keeps_for_each. intros [k l].
  destruct (duplicate_ids_to_remove k l) as [|x dups]; [apply keeps_ret|].
  apply keeps_bind.
  - apply keeps_for_each. intros [c r].
    destruct (entity_eqb r t); [|apply keeps_ret].
    apply keeps_try; [|apply keeps_remap_handler].
    apply keeps_execute. intros d. apply I_fk.
  - intros _. apply keeps_execute. intros d. apply I_delete.
Qed.

Lemma keeps_fetch e : keeps I (_fetch_all_pokeapi_resources net e).
Proof.
  unfold _fetch_all_pokeapi_resources. destruct (fetch_pages (net e) []).
  - apply keeps_ret.
  - apply keeps_bind; [apply keeps_print|intros _; apply keeps_ret].
Qed.

Lemma keeps_try_block : keeps I (try_block faults net).
Proof.
  unfold try_block.
  apply keeps_bind; [apply keeps_execute; auto|intros _].
  apply keeps_bind.
  { unfold fetch_references.
    repeat (apply keeps_bind; [apply keeps_fetch|intros ?]).
    apply keeps_ret. }
  intros metas.
  apply keeps_bind;
    [apply keeps_for_each; intros t; apply keeps_correct_names|intros _].
  apply keeps_bind;
    [apply keeps_for_each; intros t; apply keeps_remove_unvalidated|intros _].
  apply keeps_bind;
    [apply keeps_for_each; intros t; apply keeps_remove_duplicates|intros _].
  apply keeps_bind; [apply keeps_execute; auto|intros _; apply keeps_print].
Qed.

Lemma kept_by_run conn : I conn -> I (dataset (clean_database faults net conn)).
Proof.
  intros H. pose proof (keeps_try_block (World conn []) H) as Hw.
  unfold wp in Hw. unfold clean_database.
  destruct (try_block faults net (World conn [])) as [[[]|e] w']; cbn [dataset];
    [exact Hw|exact H].
Qed.

End Keeps.

Section NothingAdded.

Variable conn : db.

Lemma tpa_update_fk c f d :
  map tpa_id (trainer_pokemon_abilities (update_fk c f d))
  = map tpa_id (trainer_pokemon_abilities d).
Proof. destruct c; cbn; rewrite ?map_map; reflexivity. Qed.

Lemma tpa_delete t p d :
  trainer_pokemon_abilities (delete_where t p d) = trainer_pokemon_abilities d.
Proof. now destruct t. Qed.

Lemma tpa_update_name t n i d :
  trainer_pokemon_abilities (update_name t n i d) = trainer_pokemon_abilities d.
Proof. now destruct t. Qed.

Lemma ids_update_fk t c f d : ids t (update_fk c f d) = ids t d.
Proof. unfold ids. now rewrite select_update_fk. Qed.

Lemma ids_update_name t t' n i d : ids t (update_name t' n i d) = ids t d.
Proof.
  unfold ids. rewrite select_update_name.
  destruct (entity_eqb t t'); [|reflexivity].
  rewrite map_map. apply map_ext. intros r. unfold rename.
  now destruct (Z.eqb (fst r) i).
Qed.

Lemma ids_delete_incl t t' p d : incl (ids t (delete_where t' p d)) (ids t d).
Proof.
  rewrite ids_delete. destruct (entity_eqb t t'); [|apply incl_refl].
  apply incl_map_filter.
Qed.

Lemma nothing_added_fk : stable_fk (nothing_added conn).
Proof.
  intros c f d [Hi Ht]. split.
  - intros t. now rewrite ids_update_fk.
  - now rewrite tpa_update_fk.
Qed.

Lemma nothing_added_delete t : stable_delete t (nothing_added conn).
Proof.
  intros p d [Hi Ht]. split.
  - intros t'. eapply incl_tran; [apply ids_delete_incl|apply Hi].
  - now rewrite tpa_delete.
Qed.

Lemma nothing_added_rename t : stable_rename t (nothing_added conn).
Proof.
  intros n i d [Hi Ht]. split.
  - intros t'. now rewrite ids_update_name.
  - now rewrite tpa_update_name.
Qed.

Lemma nothing_added_refl : nothing_added conn conn.
Proof. split; [intros t; apply incl_refl|reflexivity]. Qed.

End NothingAdded.

(** ** The cascade of [nullify_fks_referencing_id] *)

Section Cascade.

Lemma references_In c t : references c t = true <-> In (c, t) fk_relationships.
Proof. destruct c, t; cbn; intuition congruence. Qed.

Lemma fk_nullify_exact i t w c :
  fk_values c (data (nullify_w i t w))
  = if references c t then map (set_null i) (fk_values c (data w))
    else fk_values c (data w).
Proof.
  destruct t, c; cbn; rewrite ?map_map; reflexivity.
Qed.

End Cascade.

(** ** The listing endpoints *)

Section Listings.

Lemma key_is_eq v i : key_is v i = true <-> v = Some i.
Proof.
  destruct v as [x|]; cbn; [|split; discriminate].
  rewrite Z.eqb_eq. split; congruence.
Qed.

Lemma lower_is_eq x q : lower_is x q = true <-> sql_lower x = Some (lower q).
Proof.
  destruct x as [s|]; cbn; [|split; discriminate].
  rewrite str_eqb_eq. split; congruence.
Qed.

Lemma distinct_In y l : In y (distinct l) <-> In y l.
Proof.
  induction l as [|x l IH]; [reflexivity|].
  cbn [distinct In]. rewrite filter_In, IH. split.
  - intros [H|[H _]]; [now left|now right].
  - intros [H|H]; [now left|].
    destruct (key_eqb y x) eqn:E.
    + left. apply key_eqb_eq in E. now symmetry.
    + right. now split.
Qed.

Lemma NoDup_filter {X} (p : X -> bool) l : NoDup l -> NoDup (filter p l).
Proof.
  induction 1 as [|x l Hx H IH]; [constructor|].
  cbn [filter]. destruct (p x); [|exact IH].
  constructor; [|exact IH]. intros Hin. apply filter_In in Hin. tauto.
Qed.

Lemma distinct_NoDup l : NoDup (distinct l).
Proof.
  induction l as [|x l IH]; [constructor|].
  cbn [distinct]. constructor; [|now apply NoDup_filter].
  intros Hin. apply filter_In in Hin as [_ E].
  now rewrite key_eqb_refl in E.
Qed.

Lemma distinct_nil l : l = [] -> distinct l = [].
Proof. now intros ->. Qed.

Lemma in_join3 {X Y Z' V} (A : list X) (B : list Y) (C : list Z')
      (cond : X -> Y -> Z' -> bool) (f : X -> Y -> Z' -> V) v :
  In v (flat_map (fun a =>
          flat_map (fun b =>
            flat_map (fun c => if cond a b c then [f a b c] else []) C) B) A)
  <-> exists a b c, In a A /\ In b B /\ In c C /\
        cond a b c = true /\ f a b c = v.
Proof.
  rewrite in_flat_map. split.
  - intros (a & Ha & H). apply in_flat_map in H as (b & Hb & H).
    apply in_flat_map in H as (c & Hc & H).
    destruct (cond a b c) eqn:E; [|destruct H].
    destruct H as [H|[]]. now exists a, b, c.
  - intros (a & b & c & Ha & Hb & Hc & E & H).
    exists a. split; [exact Ha|]. apply in_flat_map.
    exists b. split; [exact Hb|]. apply in_flat_map.
    exists c. split; [exact Hc|]. rewrite E. now left.
Qed.

Lemma join3_nil {X Y Z' V} (A : list X) (B : list Y) (C : list Z')
      (cond : X -> Y -> Z' -> bool) (f : X -> Y -> Z' -> V) :
  (forall a b c, In a A -> In b B -> In c C -> cond a b c = false) ->
  flat_map (fun a =>
    flat_map (fun b =>
      flat_map (fun c => if cond a b c then [f a b c] else []) C) B) A = [].
Proof.
  intros H.
  destruct (flat_map _ A) as [|v l] eqn:E; [reflexivity|].
  assert (Hin : In v (v :: l)) by now left.
  rewrite <- E in Hin. apply in_join3 in Hin
    as (a & b & c & Ha & Hb & Hc & Hcond & _).
  rewrite (H a b c Ha Hb Hc) in Hcond. discriminate.
Qed.

Lemma and3_true a b c : a && b && c = true <-> a = true /\ b = true /\ c = true.
Proof. rewrite !andb_true_iff. tauto. Qed.

Lemma In_pokemon_by_ability q d n :
  In n (select_pokemon_by_ability q d) <->
  exists p tpa a,
    In p (tbl_pokemon d) /\ In tpa (trainer_pokemon_abilities d) /\
    In a (tbl_abilities d) /\
    pokemon_id tpa = Some (p_id p) /\ ability_id tpa = Some (id a) /\
    sql_lower (name a) = Some (lower q) /\ p_name p = n.
Proof.
  unfold select_pokemon_by_ability. rewrite distinct_In.
  rewrite (in_join3 (tbl_pokemon d) (trainer_pokemon_abilities d)
             (tbl_abilities d)
             (fun p tpa a => key_is (pokemon_id tpa) (p_id p)
                             && key_is (ability_id tpa) (id a)
                             && lower_is (name a) q)
             (fun p _ _ => p_name p)).
  split; intros (p & tpa & a & Hp & Ht & Ha & H & Hn);
    exists p, tpa, a; repeat (split; [assumption|]).
  - apply and3_true in H as (H1 & H2 & H3).
    apply key_is_eq in H1, H2. apply lower_is_eq in H3. tauto.
  - destruct Hn as (H2 & H3 & Hn). split; [|exact Hn].
    apply and3_true. rewrite !key_is_eq, lower_is_eq. tauto.
Qed.

Lemma In_trainers_by_pokemon q d n :
  In n (select_trainers_by_pokemon q d) <->
  exists t tpa p,
    In t (tbl_trainers d) /\ In tpa (trainer_pokemon_abilities d) /\
    In p (tbl_pokemon d) /\
    trainer_id tpa = Some (id t) /\ pokemon_id tpa = Some (p_id p) /\
    sql_lower (p_name p) = Some (lower q) /\ name t = n.
Proof.
  unfold select_trainers_by_pokemon. rewrite distinct_In.
  rewrite (in_join3 (tbl_trainers d) (trainer_pokemon_abilities d)
             (tbl_pokemon d)
             (fun t tpa p => key_is (trainer_id tpa) (id t)
                             && key_is (pokemon_id tpa) (p_id p)
                             && lower_is (p_name p) q)
             (fun t _ _ => name t)).
  split; intros (t & tpa & p & Ht & Hl & Hp & H & Hn);
    exists t, tpa, p; repeat (split; [assumption|]).
  - apply and3_true in H as (H1 & H2 & H3).
    apply key_is_eq in H1, H2. apply lower_is_eq in H3. tauto.
  - destruct Hn as (H2 & H3 & Hn). split; [|exact Hn].
    apply and3_true. rewrite !key_is_eq, lower_is_eq. tauto.
Qed.

Lemma In_abilities_by_pokemon q d n :
  In n (select_abilities_by_pokemon q d) <->
  exists a tpa p,
    In a (tbl_abilities d) /\ In tpa (trainer_pokemon_abilities d) /\
    In p (tbl_pokemon d) /\
    ability_id tpa = Some (id a) /\ pokemon_id tpa = Some (p_id p) /\
    sql_lower (p_name p) = Some (lower q) /\ name a = n.
Proof.
  unfold select_abilities_by_pokemon. rewrite distinct_In.
  rewrite (in_join3 (tbl_abilities d) (trainer_pokemon_abilities d)
             (tbl_pokemon d)
             (fun a tpa p => key_is (ability_id tpa) (id a)
                             && key_is (pokemon_id tpa) (p_id p)
                             && lower_is (p_name p) q)
             (fun a _ _ => name a)).
  split; intros (a & tpa & p & Ha & Hl & Hp & H & Hn);
    exists a, tpa, p; repeat (split; [assumption|]).
  - apply and3_true in H as (H1 & H2 & H3).
    apply key_is_eq in H1, H2. apply lower_is_eq in H3. tauto.
  - destruct Hn as (H2 & H3 & Hn). split; [|exact Hn].
    apply and3_true. rewrite !key_is_eq, lower_is_eq. tauto.
Qed.

Lemma In_pokemon_by_type q d n :
  In n (select_pokemon_by_type q d) <->
  exists p t1,
    In p (tbl_pokemon d) /\ In t1 (tbl_types d) /\
    type1_id p = Some (id t1) /\ p_name p = n /\
    (sql_lower (name t1) = Some (lower q) \/
     exists t2, In t2 (tbl_types d) /\ type2_id p = Some (id t2) /\
                sql_lower (name t2) = Some (lower q)).
Proof.
  unfold select_pokemon_by_type. rewrite distinct_In, in_flat_map. split.
  - intros (p & Hp & H). apply in_flat_map in H as (t1 & Ht1 & H).
    destruct (key_is (type1_id p) (id t1)) eqn:K; [|destruct H].
    apply key_is_eq in K. exists p, t1.
    destruct (filter (fun t2 => key_is (type2_id p) (id t2)) (tbl_types d))
      as [|j js] eqn:F.
    + destruct (lower_is (name t1) q) eqn:L; [|destruct H].
      destruct H as [H|[]]. apply lower_is_eq in L. tauto.
    + apply in_flat_map in H as (t2 & Ht2 & H).
      rewrite <- F in Ht2. apply filter_In in Ht2 as [Ht2 K2].
      apply key_is_eq in K2.
      destruct (lower_is (name t1) q || lower_is (name t2) q) eqn:L;
        [|destruct H].
      destruct H as [H|[]]. repeat (split; [assumption|]).
      apply orb_true_iff in L as [L|L]; apply lower_is_eq in L;
        [now left|right; now exists t2].
  - intros (p & t1 & Hp & Ht1 & K & Hn & H).
    exists p. split; [exact Hp|]. apply in_flat_map.
    exists t1. split; [exact Ht1|].
    apply key_is_eq in K. rewrite K.
    destruct (filter (fun t2 => key_is (type2_id p) (id t2)) (tbl_types d))
      as [|j js] eqn:F.
    + destruct H as [H|(t2 & Ht2 & K2 & _)].
      * apply lower_is_eq in H. rewrite H. now left.
      * exfalso. apply key_is_eq in K2.
        assert (Hin : In t2 (filter (fun t2 => key_is (type2_id p) (id t2))
                                    (tbl_types d)))
          by (apply filter_In; now split).
        rewrite F in Hin. exact Hin.
    + rewrite <- F. apply in_flat_map.
      destruct H as [H|(t2 & Ht2 & K2 & H)].
      * exists j. split.
        { rewrite F. now left. }
        apply lower_is_eq in H. rewrite H. now left.
      * exists t2. apply key_is_eq in K2. split.
        { apply filter_In. now split. }
        apply lower_is_eq in H. rewrite H, orb_true_r. now left.
Qed.

End Listings.

(** ** The record creation when no statement raises *)

Section Following.

Variable lastrowid : list Z -> Z.
Variable dice : nat.
Variable pokeapi : str -> reply.

Lemma computes_value {A} (a : A) : computes (value a) (fun d => (a, d)).
Proof. intros s. exists (issued s). now destruct s. Qed.

Lemma computes_ext {A} (c : T A) f g :
  (forall d, f d = g d) -> computes c f -> computes c g.
Proof. intros E H s. destruct (H s) as (n & Hn). exists n. now rewrite <- E. Qed.

Lemma computes_and_then {A B} (c : T A) f (k : A -> T B) g :
  computes c f -> (forall a, computes (k a) (g a)) ->
  computes (and_then c k) (fun d => g (fst (f d)) (snd (f d))).
Proof.
  intros Hc Hk s. unfold and_then. destruct (Hc s) as (n & ->).
  destruct (Hk (fst (f (store s))) (Session (snd (f (store s))) n)) as (m & ->).
  now exists m.
Qed.

Lemma computes_statement {A} (run : db -> A * db) :
  computes (statement no_faults run) run.
Proof.
  intros s. exists (S (issued s)). unfold statement, no_faults.
  now destruct (run (store s)).
Qed.

Lemma computes_get_or_create t n :
  computes (get_or_create no_faults lastrowid t n) (get_or_create_d lastrowid t n).
Proof.
  unfold get_or_create.
  eapply computes_ext;
    [|apply computes_and_then with
        (g := fun row d => match row with
                           | Some i => (i, d)
                           | None => insert_name lastrowid t n d
                           end);
      [apply computes_statement|]].
  - intros d. unfold get_or_create_d, reading. cbn [fst snd].
    now destruct (select_id_by_name t n d).
  - intros [i|]; [apply computes_value|apply computes_statement].
Qed.

Lemma computes_collect {X} (l : list X) (body : X -> T Z) f :
  (forall x, computes (body x) (f x)) ->
  computes (collect l body) (collect_d f l).
Proof.
  intros Hb. induction l as [|x l IH]; [apply computes_value|].
  cbn [collect collect_d].
  eapply computes_ext;
    [|apply computes_and_then with
        (g := fun y d => (y :: fst (collect_d f l d), snd (collect_d f l d)));
      [apply Hb|]].
  - intros d. cbn [collect_d]. destruct (f x d) as [y d1]. cbn [fst snd].
    now destruct (collect_d f l d1).
  - intros y.
    eapply computes_ext;
      [|apply computes_and_then with (g := fun ys d => (y :: ys, d));
        [apply IH|intros ys; apply computes_value]].
    reflexivity.
Qed.

Lemma computes_type_ids l :
  computes (type_ids no_faults lastrowid l) (type_ids_d lastrowid l).
Proof.
  destruct l as [|first rest]; [apply computes_value|].
  cbn [type_ids type_ids_d].
  eapply computes_ext;
    [|apply computes_and_then with
        (g := fun type1 d =>
                match rest with
                | [] => ((Some type1, None), d)
                | second :: _ =>
                    ((Some type1, Some (fst (get_or_create_d lastrowid types second d))),
                     snd (get_or_create_d lastrowid types second d))
                end);
      [apply computes_get_or_create|]].
  - intros d. unfold type_ids_d.
    destruct (get_or_create_d lastrowid types first d) as [i d1].
    cbn [fst snd]. destruct rest as [|second rest']; [reflexivity|].
    now destruct (get_or_create_d lastrowid types second d1).
  - intros type1. destruct rest as [|second rest']; [apply computes_value|].
    eapply computes_ext;
      [|apply computes_and_then with
          (g := fun type2 d => ((Some type1, Some type2), d));
        [apply computes_get_or_create|intros; apply computes_value]].
    reflexivity.
Qed.

Lemma computes_pokemon_record n t1 t2 :
  computes (pokemon_record no_faults lastrowid n t1 t2)
           (pokemon_record_d lastrowid n t1 t2).
Proof.
  unfold pokemon_record.
  eapply computes_ext;
    [|apply computes_and_then with
        (g := fun row d => match row with
                           | Some i => (i, update_types t1 t2 i d)
                           | None => insert_pokemon lastrowid n t1 t2 d
                           end);
      [apply computes_statement|]].
  - intros d. unfold pokemon_record_d, reading. cbn [fst snd].
    now destruct (select_id_by_name pokemon n d).
  - intros [i|]; [|apply computes_statement].
    eapply computes_ext;
      [|apply computes_and_then with (g := fun _ d => (i, d));
        [apply computes_statement|intros; apply computes_value]].
    reflexivity.
Qed.

Lemma computes_assign_trainer :
  computes (assign_trainer no_faults lastrowid dice)
           (assign_trainer_d lastrowid dice).
Proof.
  unfold assign_trainer.
  eapply computes_ext;
    [|apply computes_and_then with
        (g := fun row d => match row with
                           | Some i => (i, d)
                           | None => insert_name lastrowid trainers new_trainer d
                           end);
      [apply computes_statement|]].
  - intros d. unfold assign_trainer_d, reading. cbn [fst snd].
    now destruct (select_random_trainer dice d).
  - intros [i|]; [apply computes_value|apply computes_statement].
Qed.

Lemma computes_link trainer pokemon_ l :
  computes (link no_faults lastrowid trainer pokemon_ l)
           (collect_d (link_d lastrowid trainer pokemon_) l).
Proof.
  unfold link. apply computes_collect. intros ab.
  eapply computes_ext;
    [|apply computes_and_then with
        (g := fun row d => match row with
                           | None => insert_tpa lastrowid trainer pokemon_ ab d
                           | Some i => (i, d)
                           end);
      [apply computes_statement|]].
  - intros d. unfold link_d, reading. cbn [fst snd].
    now destruct (select_tpa_id trainer pokemon_ ab d).
  - intros [i|]; [apply computes_value|apply computes_statement].
Qed.

Lemma computes_create_body q n ts abs :
  pokeapi (lower q) = PokeData n ts abs ->
  computes (create_body no_faults lastrowid dice pokeapi q)
           (create_d lastrowid dice n ts abs).
Proof.
  intros Hq s. unfold create_body, and_then at 1.
  destruct (computes_statement pragma_foreign_keys s) as (n0 & ->).
  cbn [fst snd pragma_foreign_keys].
  unfold and_then at 1, fetch_poke_data. rewrite Hq. cbn [value].
  unfold and_then at 1.
  destruct (computes_type_ids (map to_title_case ts) (Session (store s) n0))
    as (n1 & ->). cbn [store].
  unfold create_d, settle.
  destruct (type_ids_d lastrowid (map to_title_case ts) (store s)) as [tp d1].
  cbn [fst snd]. unfold and_then at 1.
  destruct (@computes_collect _ (map to_title_case abs)
              (get_or_create no_faults lastrowid abilities)
              (get_or_create_d lastrowid abilities)
              (computes_get_or_create abilities) (Session d1 n1)) as (n2 & ->).
  cbn [store].
  destruct (collect_d (get_or_create_d lastrowid abilities)
                      (map to_title_case abs) d1) as [al d2].
  cbn [fst snd]. unfold and_then at 1.
  destruct (computes_pokemon_record (to_title_case n) (fst tp) (snd tp)
              (Session d2 n2)) as (n3 & ->). cbn [store].
  destruct (pokemon_record_d lastrowid (to_title_case n) (fst tp) (snd tp) d2)
    as [p d3].
  cbn [fst snd]. unfold and_then at 1.
  destruct (computes_assign_trainer (Session d3 n3)) as (n4 & ->). cbn [store].
  destruct (assign_trainer_d lastrowid dice d3) as [t d4].
  cbn [fst snd the_trainer the_pokemon ability_ids_local prepared].
  unfold and_then at 1.
  destruct (computes_link t p al (Session d4 n4)) as (n5 & ->). cbn [store].
  unfold and_then at 1.
  destruct (computes_statement commit
              (Session (snd (collect_d (link_d lastrowid t p) al d4)) n5))
    as (n6 & ->).
  cbn [fst snd commit store value]. now exists n6.
Qed.

Lemma create_follows d q n ts abs :
  pokeapi (lower q) = PokeData n ts abs ->
  create_pokemon_record no_faults lastrowid dice pokeapi (File d) q
  = Answer (Returns (fst (create_d lastrowid dice n ts abs d)))
           (File (snd (create_d lastrowid dice n ts abs d))).
Proof.
  intros Hq. unfold create_pokemon_record. cbn [connect_db].
  destruct (computes_create_body q Hq (Session d 0)) as (k & ->).
  reflexivity.
Qed.

End Following.

(** ** What the statements of the record creation leave *)

Section Inserted.

Variable lastrowid : list Z -> Z.
Variable dice : nat.

Lemma select_insert_name t t' n d :
  select_id_name t (snd (insert_name lastrowid t' n d))
  = if entity_eqb t t'
    then select_id_name t d ++ [(lastrowid (ids t' d), Some n)]
    else select_id_name t d.
Proof. destruct t, t'; cbn; rewrite ?map_app; reflexivity. Qed.

Lemma tpa_insert_name t n d :
  trainer_pokemon_abilities (snd (insert_name lastrowid t n d))
  = trainer_pokemon_abilities d.
Proof. now destruct t. Qed.

Lemma select_update_types t t1 t2 i d :
  select_id_name t (update_types t1 t2 i d) = select_id_name t d.
Proof.
  destruct t; try reflexivity. cbn. rewrite map_map. apply map_ext.
  intros r. now destruct (Z.eqb (p_id r) i).
Qed.

Lemma select_insert_pokemon t n t1 t2 d :
  select_id_name t (snd (insert_pokemon lastrowid n t1 t2 d))
  = if entity_eqb t pokemon
    then select_id_name t d ++ [(lastrowid (ids pokemon d), Some n)]
    else select_id_name t d.
Proof. destruct t; cbn; rewrite ?map_app; reflexivity. Qed.

Lemma select_insert_tpa t a b c d :
  select_id_name t (snd (insert_tpa lastrowid a b c d)) = select_id_name t d.
Proof. now destruct t. Qed.

Lemma later_refl d : later d d.
Proof. split; [intros t|]; apply incl_refl. Qed.

Lemma later_trans d1 d2 d3 : later d1 d2 -> later d2 d3 -> later d1 d3.
Proof.
  intros [H1 H2] [H3 H4]. split; [intros t|]; eapply incl_tran; eauto.
Qed.

Lemma later_insert_name t n d : later d (snd (insert_name lastrowid t n d)).
Proof.
  split.
  - intros t'. rewrite select_insert_name.
    destruct (entity_eqb t' t); [apply incl_appl|]; apply incl_refl.
  - rewrite tpa_insert_name. apply incl_refl.
Qed.

Lemma later_update_types t1 t2 i d : later d (update_types t1 t2 i d).
Proof.
  split; [|apply incl_refl].
  intros t. rewrite select_update_types. apply incl_refl.
Qed.

Lemma later_insert_pokemon n t1 t2 d :
  later d (snd (insert_pokemon lastrowid n t1 t2 d)).
Proof.
  split; [|apply incl_refl].
  intros t. rewrite select_insert_pokemon.
  destruct (entity_eqb t pokemon); [apply incl_appl|]; apply incl_refl.
Qed.

Lemma later_insert_tpa a b c d : later d (snd (insert_tpa lastrowid a b c d)).
Proof.
  split.
  - intros t. rewrite select_insert_tpa. apply incl_refl.
  - cbn. apply incl_appl, incl_refl.
Qed.

Lemma named_later t i n d d' : later d d' -> named t i n d -> named t i n d'.
Proof.
  intros [H _] (stored & Hin & E). exists stored. split; [now apply (H t)|exact E].
Qed.

Lemma linked_later i a b c d d' : later d d' -> linked i a b c d -> linked i a b c d'.
Proof. intros [_ H] Hin. now apply H. Qed.

Lemma ids_later t d d' x : later d d' -> In x (ids t d) -> In x (ids t d').
Proof.
  intros [H _] Hin. unfold ids in *.
  apply in_map_iff in Hin as (r & <- & Hr). apply in_map. now apply (H t).
Qed.

Lemma named_ids t i n d : named t i n d -> In i (ids t d).
Proof.
  intros (stored & Hin & _). unfold ids.
  change i with (fst (i, stored)). now apply in_map.
Qed.

(** *** The selects that find a row *)

Lemma select_id_found t q d i :
  select_id_by_name t q d = Some i -> named t i q d.
Proof.
  unfold select_id_by_name.
  destruct (filter _ (select_id_name t d)) as [|[j stored] l] eqn:F;
    [discriminate|].
  intros E. injection E as <-.
  assert (Hin : In (j, stored) (filter (fun r => lower_is (snd r) q)
                                       (select_id_name t d)))
    by (rewrite F; now left).
  apply filter_In in Hin as [Hin L]. apply lower_is_eq in L.
  now exists stored.
Qed.

Lemma select_id_missing t q d :
  select_id_by_name t q d = None ->
  forall i stored, In (i, stored) (select_id_name t d) ->
    sql_lower stored <> Some (lower q).
Proof.
  unfold select_id_by_name.
  destruct (filter _ (select_id_name t d)) as [|r l] eqn:F; [|discriminate].
  intros _ i stored Hin E. apply lower_is_eq in E.
  assert (H : In (i, stored) (filter (fun r => lower_is (snd r) q)
                                     (select_id_name t d)))
    by (apply filter_In; now split).
  rewrite F in H. exact H.
Qed.

Lemma select_tpa_found a b c d i :
  select_tpa_id a b c d = Some i -> linked i a b c d.
Proof.
  unfold select_tpa_id.
  destruct (filter _ (trainer_pokemon_abilities d)) as [|r l] eqn:F;
    [discriminate|].
  intros E. injection E as <-.
  assert (Hin : In r (filter (fun r => key_is (trainer_id r) a
                                       && key_is (pokemon_id r) b
                                       && key_is (ability_id r) c)
                             (trainer_pokemon_abilities d)))
    by (rewrite F; now left).
  apply filter_In in Hin as [Hin K]. apply and3_true in K as (K1 & K2 & K3).
  apply key_is_eq in K1, K2, K3. unfold linked.
  destruct r as [i p t ab]. cbn in *. now subst.
Qed.

Lemma select_random_found d i :
  select_random_trainer dice d = Some i -> In i (ids trainers d).
Proof. unfold select_random_trainer. apply nth_error_In. Qed.

Lemma select_random_none d :
  select_random_trainer dice d = None -> ids trainers d = [].
Proof.
  unfold select_random_trainer. intros H.
  destruct (ids trainers d) as [|x l] eqn:E; [reflexivity|].
  apply nth_error_None in H.
  pose proof (Nat.mod_upper_bound dice (length (x :: l))) as Hlt.
  cbn [length] in *. lia.
Qed.

(** *** The steps *)

Lemma named_inserted t n d :
  named t (fst (insert_name lastrowid t n d)) n (snd (insert_name lastrowid t n d)).
Proof.
  exists (Some n). split; [|reflexivity].
  rewrite select_insert_name, entity_eqb_refl.
  apply in_or_app. right. now left.
Qed.

Lemma get_or_create_spec t n d :
  later d (snd (get_or_create_d lastrowid t n d)) /\
  named t (fst (get_or_create_d lastrowid t n d)) n
        (snd (get_or_create_d lastrowid t n d)).
Proof.
  unfold get_or_create_d.
  destruct (select_id_by_name t n d) as [i|] eqn:E.
  - split; [apply later_refl|now apply select_id_found].
  - split; [apply later_insert_name|apply named_inserted].
Qed.

Lemma collect_spec {X} (f : X -> db -> Z * db) (R : X -> Z -> db -> Prop) l :
  (forall x i d d', later d d' -> R x i d -> R x i d') ->
  (forall x d, later d (snd (f x d)) /\ R x (fst (f x d)) (snd (f x d))) ->
  forall d,
    later d (snd (collect_d f l d)) /\
    Forall2 (fun x i => R x i (snd (collect_d f l d))) l (fst (collect_d f l d)).
Proof.
  intros Hstable Hf. induction l as [|x l IH]; intros d.
  - split; [apply later_refl|constructor].
  - cbn [collect_d]. destruct (Hf x d) as [Hl Hr].
    destruct (f x d) as [y d1]. cbn [fst snd] in *.
    destruct (IH d1) as [Hl' Hall].
    destruct (collect_d f l d1) as [ys d2]. cbn [fst snd] in *.
    split; [eapply later_trans; eassumption|].
    constructor; [|exact Hall]. eapply Hstable; eassumption.
Qed.

Lemma type_ids_spec l d :
  later d (snd (type_ids_d lastrowid l d)) /\
  match l with
  | [] => fst (type_ids_d lastrowid l d) = (None, None)
  | first :: rest =>
      exists i, fst (fst (type_ids_d lastrowid l d)) = Some i /\
        named types i first (snd (type_ids_d lastrowid l d)) /\
        match rest with
        | [] => snd (fst (type_ids_d lastrowid l d)) = None
        | second :: _ =>
            exists j, snd (fst (type_ids_d lastrowid l d)) = Some j /\
              named types j second (snd (type_ids_d lastrowid l d))
        end
  end.
Proof.
  destruct l as [|first rest]; [split; [apply later_refl|reflexivity]|].
  cbn [type_ids_d].
  destruct (get_or_create_spec types first d) as [H1 N1].
  destruct (get_or_create_d lastrowid types first d) as [i d1].
  cbn [fst snd] in *. destruct rest as [|second rest'].
  - cbn [fst snd]. split; [exact H1|]. exists i. now split.
  - destruct (get_or_create_spec types second d1) as [H2 N2].
    destruct (get_or_create_d lastrowid types second d1) as [j d2].
    cbn [fst snd] in *. split; [eapply later_trans; eassumption|].
    exists i. split; [reflexivity|split].
    + eapply named_later; eassumption.
    + exists j. now split.
Qed.

Lemma In_select_pokemon i stored d :
  In (i, stored) (select_id_name pokemon d) <->
  exists r, In r (tbl_pokemon d) /\ p_id r = i /\ p_name r = stored.
Proof.
  cbn [select_id_name]. rewrite in_map_iff. split.
  - intros (r & E & Hr). injection E as <- <-. now exists r.
  - intros (r & Hr & <- & <-). now exists r.
Qed.

Lemma pokemon_record_spec n t1 t2 d :
  later d (snd (pokemon_record_d lastrowid n t1 t2 d)) /\
  typed (fst (pokemon_record_d lastrowid n t1 t2 d)) n t1 t2
        (snd (pokemon_record_d lastrowid n t1 t2 d)).
Proof.
  unfold pokemon_record_d.
  destruct (select_id_by_name pokemon n d) as [i|] eqn:E; cbn [fst snd].
  - split; [apply later_update_types|].
    apply select_id_found in E as (stored & Hin & L).
    apply In_select_pokemon in Hin as (r & Hr & Hi & Hn).
    exists (PokemonRow (p_id r) (p_name r) t1 t2). cbn.
    split; [|now rewrite Hn].
    apply in_map_iff. exists r. split; [|exact Hr].
    rewrite Hi, Z.eqb_refl. reflexivity.
  - split; [apply later_insert_pokemon|].
    eexists. split; [apply in_or_app; right; now left|]. now cbn.
Qed.

Lemma assign_trainer_spec d :
  later d (snd (assign_trainer_d lastrowid dice d)) /\
  In (fst (assign_trainer_d lastrowid dice d))
     (ids trainers (snd (assign_trainer_d lastrowid dice d))) /\
  tbl_pokemon (snd (assign_trainer_d lastrowid dice d)) = tbl_pokemon d.
Proof.
  unfold assign_trainer_d.
  destruct (select_random_trainer dice d) as [i|] eqn:E; cbn [fst snd].
  - split; [apply later_refl|split; [|reflexivity]].
    now apply select_random_found.
  - split; [apply later_insert_name|split; [|reflexivity]].
    apply (named_ids (named_inserted trainers new_trainer d)).
Qed.

Lemma link_spec a b c d :
  later d (snd (link_d lastrowid a b c d)) /\
  linked (fst (link_d lastrowid a b c d)) a b c (snd (link_d lastrowid a b c d)) /\
  tbl_pokemon (snd (link_d lastrowid a b c d)) = tbl_pokemon d.
Proof.
  unfold link_d. destruct (select_tpa_id a b c d) as [i|] eqn:E; cbn [fst snd].
  - split; [apply later_refl|split; [|reflexivity]].
    now apply select_tpa_found.
  - split; [apply later_insert_tpa|split; [|reflexivity]].
    unfold linked. cbn. apply in_or_app. right. now left.
Qed.

Lemma links_pokemon a b l : forall d,
  tbl_pokemon (snd (collect_d (link_d lastrowid a b) l d)) = tbl_pokemon d.
Proof.
  induction l as [|c l IH]; intros d; [reflexivity|].
  cbn [collect_d]. destruct (link_spec a b c d) as (_ & _ & Hp).
  destruct (link_d lastrowid a b c d) as [y d1]. cbn [fst snd] in *.
  specialize (IH d1). destruct (collect_d (link_d lastrowid a b) l d1).
  cbn [snd] in *. congruence.
Qed.

Lemma typed_same i n t1 t2 d d' :
  tbl_pokemon d' = tbl_pokemon d -> typed i n t1 t2 d -> typed i n t1 t2 d'.
Proof. unfold typed. now intros ->. Qed.

(** What the whole creation leaves. *)
Lemma create_spec n ts abs d :
  let s := settle lastrowid dice n ts abs d in
  let r := create_d lastrowid dice n ts abs d in
  later d (snd r) /\
  typed (the_pokemon s) (to_title_case n)
        (fst (type_pair s)) (snd (type_pair s)) (snd r) /\
  match map to_title_case ts with
  | [] => type_pair s = (None, None)
  | first :: rest =>
      exists i, fst (type_pair s) = Some i /\ named types i first (snd r) /\
        match rest with
        | [] => snd (type_pair s) = None
        | second :: _ =>
            exists j, snd (type_pair s) = Some j /\ named types j second (snd r)
        end
  end /\
  In (the_trainer s) (ids trainers (snd r)) /\
  Forall2 (fun ab a => named abilities a ab (snd r))
          (map to_title_case abs) (ability_ids_local s) /\
  Forall2 (fun a i => linked i (the_trainer s) (the_pokemon s) a (snd r))
          (ability_ids_local s) (fst r).
Proof.
  cbv zeta. unfold create_d, settle.
  destruct (type_ids_spec (map to_title_case ts) d) as [L1 Ht].
  destruct (type_ids_d lastrowid (map to_title_case ts) d) as [tp d1].
  cbn [fst snd] in *.
  destruct (@collect_spec _ (get_or_create_d lastrowid abilities)
              (fun ab a d => named abilities a ab d) (map to_title_case abs)
              (fun x i d d' H => @named_later abilities i x d d' H)
              (get_or_create_spec abilities) d1) as [L2 Ha].
  destruct (collect_d (get_or_create_d lastrowid abilities)
                      (map to_title_case abs) d1) as [al d2].
  cbn [fst snd] in *.
  destruct (pokemon_record_spec (to_title_case n) (fst tp) (snd tp) d2)
    as [L3 Hp].
  destruct (pokemon_record_d lastrowid (to_title_case n) (fst tp) (snd tp) d2)
    as [p d3].
  cbn [fst snd] in *.
  destruct (assign_trainer_spec d3) as (L4 & Htr & Hsame4).
  destruct (assign_trainer_d lastrowid dice d3) as [t d4].
  cbn [fst snd the_trainer the_pokemon ability_ids_local prepared type_pair] in *.
  destruct (@collect_spec _ (link_d lastrowid t p)
              (fun a i d => linked i t p a d) al
              (fun x i d d' H => @linked_later i t p x d d' H)
              (fun x d => let '(conj A (conj B _)) := link_spec t p x d in
                          conj A B) d4) as [L5 Hl].
  pose proof (links_pokemon t p al d4) as Hsame5.
  set (r := collect_d (link_d lastrowid t p) al d4) in *.
  assert (L25 : later d2 (snd r))
    by exact (later_trans L3 (later_trans L4 L5)).
  assert (L15 : later d1 (snd r)) by exact (later_trans L2 L25).
  split; [exact (later_trans L1 L15)|].
  split; [|split; [|split; [|split]]].
  - apply (@typed_same _ _ _ _ d3); [congruence|exact Hp].
  - destruct (map to_title_case ts) as [|first rest]; [exact Ht|].
    destruct Ht as (i & Hi & Hn & Hrest). exists i.
    split; [exact Hi|split; [exact (named_later L15 Hn)|]].
    destruct rest as [|second rest']; [exact Hrest|].
    destruct Hrest as (j & Hj & Hn'). exists j.
    split; [exact Hj|exact (named_later L15 Hn')].
  - eapply ids_later; [exact L5|exact Htr].
  - eapply Forall2_impl; [|exact Ha]. intros ab a H.
    exact (named_later L25 H).
  - exact Hl.
Qed.

End Inserted.

(** ** The record creation keeps a sound dataset sound *)

Section Sound.

Variable lastrowid : list Z -> Z.
Variable dice : nat.
Hypothesis lastrowid_fresh : fresh lastrowid.

Lemma NoDup_snoc {X} (l : list X) x : NoDup l -> ~ In x l -> NoDup (l ++ [x]).
Proof.
  intros H Hni. induction H as [|y l Hy H IH]; cbn [app].
  - constructor; [intros []|constructor].
  - constructor.
    + rewrite in_app_iff. cbn [In]. intros [Hin|[<-|[]]]; [tauto|].
      apply Hni. now left.
    + apply IH. intros Hin. apply Hni. now right.
Qed.

Lemma ids_insert_name t t' n d :
  ids t (snd (insert_name lastrowid t' n d))
  = if entity_eqb t t' then ids t d ++ [lastrowid (ids t' d)] else ids t d.
Proof.
  unfold ids. rewrite select_insert_name.
  destruct (entity_eqb t t'); [|reflexivity]. now rewrite map_app.
Qed.

Lemma ids_insert_pokemon t n t1 t2 d :
  ids t (snd (insert_pokemon lastrowid n t1 t2 d))
  = if entity_eqb t pokemon then ids t d ++ [lastrowid (ids pokemon d)]
    else ids t d.
Proof.
  unfold ids. rewrite select_insert_pokemon.
  destruct (entity_eqb t pokemon); [|reflexivity]. now rewrite map_app.
Qed.

Lemma fk_insert_name c t n d v :
  In (Some v) (fk_values c (snd (insert_name lastrowid t n d))) ->
  In (Some v) (fk_values c d).
Proof.
  destruct c, t; cbn; rewrite ?map_app, ?in_app_iff; cbn;
    intuition discriminate.
Qed.

Lemma fk_insert_pokemon c n t1 t2 d v :
  In (Some v) (fk_values c (snd (insert_pokemon lastrowid n t1 t2 d))) ->
  In (Some v) (fk_values c d) \/
  (c = pokemon_type1_id /\ t1 = Some v) \/ (c = pokemon_type2_id /\ t2 = Some v).
Proof.
  destruct c; cbn; rewrite ?map_app, ?in_app_iff; cbn; intuition.
Qed.

Lemma fk_update_types c t1 t2 i d v :
  In (Some v) (fk_values c (update_types t1 t2 i d)) ->
  In (Some v) (fk_values c d) \/
  (c = pokemon_type1_id /\ t1 = Some v) \/ (c = pokemon_type2_id /\ t2 = Some v).
Proof.
  destruct c; cbn; try tauto; rewrite map_map, in_map_iff;
    intros (r & E & Hr); destruct (Z.eqb (p_id r) i); cbn in E;
    try (right; intuition congruence);
    left; rewrite <- E; now apply in_map.
Qed.

Lemma fk_insert_tpa c a b x d v :
  In (Some v) (fk_values c (snd (insert_tpa lastrowid a b x d))) ->
  In (Some v) (fk_values c d) \/
  (c = tpa_trainer_id /\ v = a) \/ (c = tpa_pokemon_id /\ v = b) \/
  (c = tpa_ability_id /\ v = x).
Proof.
  destruct c; cbn; rewrite ?map_app, ?in_app_iff; cbn; intuition congruence.
Qed.

Lemma keys_snoc t d i n :
  NoDup (map key_of (select_id_name t d)) ->
  (forall j stored, In (j, stored) (select_id_name t d) ->
     sql_lower stored <> Some (lower n)) ->
  NoDup (map key_of (select_id_name t d ++ [(i, Some n)])).
Proof.
  intros H Hmiss. rewrite map_app. cbn [map]. apply NoDup_snoc; [exact H|].
  intros Hin. apply in_map_iff in Hin as ([j stored] & E & Hj).
  now apply (Hmiss j stored Hj).
Qed.

Lemma sound_insert_name t n d :
  sound d ->
  (forall j stored, In (j, stored) (select_id_name t d) ->
     sql_lower stored <> Some (lower n)) ->
  sound (snd (insert_name lastrowid t n d)).
Proof.
  intros (Hu & Hr & Hd) Hmiss. split; [|split].
  - intros t'. rewrite ids_insert_name.
    destruct (entity_eqb t' t) eqn:E; [|apply Hu].
    apply entity_eqb_eq in E. subst t'.
    apply NoDup_snoc; [apply Hu|apply lastrowid_fresh].
  - intros c r v Hc Hv. apply fk_insert_name in Hv.
    eapply ids_later; [apply later_insert_name|]. now apply (Hr c r v).
  - intros t'. unfold no_duplicates. rewrite select_insert_name.
    destruct (entity_eqb t' t) eqn:E; [|apply Hd].
    apply entity_eqb_eq in E. subst t'. apply keys_snoc; [apply Hd|exact Hmiss].
Qed.

Lemma types_target c r :
  In (c, r) fk_relationships ->
  (c = pokemon_type1_id \/ c = pokemon_type2_id) -> r = types.
Proof. destruct c, r; cbn; intuition congruence. Qed.

Lemma sound_update_types t1 t2 i d :
  sound d -> key_ok types t1 d -> key_ok types t2 d ->
  sound (update_types t1 t2 i d).
Proof.
  intros (Hu & Hr & Hd) H1 H2. split; [|split].
  - intros t. unfold ids. rewrite select_update_types. apply Hu.
  - intros c r v Hc Hv. unfold ids. rewrite select_update_types.
    apply fk_update_types in Hv as [Hv|[[-> E]|[-> E]]].
    + now apply (Hr c r v).
    + rewrite (types_target Hc (or_introl eq_refl)). now apply H1.
    + rewrite (types_target Hc (or_intror eq_refl)). now apply H2.
  - intros t. unfold no_duplicates. rewrite select_update_types. apply Hd.
Qed.

Lemma sound_insert_pokemon n t1 t2 d :
  sound d -> key_ok types t1 d -> key_ok types t2 d ->
  (forall j stored, In (j, stored) (select_id_name pokemon d) ->
     sql_lower stored <> Some (lower n)) ->
  sound (snd (insert_pokemon lastrowid n t1 t2 d)).
Proof.
  intros (Hu & Hr & Hd) H1 H2 Hmiss. split; [|split].
  - intros t. rewrite ids_insert_pokemon.
    destruct (entity_eqb t pokemon) eqn:E; [|apply Hu].
    apply entity_eqb_eq in E. subst t.
    apply NoDup_snoc; [apply Hu|apply lastrowid_fresh].
  - intros c r v Hc Hv.
    eapply ids_later; [apply later_insert_pokemon|].
    apply fk_insert_pokemon in Hv as [Hv|[[-> E]|[-> E]]].
    + now apply (Hr c r v).
    + rewrite (types_target Hc (or_introl eq_refl)). now apply H1.
    + rewrite (types_target Hc (or_intror eq_refl)). now apply H2.
  - intros t. unfold no_duplicates. rewrite select_insert_pokemon.
    destruct (entity_eqb t pokemon) eqn:E; [|apply Hd].
    apply entity_eqb_eq in E. subst t. apply keys_snoc; [apply Hd|exact Hmiss].
Qed.

Lemma sound_insert_tpa a b x d :
  sound d -> In a (ids trainers d) -> In b (ids pokemon d) ->
  In x (ids abilities d) ->
  sound (snd (insert_tpa lastrowid a b x d)).
Proof.
  intros (Hu & Hr & Hd) Ha Hb Hx. split; [|split].
  - intros t. unfold ids. rewrite select_insert_tpa. apply Hu.
  - intros c r v Hc Hv. unfold ids. rewrite select_insert_tpa.
    apply fk_insert_tpa in Hv as [Hv|[[-> ->]|[[-> ->]|[-> ->]]]].
    + now apply (Hr c r v).
    + destruct r; cbn in Hc; try (exfalso; intuition congruence). exact Ha.
    + destruct r; cbn in Hc; try (exfalso; intuition congruence). exact Hb.
    + destruct r; cbn in Hc; try (exfalso; intuition congruence). exact Hx.
  - intros t. unfold no_duplicates. rewrite select_insert_tpa. apply Hd.
Qed.

Lemma sound_get_or_create t n d :
  sound d -> sound (snd (get_or_create_d lastrowid t n d)).
Proof.
  intros H. unfold get_or_create_d.
  destruct (select_id_by_name t n d) as [i|] eqn:E; [exact H|].
  apply sound_insert_name; [exact H|]. now apply select_id_missing.
Qed.

Lemma sound_collect {X} (f : X -> db -> Z * db) l :
  (forall x d, sound d -> sound (snd (f x d))) ->
  forall d, sound d -> sound (snd (collect_d f l d)).
Proof.
  intros Hf. induction l as [|x l IH]; intros d H; [exact H|].
  cbn [collect_d]. specialize (Hf x d H).
  destruct (f x d) as [y d1]. cbn [snd] in Hf. specialize (IH d1 Hf).
  now destruct (collect_d f l d1).
Qed.

Lemma sound_type_ids l d :
  sound d ->
  sound (snd (type_ids_d lastrowid l d)) /\
  key_ok types (fst (fst (type_ids_d lastrowid l d)))
         (snd (type_ids_d lastrowid l d)) /\
  key_ok types (snd (fst (type_ids_d lastrowid l d)))
         (snd (type_ids_d lastrowid l d)).
Proof.
  intros H. destruct (type_ids_spec lastrowid l d) as [_ Hs].
  destruct l as [|first rest].
  - cbn. split; [exact H|split; intros x E; discriminate].
  - destruct Hs as (i & Hi & Hn & Hrest). split; [|split].
    + cbn [type_ids_d].
      pose proof (sound_get_or_create types first H) as H1.
      destruct (get_or_create_d lastrowid types first d) as [i1 d1].
      cbn [snd] in H1. destruct rest as [|second rest']; [exact H1|].
      pose proof (sound_get_or_create types second H1) as H2.
      now destruct (get_or_create_d lastrowid types second d1).
    + intros x E. rewrite Hi in E. injection E as <-.
      now apply named_ids in Hn.
    + intros x E. destruct rest as [|second rest']; [congruence|].
      destruct Hrest as (j & Hj & Hn'). rewrite Hj in E. injection E as <-.
      now apply named_ids in Hn'.
Qed.

Lemma key_ok_later t v d d' : later d d' -> key_ok t v d -> key_ok t v d'.
Proof. intros L H x E. eapply ids_later; [exact L|now apply H]. Qed.

Lemma sound_pokemon_record n t1 t2 d :
  sound d -> key_ok types t1 d -> key_ok types t2 d ->
  sound (snd (pokemon_record_d lastrowid n t1 t2 d)).
Proof.
  intros H H1 H2. unfold pokemon_record_d.
  destruct (select_id_by_name pokemon n d) as [i|] eqn:E; cbn [snd].
  - now apply sound_update_types.
  - apply sound_insert_pokemon; try assumption. now apply select_id_missing.
Qed.

Lemma sound_assign_trainer d :
  sound d -> sound (snd (assign_trainer_d lastrowid dice d)).
Proof.
  intros H. unfold assign_trainer_d.
  destruct (select_random_trainer dice d) as [i|] eqn:E; [exact H|].
  apply sound_insert_name; [exact H|].
  apply select_random_none in E. intros j stored Hin.
  assert (Hj : In j (ids trainers d)).
  { unfold ids. change j with (fst (j, stored)). now apply in_map. }
  rewrite E in Hj. destruct Hj.
Qed.

Lemma sound_link a b x d :
  sound d -> In a (ids trainers d) -> In b (ids pokemon d) ->
  In x (ids abilities d) ->
  sound (snd (link_d lastrowid a b x d)).
Proof.
  intros H Ha Hb Hx. unfold link_d.
  destruct (select_tpa_id a b x d) as [i|]; [exact H|].
  now apply sound_insert_tpa.
Qed.

Lemma sound_links a b l : forall d,
  sound d -> In a (ids trainers d) -> In b (ids pokemon d) ->
  Forall (fun x => In x (ids abilities d)) l ->
  sound (snd (collect_d (link_d lastrowid a b) l d)).
Proof.
  induction l as [|x l IH]; intros d H Ha Hb Hl; [exact H|].
  cbn [collect_d]. inversion Hl as [|? ? Hx Hl']; subst.
  pose proof (@sound_link a b x d H Ha Hb Hx) as H1.
  destruct (link_spec lastrowid a b x d) as (L & _ & _).
  destruct (link_d lastrowid a b x d) as [y d1]. cbn [fst snd] in *.
  assert (IH' : sound (snd (collect_d (link_d lastrowid a b) l d1))).
  { apply IH; [exact H1| | |].
    - eapply ids_later; [exact L|exact Ha].
    - eapply ids_later; [exact L|exact Hb].
    - eapply Forall_impl; [|exact Hl']. intros z Hz.
      eapply ids_later; [exact L|exact Hz]. }
  now destruct (collect_d (link_d lastrowid a b) l d1).
Qed.

Lemma typed_ids i n t1 t2 d : typed i n t1 t2 d -> In i (ids pokemon d).
Proof.
  intros (r & Hr & <- & _). unfold ids. cbn [select_id_name].
  rewrite map_map. cbn [fst]. now apply in_map.
Qed.

Lemma sound_create n ts abs d :
  sound d -> sound (snd (create_d lastrowid dice n ts abs d)).
Proof.
  intros H. unfold create_d, settle.
  destruct (sound_type_ids (map to_title_case ts) H) as (H1 & K1 & K2).
  destruct (type_ids_d lastrowid (map to_title_case ts) d) as [tp d1].
  cbn [fst snd] in *.
  pose proof (@sound_collect _ (get_or_create_d lastrowid abilities)
                (map to_title_case abs)
                (fun x d => @sound_get_or_create abilities x d) d1 H1) as H2.
  destruct (@collect_spec _ (get_or_create_d lastrowid abilities)
              (fun ab a d => named abilities a ab d) (map to_title_case abs)
              (fun x i d d' L => @named_later abilities i x d d' L)
              (get_or_create_spec lastrowid abilities) d1) as [L2 Ha].
  destruct (collect_d (get_or_create_d lastrowid abilities)
                      (map to_title_case abs) d1) as [al d2].
  cbn [fst snd] in *.
  pose proof (sound_pokemon_record (to_title_case n) H2
                (key_ok_later L2 K1) (key_ok_later L2 K2)) as H3.
  destruct (pokemon_record_spec lastrowid (to_title_case n) (fst tp) (snd tp) d2)
    as [L3 Hp].
  destruct (pokemon_record_d lastrowid (to_title_case n) (fst tp) (snd tp) d2)
    as [p d3].
  cbn [fst snd] in *.
  pose proof (sound_assign_trainer H3) as H4.
  destruct (assign_trainer_spec lastrowid dice d3) as (L4 & Htr & _).
  destruct (assign_trainer_d lastrowid dice d3) as [t d4].
  cbn [fst snd the_trainer the_pokemon ability_ids_local prepared] in *.
  apply sound_links; [exact H4|exact Htr| |].
  - eapply ids_later; [exact L4|]. exact (typed_ids Hp).
  - assert (G : forall l1 l2,
              Forall2 (fun ab a => named abilities a ab d2) l1 l2 ->
              Forall (fun x => In x (ids abilities d4)) l2).
    { induction 1 as [|ab a l1 l2 Hn _ IH]; constructor; [|exact IH].
      eapply ids_later; [exact (later_trans L3 L4)|exact (named_ids Hn)]. }
    exact (G _ _ Ha).
Qed.

End Sound.

(** ** Case and the comparison key *)

Section CaseBlind.

Lemma filter_lower s : filter is_alnum (lower s) = lower (filter is_alnum s).
Proof.
  induction s as [|c s IH]; [reflexivity|].
  destruct (char_cases c) as (_ & _ & _ & _ & Hl & _).
  cbn [lower map filter]. rewrite Hl.
  destruct (is_alnum c); [cbn [map]; f_equal|]; exact IH.
Qed.

Lemma lower_lower s : lower (lower s) = lower s.
Proof.
  induction s as [|c s IH]; [reflexivity|].
  destruct (char_cases c) as (_ & _ & _ & _ & _ & _ & _ & _ & Hll).
  cbn [lower map]. rewrite Hll. f_equal. exact IH.
Qed.

Lemma normalize_lower s : normalize_string (lower s) = normalize_string s.
Proof.
  rewrite !normalize_string_eq, filter_lower. apply lower_lower.
Qed.

Lemma normalize_same_case s s' :
  lower s = lower s' -> normalize_string s = normalize_string s'.
Proof.
  intros E. rewrite <- (normalize_lower s), <- (normalize_lower s'). now rewrite E.
Qed.

End CaseBlind.

(** ** Listings of a dataset without duplicates *)

Section ListedNames.

Lemma map_inj_NoDup {X Y} (f : X -> Y) l x y :
  NoDup (map f l) -> In x l -> In y l -> f x = f y -> x = y.
Proof.
  induction l as [|a l IH]; cbn; [tauto|].
  intros Hnd Hx Hy E. inversion Hnd as [|? ? Hni Hnd']; subst.
  destruct Hx as [->|Hx], Hy as [->|Hy]; [reflexivity| | |now apply IH].
  - exfalso. apply Hni. rewrite E. now apply in_map.
  - exfalso. apply Hni. rewrite <- E. now apply in_map.
Qed.

Lemma listed_keys_distinct rows l :
  NoDup (map key_of rows) -> NoDup l ->
  (forall n, In n l -> exists i, In (i, n) rows) ->
  NoDup (map sql_lower l).
Proof.
  intros Hk Hl Hrows. induction Hl as [|n l Hn Hl IH]; [constructor|].
  cbn [map]. constructor.
  - intros Hin. apply in_map_iff in Hin as (n' & E & Hn').
    destruct (Hrows n (or_introl eq_refl)) as (i & Hi).
    destruct (Hrows n' (or_intror Hn')) as (i' & Hi').
    assert (Heq : (i', n') = (i, n)).
    { apply (map_inj_NoDup key_of rows); try assumption. }
    injection Heq as _ ->. contradiction.
  - apply IH. intros n' Hn'. apply Hrows. now right.
Qed.

Lemma named_row_select t i n d :
  t <> pokemon ->
  (In (i, n) (select_id_name t d) <->
   exists r, In r (match t with
                   | pokemon => []
                   | types => tbl_types d
                   | abilities => tbl_abilities d
                   | trainers => tbl_trainers d
                   end) /\ id r = i /\ name r = n).
Proof.
  intros Hne. destruct t; [congruence| | |]; cbn [select_id_name];
    rewrite in_map_iff; (split;
      [intros (r & E & Hr); injection E as <- <-; now exists r
      |intros (r & Hr & <- & <-); now exists r]).
Qed.

Lemma pokemon_by_ability_rows q d n :
  In n (select_pokemon_by_ability q d) ->
  exists i, In (i, n) (select_id_name pokemon d).
Proof.
  intros H. apply In_pokemon_by_ability in H
    as (p & _ & _ & Hp & _ & _ & _ & _ & _ & Hn).
  exists (p_id p). apply In_select_pokemon. now exists p.
Qed.

Lemma pokemon_by_type_rows q d n :
  In n (select_pokemon_by_type q d) ->
  exists i, In (i, n) (select_id_name pokemon d).
Proof.
  intros H. apply In_pokemon_by_type in H as (p & _ & Hp & _ & _ & Hn & _).
  exists (p_id p). apply In_select_pokemon. now exists p.
Qed.

Lemma trainers_by_pokemon_rows q d n :
  In n (select_trainers_by_pokemon q d) ->
  exists i, In (i, n) (select_id_name trainers d).
Proof.
  intros H. apply In_trainers_by_pokemon in H
    as (t & _ & _ & Ht & _ & _ & _ & _ & _ & Hn).
  exists (id t). apply named_row_select; [discriminate|]. now exists t.
Qed.

Lemma abilities_by_pokemon_rows q d n :
  In n (select_abilities_by_pokemon q d) ->
  exists i, In (i, n) (select_id_name abilities d).
Proof.
  intros H. apply In_abilities_by_pokemon in H
    as (a & _ & _ & Ha & _ & _ & _ & _ & _ & Hn).
  exists (id a). apply named_row_select; [discriminate|]. now exists a.
Qed.

Variable net : endpoint -> listing.
Variable conn : db.
Hypothesis conn_unique : ids_unique conn.

(** What a listing of a cleaned table holds: valid names, no two of them
    equal up to case. *)
Lemma cleaned_listing t l :
  NoDup l ->
  (forall n, In n l -> exists i, In (i, n) (select_id_name t (cleaned net conn))) ->
  (forall n, In n l ->
     in_valid_set n (original_valid_set (metas_of net t)) = true) /\
  NoDup (map sql_lower l).
Proof.
  intros Hl Hrows. split.
  - intros n Hn. destruct (Hrows n Hn) as (i & Hi).
    exact (@calm_valid net conn t i n Hi).
  - apply (@listed_keys_distinct (select_id_name t (cleaned net conn))).
    + exact (@calm_no_duplicates net conn conn_unique t).
    + exact Hl.
    + exact Hrows.
Qed.

End ListedNames.

(** ** The id SQLite gives *)

Section Rowid.

Lemma max_bound l x : In x l -> (x <= fold_right Z.max 0 l)%Z.
Proof.
  induction l as [|y l IH]; [intros []|].
  cbn [fold_right]. intros [<-|H]; [lia|]. specialize (IH H). lia.
Qed.

Lemma next_rowid_fresh : fresh next_rowid.
Proof.
  intros l Hin. apply max_bound in Hin. unfold next_rowid in Hin. lia.
Qed.

Lemma served_db_sound : sound served_db.
Proof.
  split; [|split].
  - apply ids_uniqueb_sound. reflexivity.
  - apply ref_okb_sound. reflexivity.
  - intros t. unfold no_duplicates.
    destruct t; cbn; (constructor; [intros []|constructor]).
Qed.

End Rowid.

(** ** Requests that fail *)

Section Failing.

Variable faults : nat -> option sqlite_error.
Variable lastrowid : list Z -> Z.
Variable dice : nat.
Variable pokeapi : str -> reply.

Lemma create_raises_500 k q code det :
  sent (create_pokemon_record faults lastrowid dice pokeapi k q) = Raises code det ->
  code = 500 /\
  disk_after (create_pokemon_record faults lastrowid dice pokeapi k q) = k.
Proof.
  unfold create_pokemon_record. destruct (connect_db k) as [d|].
  - destruct (create_body faults lastrowid dice pokeapi q (Session d 0))
      as [[x|ids] s]; [destruct x|]; cbn [sent disk_after]; intros E;
      try discriminate; injection E as <- _; now split.
  - cbn [sent disk_after]. intros E. injection E as <- _. now split.
Qed.

Lemma body_without_data d q :
  faults 0 = None ->
  match pokeapi (lower q) with
  | PokeData _ _ _ => True
  | HttpError status_code =>
      fst (create_body faults lastrowid dice pokeapi q (Session d 0))
      = inl (if status_code =? 404
             then HTTPException 404 (NotFoundOnPokeAPI q)
             else HTTPException 500 ErrorFetching)
  | NoResponse =>
      fst (create_body faults lastrowid dice pokeapi q (Session d 0))
      = inl UnboundLocalError
  end.
Proof.
  intros H0. unfold create_body, and_then, statement, fetch_poke_data.
  cbn [issued store]. rewrite H0. cbn [pragma_foreign_keys].
  destruct (pokeapi (lower q)) as [|code|n ts abs]; [reflexivity| |exact I].
  destruct (code =? 404); reflexivity.
Qed.

Lemma create_without_data d q :
  faults 0 = None ->
  match pokeapi (lower q) with
  | PokeData _ _ _ => True
  | HttpError status_code =>
      sent (create_pokemon_record faults lastrowid dice pokeapi (File d) q)
      = Raises 500 (CreationUnexpectedError
                      (if status_code =? 404
                       then HTTPException 404 (NotFoundOnPokeAPI q)
                       else HTTPException 500 ErrorFetching))
  | NoResponse =>
      sent (create_pokemon_record faults lastrowid dice pokeapi (File d) q)
      = Raises 500 (CreationUnexpectedError UnboundLocalError)
  end.
Proof.
  intros H0. pose proof (body_without_data d q H0) as H.
  unfold create_pokemon_record. cbn [connect_db].
  destruct (pokeapi (lower q)) as [|code|n ts abs]; [| |exact I];
    destruct (create_body faults lastrowid dice pokeapi q (Session d 0))
      as [r s]; cbn [fst] in H; subst r; [reflexivity|].
  destruct (code =? 404); reflexivity.
Qed.

Lemma create_storage_error d q e :
  faults 0 = Some e ->
  sent (create_pokemon_record faults lastrowid dice pokeapi (File d) q)
  = Raises 500 (CreationDatabaseError e).
Proof.
  intros H0. unfold create_pokemon_record. cbn [connect_db].
  assert (E : fst (create_body faults lastrowid dice pokeapi q (Session d 0))
              = inl (SqliteError e)).
  { unfold create_body, and_then, statement. cbn [issued store].
    now rewrite H0. }
  destruct (create_body faults lastrowid dice pokeapi q (Session d 0)) as [r s].
  cbn [fst] in E. now subst r.
Qed.

End Failing.

(** ** A repeated creation finds what the first one left *)

Section Repeated.

Variable lastrowid : list Z -> Z.
Variable dice : nat.
Hypothesis lastrowid_fresh : fresh lastrowid.

Lemma grown_refl d : grown d d.
Proof.
  split; [intros t|]; exists []; now rewrite app_nil_r.
Qed.

Lemma grown_trans d1 d2 d3 : grown d1 d2 -> grown d2 d3 -> grown d1 d3.
Proof.
  intros [H1 [e1 E1]] [H2 [e2 E2]]. split.
  - intros t. destruct (H1 t) as [a Ea]. destruct (H2 t) as [b Eb].
    exists (a ++ b). now rewrite Eb, Ea, app_assoc.
  - exists (e1 ++ e2). now rewrite E2, E1, app_assoc.
Qed.

Lemma grown_insert_name t n d : grown d (snd (insert_name lastrowid t n d)).
Proof.
  split.
  - intros t'. rewrite select_insert_name.
    destruct (entity_eqb t' t); [eexists; reflexivity|].
    exists []. now rewrite app_nil_r.
  - rewrite tpa_insert_name. exists []. now rewrite app_nil_r.
Qed.

Lemma grown_update_types t1 t2 i d : grown d (update_types t1 t2 i d).
Proof.
  split.
  - intros t. rewrite select_update_types. exists []. now rewrite app_nil_r.
  - exists []. now rewrite app_nil_r.
Qed.

Lemma grown_insert_pokemon n t1 t2 d :
  grown d (snd (insert_pokemon lastrowid n t1 t2 d)).
Proof.
  split.
  - intros t. rewrite select_insert_pokemon.
    destruct (entity_eqb t pokemon); [eexists; reflexivity|].
    exists []. now rewrite app_nil_r.
  - exists []. now rewrite app_nil_r.
Qed.

Lemma grown_insert_tpa a b c d : grown d (snd (insert_tpa lastrowid a b c d)).
Proof.
  split.
  - intros t. rewrite select_insert_tpa. exists []. now rewrite app_nil_r.
  - cbn. eexists. reflexivity.
Qed.

Lemma first_of_app {X} (p : X -> bool) l extra x rest :
  filter p l = x :: rest ->
  exists rest', filter p (l ++ extra) = x :: rest'.
Proof. intros E. rewrite filter_app, E. eexists. reflexivity. Qed.

Lemma select_id_grown t q d d' i :
  grown d d' -> select_id_by_name t q d = Some i ->
  select_id_by_name t q d' = Some i.
Proof.
  intros [H _]. destruct (H t) as [extra E]. unfold select_id_by_name.
  rewrite E.
  destruct (filter (fun r => lower_is (snd r) q) (select_id_name t d))
    as [|r l] eqn:F; [discriminate|].
  intros Hi. destruct (first_of_app _ _ extra F) as [rest' ->]. exact Hi.
Qed.

Lemma select_tpa_grown a b c d d' i :
  grown d d' -> select_tpa_id a b c d = Some i ->
  select_tpa_id a b c d' = Some i.
Proof.
  intros [_ [extra E]]. unfold select_tpa_id. rewrite E.
  destruct (filter _ (trainer_pokemon_abilities d)) as [|r l] eqn:F;
    [discriminate|].
  intros Hi. destruct (first_of_app _ _ extra F) as [rest' ->]. exact Hi.
Qed.

Lemma lower_is_refl n : lower_is (Some n) n = true.
Proof. apply str_eqb_refl. Qed.

Lemma select_id_inserted t n d :
  select_id_by_name t n d = None ->
  select_id_by_name t n (snd (insert_name lastrowid t n d))
  = Some (fst (insert_name lastrowid t n d)).
Proof.
  unfold select_id_by_name. rewrite select_insert_name, entity_eqb_refl.
  rewrite filter_app.
  destruct (filter _ (select_id_name t d)) as [|r l]; [|discriminate].
  intros _. cbn [filter snd app]. now rewrite lower_is_refl.
Qed.

Lemma get_or_create_found t n d :
  grown d (snd (get_or_create_d lastrowid t n d)) /\
  select_id_by_name t n (snd (get_or_create_d lastrowid t n d))
  = Some (fst (get_or_create_d lastrowid t n d)).
Proof.
  unfold get_or_create_d.
  destruct (select_id_by_name t n d) as [i|] eqn:E.
  - split; [apply grown_refl|exact E].
  - split; [apply grown_insert_name|now apply select_id_inserted].
Qed.

Lemma get_or_create_again t n d i :
  select_id_by_name t n d = Some i -> get_or_create_d lastrowid t n d = (i, d).
Proof. unfold get_or_create_d. now intros ->. Qed.

Lemma collect_found {X} (f : X -> db -> Z * db) (R : X -> Z -> db -> Prop) l :
  (forall x i d d', grown d d' -> R x i d -> R x i d') ->
  (forall x d, grown d (snd (f x d)) /\ R x (fst (f x d)) (snd (f x d))) ->
  forall d,
    grown d (snd (collect_d f l d)) /\
    Forall2 (fun x i => R x i (snd (collect_d f l d))) l (fst (collect_d f l d)).
Proof.
  intros Hstable Hf. induction l as [|x l IH]; intros d.
  - split; [apply grown_refl|constructor].
  - cbn [collect_d]. destruct (Hf x d) as [Hl Hr].
    destruct (f x d) as [y d1]. cbn [fst snd] in *.
    destruct (IH d1) as [Hl' Hall].
    destruct (collect_d f l d1) as [ys d2]. cbn [fst snd] in *.
    split; [exact (grown_trans Hl Hl')|].
    constructor; [|exact Hall]. eapply Hstable; eassumption.
Qed.

Lemma collect_again {X} (f : X -> db -> Z * db) l ys d :
  Forall2 (fun x y => f x d = (y, d)) l ys -> collect_d f l d = (ys, d).
Proof.
  induction 1 as [|x y l ys E _ IH]; [reflexivity|].
  cbn [collect_d]. now rewrite E, IH.
Qed.

(** *** The types *)

Lemma type_ids_found l d :
  grown d (snd (type_ids_d lastrowid l d)) /\
  forall d', grown (snd (type_ids_d lastrowid l d)) d' ->
    type_ids_d lastrowid l d' = (fst (type_ids_d lastrowid l d), d').
Proof.
  destruct l as [|first rest]; [split; [apply grown_refl|reflexivity]|].
  cbn [type_ids_d].
  destruct (get_or_create_found types first d) as [G1 F1].
  destruct (get_or_create_d lastrowid types first d) as [i d1].
  cbn [fst snd] in *. destruct rest as [|second rest'].
  - cbn [fst snd]. split; [exact G1|]. intros d' G.
    now rewrite (@get_or_create_again _ _ _ _ (select_id_grown _ _ G F1)).
  - destruct (get_or_create_found types second d1) as [G2 F2].
    destruct (get_or_create_d lastrowid types second d1) as [j d2].
    cbn [fst snd] in *. split; [exact (grown_trans G1 G2)|]. intros d' G.
    rewrite (@get_or_create_again _ _ _ _
               (select_id_grown _ _ (grown_trans G2 G) F1)).
    now rewrite (@get_or_create_again _ _ _ _ (select_id_grown _ _ G F2)).
Qed.

(** *** The pokemon row *)

Lemma update_types_again t1 t2 i d :
  types_set i t1 t2 d -> update_types t1 t2 i d = d.
Proof.
  intros H. unfold update_types. destruct d as [ps ts abs trs tpa].
  cbn [tbl_pokemon tbl_types tbl_abilities tbl_trainers
       trainer_pokemon_abilities] in *.
  f_equal. rewrite <- (map_id ps) at 2. apply map_ext_in. intros r Hr.
  destruct (Z.eqb_spec (p_id r) i) as [E|_]; [|reflexivity].
  destruct (H r Hr E) as [<- <-]. now destruct r.
Qed.

Lemma pokemon_record_found n t1 t2 d :
  grown d (snd (pokemon_record_d lastrowid n t1 t2 d)) /\
  select_id_by_name pokemon n (snd (pokemon_record_d lastrowid n t1 t2 d))
  = Some (fst (pokemon_record_d lastrowid n t1 t2 d)) /\
  types_set (fst (pokemon_record_d lastrowid n t1 t2 d)) t1 t2
            (snd (pokemon_record_d lastrowid n t1 t2 d)).
Proof.
  unfold pokemon_record_d.
  destruct (select_id_by_name pokemon n d) as [i|] eqn:E; cbn [fst snd].
  - split; [apply grown_update_types|split].
    + exact (select_id_grown _ _ (grown_update_types t1 t2 i d) E).
    + intros r Hr Hi. cbn in Hr. apply in_map_iff in Hr as (r0 & Er & _).
      destruct (Z.eqb_spec (p_id r0) i) as [E0|E0]; subst r; cbn in *;
        [now split|congruence].
  - split; [apply grown_insert_pokemon|split].
    + unfold select_id_by_name in *. rewrite select_insert_pokemon.
      cbn [entity_eqb]. rewrite filter_app.
      destruct (filter _ (select_id_name pokemon d)) as [|r l];
        [|discriminate].
      cbn [filter snd app]. now rewrite lower_is_refl.
    + intros r Hr Hi. cbn in Hr. apply in_app_or in Hr as [Hr|[<-|[]]].
      * exfalso. apply (lastrowid_fresh (ids pokemon d)).
        cbn [insert_pokemon fst] in Hi. rewrite <- Hi. unfold ids. cbn [select_id_name]. rewrite map_map.
        cbn [fst]. now apply in_map.
      * now split.
Qed.

(** *** The trainer *)

Lemma assign_trainer_found d :
  grown d (snd (assign_trainer_d lastrowid dice d)) /\
  select_random_trainer dice (snd (assign_trainer_d lastrowid dice d))
  = Some (fst (assign_trainer_d lastrowid dice d)) /\
  tbl_pokemon (snd (assign_trainer_d lastrowid dice d)) = tbl_pokemon d.
Proof.
  unfold assign_trainer_d.
  destruct (select_random_trainer dice d) as [i|] eqn:E; cbn [fst snd].
  - split; [apply grown_refl|now split].
  - split; [apply grown_insert_name|split; [|reflexivity]].
    apply select_random_none in E. unfold select_random_trainer.
    rewrite ids_insert_name, E. cbn [entity_eqb app length].
    rewrite Nat.mod_1_r. cbn [insert_name fst]. now rewrite E.
Qed.

(** *** The association rows *)

Lemma select_tpa_inserted a b c d :
  select_tpa_id a b c d = None ->
  select_tpa_id a b c (snd (insert_tpa lastrowid a b c d))
  = Some (fst (insert_tpa lastrowid a b c d)).
Proof.
  unfold select_tpa_id. cbn [insert_tpa snd fst trainer_pokemon_abilities].
  rewrite filter_app.
  destruct (filter _ (trainer_pokemon_abilities d)) as [|r l]; [|discriminate].
  intros _. cbn. now rewrite !Z.eqb_refl.
Qed.

Lemma link_found a b c d :
  grown d (snd (link_d lastrowid a b c d)) /\
  select_tpa_id a b c (snd (link_d lastrowid a b c d))
  = Some (fst (link_d lastrowid a b c d)).
Proof.
  unfold link_d. destruct (select_tpa_id a b c d) as [i|] eqn:E; cbn [fst snd].
  - split; [apply grown_refl|exact E].
  - split; [apply grown_insert_tpa|now apply select_tpa_inserted].
Qed.

Lemma link_again a b c d i :
  select_tpa_id a b c d = Some i -> link_d lastrowid a b c d = (i, d).
Proof. unfold link_d. now intros ->. Qed.

Lemma link_trainers a b c d :
  ids trainers (snd (link_d lastrowid a b c d)) = ids trainers d.
Proof.
  unfold link_d. destruct (select_tpa_id a b c d); [reflexivity|].
  unfold ids. now rewrite select_insert_tpa.
Qed.

Lemma links_trainers a b l : forall d,
  ids trainers (snd (collect_d (link_d lastrowid a b) l d)) = ids trainers d.
Proof.
  induction l as [|c l IH]; intros d; [reflexivity|].
  cbn [collect_d]. pose proof (link_trainers a b c d) as H.
  destruct (link_d lastrowid a b c d) as [y d1]. cbn [snd] in H.
  specialize (IH d1). destruct (collect_d (link_d lastrowid a b) l d1).
  cbn [snd] in *. congruence.
Qed.

Lemma types_set_same i t1 t2 d d' :
  tbl_pokemon d' = tbl_pokemon d -> types_set i t1 t2 d -> types_set i t1 t2 d'.
Proof. unfold types_set. now intros ->. Qed.

Lemma random_same d d' :
  ids trainers d' = ids trainers d ->
  select_random_trainer dice d' = select_random_trainer dice d.
Proof. unfold select_random_trainer. now intros ->. Qed.

(** A second creation on the dataset the first one left settles on the
    same ids and changes nothing. *)
Lemma create_again n ts abs d :
  create_d lastrowid dice n ts abs (snd (create_d lastrowid dice n ts abs d))
  = create_d lastrowid dice n ts abs d.
Proof.
  unfold create_d at 2 3. unfold settle.
  destruct (type_ids_found (map to_title_case ts) d) as [G1 T1].
  destruct (type_ids_d lastrowid (map to_title_case ts) d) as [tp d1].
  cbn [fst snd] in *.
  destruct (@collect_found _ (get_or_create_d lastrowid abilities)
              (fun ab a d => select_id_by_name abilities ab d = Some a)
              (map to_title_case abs)
              (fun x i d d' G H => @select_id_grown abilities x d d' i G H)
              (get_or_create_found abilities) d1) as [G2 A2].
  destruct (collect_d (get_or_create_d lastrowid abilities)
                      (map to_title_case abs) d1) as [al d2].
  cbn [fst snd] in *.
  destruct (pokemon_record_found (to_title_case n) (fst tp) (snd tp) d2)
    as (G3 & P3 & S3).
  destruct (pokemon_record_d lastrowid (to_title_case n) (fst tp) (snd tp) d2)
    as [p d3].
  cbn [fst snd] in *.
  destruct (assign_trainer_found d3) as (G4 & R4 & Same4).
  destruct (assign_trainer_d lastrowid dice d3) as [t d4].
  cbn [fst snd the_trainer the_pokemon ability_ids_local prepared] in *.
  destruct (@collect_found _ (link_d lastrowid t p)
              (fun a i d => select_tpa_id t p a d = Some i) al
              (fun x i d d' G H => @select_tpa_grown t p x d d' i G H)
              (link_found t p) d4) as [G5 L5].
  pose proof (links_pokemon lastrowid t p al d4) as Same5.
  pose proof (links_trainers t p al d4) as Tr5.
  destruct (collect_d (link_d lastrowid t p) al d4) as [ids d5] eqn:E5.
  cbn [fst snd] in *.
  assert (G35 : grown d3 d5) by exact (grown_trans G4 G5).
  assert (G25 : grown d2 d5) by exact (grown_trans G3 G35).
  assert (G15 : grown d1 d5) by exact (grown_trans G2 G25).
  unfold create_d, settle. rewrite (T1 d5 G15).
  assert (EA : collect_d (get_or_create_d lastrowid abilities)
                         (map to_title_case abs) d5 = (al, d5)).
  { apply collect_again. eapply Forall2_impl; [|exact A2].
    intros ab a H. apply get_or_create_again.
    exact (select_id_grown _ _ G25 H). }
  rewrite EA.
  assert (EP : pokemon_record_d lastrowid (to_title_case n) (fst tp) (snd tp) d5
               = (p, d5)).
  { unfold pokemon_record_d. rewrite (select_id_grown _ _ G35 P3).
    f_equal. apply update_types_again.
    apply (@types_set_same _ _ _ d3); [congruence|exact S3]. }
  rewrite EP.
  assert (ET : assign_trainer_d lastrowid dice d5 = (t, d5)).
  { unfold assign_trainer_d. now rewrite (random_same _ _ Tr5), R4. }
  rewrite ET. cbn [the_trainer the_pokemon ability_ids_local prepared].
  apply collect_again. eapply Forall2_impl; [|exact L5].
  intros a i H. now apply link_again.
Qed.

End Repeated.

(** ** The title case of ASCII text *)

Section AsciiTitle.

Lemma ascii_chars c :
  is_ascii space = true /\
  (is_ascii c = true ->
     is_ascii (to_upper c) = true /\ is_ascii (to_lower c) = true).
Proof.
  destruct c as [[] [] [] [] [] [] [] []]; vm_compute; intuition congruence.
Qed.

Lemma title_from_ascii s :
  ascii_only s -> forall start, ascii_only (title_from start s).
Proof.
  unfold ascii_only.
  induction s as [|c s IH]; intros Hs start; [reflexivity|].
  cbn [forallb] in Hs. apply andb_true_iff in Hs as [Hc Hs].
  destruct (ascii_chars c) as (Hsp & Hcase). destruct (Hcase Hc) as [Hu Hl].
  cbn [title_from]. destruct (is_sep c); cbn [forallb].
  - now rewrite Hsp, IH.
  - destruct start; [rewrite Hu|rewrite Hl]; now rewrite IH.
Qed.

End AsciiTitle.

(** ** A creation that returns met no error *)

Section Returning.

Variable faults : nat -> option sqlite_error.
Variable lastrowid : list Z -> Z.
Variable dice : nat.
Variable pokeapi : str -> reply.

Lemma returns_as_refl {A} (c : T A) : returns_as c c.
Proof. intros s a s' H. exact H. Qed.

Lemma returns_as_and_then {A B} (c c0 : T A) (k k0 : A -> T B) :
  returns_as c c0 -> (forall a, returns_as (k a) (k0 a)) ->
  returns_as (and_then c k) (and_then c0 k0).
Proof.
  intros Hc Hk s b s'. unfold and_then.
  destruct (c s) as [[x|a] s1] eqn:E; [discriminate|].
  rewrite (Hc _ _ _ E). apply Hk.
Qed.

Lemma returns_as_statement {A} (run : db -> A * db) :
  returns_as (statement faults run) (statement no_faults run).
Proof.
  intros s a s'. unfold statement, no_faults.
  destruct (faults (issued s)); [discriminate|trivial].
Qed.

Lemma returns_as_collect {X Y} (l : list X) (body body0 : X -> T Y) :
  (forall x, returns_as (body x) (body0 x)) ->
  returns_as (collect l body) (collect l body0).
Proof.
  intros Hb. induction l as [|x l IH]; [apply returns_as_refl|].
  cbn [collect]. apply returns_as_and_then; [apply Hb|intros y].
  apply returns_as_and_then; [exact IH|intros ys; apply returns_as_refl].
Qed.

Lemma returns_as_get_or_create t n :
  returns_as (get_or_create faults lastrowid t n)
             (get_or_create no_faults lastrowid t n).
Proof.
  apply returns_as_and_then; [apply returns_as_statement|].
  intros [i|]; [apply returns_as_refl|apply returns_as_statement].
Qed.

Lemma returns_as_create_body q :
  returns_as (create_body faults lastrowid dice pokeapi q)
             (create_body no_faults lastrowid dice pokeapi q).
Proof.
  unfold create_body.
  apply returns_as_and_then; [apply returns_as_statement|intros _].
  apply returns_as_and_then; [apply returns_as_refl|intros [[n ts] abs]].
  apply returns_as_and_then.
  { unfold type_ids. destruct (map to_title_case ts) as [|first rest];
      [apply returns_as_refl|].
    apply returns_as_and_then; [apply returns_as_get_or_create|intros i].
    destruct rest as [|second rest']; [apply returns_as_refl|].
    apply returns_as_and_then;
      [apply returns_as_get_or_create|intros j; apply returns_as_refl]. }
  intros tp. apply returns_as_and_then;
    [apply returns_as_collect; intros x; apply returns_as_get_or_create|].
  intros al. apply returns_as_and_then.
  { unfold pokemon_record.
    apply returns_as_and_then; [apply returns_as_statement|].
    intros [i|]; [|apply returns_as_statement].
    apply returns_as_and_then;
      [apply returns_as_statement|intros _; apply returns_as_refl]. }
  intros p. apply returns_as_and_then.
  { unfold assign_trainer.
    apply returns_as_and_then; [apply returns_as_statement|].
    intros [i|]; [apply returns_as_refl|apply returns_as_statement]. }
  intros t. apply returns_as_and_then.
  { unfold link. apply returns_as_collect. intros ab.
    apply returns_as_and_then; [apply returns_as_statement|].
    intros [i|]; [apply returns_as_refl|apply returns_as_statement]. }
  intros ids. apply returns_as_and_then;
    [apply returns_as_statement|intros _; apply returns_as_refl].
Qed.

(** A request either raises, and leaves the file, or does what it does on
    a storage that raises nothing. *)
Lemma create_outcome k q :
  (exists det,
     create_pokemon_record faults lastrowid dice pokeapi k q
     = Answer (Raises 500 det) k) \/
  create_pokemon_record faults lastrowid dice pokeapi k q
  = create_pokemon_record no_faults lastrowid dice pokeapi k q.
Proof.
  unfold create_pokemon_record. destruct (connect_db k) as [d|];
    [|left; eexists; reflexivity].
  destruct (create_body faults lastrowid dice pokeapi q (Session d 0))
    as [[x|ids] s] eqn:E.
  - left. destruct x; eexists; reflexivity.
  - right. now rewrite (@returns_as_create_body q _ _ _ E).
Qed.

(** A request that returns had the data of the pokemon. *)
Lemma create_returned d q tpa_ids k' :
  create_pokemon_record no_faults lastrowid dice pokeapi (File d) q
  = Answer (Returns tpa_ids) k' ->
  exists n ts abs, pokeapi (lower q) = PokeData n ts abs.
Proof.
  intros H. pose proof (@create_without_data no_faults lastrowid dice pokeapi
                          d q eq_refl) as Hw.
  destruct (pokeapi (lower q)) as [|code|n ts abs]; [| |now exists n, ts, abs];
    rewrite H in Hw; discriminate.
Qed.

End Returning.

(** ** What the listings show of a created record *)

Section Listed.

Lemma chain_In {X Y W} (R1 : X -> Y -> Prop) (R2 : Y -> W -> Prop) l1 l2 l3 x :
  Forall2 R1 l1 l2 -> Forall2 R2 l2 l3 -> In x l1 ->
  exists y z, R1 x y /\ R2 y z /\ In z l3.
Proof.
  intros H1. revert l3. induction H1 as [|a b l1 l2 Hab _ IH]; intros l3 H2 Hin;
    [destruct Hin|].
  inversion H2 as [|? c ? l3' Hbc H2']; subst.
  destruct Hin as [<-|Hin].
  - exists b, c. split; [exact Hab|split; [exact Hbc|now left]].
  - destruct (IH _ H2' Hin) as (y & z & Hy & Hz & Hl).
    exists y, z. split; [exact Hy|split; [exact Hz|now right]].
Qed.

Lemma Forall2_length_eq {X Y} (R : X -> Y -> Prop) l1 l2 :
  Forall2 R l1 l2 -> length l1 = length l2.
Proof. induction 1; cbn; congruence. Qed.

Lemma Forall2_through {X Y W V} (f : X -> Y) (R1 : Y -> W -> Prop)
      (R2 : W -> V -> Prop) l : forall l2 l3,
  Forall2 R1 (map f l) l2 -> Forall2 R2 l2 l3 ->
  Forall2 (fun x z => exists y, R1 (f x) y /\ R2 y z) l l3.
Proof.
  induction l as [|x l IH]; intros l2 l3 H1 H2.
  - inversion H1; subst. inversion H2; subst. constructor.
  - inversion H1 as [|? b ? l2' Hb H1']; subst.
    inversion H2 as [|? c ? l3' Hc H2']; subst.
    constructor; [now exists b|]. now apply (IH l2').
Qed.

Variable d : db.
Variables p t : Z.
Variable N : str.
Variable pr : pokemon_row.
Hypothesis pr_row : In pr (tbl_pokemon d).
Hypothesis pr_id : p_id pr = p.
Hypothesis pr_name : sql_lower (p_name pr) = Some (lower N).

Lemma linked_ability_listed a ab i :
  named abilities a ab d -> linked i t p a d ->
  exists stored, In stored (select_abilities_by_pokemon N d) /\
                 sql_lower stored = Some (lower ab).
Proof.
  intros (stored & Ha & Hl) Hlink.
  apply named_row_select in Ha as (ar & Har & Hid & Hn); [|discriminate].
  exists stored. split; [|exact Hl].
  apply In_abilities_by_pokemon.
  exists ar, (TpaRow i (Some p) (Some t) (Some a)), pr.
  cbn. rewrite Hid, pr_id. tauto.
Qed.

Lemma linked_pokemon_listed a ab i :
  named abilities a ab d -> linked i t p a d ->
  In (p_name pr) (select_pokemon_by_ability ab d).
Proof.
  intros (stored & Ha & Hl) Hlink.
  apply named_row_select in Ha as (ar & Har & Hid & Hn); [|discriminate].
  apply In_pokemon_by_ability.
  exists pr, (TpaRow i (Some p) (Some t) (Some a)), ar.
  cbn. rewrite Hid, pr_id, Hn. tauto.
Qed.

Lemma linked_trainer_listed a i :
  In t (ids trainers d) -> linked i t p a d ->
  exists tn, In tn (select_trainers_by_pokemon N d).
Proof.
  intros Ht Hlink. unfold ids in Ht.
  apply in_map_iff in Ht as ([j tn] & Ej & Hj). cbn in Ej. subst j.
  apply named_row_select in Hj as (tr & Htr & Hid & Hn); [|discriminate].
  exists tn. apply In_trainers_by_pokemon.
  exists tr, (TpaRow i (Some p) (Some t) (Some a)), pr.
  cbn. rewrite Hid, pr_id. tauto.
Qed.

Lemma first_type_listed i first :
  type1_id pr = Some i -> named types i first d ->
  In (p_name pr) (select_pokemon_by_type first d).
Proof.
  intros E (stored & Ht & Hl).
  apply named_row_select in Ht as (tr & Htr & Hid & Hn); [|discriminate].
  apply In_pokemon_by_type. exists pr, tr.
  rewrite E, Hid, Hn. tauto.
Qed.

Lemma second_type_listed i j first second :
  type1_id pr = Some i -> named types i first d ->
  type2_id pr = Some j -> named types j second d ->
  In (p_name pr) (select_pokemon_by_type second d).
Proof.
  intros E (stored & Ht & Hl) E' (stored' & Ht' & Hl').
  apply named_row_select in Ht as (tr & Htr & Hid & Hn); [|discriminate].
  apply named_row_select in Ht' as (tr' & Htr' & Hid' & Hn'); [|discriminate].
  apply In_pokemon_by_type. exists pr, tr.
  rewrite E, Hid. repeat (split; [tauto|]).
  right. exists tr'. rewrite E', Hid', Hn'. tauto.
Qed.

End Listed.

(** ** The ways a creation ends *)

Section Ends.

Variable faults : nat -> option sqlite_error.
Variable lastrowid : list Z -> Z.
Variable dice : nat.
Variable pokeapi : str -> reply.

Lemma create_cases d q :
  (exists det,
     create_pokemon_record faults lastrowid dice pokeapi (File d) q
     = Answer (Raises 500 det) (File d)) \/
  (exists n ts abs,
     pokeapi (lower q) = PokeData n ts abs /\
     create_pokemon_record faults lastrowid dice pokeapi (File d) q
     = Answer (Returns (fst (create_d lastrowid dice n ts abs d)))
              (File (snd (create_d lastrowid dice n ts abs d)))).
Proof.
  destruct (create_outcome faults lastrowid dice pokeapi (File d) q)
    as [H|H]; [now left|].
  rewrite H.
  pose proof (@create_without_data no_faults lastrowid dice pokeapi d q
                eq_refl) as Hw.
  pose proof (@create_raises_500 no_faults lastrowid dice pokeapi (File d) q)
    as Hr.
  destruct (pokeapi (lower q)) as [|code|n ts abs] eqn:E.
  - left. destruct (Hr _ _ Hw) as [_ Hd].
    destruct (create_pokemon_record no_faults lastrowid dice pokeapi (File d) q)
      as [r k]. cbn [sent disk_after] in *. subst. eexists. reflexivity.
  - left. destruct (Hr _ _ Hw) as [_ Hd].
    destruct (create_pokemon_record no_faults lastrowid dice pokeapi (File d) q)
      as [r k]. cbn [sent disk_after] in *. subst. eexists. reflexivity.
  - right. exists n, ts, abs. split; [reflexivity|].
    now apply create_follows.
Qed.

Lemma create_returns d q tpa_ids k' :
  create_pokemon_record faults lastrowid dice pokeapi (File d) q
  = Answer (Returns tpa_ids) k' ->
  exists n ts abs,
    pokeapi (lower q) = PokeData n ts abs /\
    tpa_ids = fst (create_d lastrowid dice n ts abs d) /\
    k' = File (snd (create_d lastrowid dice n ts abs d)).
Proof.
  intros H. destruct (create_cases d q) as [(det & E)|(n & ts & abs & Hq & E)];
    rewrite E in H; [discriminate|].
  injection H as <- <-. now exists n, ts, abs.
Qed.

End Ends.

(** * The properties of the specification *)

(** C8.  [levenshtein_distance] is the classic edit distance with unit
    costs for insertion, deletion and substitution: it gives 3 for
    "kitten" and "sitting", 3 for the empty string and "abc", 0 for "same"
    and "same";
    it is symmetric, zero on equal strings, and the length of [s] from the
    empty string to [s]. *)
Theorem levenshtein_distance_is_classic :
  levenshtein_distance #"kitten" #"sitting" = 3 /\
  levenshtein_distance [] #"abc" = 3 /\
  levenshtein_distance #"same" #"same" = 0 /\
  (forall a b, levenshtein_distance a b = lev a b) /\
  (forall a b, levenshtein_distance a b = levenshtein_distance b a) /\
  (forall a, levenshtein_distance a a = 0) /\
  (forall s, levenshtein_distance [] s = length s).
Proof.
  split; [reflexivity|split; [reflexivity|split; [reflexivity|]]].
  split; [|split; [|split]].
  - apply levenshtein_distance_lev.
  - intros a b. rewrite !levenshtein_distance_lev. apply lev_sym.
  - intros a. rewrite levenshtein_distance_lev. apply lev_refl.
  - intros s. now rewrite levenshtein_distance_lev.
Qed.

(** C9, as stated, fails when it is read to the letter: the code does not
    stop at the first letter of a token, it also puts the rest of the
    token in lower case.  On "pIKACHU" the code gives "Pikachu", while
    capitalizing only the first letter of the token gives "PIKACHU". *)
Lemma to_title_case_touches_the_rest :
  to_title_case #"pIKACHU" = #"Pikachu" /\
  displayForm #"pIKACHU" = #"PIKACHU" /\
  to_title_case #"pIKACHU" <> displayForm #"pIKACHU".
Proof. split; [reflexivity|split; [reflexivity|discriminate]]. Qed.

(** C9, amended.  For every string of ASCII characters, [to_title_case]
    replaces hyphens with spaces, splits on spaces, puts the first letter
    of each token in upper case and the rest of the token in lower case,
    and joins the tokens with single spaces; the empty string is returned
    unchanged.  Character by character: a hyphen or a space becomes a
    space, a character that starts a token goes to upper case and any
    other to lower case, so the length is kept.  Token by token: when the
    string is made of tokens joined by hyphens or by spaces, the result is
    the tokens, each capitalized with its rest in lower case, joined by
    single spaces. *)
Theorem to_title_case_lowers_the_rest : forall s,
  ascii_only s ->
  to_title_case s = title_from true s /\
  length (to_title_case s) = length s /\
  (forall sep toks,
     is_sep sep = true -> toks <> [] ->
     Forall (fun tok => forall c, In c tok -> is_sep c = false) toks ->
     s = join [sep] toks ->
     to_title_case s = join [space] (map capitalize_lower toks)) /\
  to_title_case [] = [] /\
  to_title_case #"mr-mIME jr" = #"Mr Mime Jr".
Proof.
  intros s _. split; [|split; [|split; [|split]]].
  - apply to_title_case_title_from.
  - rewrite to_title_case_title_from. apply title_from_length.
  - intros sep toks Hsep Hne Hall ->. rewrite to_title_case_title_from.
    now apply title_from_join.
  - reflexivity.
  - reflexivity.
Qed.

Lemma to_title_case_lowers_the_rest_witness :
  ascii_only #"mr-mIME" /\
  to_title_case #"mr-mIME" = join [space] [#"Mr"; #"Mime"].
Proof.
  assert (H : ascii_only #"mr-mIME") by reflexivity.
  split; [exact H|].
  refine (proj1 (proj2 (proj2 (@to_title_case_lowers_the_rest #"mr-mIME" H)))
                hyphen [#"mr"; #"mIME"] _ _ _ _).
  - reflexivity.
  - discriminate.
  - repeat constructor; intros c Hc; cbn in Hc;
      repeat (destruct Hc as [<-|Hc]; [reflexivity|]); destruct Hc.
  - reflexivity.
Defined.




(** C10.  The junk test of step 2 holds of a name exactly when it is
    NULL, empty, made of whitespace only, or matched by the pattern, and
    the pattern matches the strings without a word character.  The
    underscore is a word character, so a name of underscores only is not
    junk; step 2 issues a deletion for junk rows only, and leaves such a
    row in a table whose ids are unique. *)
Theorem underscores_are_not_junk :
  (forall name, is_junk name = true <->
     name = None \/
     exists s, name = Some s /\
       (s = [] \/ forallb is_space s = true \/ junk_pattern_global s = true)) /\
  (forall s, junk_pattern_global s = forallb (fun c => negb (is_word c)) s) /\
  is_word "_"%char = true /\
  (forall k, is_junk (Some (underscores (S k))) = false) /\
  (forall m t w,
     runs (correct_names no_faults m t) w (fun _ w' =>
       deletes_only t (events w)
         (fun i => exists n, In (i, n) (rows t w) /\ is_junk n = true)
         (events w') /\
       forall i k, NoDup (ids t (data w)) ->
         In (i, Some (underscores (S k))) (rows t w) ->
         In i (ids t (data w')))).
Proof.
  split; [|split; [|split; [|split]]].
  - intros [s|]; [|split; [now left|reflexivity]]. split.
    + intros H. right. exists s. split; [reflexivity|].
      unfold is_junk in H. rewrite strip_falsy in H.
      destruct s as [|c s]; [now left|]. cbn [falsy orb] in H.
      apply orb_true_iff in H. tauto.
    + intros [H|(s' & E & H)]; [discriminate|]. injection E as <-.
      unfold is_junk. rewrite strip_falsy.
      destruct H as [-> | [-> | ->]]; [reflexivity| |];
        destruct (falsy s); cbn; try reflexivity; apply orb_true_r.
  - apply junk_pattern_nonword.
  - reflexivity.
  - apply underscores_not_junk.
  - intros m t w. unfold runs, wp. rewrite correct_names_calm. split.
    + apply correct_names_deletes_junk.
    + intros i k Hnd Hin.
      eapply correct_names_spares;
        [exact Hnd|exact Hin|apply underscores_not_junk].
Qed.

(** C3.  The validity set of a table is the set of the title-cased forms of
    its vocabulary, fetched or static.  After a successful run every name
    of every entity table is in the validity set of its table.  Step 3
    deletes every row whose name is not in the set.  Before each deletion
    the cascade sets to NULL every key onto the row, in every column that
    references the table: when the cascade returns no such column holds
    the id, and after step 3 the keys onto the deleted rows are NULL and
    the other keys are as they were. *)
Theorem surviving_names_are_valid : forall net conn,
  (forall t, original_valid_set (metas_of net t)
             = map to_title_case (vocabulary net t)) /\
  (forall w, runs (fetch_references net) w (fun metas _ => metas = metas_of net)) /\
  In (Exec Commit) (record (clean_database no_faults net conn)) /\
  (forall t, names_valid (metas_of net t) t (cleaned net conn)) /\
  (forall t i n, In (i, n) (select_id_name t (cleaned net conn)) ->
     exists x, n = Some x /\ In x (map to_title_case (vocabulary net t))) /\
  (forall i t w,
     runs (nullify_fks_referencing_id no_faults i t) w (fun _ w' =>
       (forall t', rows t' w' = rows t' w) /\
       (forall c, In (c, t) fk_relationships ->
          ~ In (Some i) (fk_values c (data w')) /\
          forall v, v <> i ->
            (In (Some v) (fk_values c (data w')) <->
             In (Some v) (fk_values c (data w)))))) /\
  (forall m t w,
     runs (remove_unvalidated no_faults m t) w (fun _ w' =>
       names_valid m t (data w') /\
       (forall i n, In (i, n) (rows t w) ->
          in_valid_set n (original_valid_set m) = false ->
          ~ In i (ids t (data w')) /\
          In (Exec (DeleteWhereId t i)) (events w') /\
          forall c, In (c, t) fk_relationships ->
            ~ In (Some i) (fk_values c (data w'))) /\
       (forall c, In (c, t) fk_relationships ->
          fk_values c (data w')
          = map (cut (map fst (unvalidated_rows m (rows t w))))
                (fk_values c (data w))) /\
       (guarded (events w) -> guarded (events w')))).
Proof.
  intros net conn. split; [|split; [|split; [|split; [|split; [|split]]]]].
  - intros t. now destruct t.
  - intros w. unfold runs, wp. now rewrite fetch_references_calm.
  - apply calm_committed.
  - intros t. apply calm_valid.
  - intros t i n Hin. pose proof (calm_valid net conn t i n Hin) as Hv.
    destruct n as [x|]; [|discriminate]. exists x. split; [reflexivity|].
    cbn [in_valid_set] in Hv. apply mem_In in Hv.
    replace (map to_title_case (vocabulary net t))
      with (original_valid_set (metas_of net t)) by now destruct t.
    exact Hv.
  - intros i t w. unfold runs, wp. rewrite nullify_calm. split.
    + intros t'. apply rows_nullify.
    + intros c Hc. rewrite fk_nullify_In by exact Hc. split.
      * apply set_null_gone.
      * intros v Hv. split.
        -- intros H. now apply set_null_In in H.
        -- intros H. apply in_map_iff. exists (Some v). split; [|exact H].
           cbn [set_null]. destruct (Z.eqb_spec v i); [contradiction|reflexivity].
  - intros m t w. unfold runs, wp. rewrite remove_unvalidated_calm.
    split; [|split; [|split]].
    + apply remove_unvalidated_valid.
    + intros i n Hin Hv.
      destruct (remove_unvalidated_deletes m t w i n Hin Hv) as [H1 H2].
      split; [exact H1|split; [exact H2|]].
      intros c Hc. rewrite fk_remove_unvalidated by exact Hc.
      apply cut_gone. now apply unvalidated_In with (n := n).
    + intros c Hc. now apply fk_remove_unvalidated.
    + apply guarded_remove_unvalidated.
Qed.

Lemma surviving_names_are_valid_witness :
  names_valid (metas_of sample_net pokemon) pokemon (cleaned sample_net sample_db).
Proof.
  exact (proj1 (proj2 (proj2 (proj2
           (surviving_names_are_valid sample_net sample_db)))) pokemon).
Defined.

(** C2.  After a successful run on a dataset with unique ids no entity
    table has two rows whose names are equal up to case: [LOWER] takes two
    names to one key exactly when they are the same letter by letter up
    to case.  Of the rows of a table that share a name up to case step 4
    keeps the one with the least id: the canonical id of a row is the id
    of a row of its group, it is at most every id of the group, and its
    row stays.  Step 4 rewrites every key that references the table to
    the canonical id of the row it named, and leaves a key that names no
    row alone; every deletion comes after the remapping over all the
    columns that reference the table. *)
Theorem duplicates_merge_into_least_id : forall net conn,
  ids_unique conn ->
  In (Exec Commit) (record (clean_database no_faults net conn)) /\
  (forall t, no_duplicates t (cleaned net conn)) /\
  (forall t r r',
     In r (select_id_name t (cleaned net conn)) ->
     In r' (select_id_name t (cleaned net conn)) ->
     same_name (snd r) (snd r') -> r = r') /\
  (forall n n', sql_lower n = sql_lower n' <-> same_name n n') /\
  guarded (record (clean_database no_faults net conn)) /\
  (forall t w, NoDup (ids t (data w)) ->
     runs (remove_duplicates no_faults t) w (fun _ w' =>
       rows t w'
       = filter (fun r => Z.eqb (fst r) (canonical_of (rows t w) (fst r)))
                (rows t w) /\
       (forall i n, In (i, n) (rows t w) ->
          (exists n', In (canonical_of (rows t w) i, n') (rows t w) /\
                      In (canonical_of (rows t w) i, n') (rows t w') /\
                      same_name n n') /\
          (forall j n', In (j, n') (rows t w) -> same_name n n' ->
             (canonical_of (rows t w) i <= j)%Z)) /\
       (forall i, ~ In i (ids t (data w)) -> canonical_of (rows t w) i = i) /\
       (forall c, In (c, t) fk_relationships ->
          fk_values c (data w')
          = map (option_map (canonical_of (rows t w))) (fk_values c (data w))) /\
       (guarded (events w) -> guarded (events w')))).
Proof.
  intros net conn Hu. split; [|split; [|split; [|split; [|split]]]].
  - apply calm_committed.
  - intros t. now apply calm_no_duplicates.
  - intros t r r' Hr Hr' Hs.
    apply (@no_duplicates_rows t (cleaned net conn) r r'); trivial.
    now apply calm_no_duplicates.
  - apply sql_lower_same.
  - apply calm_guarded.
  - intros t w Hnd. unfold runs, wp. rewrite remove_duplicates_calm.
    destruct (remove_duplicates_canonical t w Hnd) as [Hrows Hfk].
    split; [exact Hrows|split; [|split; [|split; [exact Hfk|]]]].
    + intros i n Hin. now apply canonical_is_least.
    + intros i Hout. now apply canonical_of_stranger.
    + apply guarded_remove_duplicates.
Qed.

Lemma duplicates_merge_into_least_id_witness :
  ids_unique sample_db /\ no_duplicates trainers (cleaned sample_net sample_db).
Proof.
  assert (H : ids_unique sample_db)
    by (apply ids_uniqueb_sound; vm_compute; reflexivity).
  split; [exact H|].
  exact (proj1 (proj2 (@duplicates_merge_into_least_id sample_net sample_db H))
               trainers).
Defined.

(** C1, as stated, fails: a key that names no row before the run names
    none after it. *)
Lemma dangling_key_survives :
  ids_unique dangling_db /\
  In (Exec Commit) (record (clean_database no_faults served_net dangling_db)) /\
  ~ ref_ok (cleaned served_net dangling_db).
Proof.
  split; [apply ids_uniqueb_sound; reflexivity|split; [apply calm_committed|]].
  intros H.
  assert (Hin : In 99%Z (ids types (cleaned served_net dangling_db))).
  { apply (H pokemon_type1_id types 99%Z); [now left|]. vm_compute. now left. }
  vm_compute in Hin. exact Hin.
Qed.

(** C1, amended.  When the ids of the dataset are unique and every key
    that is not NULL references an existing row, the same holds after a
    successful run; and in the run every deletion of a row, junk, invalid
    or duplicate, comes after the nullification or the remapping over
    every column that [fk_relationships] lists for the table. *)
Theorem referential_integrity_is_kept : forall net conn,
  ids_unique conn -> ref_ok conn ->
  In (Exec Commit) (record (clean_database no_faults net conn)) /\
  ids_unique (cleaned net conn) /\
  ref_ok (cleaned net conn) /\
  guarded (record (clean_database no_faults net conn)).
Proof.
  intros net conn Hu Hok. split; [|split; [|split]].
  - apply calm_committed.
  - now apply calm_ids_unique.
  - now apply calm_ref_ok.
  - apply calm_guarded.
Qed.

Lemma referential_integrity_is_kept_witness :
  ids_unique sample_db /\ ref_ok sample_db /\
  ref_ok (cleaned sample_net sample_db).
Proof.
  assert (Hu : ids_unique sample_db)
    by (apply ids_uniqueb_sound; vm_compute; reflexivity).
  assert (Hok : ref_ok sample_db)
    by (apply ref_okb_sound; vm_compute; reflexivity).
  split; [exact Hu|split; [exact Hok|]].
  exact (proj1 (proj2 (proj2
           (@referential_integrity_is_kept sample_net sample_db Hu Hok)))).
Defined.

(** C6.  When the walk over the listing of a category fails, the fetch
    returns no name and prints a warning, so the reference map and the
    validity set of the category are empty; the run goes on to its
    commit.  Step 2 then proposes for every name its own title case,
    without confidence, and after step 3 the table holds no row: with an
    empty validity set no name is recognized. *)
Theorem failed_fetch_empties_the_table : forall net conn e,
  aborts (net e) ->
  (forall w, runs (_fetch_all_pokeapi_resources net e) w (fun names w' =>
     names = [] /\ w' = emit (FetchWarning e) w)) /\
  valid_map (metas_of net (table_of e)) = [] /\
  original_valid_set (metas_of net (table_of e)) = [] /\
  In (Printed (FetchWarning e)) (record (clean_database no_faults net conn)) /\
  In (Exec Commit) (record (clean_database no_faults net conn)) /\
  (forall name,
     propose (valid_map (metas_of net (table_of e)))
             (threshold (metas_of net (table_of e))) name
     = (to_title_case name, false)) /\
  (forall w, runs (remove_unvalidated no_faults (metas_of net (table_of e))
                                      (table_of e)) w
               (fun _ w' => rows (table_of e) w' = [])) /\
  select_id_name (table_of e) (cleaned net conn) = [].
Proof.
  intros net conn e Hfail.
  destruct (aborts_meta net e Hfail) as [Hmap Hset].
  split; [|split; [|split; [|split; [|split; [|split; [|split]]]]]].
  - intros w. unfold runs, wp, _fetch_all_pokeapi_resources.
    rewrite (aborts_fetch _ [] Hfail). now split.
  - exact Hmap.
  - exact Hset.
  - rewrite calm_record. unfold try_block_w.
    apply (lasting_emit (@lasting_In _)), (lasting_after (@lasting_In _)).
    apply (lasting_step4 (@lasting_In _)), (lasting_step3 (@lasting_In _)).
    apply (lasting_step2 (@lasting_In _)). now apply aborts_warned.
  - apply calm_committed.
  - intros name. now rewrite Hmap.
  - intros w. unfold runs, wp. rewrite remove_unvalidated_calm.
    now apply remove_unvalidated_empties.
  - unfold cleaned. rewrite calm_dataset.
    apply (@kept_step4 (table_of e) (fun rs => rs = [])).
    + intros p rs ->. reflexivity.
    + now apply step3_empties.
Qed.

Lemma failed_fetch_empties_the_table_witness :
  aborts (sample_net ep_ability) /\
  select_id_name abilities (cleaned sample_net sample_db) = [].
Proof.
  split; [exact I|].
  exact (proj2 (proj2 (proj2 (proj2 (proj2 (proj2 (proj2
           (@failed_fetch_empties_the_table sample_net sample_db ep_ability I)))))))).
Defined.

(** C7, as stated, fails: when a vocabulary holds a junk name the first
    run can write its title case into a row, which the second run then
    deletes as junk. *)
Lemma second_run_deletes_junk_from_vocabulary :
  ids_unique short_db /\
  In (Exec Commit) (record (clean_database no_faults hyphen_net short_db)) /\
  cleaned hyphen_net (cleaned hyphen_net short_db) <> cleaned hyphen_net short_db.
Proof.
  split; [apply ids_uniqueb_sound; reflexivity|split; [apply calm_committed|]].
  intros H. apply (f_equal tbl_pokemon) in H. vm_compute in H. discriminate.
Qed.

(** C7, amended.  For every dataset with unique ids whose names are ASCII
    text and every network whose vocabularies are ASCII text and hold no
    junk name, a second run on the result of a successful first run, with
    the same vocabularies, leaves the dataset as it is: it issues no
    update, no deletion and no rewriting of keys, only reads. *)
Theorem second_run_changes_nothing : forall net conn,
  ids_unique conn -> clean_vocabulary net ->
  ascii_names conn -> ascii_vocabulary net ->
  In (Exec Commit) (record (clean_database no_faults net conn)) /\
  cleaned net (cleaned net conn) = cleaned net conn /\
  quiet (record (clean_database no_faults net (cleaned net conn))).
Proof.
  intros net conn Hu Hclean _ _. split; [apply calm_committed|].
  assert (Hs : forall t, names_settled (metas_of net t) t (cleaned net conn)).
  { intros t. apply settled_of_proposed; [exact Hclean| |].
    - now apply calm_proposed.
    - apply calm_valid. }
  assert (Hd : forall t, no_duplicates t (cleaned net conn))
    by (intros t; now apply calm_no_duplicates).
  destruct (@still_try_block net (cleaned net conn) Hs Hd
              (World (cleaned net conn) [])) as [Hdata Hquiet].
  { split; [reflexivity|intros ev []]. }
  split.
  - unfold cleaned at 1. now rewrite clean_database_calm.
  - now rewrite calm_record.
Qed.

Lemma second_run_changes_nothing_witness :
  ids_unique sample_db /\ clean_vocabulary sample_net /\
  ascii_names sample_db /\ ascii_vocabulary sample_net /\
  cleaned sample_net (cleaned sample_net sample_db) = cleaned sample_net sample_db.
Proof.
  assert (Hu : ids_unique sample_db)
    by (apply ids_uniqueb_sound; vm_compute; reflexivity).
  assert (Hc : clean_vocabulary sample_net)
    by (apply clean_vocabularyb_sound; vm_compute; reflexivity).
  assert (Hn : ascii_names sample_db)
    by (apply ascii_namesb_sound; vm_compute; reflexivity).
  assert (Hv : ascii_vocabulary sample_net)
    by (apply ascii_vocabularyb_sound; vm_compute; reflexivity).
  split; [exact Hu|split; [exact Hc|split; [exact Hn|split; [exact Hv|]]]].
  exact (proj1 (proj2 (@second_run_changes_nothing sample_net sample_db
                         Hu Hc Hn Hv))).
Defined.

(** C4, as stated, fails: the error is not propagated.  On a storage that
    fails on the first statement the run rolls back and [clean_database]
    returns with no exception for the caller. *)
Lemma storage_error_is_not_propagated :
  fatal (record (clean_database failing_storage sample_net sample_db)) /\
  dataset (clean_database failing_storage sample_net sample_db) = sample_db /\
  propagated (clean_database failing_storage sample_net sample_db) = None.
Proof.
  split; [|split; reflexivity].
  exists PragmaForeignKeys, DatabaseError. split; [now left|reflexivity].
Qed.

(** C4, amended.  [clean_database] never propagates a storage error.  A
    run ends in one of two ways.  Either it commits: then no error was
    raised but missing-column and missing-table errors of the cascade
    statements, which are swallowed, and the commit is the last statement,
    after steps 2 to 4 of every table.  Or a storage error that no handler
    swallows was raised before the commit: then the error is printed, the
    transaction is rolled back and the dataset is the one the run
    started from. *)
Theorem storage_error_rolls_back : forall faults net conn,
  propagated (clean_database faults net conn) = None /\
  ((exists pre,
      record (clean_database faults net conn)
      = pre ++ [Exec Commit; Printed Finished] /\
      going pre /\
      forall t, In (Exec (SelectIdName t)) pre /\
                In (Exec (SelectDuplicates t)) pre)
   \/
   (exists pre e,
      record (clean_database faults net conn)
      = pre ++ [Printed (ErrorOccurred e); Rollback] /\
      broken pre /\
      dataset (clean_database faults net conn) = conn)) /\
  (fatal (record (clean_database faults net conn)) ->
   dataset (clean_database faults net conn) = conn /\
   In Rollback (record (clean_database faults net conn)) /\
   ~ In (Exec Commit) (record (clean_database faults net conn))).
Proof.
  intros faults net conn. pose proof (try_block_outcome faults net conn) as H.
  unfold wp in H. unfold clean_database.
  destruct (try_block faults net (World conn [])) as [[[]|e] w'];
    cbn [propagated dataset record].
  - destruct H as (pre & Hev & Hg & Hall). split; [reflexivity|split].
    + left. now exists pre.
    + intros Hf. exfalso. rewrite Hev in Hf. apply fatal_app in Hf as [Hf|Hf].
      * now apply (proj1 Hg).
      * destruct Hf as (s & e & [E|[E|[]]] & _); discriminate.
  - split; [reflexivity|split].
    + right. now exists (events w'), e.
    + intros _. split; [reflexivity|split].
      * apply in_or_app. right. right. now left.
      * intros Hin. apply in_app_or in Hin as [Hin|[E|[E|[]]]];
          [now apply (proj1 (proj2 H))|discriminate|discriminate].
Qed.

(** * Further properties of the code *)

(** ** The helpers of [clean_database] *)

(** X1.  [levenshtein_distance] is a metric on strings: it is zero for
    equal strings only, and the distance from [a] to [c] is at most the
    distance from [a] to [b] plus the distance from [b] to [c]. *)
Theorem levenshtein_distance_is_a_metric : forall a b c,
  (levenshtein_distance a b = 0 <-> a = b) /\
  levenshtein_distance a c
  <= levenshtein_distance a b + levenshtein_distance b c.
Proof.
  intros a b c. rewrite !levenshtein_distance_lev. split; [split|].
  - apply lev_zero.
  - intros ->. apply lev_refl.
  - apply lev_triangle.
Qed.

(** X2.  The distance between two strings is at least the difference of
    their lengths and at most the length of the longer one. *)
Theorem levenshtein_distance_bounds : forall a b,
  length a - length b <= levenshtein_distance a b /\
  length b - length a <= levenshtein_distance a b /\
  levenshtein_distance a b <= Nat.max (length a) (length b).
Proof.
  intros a b. rewrite levenshtein_distance_lev.
  pose proof (lev_length_le a b) as H1.
  pose proof (lev_length_le b a) as H2. rewrite (lev_sym b a) in H2.
  pose proof (lev_upper a b) as H3. lia.
Qed.

(** X3.  On ASCII text [to_title_case] is idempotent, its result is
    ASCII text that holds no hyphen, and a name is junk exactly when its
    title case is. *)
Theorem to_title_case_is_idempotent : forall s,
  ascii_only s ->
  to_title_case (to_title_case s) = to_title_case s /\
  ascii_only (to_title_case s) /\
  ~ In hyphen (to_title_case s) /\
  is_junk (Some (to_title_case s)) = is_junk (Some s).
Proof.
  intros s Hs. split; [|split; [|split]].
  - rewrite !to_title_case_title_from. apply title_from_idem.
  - rewrite to_title_case_title_from. now apply title_from_ascii.
  - rewrite to_title_case_title_from. apply title_from_no_hyphen.
  - apply is_junk_to_title_case.
Qed.

Lemma to_title_case_is_idempotent_witness :
  ascii_only #"mr-mIME" /\
  to_title_case (to_title_case #"mr-mIME") = to_title_case #"mr-mIME".
Proof.
  assert (H : ascii_only #"mr-mIME") by reflexivity.
  split; [exact H|].
  exact (proj1 (@to_title_case_is_idempotent #"mr-mIME" H)).
Defined.

(** X4.  [normalize_string] gives lower-case letters and digits only and
    is idempotent; on ASCII text it does not see case or title casing: two
    names that are equal up to case have the same key, and a name has the
    key of its title case. *)
Theorem normalize_string_is_blind_to_case : forall s s',
  ascii_only s -> ascii_only s' ->
  Forall (fun c => is_lower c || is_digit c = true) (normalize_string s) /\
  normalize_string (normalize_string s) = normalize_string s /\
  normalize_string (to_title_case s) = normalize_string s /\
  (caseless_eq s s' -> normalize_string s = normalize_string s').
Proof.
  intros s s' _ _. split; [|split; [|split]].
  - rewrite normalize_string_eq. apply normalize_chars.
  - rewrite !normalize_string_eq. apply lower_filter_idem.
  - apply normalize_to_title_case.
  - intros H. apply normalize_same_case. now apply lower_caseless.
Qed.

Lemma normalize_string_is_blind_to_case_witness :
  ascii_only #"Mr-Mime" /\ ascii_only #"mr-MIME" /\
  normalize_string (to_title_case #"Mr-Mime") = normalize_string #"Mr-Mime".
Proof.
  assert (H : ascii_only #"Mr-Mime") by reflexivity.
  assert (H' : ascii_only #"mr-MIME") by reflexivity.
  split; [exact H|split; [exact H'|]].
  exact (proj1 (proj2 (proj2
           (@normalize_string_is_blind_to_case #"Mr-Mime" #"mr-MIME" H H')))).
Defined.

(** X5.  Whatever the threshold, for a vocabulary and a name of ASCII
    text the key of the name step 2 proposes is within the threshold of
    the key of the stored name. *)
Theorem correction_stays_within_threshold : forall names th n,
  Forall ascii_only names -> ascii_only n ->
  levenshtein_distance
    (normalize_string n)
    (normalize_string (proposed_name (build_valid_map names) th n)) <= th.
Proof. intros names th n _ _. apply proposed_within. Qed.

Lemma correction_stays_within_threshold_witness :
  Forall ascii_only [#"pikachu"; #"raichu"] /\ ascii_only #"Pikuchu" /\
  levenshtein_distance
    (normalize_string #"Pikuchu")
    (normalize_string
       (proposed_name (build_valid_map [#"pikachu"; #"raichu"]) 2 #"Pikuchu"))
  <= 2.
Proof.
  assert (H : Forall ascii_only [#"pikachu"; #"raichu"])
    by (repeat constructor).
  assert (H' : ascii_only #"Pikuchu") by reflexivity.
  split; [exact H|split; [exact H'|]].
  exact (@correction_stays_within_threshold [#"pikachu"; #"raichu"] 2
           #"Pikuchu" H H').
Defined.

(** X6.  When the key of a name differs in length by more than the
    threshold from every key of the reference map, the matcher proposes
    the title case of the name itself, without confidence. *)
Theorem distant_lengths_get_no_correction : forall vm th n,
  (forall k v, In (k, v) vm ->
     th + length k < length (normalize_string n) \/
     th + length (normalize_string n) < length k) ->
  propose vm th n = (to_title_case n, false).
Proof. intros vm th n. apply proposed_far. Qed.

Lemma distant_lengths_get_no_correction_witness :
  (forall k v, In (k, v) (build_valid_map [#"pikachu"; #"bulbasaur"]) ->
     2 + length k < length (normalize_string #"Mew") \/
     2 + length (normalize_string #"Mew") < length k) /\
  propose (build_valid_map [#"pikachu"; #"bulbasaur"]) 2 #"Mew"
  = (#"Mew", false).
Proof.
  assert (H : forall k v,
             In (k, v) (build_valid_map [#"pikachu"; #"bulbasaur"]) ->
             2 + length k < length (normalize_string #"Mew") \/
             2 + length (normalize_string #"Mew") < length k).
  { intros k v [E|[E|[]]]; injection E as <- _; right; vm_compute;
      repeat constructor. }
  split; [exact H|].
  exact (@distant_lengths_get_no_correction
           (build_valid_map [#"pikachu"; #"bulbasaur"]) 2 #"Mew" H).
Defined.

(** X7.  When every request of the walk over a listing succeeds,
    [_fetch_all_pokeapi_resources] prints nothing and returns the names
    of the pages, each once, in ascending order of code points. *)
Theorem fetched_names_are_sorted_and_complete : forall net e,
  ~ aborts (net e) ->
  forall w, runs (_fetch_all_pokeapi_resources net e) w (fun names w' =>
    w' = w /\ ascending names /\ NoDup names /\
    forall x, In x names <-> In x (page_items (net e))).
Proof.
  intros net e Hok w.
  destruct (@fetch_pages_served (net e) [] Hok) as (names & E & Hnd & Hin).
  unfold runs, wp, _fetch_all_pokeapi_resources. rewrite E. cbn.
  specialize (Hnd (NoDup_nil _)).
  split; [reflexivity|split; [now apply sorted_ascending|split]].
  - now apply sorted_NoDup.
  - intros x. rewrite sorted_In, Hin. cbn [In]. tauto.
Qed.

Lemma fetched_names_are_sorted_and_complete_witness :
  ~ aborts (sample_net ep_pokemon) /\
  runs (_fetch_all_pokeapi_resources sample_net ep_pokemon) (World sample_db [])
       (fun names _ => ascending names /\ NoDup names).
Proof.
  assert (H : ~ aborts (sample_net ep_pokemon)) by (intros F; exact F).
  split; [exact H|].
  eapply runs_conseq;
    [exact (@fetched_names_are_sorted_and_complete sample_net ep_pokemon H
              (World sample_db []))|].
  intros names w' (_ & Ha & Hn & _). now split.
Defined.

(** X8.  In a reference map the key of a vocabulary name leads to the
    title case of the last name of the vocabulary with that key, and a
    key is missing exactly when no name of the vocabulary has it. *)
Theorem valid_map_keeps_the_last_name : forall names,
  (forall pre n post, names = pre ++ n :: post ->
     (forall m, In m post -> normalize_string m <> normalize_string n) ->
     dict_get (normalize_string n) (build_valid_map names)
     = Some (to_title_case n)) /\
  (forall k, dict_get k (build_valid_map names) = None <->
             forall m, In m names -> normalize_string m <> k).
Proof.
  intros names. split.
  - intros pre n post -> H. now apply build_get_last.
  - intros k. apply build_get_none.
Qed.

(** ** The cleaning run *)

(** X9.  On a storage that raises nothing [nullify_fks_referencing_id]
    issues one [UPDATE] for each column that references the table, in the
    order of [fk_relationships]; it turns the keys equal to the id into
    NULL in those columns and leaves every other key, every other column
    and every row of the entity tables as they are; afterwards no column
    that references the table holds the id. *)
Theorem nullify_clears_every_reference : forall i t w,
  runs (nullify_fks_referencing_id no_faults i t) w (fun _ w' =>
    events w'
    = events w ++ map (fun c => Exec (UpdateSetNull c i)) (cascade_columns t) /\
    (forall c, fk_values c (data w')
               = if references c t
                 then map (set_null i) (fk_values c (data w))
                 else fk_values c (data w)) /\
    (forall c, In (c, t) fk_relationships ->
               ~ In (Some i) (fk_values c (data w'))) /\
    (forall t', select_id_name t' (data w') = select_id_name t' (data w))).
Proof.
  intros i t w. unfold runs, wp. rewrite nullify_calm.
  split; [apply events_nullify|split; [|split]].
  - intros c. apply fk_nullify_exact.
  - intros c Hc. rewrite fk_nullify_exact.
    apply references_In in Hc. rewrite Hc. apply set_null_gone.
  - intros t'. apply (rows_nullify t' i t w).
Qed.

(** X10.  Whatever the storage raises, a run of [clean_database] adds no
    row: the ids of every entity table after the run are among the ids
    before it, the association table keeps its rows, by id and in their
    order, and ids that were unique in a table stay unique. *)
Theorem no_run_adds_a_row : forall faults net conn,
  nothing_added conn (dataset (clean_database faults net conn)) /\
  (forall t, NoDup (ids t conn) ->
             NoDup (ids t (dataset (clean_database faults net conn)))).
Proof.
  intros faults net conn. split.
  - apply kept_by_run.
    + apply nothing_added_fk.
    + apply nothing_added_delete.
    + apply nothing_added_rename.
    + apply nothing_added_refl.
  - intros t H.
    apply (@kept_by_run faults net
             (rows_have t (fun rs => NoDup (map fst rs)))).
    + apply rows_stable_fk.
    + intros t0. apply rows_stable_delete, closed_unique_ids.
    + intros t0. apply unique_ids_rename.
    + exact H.
Qed.

(** X11.  On any storage, a run of [clean_database] whose record holds no
    raised error is the run on the storage that raises nothing: it has
    the same record, leaves the same dataset, and commits. *)
Theorem runs_without_error_are_calm : forall faults net conn,
  ~ raised (record (clean_database faults net conn)) ->
  clean_database faults net conn = clean_database no_faults net conn /\
  dataset (clean_database faults net conn) = cleaned net conn /\
  In (Exec Commit) (record (clean_database faults net conn)).
Proof.
  intros faults net conn H.
  rewrite (unraised_run_is_calm faults net conn H).
  split; [reflexivity|split; [reflexivity|apply calm_committed]].
Qed.

Lemma runs_without_error_are_calm_witness :
  ~ raised (record (clean_database late_fault sample_net sample_db)) /\
  dataset (clean_database late_fault sample_net sample_db)
  = cleaned sample_net sample_db.
Proof.
  assert (H : ~ raised (record (clean_database late_fault sample_net sample_db))).
  { intros (s & e & Hin). vm_compute in Hin.
    repeat (destruct Hin as [E|Hin]; [discriminate|]). exact Hin. }
  split; [exact H|].
  exact (proj1 (proj2 (@runs_without_error_are_calm late_fault sample_net
                         sample_db H))).
Defined.

(** ** The listing endpoints *)

(** X12.  Each of the four listing endpoints returns its list or raises an
    [HTTPException] with status 500, never another status.  Without a
    connection the 500 raised in the body is caught by [except Exception]
    and raised again, wrapped; a storage error on the [SELECT] is reported
    as a database error; otherwise the rows of the [SELECT] are
    returned. *)
Theorem listing_endpoints_answer_500_on_failure : forall faults k q,
  (forall r code det,
     In r [get_pokemon_by_ability faults k q; get_pokemon_by_type faults k q;
           get_trainers_by_pokemon faults k q;
           get_abilities_by_pokemon faults k q] ->
     r = Raises code det -> code = 500) /\
  (connect_db k = None ->
     get_pokemon_by_ability faults k q
     = Raises 500 (UnexpectedError (HTTPException 500 ConnectionFailed)) /\
     get_pokemon_by_type faults k q
     = Raises 500 (UnexpectedError (HTTPException 500 CouldNotConnect)) /\
     get_trainers_by_pokemon faults k q
     = Raises 500 (UnexpectedError (HTTPException 500 CouldNotConnect)) /\
     get_abilities_by_pokemon faults k q
     = Raises 500 (UnexpectedError (HTTPException 500 CouldNotConnect))) /\
  (forall d e, k = File d -> faults 0 = Some e ->
     get_pokemon_by_ability faults k q = Raises 500 (DatabaseErrorDetail e) /\
     get_pokemon_by_type faults k q = Raises 500 (DatabaseErrorDetail e) /\
     get_trainers_by_pokemon faults k q = Raises 500 (DatabaseErrorDetail e) /\
     get_abilities_by_pokemon faults k q = Raises 500 (DatabaseErrorDetail e)) /\
  (forall d, k = File d -> faults 0 = None ->
     get_pokemon_by_ability faults k q
     = Returns (select_pokemon_by_ability q d) /\
     get_pokemon_by_type faults k q = Returns (select_pokemon_by_type q d) /\
     get_trainers_by_pokemon faults k q
     = Returns (select_trainers_by_pokemon q d) /\
     get_abilities_by_pokemon faults k q
     = Returns (select_abilities_by_pokemon q d)).
Proof.
  intros faults k q.
  unfold get_pokemon_by_ability, get_pokemon_by_type, get_trainers_by_pokemon,
    get_abilities_by_pokemon, listing_handlers, listing_body.
  split; [|split; [|split]].
  - intros r code det Hin E. subst r.
    destruct (connect_db k) as [d|], (faults 0) as [e|]; cbn [In] in Hin;
      repeat (destruct Hin as [Hin|Hin];
              [try discriminate; now injection Hin as <- _|]);
      destruct Hin.
  - intros ->. repeat split.
  - intros d e -> H0. cbn [connect_db]. rewrite H0. repeat split.
  - intros d -> H0. cbn [connect_db]. rewrite H0. repeat split.
Qed.

(** X13.  A listing by ability or by pokemon name returns each name once,
    and exactly the names of the rows that the tables join to a row with
    the name asked, up to case; a name that no row has gives the empty
    list, not an error. *)
Theorem listings_are_joins_without_repeats : forall faults d q,
  faults 0 = None ->
  (exists l, get_pokemon_by_ability faults (File d) q = Returns l /\
     NoDup l /\
     (forall n, In n l <->
        exists p tpa a,
          In p (tbl_pokemon d) /\ In tpa (trainer_pokemon_abilities d) /\
          In a (tbl_abilities d) /\
          pokemon_id tpa = Some (p_id p) /\ ability_id tpa = Some (id a) /\
          sql_lower (name a) = Some (lower q) /\ p_name p = n) /\
     ((forall a, In a (tbl_abilities d) ->
         sql_lower (name a) <> Some (lower q)) -> l = [])) /\
  (exists l, get_trainers_by_pokemon faults (File d) q = Returns l /\
     NoDup l /\
     (forall n, In n l <->
        exists t tpa p,
          In t (tbl_trainers d) /\ In tpa (trainer_pokemon_abilities d) /\
          In p (tbl_pokemon d) /\
          trainer_id tpa = Some (id t) /\ pokemon_id tpa = Some (p_id p) /\
          sql_lower (p_name p) = Some (lower q) /\ name t = n) /\
     ((forall p, In p (tbl_pokemon d) ->
         sql_lower (p_name p) <> Some (lower q)) -> l = [])) /\
  (exists l, get_abilities_by_pokemon faults (File d) q = Returns l /\
     NoDup l /\
     (forall n, In n l <->
        exists a tpa p,
          In a (tbl_abilities d) /\ In tpa (trainer_pokemon_abilities d) /\
          In p (tbl_pokemon d) /\
          ability_id tpa = Some (id a) /\ pokemon_id tpa = Some (p_id p) /\
          sql_lower (p_name p) = Some (lower q) /\ name a = n) /\
     ((forall p, In p (tbl_pokemon d) ->
         sql_lower (p_name p) <> Some (lower q)) -> l = [])).
Proof.
  intros faults d q H0.
  assert (Hnil : forall (l : list (option str)),
             (forall n, ~ In n l) -> l = []).
  { intros [|n l] H; [reflexivity|]. exfalso. apply (H n). now left. }
  unfold get_pokemon_by_ability, get_trainers_by_pokemon,
    get_abilities_by_pokemon, listing_handlers, listing_body.
  cbn [connect_db]. rewrite H0. split; [|split].
  - eexists. split; [reflexivity|split; [apply distinct_NoDup|split]].
    + intros n. apply In_pokemon_by_ability.
    + intros Hno. apply Hnil. intros n Hin.
      apply In_pokemon_by_ability in Hin
        as (p & tpa & a & _ & _ & Ha & _ & _ & Hl & _).
      exact (Hno a Ha Hl).
  - eexists. split; [reflexivity|split; [apply distinct_NoDup|split]].
    + intros n. apply In_trainers_by_pokemon.
    + intros Hno. apply Hnil. intros n Hin.
      apply In_trainers_by_pokemon in Hin
        as (t & tpa & p & _ & _ & Hp & _ & _ & Hl & _).
      exact (Hno p Hp Hl).
  - eexists. split; [reflexivity|split; [apply distinct_NoDup|split]].
    + intros n. apply In_abilities_by_pokemon.
    + intros Hno. apply Hnil. intros n Hin.
      apply In_abilities_by_pokemon in Hin
        as (a & tpa & p & _ & _ & Hp & _ & _ & Hl & _).
      exact (Hno p Hp Hl).
Qed.

Lemma listings_are_joins_without_repeats_witness :
  no_faults 0 = None /\
  exists l, get_pokemon_by_ability no_faults (File served_db) #"STATIC"
            = Returns l /\ NoDup l.
Proof.
  split; [reflexivity|].
  destruct (proj1 (@listings_are_joins_without_repeats no_faults served_db
                     #"STATIC" eq_refl)) as (l & E & Hnd & _).
  exists l. now split.
Defined.

(** X14.  The listing by type returns each name once, and exactly the
    names of the pokemon whose first type is a row of [types] and whose
    first or second type has the name asked, up to case.  A pokemon whose
    first type is NULL or names no row is listed under no type, whatever
    its second type. *)
Theorem first_type_decides_the_type_listing : forall faults d q,
  faults 0 = None ->
  exists l, get_pokemon_by_type faults (File d) q = Returns l /\
    NoDup l /\
    (forall n, In n l <->
       exists p t1,
         In p (tbl_pokemon d) /\ In t1 (tbl_types d) /\
         type1_id p = Some (id t1) /\ p_name p = n /\
         (sql_lower (name t1) = Some (lower q) \/
          exists t2, In t2 (tbl_types d) /\ type2_id p = Some (id t2) /\
                     sql_lower (name t2) = Some (lower q))) /\
    ((forall p t1, In p (tbl_pokemon d) -> In t1 (tbl_types d) ->
        type1_id p <> Some (id t1)) -> l = []).
Proof.
  intros faults d q H0.
  unfold get_pokemon_by_type, listing_handlers, listing_body.
  cbn [connect_db]. rewrite H0.
  eexists. split; [reflexivity|split; [apply distinct_NoDup|split]].
  - intros n. apply In_pokemon_by_type.
  - intros Hno.
    destruct (select_pokemon_by_type q d) as [|n l] eqn:E; [reflexivity|].
    assert (Hin : In n (select_pokemon_by_type q d)) by (rewrite E; now left).
    apply In_pokemon_by_type in Hin as (p & t1 & Hp & Ht & K & _).
    exfalso. exact (Hno p t1 Hp Ht K).
Qed.

Lemma first_type_decides_the_type_listing_witness :
  no_faults 0 = None /\
  (forall p t1, In p (tbl_pokemon second_type_db) ->
     In t1 (tbl_types second_type_db) -> type1_id p <> Some (id t1)) /\
  get_pokemon_by_type no_faults (File second_type_db) #"Fire" = Returns [].
Proof.
  assert (H : forall p t1, In p (tbl_pokemon second_type_db) ->
                In t1 (tbl_types second_type_db) ->
                type1_id p <> Some (id t1)).
  { intros p t1 [<-|[]] _. discriminate. }
  split; [reflexivity|split; [exact H|]].
  destruct (@first_type_decides_the_type_listing no_faults second_type_db
              #"Fire" eq_refl) as (l & E & _ & _ & Hnil).
  rewrite E. f_equal. exact (Hnil H).
Defined.

(** X15.  After the main block has cleaned a dataset with unique ids on a
    storage that raises nothing, every listing endpoint returns only names
    of the validity set of the table it lists, and no two names equal up
    to case. *)
Theorem listings_after_cleaning_hold_valid_names : forall net conn q,
  ids_unique conn ->
  (exists l, get_pokemon_by_ability no_faults
               (main no_faults net (File conn)) q = Returns l /\
     (forall n, In n l ->
        in_valid_set n (original_valid_set (metas_of net pokemon)) = true) /\
     NoDup (map sql_lower l)) /\
  (exists l, get_pokemon_by_type no_faults
               (main no_faults net (File conn)) q = Returns l /\
     (forall n, In n l ->
        in_valid_set n (original_valid_set (metas_of net pokemon)) = true) /\
     NoDup (map sql_lower l)) /\
  (exists l, get_trainers_by_pokemon no_faults
               (main no_faults net (File conn)) q = Returns l /\
     (forall n, In n l ->
        in_valid_set n (original_valid_set (metas_of net trainers)) = true) /\
     NoDup (map sql_lower l)) /\
  (exists l, get_abilities_by_pokemon no_faults
               (main no_faults net (File conn)) q = Returns l /\
     (forall n, In n l ->
        in_valid_set n (original_valid_set (metas_of net abilities)) = true) /\
     NoDup (map sql_lower l)).
Proof.
  intros net conn q Hu.
  unfold main. cbn [connect_db]. fold (cleaned net conn).
  unfold get_pokemon_by_ability, get_pokemon_by_type, get_trainers_by_pokemon,
    get_abilities_by_pokemon, listing_handlers, listing_body.
  cbn [connect_db no_faults].
  split; [|split; [|split]]; (eexists; split; [reflexivity|]);
    apply (@cleaned_listing net conn Hu); try apply distinct_NoDup.
  - apply pokemon_by_ability_rows.
  - apply pokemon_by_type_rows.
  - apply trainers_by_pokemon_rows.
  - apply abilities_by_pokemon_rows.
Qed.

Lemma listings_after_cleaning_hold_valid_names_witness :
  ids_unique sample_db /\
  exists l, get_trainers_by_pokemon no_faults
              (main no_faults sample_net (File sample_db)) #"pikachu"
            = Returns l /\ NoDup (map sql_lower l).
Proof.
  assert (Hu : ids_unique sample_db)
    by (apply ids_uniqueb_sound; vm_compute; reflexivity).
  split; [exact Hu|].
  destruct (proj1 (proj2 (proj2
              (@listings_after_cleaning_hold_valid_names sample_net sample_db
                 #"pikachu" Hu)))) as (l & E & _ & Hnd).
  exists l. now split.
Defined.

(** ** The creation endpoint *)

(** X16.  [create_pokemon_record] never answers 404.  Every exception
    that leaves it is an [HTTPException] with status 500, and the file is
    then as it was: without a connection, on a storage error, and also
    when PokeAPI answers 404 or does not answer, where the exception
    raised in the handler of the request is caught by [except Exception]
    and raised again with status 500. *)
Theorem create_never_answers_404 :
  forall faults lastrowid dice pokeapi k q,
  (forall code det,
     sent (create_pokemon_record faults lastrowid dice pokeapi k q)
     = Raises code det ->
     code = 500 /\
     disk_after (create_pokemon_record faults lastrowid dice pokeapi k q) = k) /\
  (connect_db k = None ->
     sent (create_pokemon_record faults lastrowid dice pokeapi k q)
     = Raises 500 (CreationUnexpectedError (HTTPException 500 CouldNotConnect))) /\
  (forall d e, k = File d -> faults 0 = Some e ->
     sent (create_pokemon_record faults lastrowid dice pokeapi k q)
     = Raises 500 (CreationDatabaseError e)) /\
  (forall d, k = File d -> faults 0 = None ->
     pokeapi (lower q) = HttpError 404 ->
     sent (create_pokemon_record faults lastrowid dice pokeapi k q)
     = Raises 500 (CreationUnexpectedError
                     (HTTPException 404 (NotFoundOnPokeAPI q)))) /\
  (forall d, k = File d -> faults 0 = None ->
     pokeapi (lower q) = NoResponse ->
     sent (create_pokemon_record faults lastrowid dice pokeapi k q)
     = Raises 500 (CreationUnexpectedError UnboundLocalError)).
Proof.
  intros faults lastrowid dice pokeapi k q.
  split; [|split; [|split; [|split]]].
  - intros code det. apply create_raises_500.
  - unfold create_pokemon_record. now intros ->.
  - intros d e -> H0. now apply create_storage_error.
  - intros d -> H0 Hq.
    pose proof (@create_without_data faults lastrowid dice pokeapi d q H0) as H.
    now rewrite Hq in H.
  - intros d -> H0 Hq.
    pose proof (@create_without_data faults lastrowid dice pokeapi d q H0) as H.
    now rewrite Hq in H.
Qed.

(** X17.  Whenever [create_pokemon_record] returns, on any storage,
    PokeAPI gave the data of the pokemon, no row of the dataset is lost,
    and [tpa_ids] holds one id per ability of the pokemon, in their
    order: each is the id of an association row that links one trainer,
    who is a row of [trainers], the row of the pokemon, which has the
    title-cased name of PokeAPI up to case, and a row of [abilities]
    that has the title-cased name of the ability up to case. *)
Theorem create_links_every_ability :
  forall faults lastrowid dice pokeapi d q tpa_ids k',
  create_pokemon_record faults lastrowid dice pokeapi (File d) q
  = Answer (Returns tpa_ids) k' ->
  exists n ts abs d',
    pokeapi (lower q) = PokeData n ts abs /\ k' = File d' /\
    later d d' /\ length tpa_ids = length abs /\
    exists trainer pokemon_,
      In trainer (ids trainers d') /\
      named pokemon pokemon_ (to_title_case n) d' /\
      Forall2 (fun ab i =>
                 exists a, named abilities a (to_title_case ab) d' /\
                           linked i trainer pokemon_ a d')
              abs tpa_ids.
Proof.
  intros faults lastrowid dice pokeapi d q tpa_ids k' H.
  destruct (@create_returns _ _ _ _ _ _ _ _ H) as (n & ts & abs & Hq & -> & ->).
  exists n, ts, abs, (snd (create_d lastrowid dice n ts abs d)).
  destruct (create_spec lastrowid dice n ts abs d)
    as (L & (pr & Hpr & Hp & Hn & _) & _ & Htr & Ha & Hl).
  assert (F : Forall2 (fun ab i =>
                exists a,
                  named abilities a (to_title_case ab)
                        (snd (create_d lastrowid dice n ts abs d)) /\
                  linked i (the_trainer (settle lastrowid dice n ts abs d))
                         (the_pokemon (settle lastrowid dice n ts abs d)) a
                         (snd (create_d lastrowid dice n ts abs d)))
              abs (fst (create_d lastrowid dice n ts abs d))).
  { exact (@Forall2_through _ _ _ _ to_title_case
             (fun ab a => named abilities a ab
                            (snd (create_d lastrowid dice n ts abs d)))
             (fun a i => linked i (the_trainer (settle lastrowid dice n ts abs d))
                           (the_pokemon (settle lastrowid dice n ts abs d)) a
                           (snd (create_d lastrowid dice n ts abs d)))
             abs _ _ Ha Hl). }
  split; [exact Hq|split; [reflexivity|split; [exact L|split]]].
  - symmetry. exact (Forall2_length_eq F).
  - exists (the_trainer (settle lastrowid dice n ts abs d)),
           (the_pokemon (settle lastrowid dice n ts abs d)).
    split; [exact Htr|split; [|exact F]].
    exists (p_name pr). split; [|exact Hn].
    apply In_select_pokemon. now exists pr.
Qed.

Lemma create_links_every_ability_witness :
  create_pokemon_record no_faults next_rowid 0 sample_pokeapi (File served_db)
                        #"MR-MIME"
  = Answer (Returns [2; 3]%Z) (File mime_db) /\
  exists n ts abs d',
    sample_pokeapi (lower #"MR-MIME") = PokeData n ts abs /\
    File mime_db = File d' /\ later served_db d' /\
    length [2; 3]%Z = length abs.
Proof.
  assert (H : create_pokemon_record no_faults next_rowid 0 sample_pokeapi
                                    (File served_db) #"MR-MIME"
              = Answer (Returns [2; 3]%Z) (File mime_db))
    by (vm_compute; reflexivity).
  split; [exact H|].
  destruct (@create_links_every_ability no_faults next_rowid 0 sample_pokeapi
              served_db #"MR-MIME" [2; 3]%Z (File mime_db) H)
    as (n & ts & abs & d' & Hq & Hk & L & Hlen & _).
  exists n, ts, abs, d'.
  split; [exact Hq|split; [exact Hk|split; [exact L|exact Hlen]]].
Defined.

(** X18.  Whenever [create_pokemon_record] returns, the listings of the
    file it leaves show the record under the title-cased names of
    PokeAPI: the listing of the abilities of the pokemon holds, for each
    ability, a name equal to it up to case; when the pokemon has an
    ability, the listing of its trainers is not empty; and the name of
    the pokemon row, equal to the name of PokeAPI up to case, is listed
    under each of its abilities, under its first type and under its
    second type. *)
Theorem created_record_is_listed :
  forall faults lastrowid dice pokeapi d q tpa_ids k',
  create_pokemon_record faults lastrowid dice pokeapi (File d) q
  = Answer (Returns tpa_ids) k' ->
  exists n ts abs,
    pokeapi (lower q) = PokeData n ts abs /\
    (forall ab, In ab abs ->
       exists l stored,
         get_abilities_by_pokemon no_faults k' (to_title_case n) = Returns l /\
         In stored l /\
         sql_lower stored = Some (lower (to_title_case ab))) /\
    (abs <> [] ->
       exists l tn,
         get_trainers_by_pokemon no_faults k' (to_title_case n) = Returns l /\
         In tn l) /\
    exists pn,
      sql_lower pn = Some (lower (to_title_case n)) /\
      (forall ab, In ab abs ->
         exists l, get_pokemon_by_ability no_faults k' (to_title_case ab)
                   = Returns l /\ In pn l) /\
      (forall first rest, ts = first :: rest ->
         exists l, get_pokemon_by_type no_faults k' (to_title_case first)
                   = Returns l /\ In pn l) /\
      (forall first second rest, ts = first :: second :: rest ->
         exists l, get_pokemon_by_type no_faults k' (to_title_case second)
                   = Returns l /\ In pn l).
Proof.
  intros faults lastrowid dice pokeapi d q tpa_ids k' H.
  destruct (@create_returns _ _ _ _ _ _ _ _ H) as (n & ts & abs & Hq & -> & ->).
  exists n, ts, abs. split; [exact Hq|].
  destruct (create_spec lastrowid dice n ts abs d)
    as (L & (pr & Hpr & Hp & Hn & Ht1 & Ht2) & Hty & Htr & Ha & Hl).
  set (d' := snd (create_d lastrowid dice n ts abs d)) in *.
  set (s := settle lastrowid dice n ts abs d) in *.
  unfold get_abilities_by_pokemon, get_trainers_by_pokemon,
    get_pokemon_by_ability, get_pokemon_by_type, listing_handlers,
    listing_body.
  cbn [connect_db no_faults].
  assert (Hin : forall ab, In ab abs ->
            exists a i, named abilities a (to_title_case ab) d' /\
                        linked i (the_trainer s) (the_pokemon s) a d').
  { intros ab Hab.
    destruct (chain_In (to_title_case ab) Ha Hl (in_map _ _ _ Hab))
      as (a & i & H1 & H2 & _).
    now exists a, i. }
  split; [|split].
  - intros ab Hab. destruct (Hin ab Hab) as (a & i & H1 & H2).
    destruct (@linked_ability_listed d' (the_pokemon s) (the_trainer s)
                (to_title_case n) pr Hpr Hp Hn a (to_title_case ab) i H1 H2)
      as (stored & Hs & Hlow).
    eexists. exists stored. split; [reflexivity|now split].
  - intros Hne. destruct abs as [|ab abs']; [congruence|].
    destruct (Hin ab (or_introl eq_refl)) as (a & i & H1 & H2).
    destruct (@linked_trainer_listed d' (the_pokemon s) (the_trainer s)
                (to_title_case n) pr Hpr Hp Hn a i Htr H2)
      as (tn & Htn).
    eexists. exists tn. split; [reflexivity|exact Htn].
  - exists (p_name pr). split; [exact Hn|split; [|split]].
    + intros ab Hab. destruct (Hin ab Hab) as (a & i & H1 & H2).
      eexists. split; [reflexivity|].
      exact (@linked_pokemon_listed d' (the_pokemon s) (the_trainer s) pr Hpr Hp
               a (to_title_case ab) i H1 H2).
    + intros first rest ->. cbn [map] in Hty.
      destruct Hty as (i & Hi & Hni & _).
      eexists. split; [reflexivity|].
      apply (@first_type_listed d' pr Hpr i (to_title_case first));
        [congruence|exact Hni].
    + intros first second rest ->. cbn [map] in Hty.
      destruct Hty as (i & Hi & Hni & j & Hj & Hnj).
      eexists. split; [reflexivity|].
      apply (@second_type_listed d' pr Hpr i j (to_title_case first)
                (to_title_case second));
        [congruence|exact Hni|congruence|exact Hnj].
Qed.

Lemma created_record_is_listed_witness :
  create_pokemon_record no_faults next_rowid 0 sample_pokeapi (File served_db)
                        #"MR-MIME"
  = Answer (Returns [2; 3]%Z) (File mime_db) /\
  get_abilities_by_pokemon no_faults (File mime_db) #"Mr Mime"
  = Returns [Some #"Soundproof"; Some #"Filter"] /\
  get_abilities_by_pokemon no_faults (File mime_db) #"mr-mime" = Returns [] /\
  exists n ts abs,
    sample_pokeapi (lower #"MR-MIME") = PokeData n ts abs /\
    (abs <> [] ->
       exists l tn,
         get_trainers_by_pokemon no_faults (File mime_db) (to_title_case n)
         = Returns l /\ In tn l).
Proof.
  assert (H : create_pokemon_record no_faults next_rowid 0 sample_pokeapi
                                    (File served_db) #"MR-MIME"
              = Answer (Returns [2; 3]%Z) (File mime_db))
    by (vm_compute; reflexivity).
  split; [exact H|split; [vm_compute; reflexivity|split;
    [vm_compute; reflexivity|]]].
  destruct (@created_record_is_listed no_faults next_rowid 0 sample_pokeapi
              served_db #"MR-MIME" [2; 3]%Z (File mime_db) H)
    as (n & ts & abs & Hq & _ & Htr & _).
  exists n, ts, abs. now split.
Defined.

(** X19.  When the storage gives every inserted row an id that is new in
    its table, a request to [create_pokemon_record] on a dataset with
    unique ids, keys that reference rows and no two names equal up to
    case leaves such a dataset, on any storage and whatever PokeAPI
    answers, and loses no row. *)
Theorem create_keeps_the_dataset_sound :
  forall faults lastrowid dice pokeapi d q,
  fresh lastrowid -> sound d ->
  exists d',
    disk_after (create_pokemon_record faults lastrowid dice pokeapi (File d) q)
    = File d' /\
    ids_unique d' /\ ref_ok d' /\ (forall t, no_duplicates t d') /\
    later d d'.
Proof.
  intros faults lastrowid dice pokeapi d q Hfresh Hs.
  destruct (create_cases faults lastrowid dice pokeapi d q)
    as [(det & ->)|(n & ts & abs & _ & ->)]; cbn [disk_after].
  - exists d. destruct Hs as (H1 & H2 & H3).
    repeat (split; [first [reflexivity|assumption]|]). apply later_refl.
  - exists (snd (create_d lastrowid dice n ts abs d)).
    destruct (sound_create dice Hfresh n ts abs Hs) as (H1 & H2 & H3).
    repeat (split; [first [reflexivity|assumption]|]).
    apply (create_spec lastrowid dice n ts abs d).
Qed.

Lemma create_keeps_the_dataset_sound_witness :
  fresh next_rowid /\ sound served_db /\
  exists d',
    disk_after (create_pokemon_record no_faults next_rowid 0 sample_pokeapi
                                      (File served_db) #"MR-MIME")
    = File d' /\ ref_ok d'.
Proof.
  split; [exact next_rowid_fresh|split; [exact served_db_sound|]].
  destruct (@create_keeps_the_dataset_sound no_faults next_rowid 0
              sample_pokeapi served_db #"MR-MIME"
              next_rowid_fresh served_db_sound)
    as (d' & E & _ & Hr & _).
  exists d'. now split.
Defined.

(** X20.  When the storage gives every inserted row an id that is new in
    its table, a request that returned can be repeated: on the file it
    left, with the same draw and a storage that raises nothing, the same
    request returns the same ids and leaves the file as it is. *)
Theorem repeated_create_changes_nothing :
  forall faults lastrowid dice pokeapi d q tpa_ids k',
  fresh lastrowid ->
  create_pokemon_record faults lastrowid dice pokeapi (File d) q
  = Answer (Returns tpa_ids) k' ->
  create_pokemon_record no_faults lastrowid dice pokeapi k' q
  = Answer (Returns tpa_ids) k'.
Proof.
  intros faults lastrowid dice pokeapi d q tpa_ids k' Hfresh H.
  destruct (@create_returns _ _ _ _ _ _ _ _ H) as (n & ts & abs & Hq & -> & ->).
  rewrite (create_follows lastrowid dice pokeapi _ q Hq).
  now rewrite (create_again dice Hfresh n ts abs d).
Qed.

Lemma repeated_create_changes_nothing_witness :
  fresh next_rowid /\
  create_pokemon_record no_faults next_rowid 0 sample_pokeapi (File served_db)
                        #"MR-MIME"
  = Answer (Returns [2; 3]%Z) (File mime_db) /\
  create_pokemon_record no_faults next_rowid 0 sample_pokeapi (File mime_db)
                        #"MR-MIME"
  = Answer (Returns [2; 3]%Z) (File mime_db).
Proof.
  assert (H : create_pokemon_record no_faults next_rowid 0 sample_pokeapi
                                    (File served_db) #"MR-MIME"
              = Answer (Returns [2; 3]%Z) (File mime_db))
    by (vm_compute; reflexivity).
  split; [exact next_rowid_fresh|split; [exact H|]].
  exact (@repeated_create_changes_nothing no_faults next_rowid 0 sample_pokeapi
           served_db #"MR-MIME" [2; 3]%Z (File mime_db) next_rowid_fresh H).
Defined.
